(** * AL_USDMaya: the transform-stack reconciliation engine

    A shallow embedding of [AL::usdmaya::nodes::TransformationMatrix]
    (src/lib/AL_USDMaya/AL/usdmaya/nodes/TransformationMatrix.cpp, the
    current revision of the class) together with the properties of the
    specification that concern it.

    Conventions of the embedding:
    - a finite C++ [double] is the rational it denotes ([Q]); the
      comparison operators of the source become [Qeq_bool]; the result of
      an arithmetic operation on doubles is its exact result rounded to a
      double, and the rounding is a function of the environment, as are
      the narrowings to [float], [half] and [int32_t];
    - the USD prim is an explicit store (attributes by name, the
      xformOpOrder, the reset flag); an xform op is a handle into it, so
      the aliasing between [m_xformops] and the prim is the one of the
      source;
    - [m_flags] is the 32-bit mask of the source, handled with
      [Z.lor]/[Z.land]/[Z.lnot];
    - a [bool f(T& result, ...)] of the source returns [option T]:
      [None] is [false] with [result] untouched;
    - the Maya base class [MPxTransformationMatrix], Pixar's
      [UsdMayaXformStack] matcher and the trigonometric conversions are
      collaborators: the record [Env] bundles them and the engine is
      written over one [env : Env]; [Run.env] is a concrete one on
      which the engine computes. *)

From Stdlib Require Import ZArith QArith Bool List String Ascii Lia Sorted.
From stdpp Require Import base gmap strings list.
Import ListNotations.

Local Open Scope Q_scope.

(** ** Host-side value types (Maya) *)

Record MVector := mkMVector { vx : Q; vy : Q; vz : Q }.

(** [MPoint] carries a homogeneous [w] that the engine never leaves at a
    value other than 1; the three Cartesian coordinates are kept. *)
Definition MPoint := MVector.

Inductive RotationOrder := kXYZ | kYZX | kZXY | kXZY | kYXZ | kZYX.

Record MEulerRotation := mkMEuler { ex : Q; ey : Q; ez : Q; order : RotationOrder }.

Record MQuaternion := mkMQuat { qx : Q; qy : Q; qz : Q; qw : Q }.

Inductive MStatus := kSuccess | kFailure.

Inductive Space := kInvalid | kTransform | kPreTransform | kPostTransform | kWorld | kObject.

Definition status_ok (st : MStatus) : bool :=
  match st with kSuccess => true | kFailure => false end.

(** [operator==] of [MVector]/[MPoint]. *)
Definition veqb (a b : MVector) : bool :=
  Qeq_bool (vx a) (vx b) && Qeq_bool (vy a) (vy b) && Qeq_bool (vz a) (vz b).

(** Numeric equality of two vectors. *)
Definition vequiv (a b : MVector) : Prop :=
  vx a == vx b /\ vy a == vy b /\ vz a == vz b.

Definition zeroVec : MVector := mkMVector 0 0 0.
Definition oneVec : MVector := mkMVector 1 1 1.
Definition identityQuat : MQuaternion := mkMQuat 0 0 0 1.
Definition identityEuler : MEulerRotation := mkMEuler 0 0 0 kXYZ.

Definition rotation_order_eqb (a b : RotationOrder) : bool :=
  match a, b with
  | kXYZ, kXYZ | kYZX, kYZX | kZXY, kZXY | kXZY, kXZY | kYXZ, kYXZ | kZYX, kZYX => true
  | _, _ => false
  end.

Definition euler_eqb (a b : MEulerRotation) : bool :=
  Qeq_bool (ex a) (ex b) && Qeq_bool (ey a) (ey b) && Qeq_bool (ez a) (ez b)
  && rotation_order_eqb (order a) (order b).

Definition quat_eqb (a b : MQuaternion) : bool :=
  Qeq_bool (qx a) (qx b) && Qeq_bool (qy a) (qy b)
  && Qeq_bool (qz a) (qz b) && Qeq_bool (qw a) (qw b).

(** A 4x4 matrix, sixteen doubles in row-major order: the layout that the
    source relies on when it reinterprets an [MMatrix] as a [GfMatrix4d]. *)
Definition GfMatrix4d := list Q.

Definition mat_at (m : GfMatrix4d) (i j : nat) : Q := nth (4 * i + j) m 0.

Fixpoint mat_eqb (a b : GfMatrix4d) : bool :=
  match a, b with
  | [], [] => true
  | x :: a', y :: b' => Qeq_bool x y && mat_eqb a' b'
  | _, _ => false
  end.

(** ** The scene description (USD) at the interface the engine consumes *)

Inductive UsdTimeCode := Default | TimeCode (t : Q).

Definition timecode_eqb (a b : UsdTimeCode) : bool :=
  match a, b with
  | Default, Default => true
  | TimeCode x, TimeCode y => Qeq_bool x y
  | _, _ => false
  end.

(** Storage types, as [AL::usdmaya::utils::getAttributeType] reports them;
    every type the codec has no case for is [kUnknown]. *)
Inductive UsdDataType :=
  | kVec3d | kVec3f | kVec3h | kVec3i
  | kDouble | kFloat | kHalf | kInt
  | kMatrix4d | kUnknown.

Inductive XformOpType :=
  | TypeInvalid | TypeTranslate | TypeScale
  | TypeRotateX | TypeRotateY | TypeRotateZ
  | TypeRotateXYZ | TypeRotateXZY | TypeRotateYXZ
  | TypeRotateYZX | TypeRotateZXY | TypeRotateZYX
  | TypeOrient | TypeTransform.

Inductive Precision := PrecisionDouble | PrecisionFloat | PrecisionHalf.

(** A stored value: three components, one component or a matrix.  The
    storage type of the attribute says how the components were narrowed. *)
Inductive VtValue :=
  | VVec (v : MVector)
  | VScalar (d : Q)
  | VMatrix (m : GfMatrix4d).

Definition value_eqb (a b : VtValue) : bool :=
  match a, b with
  | VVec x, VVec y => veqb x y
  | VScalar x, VScalar y => Qeq_bool x y
  | VMatrix x, VMatrix y => mat_eqb x y
  | _, _ => false
  end.

Record UsdAttribute := mkAttr {
  attr_type : UsdDataType;
  attr_default : option VtValue;
  attr_samples : list (Q * VtValue)
}.

(** An xform op: the handle [UsdGeomXformOp] (type, name suffix, whether it
    is the inverse of its attribute). *)
Record UsdGeomXformOp := mkOp {
  op_type : XformOpType;
  op_suffix : string;
  op_inverse : bool
}.

(** The prim: its attributes, its xformOpOrder and whether the order
    resets the inherited stack.  [value_edits] is a ghost counter of the
    value stores performed on the prim: it tells a store that was skipped
    from the store of an equal value. *)
Record UsdPrim := mkPrim {
  prim_attrs : gmap string UsdAttribute;
  xformOpOrder : list UsdGeomXformOp;
  resetsXformStack : bool;
  value_edits : nat
}.

Definition xformOpType_eqb (a b : XformOpType) : bool :=
  match a, b with
  | TypeInvalid, TypeInvalid | TypeTranslate, TypeTranslate | TypeScale, TypeScale
  | TypeRotateX, TypeRotateX | TypeRotateY, TypeRotateY | TypeRotateZ, TypeRotateZ
  | TypeRotateXYZ, TypeRotateXYZ | TypeRotateXZY, TypeRotateXZY
  | TypeRotateYXZ, TypeRotateYXZ | TypeRotateYZX, TypeRotateYZX
  | TypeRotateZXY, TypeRotateZXY | TypeRotateZYX, TypeRotateZYX
  | TypeOrient, TypeOrient | TypeTransform, TypeTransform => true
  | _, _ => false
  end.

Definition op_eqb (a b : UsdGeomXformOp) : bool :=
  xformOpType_eqb (op_type a) (op_type b)
  && String.eqb (op_suffix a) (op_suffix b)
  && Bool.eqb (op_inverse a) (op_inverse b).

Module Usd.

Definition typeToken (t : XformOpType) : string :=
  match t with
  | TypeInvalid => EmptyString | TypeTranslate => "translate" | TypeScale => "scale"
  | TypeRotateX => "rotateX" | TypeRotateY => "rotateY" | TypeRotateZ => "rotateZ"
  | TypeRotateXYZ => "rotateXYZ" | TypeRotateXZY => "rotateXZY"
  | TypeRotateYXZ => "rotateYXZ" | TypeRotateYZX => "rotateYZX"
  | TypeRotateZXY => "rotateZXY" | TypeRotateZYX => "rotateZYX"
  | TypeOrient => "orient" | TypeTransform => "transform"
  end%string.

(** Name of the attribute behind an op: [xformOp:<type>[:<suffix>]].  An
    op and its inverse share the attribute. *)
Definition attrName (t : XformOpType) (suffix : string) : string :=
  ("xformOp:" +:+ typeToken t +:+
     (if String.eqb suffix EmptyString then EmptyString else ":" +:+ suffix))%string.

Definition opAttrName (op : UsdGeomXformOp) : string :=
  attrName (op_type op) (op_suffix op).

Definition GetAttribute (p : UsdPrim) (op : UsdGeomXformOp) : option UsdAttribute :=
  prim_attrs p !! opAttrName op.

Definition GetTypeName (p : UsdPrim) (op : UsdGeomXformOp) : UsdDataType :=
  match GetAttribute p op with
  | Some a => attr_type a
  | None => kUnknown
  end.

Definition GetNumTimeSamples (p : UsdPrim) (op : UsdGeomXformOp) : nat :=
  match GetAttribute p op with
  | Some a => length (attr_samples a)
  | None => O
  end.

Fixpoint sample_at (l : list (Q * VtValue)) (t : Q) : option VtValue :=
  match l with
  | [] => None
  | (k, v) :: l' => if Qeq_bool k t then Some v else sample_at l' t
  end.

(** Samples are kept ordered by time; a sample at an existing time is
    replaced. *)
Fixpoint set_sample (l : list (Q * VtValue)) (t : Q) (v : VtValue) : list (Q * VtValue) :=
  match l with
  | [] => [(t, v)]
  | (k, w) :: l' =>
      if Qeq_bool k t then (k, v) :: l'
      else if Qle_bool t k then (t, v) :: (k, w) :: l'
      else (k, w) :: set_sample l' t v
  end.

Section Resolve.
  (** Value resolution between two samples is the stage's business. *)
Variable interpolate : list (Q * VtValue) -> Q -> option VtValue.

Definition attr_get (a : UsdAttribute) (tc : UsdTimeCode) : option VtValue :=
    match tc with
    | Default => attr_default a
    | TimeCode t =>
        match attr_samples a with
        | [] => attr_default a
        | l => match sample_at l t with
               | Some v => Some v
               | None => interpolate l t
               end
        end
    end.

  (** [op.Get(&value, time)]. *)
Definition Get (p : UsdPrim) (op : UsdGeomXformOp) (tc : UsdTimeCode) : option VtValue :=
    match GetAttribute p op with
    | Some a => attr_get a tc
    | None => None
    end.
End Resolve.

Definition attr_set (a : UsdAttribute) (tc : UsdTimeCode) (v : VtValue) : UsdAttribute :=
  match tc with
  | Default => mkAttr (attr_type a) (Some v) (attr_samples a)
  | TimeCode t => mkAttr (attr_type a) (attr_default a) (set_sample (attr_samples a) t v)
  end.

(** [op.Set(value, time)] for a value of the type of the attribute:
    authors the value.  [UsdGeomXformOp::Set] refuses an inverse op (it
    reports the error and returns [false] without a store), and so does
    an op without attribute. *)
Definition Set_ (p : UsdPrim) (op : UsdGeomXformOp) (v : VtValue) (tc : UsdTimeCode)
  : bool * UsdPrim :=
  if op_inverse op then (false, p)
  else
    match GetAttribute p op with
    | Some a =>
        (true, mkPrim (<[opAttrName op := attr_set a tc v]> (prim_attrs p))
                      (xformOpOrder p) (resetsXformStack p) (S (value_edits p)))
    | None => (false, p)
    end.

Definition dataType_eqb (a b : UsdDataType) : bool :=
  match a, b with
  | kVec3d, kVec3d | kVec3f, kVec3f | kVec3h, kVec3h | kVec3i, kVec3i
  | kDouble, kDouble | kFloat, kFloat | kHalf, kHalf | kInt, kInt
  | kMatrix4d, kMatrix4d | kUnknown, kUnknown => true
  | _, _ => false
  end.

(** [op.Set(value, time)] for a value of the C++ type that [ty] names:
    a value of another type than the one of the attribute is refused. *)
Definition SetAs (ty : UsdDataType) (p : UsdPrim) (op : UsdGeomXformOp) (v : VtValue)
    (tc : UsdTimeCode) : bool * UsdPrim :=
  if dataType_eqb (GetTypeName p op) ty then Set_ p op v tc else (false, p).

(** The value type of an op of a given type and precision; a transform op
    is a matrix4d at every precision, an orient op has a quaternion type,
    which the codec does not know. *)
Definition valueTypeOf (t : XformOpType) (pr : Precision) : UsdDataType :=
  match t with
  | TypeTranslate | TypeScale
  | TypeRotateXYZ | TypeRotateXZY | TypeRotateYXZ
  | TypeRotateYZX | TypeRotateZXY | TypeRotateZYX =>
      match pr with
      | PrecisionDouble => kVec3d | PrecisionFloat => kVec3f | PrecisionHalf => kVec3h
      end
  | TypeRotateX | TypeRotateY | TypeRotateZ =>
      match pr with
      | PrecisionDouble => kDouble | PrecisionFloat => kFloat | PrecisionHalf => kHalf
      end
  | TypeTransform => kMatrix4d
  | TypeOrient | TypeInvalid => kUnknown
  end.

Definition in_order (op : UsdGeomXformOp) (l : list UsdGeomXformOp) : bool :=
  existsb (op_eqb op) l.

(** [UsdGeomXformable::AddXformOp]: refused when the op is already in the
    xformOpOrder or when the type is invalid; otherwise the op is appended
    to the xformOpOrder.  The attribute of the op is created when the prim
    does not have it; an attribute that exists is used as it is, also when
    its value type is not the one of the precision asked for (the library
    reports that and proceeds). *)
Definition AddXformOp (p : UsdPrim) (t : XformOpType) (pr : Precision)
    (suffix : string) (isInverse : bool) : option (UsdGeomXformOp * UsdPrim) :=
  let op := mkOp t suffix isInverse in
  if in_order op (xformOpOrder p) then None
  else if xformOpType_eqb t TypeInvalid then None
  else
    match prim_attrs p !! attrName t suffix with
    | Some a =>
        Some (op, mkPrim (prim_attrs p) (xformOpOrder p ++ [op])
                    (resetsXformStack p) (value_edits p))
    | None =>
        Some (op, mkPrim (<[attrName t suffix := mkAttr (valueTypeOf t pr) None []]> (prim_attrs p))
                    (xformOpOrder p ++ [op]) (resetsXformStack p) (value_edits p))
    end.

Definition GetOrderedXformOps (p : UsdPrim) : list UsdGeomXformOp * bool :=
  (xformOpOrder p, resetsXformStack p).

Definition SetXformOpOrder (p : UsdPrim) (ops : list UsdGeomXformOp) (resets : bool) : UsdPrim :=
  mkPrim (prim_attrs p) ops resets (value_edits p).

End Usd.

(** ** Operation classifications and the canonical stacks *)

Record UsdMayaXformOpClassification := mkClass {
  GetName : string;
  GetOpType : XformOpType;
  IsInvertedTwin : bool
}.

Record UsdMayaXformStack := mkStack {
  GetOps : list UsdMayaXformOpClassification;
  GetInversionTwins : list (N * N)
}.

(** [UsdMayaXformStack::NO_INDEX], the largest [size_t]. *)
Definition NO_INDEX : N := 18446744073709551615%N.

Module Tokens.
Definition translate : string := "translate".
Definition rotatePivotTranslate : string := "rotatePivotTranslate".
Definition rotatePivot : string := "rotatePivot".
Definition rotate : string := "rotate".
Definition rotateAxis : string := "rotateAxis".
Definition scalePivotTranslate : string := "scalePivotTranslate".
Definition scalePivot : string := "scalePivot".
Definition shear : string := "shear".
Definition scale : string := "scale".
Definition pivot : string := "pivot".
Definition transform : string := "transform".
End Tokens.

(** [TransformationMatrix::MayaSinglePivotStack]. *)
Definition MayaSinglePivotStack : UsdMayaXformStack :=
  mkStack
    [ mkClass Tokens.translate TypeTranslate false;
      mkClass Tokens.rotatePivotTranslate TypeTranslate false;
      mkClass Tokens.pivot TypeTranslate false;
      mkClass Tokens.rotate TypeRotateXYZ false;
      mkClass Tokens.rotateAxis TypeRotateXYZ false;
      mkClass Tokens.scalePivotTranslate TypeTranslate false;
      mkClass Tokens.shear TypeTransform false;
      mkClass Tokens.scale TypeScale false;
      mkClass Tokens.pivot TypeTranslate true ]
    [ (2, 8)%N ].

(** The two stacks that Pixar's usdMaya library provides; their tables are
    the ones of [UsdMayaXformStack::MayaStack] and [::MatrixStack]. *)
Definition MayaStack : UsdMayaXformStack :=
  mkStack
    [ mkClass Tokens.translate TypeTranslate false;
      mkClass Tokens.rotatePivotTranslate TypeTranslate false;
      mkClass Tokens.rotatePivot TypeTranslate false;
      mkClass Tokens.rotate TypeRotateXYZ false;
      mkClass Tokens.rotateAxis TypeRotateXYZ false;
      mkClass Tokens.rotatePivot TypeTranslate true;
      mkClass Tokens.scalePivotTranslate TypeTranslate false;
      mkClass Tokens.scalePivot TypeTranslate false;
      mkClass Tokens.shear TypeTransform false;
      mkClass Tokens.scale TypeScale false;
      mkClass Tokens.scalePivot TypeTranslate true ]
    [ (2, 5)%N; (7, 10)%N ].

Definition MatrixStack : UsdMayaXformStack :=
  mkStack [ mkClass Tokens.transform TypeTransform false ] [].

(** [stack[i]]; the source asserts that [i] is an index of the stack. *)
Definition stack_nth (st : UsdMayaXformStack) (i : N) : option UsdMayaXformOpClassification :=
  if (i <? N.of_nat (length (GetOps st)))%N then nth_error (GetOps st) (N.to_nat i) else None.

Fixpoint find_index_from (name : string) (inverted : bool)
    (l : list UsdMayaXformOpClassification) (i : N) : N :=
  match l with
  | [] => NO_INDEX
  | c :: l' =>
      if String.eqb (GetName c) name && Bool.eqb (IsInvertedTwin c) inverted then i
      else find_index_from name inverted l' (i + 1)%N
  end.

(** [UsdMayaXformStack::FindOpIndex(name, isInvertedTwin)]. *)
Definition FindOpIndex (st : UsdMayaXformStack) (name : string) (inverted : bool) : N :=
  find_index_from name inverted (GetOps st) 0%N.

(** [UsdMayaXformStack::FindOpIndexPair(name)]: the index of the op of that
    name and, when the op has an inverted twin, the index of the twin. *)
Definition FindOpIndexPair (st : UsdMayaXformStack) (name : string) : N * N :=
  (FindOpIndex st name false, FindOpIndex st name true).

(** ** [TransformationMatrix::Flags] *)

Local Open Scope Z_scope.

(** Modelled from the spec: the header that declares the [Flags] bits and
    the masks over them is not part of the sources; one bit per
    per-component "animated" and "present in the stack" flag, one per
    matched schema and one per global switch, as section 3 of the
    specification lists them. *)
Definition kAnimatedScale : Z := Z.shiftl 1 0.
Definition kAnimatedRotation : Z := Z.shiftl 1 1.
Definition kAnimatedTranslation : Z := Z.shiftl 1 2.
Definition kAnimatedMatrix : Z := Z.shiftl 1 3.
Definition kAnimatedShear : Z := Z.shiftl 1 4.
Definition kFromMatrix : Z := Z.shiftl 1 8.
Definition kFromMayaSchema : Z := Z.shiftl 1 9.
Definition kSinglePivotSchema : Z := Z.shiftl 1 10.
Definition kPrimHasScale : Z := Z.shiftl 1 16.
Definition kPrimHasRotation : Z := Z.shiftl 1 17.
Definition kPrimHasTranslation : Z := Z.shiftl 1 18.
Definition kPrimHasShear : Z := Z.shiftl 1 19.
Definition kPrimHasScalePivot : Z := Z.shiftl 1 20.
Definition kPrimHasScalePivotTranslate : Z := Z.shiftl 1 21.
Definition kPrimHasRotatePivot : Z := Z.shiftl 1 22.
Definition kPrimHasRotatePivotTranslate : Z := Z.shiftl 1 23.
Definition kPrimHasRotateAxes : Z := Z.shiftl 1 24.
Definition kPrimHasPivot : Z := Z.shiftl 1 25.
Definition kPrimHasTransform : Z := Z.shiftl 1 26.
Definition kPushToPrimEnabled : Z := Z.shiftl 1 28.
Definition kInheritsTransform : Z := Z.shiftl 1 29.
Definition kPushPrimToMatrix : Z := Z.shiftl 1 30.
Definition kReadAnimatedValues : Z := Z.shiftl 1 31.

Definition kAnyKnownSchema : Z :=
  Z.lor kFromMatrix (Z.lor kFromMayaSchema kSinglePivotSchema).

Definition kAnimationMask : Z :=
  Z.lor kAnimatedShear
    (Z.lor kAnimatedScale
       (Z.lor kAnimatedRotation (Z.lor kAnimatedTranslation kAnimatedMatrix))).

Definition kPreservationMask : Z := Z.lor kPushToPrimEnabled kReadAnimatedValues.

(** [(m_flags & mask) != 0] *)
Definition has_flag (flags mask : Z) : bool := negb (Z.land flags mask =? 0).

(** [m_flags |= mask] and [m_flags &= ~mask] *)
Definition set_flag (flags mask : Z) : Z := Z.lor flags mask.
Definition clear_flag (flags mask : Z) : Z := Z.land flags (Z.lnot mask).

Local Close Scope Z_scope.

(** ** The state of one [TransformationMatrix] *)

(** One slot per transform component; the class has three such groups: the
    values of the base class ([scaleValue], ...), the tweaks
    ([m_scaleTweak], ...) and the values last exchanged with the prim
    ([m_scaleFromUsd], ...). *)
Record Components := mkComponents {
  c_scale : MVector;
  c_rotation : MEulerRotation;
  c_translation : MVector;
  c_shear : MVector;
  c_scalePivot : MPoint;
  c_scalePivotTranslation : MVector;
  c_rotatePivot : MPoint;
  c_rotatePivotTranslation : MVector;
  c_rotateOrientation : MQuaternion
}.

Definition with_scale (v : MVector) (c : Components) : Components :=
  mkComponents v (c_rotation c) (c_translation c) (c_shear c) (c_scalePivot c)
    (c_scalePivotTranslation c) (c_rotatePivot c) (c_rotatePivotTranslation c)
    (c_rotateOrientation c).

Definition with_rotation (v : MEulerRotation) (c : Components) : Components :=
  mkComponents (c_scale c) v (c_translation c) (c_shear c) (c_scalePivot c)
    (c_scalePivotTranslation c) (c_rotatePivot c) (c_rotatePivotTranslation c)
    (c_rotateOrientation c).

Definition with_translation (v : MVector) (c : Components) : Components :=
  mkComponents (c_scale c) (c_rotation c) v (c_shear c) (c_scalePivot c)
    (c_scalePivotTranslation c) (c_rotatePivot c) (c_rotatePivotTranslation c)
    (c_rotateOrientation c).

Definition with_shear (v : MVector) (c : Components) : Components :=
  mkComponents (c_scale c) (c_rotation c) (c_translation c) v (c_scalePivot c)
    (c_scalePivotTranslation c) (c_rotatePivot c) (c_rotatePivotTranslation c)
    (c_rotateOrientation c).

Definition with_scalePivot (v : MPoint) (c : Components) : Components :=
  mkComponents (c_scale c) (c_rotation c) (c_translation c) (c_shear c) v
    (c_scalePivotTranslation c) (c_rotatePivot c) (c_rotatePivotTranslation c)
    (c_rotateOrientation c).

Definition with_scalePivotTranslation (v : MVector) (c : Components) : Components :=
  mkComponents (c_scale c) (c_rotation c) (c_translation c) (c_shear c) (c_scalePivot c)
    v (c_rotatePivot c) (c_rotatePivotTranslation c) (c_rotateOrientation c).

Definition with_rotatePivot (v : MPoint) (c : Components) : Components :=
  mkComponents (c_scale c) (c_rotation c) (c_translation c) (c_shear c) (c_scalePivot c)
    (c_scalePivotTranslation c) v (c_rotatePivotTranslation c) (c_rotateOrientation c).

Definition with_rotatePivotTranslation (v : MVector) (c : Components) : Components :=
  mkComponents (c_scale c) (c_rotation c) (c_translation c) (c_shear c) (c_scalePivot c)
    (c_scalePivotTranslation c) (c_rotatePivot c) v (c_rotateOrientation c).

Definition with_rotateOrientation (v : MQuaternion) (c : Components) : Components :=
  mkComponents (c_scale c) (c_rotation c) (c_translation c) (c_shear c) (c_scalePivot c)
    (c_scalePivotTranslation c) (c_rotatePivot c) (c_rotatePivotTranslation c) v.

Record TransformationMatrix := mkTM {
  values : Components;       (* MPxTransformationMatrix::scaleValue, ... *)
  tweaks : Components;       (* m_scaleTweak, ... *)
  fromUsd : Components;      (* m_scaleFromUsd, ... *)
  m_prim : option UsdPrim;   (* m_prim and m_xform: one prim, [None] when invalid *)
  m_time : UsdTimeCode;
  m_xformops : list UsdGeomXformOp;
  m_orderedOps : list UsdMayaXformOpClassification;
  m_orderedOpMayaIndices : list N;
  m_localTranslateOffset : MVector;
  m_flags : Z;
  (* lock state of the translate, rotate and scale plugs of the transform node *)
  translateLocked : bool;
  rotateLocked : bool;
  scaleLocked : bool
}.

Definition set_values (c : Components) (s : TransformationMatrix) : TransformationMatrix :=
  mkTM c (tweaks s) (fromUsd s) (m_prim s) (m_time s) (m_xformops s) (m_orderedOps s)
    (m_orderedOpMayaIndices s) (m_localTranslateOffset s) (m_flags s)
    (translateLocked s) (rotateLocked s) (scaleLocked s).

Definition set_tweaks (c : Components) (s : TransformationMatrix) : TransformationMatrix :=
  mkTM (values s) c (fromUsd s) (m_prim s) (m_time s) (m_xformops s) (m_orderedOps s)
    (m_orderedOpMayaIndices s) (m_localTranslateOffset s) (m_flags s)
    (translateLocked s) (rotateLocked s) (scaleLocked s).

Definition set_fromUsd (c : Components) (s : TransformationMatrix) : TransformationMatrix :=
  mkTM (values s) (tweaks s) c (m_prim s) (m_time s) (m_xformops s) (m_orderedOps s)
    (m_orderedOpMayaIndices s) (m_localTranslateOffset s) (m_flags s)
    (translateLocked s) (rotateLocked s) (scaleLocked s).

Definition set_prim (p : option UsdPrim) (s : TransformationMatrix) : TransformationMatrix :=
  mkTM (values s) (tweaks s) (fromUsd s) p (m_time s) (m_xformops s) (m_orderedOps s)
    (m_orderedOpMayaIndices s) (m_localTranslateOffset s) (m_flags s)
    (translateLocked s) (rotateLocked s) (scaleLocked s).

Definition set_time (t : UsdTimeCode) (s : TransformationMatrix) : TransformationMatrix :=
  mkTM (values s) (tweaks s) (fromUsd s) (m_prim s) t (m_xformops s) (m_orderedOps s)
    (m_orderedOpMayaIndices s) (m_localTranslateOffset s) (m_flags s)
    (translateLocked s) (rotateLocked s) (scaleLocked s).

Definition set_xformops (l : list UsdGeomXformOp) (s : TransformationMatrix) : TransformationMatrix :=
  mkTM (values s) (tweaks s) (fromUsd s) (m_prim s) (m_time s) l (m_orderedOps s)
    (m_orderedOpMayaIndices s) (m_localTranslateOffset s) (m_flags s)
    (translateLocked s) (rotateLocked s) (scaleLocked s).

Definition set_orderedOps (l : list UsdMayaXformOpClassification) (s : TransformationMatrix)
  : TransformationMatrix :=
  mkTM (values s) (tweaks s) (fromUsd s) (m_prim s) (m_time s) (m_xformops s) l
    (m_orderedOpMayaIndices s) (m_localTranslateOffset s) (m_flags s)
    (translateLocked s) (rotateLocked s) (scaleLocked s).

Definition set_indices (l : list N) (s : TransformationMatrix) : TransformationMatrix :=
  mkTM (values s) (tweaks s) (fromUsd s) (m_prim s) (m_time s) (m_xformops s) (m_orderedOps s)
    l (m_localTranslateOffset s) (m_flags s)
    (translateLocked s) (rotateLocked s) (scaleLocked s).

Definition set_flags (f : Z) (s : TransformationMatrix) : TransformationMatrix :=
  mkTM (values s) (tweaks s) (fromUsd s) (m_prim s) (m_time s) (m_xformops s) (m_orderedOps s)
    (m_orderedOpMayaIndices s) (m_localTranslateOffset s) f
    (translateLocked s) (rotateLocked s) (scaleLocked s).

Definition set_locks (t r sc : bool) (s : TransformationMatrix) : TransformationMatrix :=
  mkTM (values s) (tweaks s) (fromUsd s) (m_prim s) (m_time s) (m_xformops s) (m_orderedOps s)
    (m_orderedOpMayaIndices s) (m_localTranslateOffset s) (m_flags s) t r sc.

(** Modelled from the spec: the inline queries of the header, which is not
    part of the sources; each tests its bit of [m_flags]
    ("per-component boolean flags (present-in-source-stack, animated ...)
    and global flags"). *)
Definition hasAnimation (s : TransformationMatrix) : bool := has_flag (m_flags s) kAnimationMask.
Definition hasAnimatedScale (s : TransformationMatrix) : bool := has_flag (m_flags s) kAnimatedScale.
Definition hasAnimatedRotation (s : TransformationMatrix) : bool := has_flag (m_flags s) kAnimatedRotation.
Definition hasAnimatedTranslation (s : TransformationMatrix) : bool := has_flag (m_flags s) kAnimatedTranslation.
Definition hasAnimatedMatrix (s : TransformationMatrix) : bool := has_flag (m_flags s) kAnimatedMatrix.
Definition hasAnimatedShear (s : TransformationMatrix) : bool := has_flag (m_flags s) kAnimatedShear.
Definition primHasScale (s : TransformationMatrix) : bool := has_flag (m_flags s) kPrimHasScale.
Definition primHasRotation (s : TransformationMatrix) : bool := has_flag (m_flags s) kPrimHasRotation.
Definition primHasTranslation (s : TransformationMatrix) : bool := has_flag (m_flags s) kPrimHasTranslation.
Definition primHasShear (s : TransformationMatrix) : bool := has_flag (m_flags s) kPrimHasShear.
Definition primHasScalePivot (s : TransformationMatrix) : bool := has_flag (m_flags s) kPrimHasScalePivot.
Definition primHasScalePivotTranslate (s : TransformationMatrix) : bool :=
  has_flag (m_flags s) kPrimHasScalePivotTranslate.
Definition primHasRotatePivot (s : TransformationMatrix) : bool := has_flag (m_flags s) kPrimHasRotatePivot.
Definition primHasRotatePivotTranslate (s : TransformationMatrix) : bool :=
  has_flag (m_flags s) kPrimHasRotatePivotTranslate.
Definition primHasRotateAxes (s : TransformationMatrix) : bool := has_flag (m_flags s) kPrimHasRotateAxes.
Definition primHasPivot (s : TransformationMatrix) : bool := has_flag (m_flags s) kPrimHasPivot.
Definition primHasTransform (s : TransformationMatrix) : bool := has_flag (m_flags s) kPrimHasTransform.
Definition pushPrimToMatrix (s : TransformationMatrix) : bool := has_flag (m_flags s) kPushPrimToMatrix.
Definition readAnimatedValues (s : TransformationMatrix) : bool := has_flag (m_flags s) kReadAnimatedValues.
Definition pushToPrimEnabled (s : TransformationMatrix) : bool := has_flag (m_flags s) kPushToPrimEnabled.

Definition prim_valid (s : TransformationMatrix) : bool :=
  match m_prim s with Some _ => true | None => false end.

(** Modelled from the spec: pushing needs the switch and a bound prim. *)
Definition pushToPrimAvailable (s : TransformationMatrix) : bool :=
  pushToPrimEnabled s && prim_valid s.

(** Modelled from the spec: the time code the codec is called with is the
    current time while animated values are read, the default time
    otherwise. *)
Definition getTimeCode (s : TransformationMatrix) : UsdTimeCode :=
  if readAnimatedValues s then m_time s else Default.

(** Modelled from the spec: the lock-state queries per component
    ("lock-state queries per component (translate/rotate/scale locked
    flags)" of the host collaborator). *)
Definition isTranslateLocked (s : TransformationMatrix) : bool := translateLocked s.
Definition isRotateLocked (s : TransformationMatrix) : bool := rotateLocked s.
Definition isScaleLocked (s : TransformationMatrix) : bool := scaleLocked s.

(** ** Collaborators *)

(** The methods of the host base class [MPxTransformationMatrix] that the
    engine calls.  A setter receives the component slots of the base class
    and returns its status with the slots it leaves behind. *)
Record MPxBase := mkMPxBase {
  MPx_translateTo : MVector -> Space -> Components -> MStatus * Components;
  MPx_scaleTo : MVector -> Space -> Components -> MStatus * Components;
  MPx_shearTo : MVector -> Space -> Components -> MStatus * Components;
  MPx_setScalePivot : MPoint -> Space -> bool -> Components -> MStatus * Components;
  MPx_setScalePivotTranslation : MVector -> Space -> Components -> MStatus * Components;
  MPx_setRotatePivot : MPoint -> Space -> bool -> Components -> MStatus * Components;
  MPx_setRotatePivotTranslation : MVector -> Space -> Components -> MStatus * Components;
  MPx_rotateTo_quat : MQuaternion -> Space -> Components -> MStatus * Components;
  MPx_rotateTo_euler : MEulerRotation -> Space -> Components -> MStatus * Components;
  MPx_setRotateOrientation_quat : MQuaternion -> Space -> bool -> Components -> MStatus * Components;
  MPx_setRotateOrientation_euler : MEulerRotation -> Space -> bool -> Components -> MStatus * Components;
  MPx_decomposeMatrix : GfMatrix4d -> Components -> Components;
  MPx_asMatrix : Components -> GfMatrix4d
}.

(** The conversions of the Maya math classes. *)
Record MayaMath := mkMayaMath {
  asQuaternion : MEulerRotation -> MQuaternion;
  asEulerRotation : MQuaternion -> MEulerRotation;
  quat_mul : MQuaternion -> MQuaternion -> MQuaternion;
  quat_inverse : MQuaternion -> MQuaternion;
  (* eulerRotation, getTranslation, getScale and getShear of the
     MTransformationMatrix built from a matrix *)
  mtm_eulerRotation : GfMatrix4d -> MEulerRotation;
  mtm_getTranslation : GfMatrix4d -> MVector;
  mtm_getScale : GfMatrix4d -> MVector;
  mtm_getShear : GfMatrix4d -> MVector
}.

(** Everything the engine takes from its environment. *)
Record Env := mkEnv {
  (* rounding of a real number to a [double]: an arithmetic operation on
     doubles gives its exact result, rounded *)
  to_double : Q -> Q;
  (* narrowing of a [double] to [float] and to [GfHalf] *)
  double_to_float : Q -> Q;
  double_to_half : Q -> Q;
  (* narrowing of a [double] to [int32_t]; the language defines it, as the
     truncation towards zero, for the values whose truncation is an
     [int32_t], and leaves it undefined for the others *)
  double_to_int : Q -> Q;
  (* [value != oldValue] for an [oldValue] that [Get] did not fill: the
     variable is declared without a value in the source, so that the
     program does not determine the outcome of the comparison; a run is
     taken to give one outcome for one value *)
  unset_differs : VtValue -> bool;
  (* value resolution of the stage between time samples *)
  interpolate : list (Q * VtValue) -> Q -> option VtValue;
  (* [UsdMayaXformStack::MatchingSubstack]: the classifications of the ops
     when all of them match the stack, the empty list otherwise *)
  MatchingSubstack :
    UsdMayaXformStack -> list UsdGeomXformOp -> list UsdMayaXformOpClassification;
  base : MPxBase;
  math : MayaMath
}.

(** ** The engine *)

Section Engine.

Variable env : Env.

(** *** Arithmetic on doubles

    [a + b], [a - b], [a * b] and [a / b] of the source. *)

Definition dadd (a b : Q) : Q := to_double env (a + b).
Definition dsub (a b : Q) : Q := to_double env (a - b).
Definition dmul (a b : Q) : Q := to_double env (a * b).
Definition ddiv (a b : Q) : Q := to_double env (a / b).

(** [operator+], [operator-] and [operator*] of [MVector]. *)
Definition vadd (a b : MVector) : MVector :=
  mkMVector (dadd (vx a) (vx b)) (dadd (vy a) (vy b)) (dadd (vz a) (vz b)).

Definition vsub (a b : MVector) : MVector :=
  mkMVector (dsub (vx a) (vx b)) (dsub (vy a) (vy b)) (dsub (vz a) (vz b)).

Definition vscale (a : MVector) (k : Q) : MVector :=
  mkMVector (dmul (vx a) k) (dmul (vy a) k) (dmul (vz a) k).

(** *** Op value codec *)

Definition vmap (f : Q -> Q) (v : MVector) : MVector :=
  mkMVector (f (vx v)) (f (vy v)) (f (vz v)).

(** [op.Get(&oldValue, t); if (value != oldValue) op.Set(value, t);]
    A [Get] that finds no value leaves [oldValue] as it was declared. *)
Definition set_if_changed (p : UsdPrim) (op : UsdGeomXformOp) (value : VtValue)
    (readTime writeTime : UsdTimeCode) : UsdPrim :=
  match Usd.Get (interpolate env) p op readTime with
  | Some oldValue =>
      if value_eqb value oldValue then p else snd (Usd.Set_ p op value writeTime)
  | None =>
      if unset_differs env value then snd (Usd.Set_ p op value writeTime) else p
  end.

Definition readVector (p : UsdPrim) (op : UsdGeomXformOp) (timeCode : UsdTimeCode)
  : option MVector :=
  match Usd.GetTypeName p op with
  | kVec3d | kVec3f | kVec3h | kVec3i =>
      match Usd.Get (interpolate env) p op timeCode with
      | Some (VVec value) => Some value
      | _ => None
      end
  | _ => None
  end.

Definition pushVector (result : MVector) (op : UsdGeomXformOp) (timeCode : UsdTimeCode)
    (p : UsdPrim) : bool * UsdPrim :=
  match Usd.GetTypeName p op with
  | kVec3d => (true, set_if_changed p op (VVec result) timeCode timeCode)
  | kVec3f => (true, set_if_changed p op (VVec (vmap (double_to_float env) result)) timeCode timeCode)
  | kVec3h => (true, set_if_changed p op (VVec (vmap (double_to_half env) result)) timeCode timeCode)
  | kVec3i => (true, set_if_changed p op (VVec (vmap (double_to_int env) result)) timeCode timeCode)
  | _ => (false, p)
  end.

Definition shearMatrix (result : MVector) : GfMatrix4d :=
  [ 1;         0;         0; 0;
    vx result; 1;         0; 0;
    vy result; vz result; 1; 0;
    0;         0;         0; 1 ].

Definition pushShear (result : MVector) (op : UsdGeomXformOp) (timeCode : UsdTimeCode)
    (p : UsdPrim) : bool * UsdPrim :=
  match Usd.GetTypeName p op with
  | kMatrix4d =>
      (* break; then the function ends in [return false] *)
      (false, set_if_changed p op (VMatrix (shearMatrix result)) timeCode timeCode)
  | _ => (false, p)
  end.

Definition readShear (p : UsdPrim) (op : UsdGeomXformOp) (timeCode : UsdTimeCode)
  : option MVector :=
  match Usd.GetTypeName p op with
  | kMatrix4d =>
      match Usd.Get (interpolate env) p op timeCode with
      | Some (VMatrix value) =>
          Some (mkMVector (mat_at value 1 0) (mat_at value 2 0) (mat_at value 2 1))
      | _ => None
      end
  | _ => None
  end.

Definition readPoint (p : UsdPrim) (op : UsdGeomXformOp) (timeCode : UsdTimeCode)
  : option MPoint :=
  match Usd.GetTypeName p op with
  | kVec3d | kVec3f | kVec3h | kVec3i =>
      match Usd.Get (interpolate env) p op timeCode with
      | Some (VVec value) => Some value
      | _ => None
      end
  | _ => None
  end.

Definition readMatrix (p : UsdPrim) (op : UsdGeomXformOp) (timeCode : UsdTimeCode)
  : option GfMatrix4d :=
  match Usd.GetTypeName p op with
  | kMatrix4d =>
      match Usd.Get (interpolate env) p op timeCode with
      | Some (VMatrix value) => Some value
      | _ => None
      end
  | _ => None
  end.

Definition pushMatrix (result : GfMatrix4d) (op : UsdGeomXformOp) (timeCode : UsdTimeCode)
    (p : UsdPrim) : bool * UsdPrim :=
  match Usd.GetTypeName p op with
  | kMatrix4d =>
      match Usd.Get (interpolate env) p op timeCode with
      | Some oldValue =>
          if value_eqb (VMatrix result) oldValue then (true, p)
          else Usd.Set_ p op (VMatrix result) timeCode
      | None =>
          if unset_differs env (VMatrix result) then Usd.Set_ p op (VMatrix result) timeCode
          else (true, p)
      end
  | _ => (false, p)
  end.

Definition pushPoint (result : MPoint) (op : UsdGeomXformOp) (timeCode : UsdTimeCode)
    (p : UsdPrim) : bool * UsdPrim :=
  match Usd.GetTypeName p op with
  | kVec3d => (true, set_if_changed p op (VVec result) timeCode timeCode)
  | kVec3f => (true, set_if_changed p op (VVec (vmap (double_to_float env) result)) timeCode timeCode)
  | kVec3h => (true, set_if_changed p op (VVec (vmap (double_to_half env) result)) timeCode timeCode)
  | kVec3i => (true, set_if_changed p op (VVec (vmap (double_to_int env) result)) timeCode timeCode)
  | _ => (false, p)
  end.

Definition readDouble (p : UsdPrim) (op : UsdGeomXformOp) (timeCode : UsdTimeCode) : Q :=
  match Usd.GetTypeName p op with
  | kHalf | kFloat | kDouble | kInt =>
      match Usd.Get (interpolate env) p op timeCode with
      | Some (VScalar value) => value
      | _ => 0
      end
  | _ => 0
  end.

(** The old value is read with [op.Get(&oldValue)], that is at the default
    time, and the new one is stored at [timeCode]. *)
Definition pushDouble (value : Q) (op : UsdGeomXformOp) (timeCode : UsdTimeCode)
    (p : UsdPrim) : UsdPrim :=
  match Usd.GetTypeName p op with
  | kHalf => set_if_changed p op (VScalar (double_to_half env value)) Default timeCode
  | kFloat => set_if_changed p op (VScalar (double_to_float env value)) Default timeCode
  | kDouble => set_if_changed p op (VScalar value) Default timeCode
  | kInt => set_if_changed p op (VScalar (double_to_int env value)) Default timeCode
  | _ => p
  end.

(** [3.141592654 / 180.0] and [180.0 / 3.141592654]; the literal of pi is
    rounded to a double, 180 is one. *)
Definition degToRad : Q := ddiv (to_double env 3.141592654) 180.
Definition radToDeg : Q := ddiv 180 (to_double env 3.141592654).

Definition rotationOrderOf (t : XformOpType) : option RotationOrder :=
  match t with
  | TypeRotateXYZ => Some kXYZ | TypeRotateXZY => Some kXZY | TypeRotateYXZ => Some kYXZ
  | TypeRotateYZX => Some kYZX | TypeRotateZXY => Some kZXY | TypeRotateZYX => Some kZYX
  | _ => None
  end.

Definition readRotation (p : UsdPrim) (op : UsdGeomXformOp) (timeCode : UsdTimeCode)
  : option MEulerRotation :=
  match op_type op with
  | TypeRotateX => Some (mkMEuler (dmul (readDouble p op timeCode) degToRad) 0 0 kXYZ)
  | TypeRotateY => Some (mkMEuler 0 (dmul (readDouble p op timeCode) degToRad) 0 kXYZ)
  | TypeRotateZ => Some (mkMEuler 0 0 (dmul (readDouble p op timeCode) degToRad) kXYZ)
  | t =>
      match rotationOrderOf t with
      | Some o =>
          match readVector p op timeCode with
          | Some v =>
              Some (mkMEuler (dmul (vx v) degToRad) (dmul (vy v) degToRad) (dmul (vz v) degToRad) o)
          | None => None
          end
      | None => None
      end
  end.

Definition pushRotation (value : MEulerRotation) (op : UsdGeomXformOp) (timeCode : UsdTimeCode)
    (p : UsdPrim) : bool * UsdPrim :=
  match op_type op with
  | TypeRotateX => (true, pushDouble (dmul (ex value) radToDeg) op timeCode p)
  | TypeRotateY => (true, pushDouble (dmul (ey value) radToDeg) op timeCode p)
  | TypeRotateZ => (true, pushDouble (dmul (ez value) radToDeg) op timeCode p)
  | TypeRotateXYZ | TypeRotateXZY | TypeRotateYXZ
  | TypeRotateYZX | TypeRotateZYX | TypeRotateZXY =>
      pushVector (vscale (mkMVector (ex value) (ey value) (ez value)) radToDeg) op timeCode p
  | _ => (false, p)
  end.

(** *** Access to the prim through the current time code

    [internal_readVector(result, op)] and its siblings call the codec at
    [getTimeCode()]; a read that fails leaves [result] as it was. *)

Definition internal_readVector (s : TransformationMatrix) (result : MVector)
    (op : UsdGeomXformOp) : MVector :=
  match m_prim s with
  | Some p => match readVector p op (getTimeCode s) with Some v => v | None => result end
  | None => result
  end.

Definition internal_readPoint (s : TransformationMatrix) (result : MPoint)
    (op : UsdGeomXformOp) : MPoint :=
  match m_prim s with
  | Some p => match readPoint p op (getTimeCode s) with Some v => v | None => result end
  | None => result
  end.

Definition internal_readShear (s : TransformationMatrix) (result : MVector)
    (op : UsdGeomXformOp) : MVector :=
  match m_prim s with
  | Some p => match readShear p op (getTimeCode s) with Some v => v | None => result end
  | None => result
  end.

Definition internal_readRotation (s : TransformationMatrix) (result : MEulerRotation)
    (op : UsdGeomXformOp) : MEulerRotation :=
  match m_prim s with
  | Some p => match readRotation p op (getTimeCode s) with Some v => v | None => result end
  | None => result
  end.

Definition internal_readMatrix (s : TransformationMatrix) (result : GfMatrix4d)
    (op : UsdGeomXformOp) : GfMatrix4d :=
  match m_prim s with
  | Some p => match readMatrix p op (getTimeCode s) with Some v => v | None => result end
  | None => result
  end.

Definition internal_pushVector (v : MVector) (op : UsdGeomXformOp)
    (s : TransformationMatrix) : TransformationMatrix :=
  match m_prim s with
  | Some p => set_prim (Some (snd (pushVector v op (getTimeCode s) p))) s
  | None => s
  end.

Definition internal_pushPoint (v : MPoint) (op : UsdGeomXformOp)
    (s : TransformationMatrix) : TransformationMatrix :=
  match m_prim s with
  | Some p => set_prim (Some (snd (pushPoint v op (getTimeCode s) p))) s
  | None => s
  end.

Definition internal_pushShear (v : MVector) (op : UsdGeomXformOp)
    (s : TransformationMatrix) : TransformationMatrix :=
  match m_prim s with
  | Some p => set_prim (Some (snd (pushShear v op (getTimeCode s) p))) s
  | None => s
  end.

Definition internal_pushRotation (e : MEulerRotation) (op : UsdGeomXformOp)
    (s : TransformationMatrix) : TransformationMatrix :=
  match m_prim s with
  | Some p => set_prim (Some (snd (pushRotation e op (getTimeCode s) p))) s
  | None => s
  end.

Definition or_flags (mask : Z) (s : TransformationMatrix) : TransformationMatrix :=
  set_flags (set_flag (m_flags s) mask) s.

Definition and_not_flags (mask : Z) (s : TransformationMatrix) : TransformationMatrix :=
  set_flags (clear_flag (m_flags s) mask) s.

Definition identityMatrix : GfMatrix4d :=
  [ 1; 0; 0; 0;
    0; 1; 0; 0;
    0; 0; 1; 0;
    0; 0; 0; 1 ].

(** *** [initialiseToPrim] *)

Definition stackFlagPairs : list (UsdMayaXformStack * Z) :=
  [ (MayaStack, kFromMayaSchema);
    (MayaSinglePivotStack, kSinglePivotSchema);
    (MatrixStack, kFromMatrix) ].

(** The loop over [stackFlagPairs]: [m_orderedOps] receives every result in
    turn, the first result that is not empty sets its flag and ends the
    loop. *)
Fixpoint matchStacks (pairs : list (UsdMayaXformStack * Z)) (xformops : list UsdGeomXformOp)
    (orderedOps : list UsdMayaXformOpClassification) (flags : Z)
  : list UsdMayaXformOpClassification * Z :=
  match pairs with
  | [] => (orderedOps, flags)
  | (stack, flag) :: rest =>
      match MatchingSubstack env stack xformops with
      | [] => matchStacks rest xformops [] flags
      | found => (found, set_flag flags flag)
      end
  end.

Definition animated_if (mask : Z) (op : UsdGeomXformOp) (s : TransformationMatrix)
  : TransformationMatrix :=
  match m_prim s with
  | Some p => if (1 <? Usd.GetNumTimeSamples p op)%nat then or_flags mask s else s
  | None => s
  end.

(** The body of the loop over the ops for one op and its classification.
    The writes to the plugs of the transform node ([transformNode]) stay
    outside the model. *)
Definition initialiseOp (readFromPrim : bool) (op : UsdGeomXformOp)
    (opClass : UsdMayaXformOpClassification) (s : TransformationMatrix)
  : TransformationMatrix :=
  if IsInvertedTwin opClass then s
  else
    let opName := GetName opClass in
    if String.eqb opName Tokens.translate then
      let s := animated_if kAnimatedTranslation op (or_flags kPrimHasTranslation s) in
      if readFromPrim then
        set_fromUsd (with_translation
          (internal_readVector s (c_translation (fromUsd s)) op) (fromUsd s)) s
      else s
    else if String.eqb opName Tokens.pivot then
      let s := or_flags kPrimHasPivot s in
      if readFromPrim then
        let sp := internal_readPoint s (c_scalePivot (fromUsd s)) op in
        set_fromUsd (with_rotatePivot sp (with_scalePivot sp (fromUsd s))) s
      else s
    else if String.eqb opName Tokens.rotatePivotTranslate then
      let s := or_flags kPrimHasRotatePivotTranslate s in
      if readFromPrim then
        set_fromUsd (with_rotatePivotTranslation
          (internal_readVector s (c_rotatePivotTranslation (fromUsd s)) op) (fromUsd s)) s
      else s
    else if String.eqb opName Tokens.rotatePivot then
      let s := or_flags kPrimHasRotatePivot s in
      if readFromPrim then
        set_fromUsd (with_rotatePivot
          (internal_readPoint s (c_rotatePivot (fromUsd s)) op) (fromUsd s)) s
      else s
    else if String.eqb opName Tokens.rotate then
      let s := animated_if kAnimatedRotation op (or_flags kPrimHasRotation s) in
      if readFromPrim then
        set_fromUsd (with_rotation
          (internal_readRotation s (c_rotation (fromUsd s)) op) (fromUsd s)) s
      else s
    else if String.eqb opName Tokens.rotateAxis then
      let s := or_flags kPrimHasRotateAxes s in
      if readFromPrim then
        let vec := internal_readVector s zeroVec op in
        set_fromUsd (with_rotateOrientation
          (asQuaternion (math env) (mkMEuler (vx vec) (vy vec) (vz vec) kXYZ)) (fromUsd s)) s
      else s
    else if String.eqb opName Tokens.scalePivotTranslate then
      let s := or_flags kPrimHasScalePivotTranslate s in
      if readFromPrim then
        set_fromUsd (with_scalePivotTranslation
          (internal_readVector s (c_scalePivotTranslation (fromUsd s)) op) (fromUsd s)) s
      else s
    else if String.eqb opName Tokens.scalePivot then
      let s := or_flags kPrimHasScalePivot s in
      if readFromPrim then
        set_fromUsd (with_scalePivot
          (internal_readPoint s (c_scalePivot (fromUsd s)) op) (fromUsd s)) s
      else s
    else if String.eqb opName Tokens.shear then
      let s := animated_if kAnimatedShear op (or_flags kPrimHasShear s) in
      if readFromPrim then
        set_fromUsd (with_shear
          (internal_readShear s (c_shear (fromUsd s)) op) (fromUsd s)) s
      else s
    else if String.eqb opName Tokens.scale then
      let s := animated_if kAnimatedScale op (or_flags kPrimHasScale s) in
      if readFromPrim then
        set_fromUsd (with_scale
          (internal_readVector s (c_scale (fromUsd s)) op) (fromUsd s)) s
      else s
    else if String.eqb opName Tokens.transform then
      let s := or_flags kPushPrimToMatrix (or_flags kFromMatrix (or_flags kPrimHasTransform s)) in
      let s := animated_if kAnimatedMatrix op s in
      if readFromPrim then
        (* the matrix is read from m_xformops[0] *)
        let m := match m_xformops s with
                 | op0 :: _ => internal_readMatrix s identityMatrix op0
                 | [] => identityMatrix
                 end in
        let vals := MPx_decomposeMatrix (base env) m (values s) in
        set_fromUsd vals (set_values vals s)
      else s
    else s.

(** The loop walks [m_xformops] and [m_orderedOps] side by side. *)
Fixpoint initialiseOps (readFromPrim : bool) (ops : list UsdGeomXformOp)
    (classes : list UsdMayaXformOpClassification) (s : TransformationMatrix)
  : TransformationMatrix :=
  match ops, classes with
  | op :: ops', opClass :: classes' =>
      initialiseOps readFromPrim ops' classes' (initialiseOp readFromPrim op opClass s)
  | _, _ => s
  end.

(** "if some animation keys are found on the transform ops, assume we have
    a read only viewer of the transform data." *)
Definition lockIfAnimated (s : TransformationMatrix) : TransformationMatrix :=
  if has_flag (m_flags s) kAnimationMask
  then or_flags kReadAnimatedValues (and_not_flags kPushToPrimEnabled s)
  else s.

(** The head of [initialiseToPrim]: the ops are fetched, the inheritance
    flag is set and the schema is chosen. *)
Definition matchSchema (p : UsdPrim) (s : TransformationMatrix) : TransformationMatrix :=
  let xformops := fst (Usd.GetOrderedXformOps p) in
  let resets := snd (Usd.GetOrderedXformOps p) in
  let s := set_indices [] (set_orderedOps [] (set_xformops xformops s)) in
  let s := if negb resets then or_flags kInheritsTransform s else s in
  match xformops with
  | [] => or_flags kFromMayaSchema s
  | _ =>
      let r := matchStacks stackFlagPairs xformops (m_orderedOps s) (m_flags s) in
      set_flags (snd r) (set_orderedOps (fst r) s)
  end.

(** [if(m_flags & kAnyKnownSchema) { for(...) ... }] *)
Definition initialiseLoop (readFromPrim : bool) (s : TransformationMatrix)
  : TransformationMatrix :=
  if has_flag (m_flags s) kAnyKnownSchema
  then initialiseOps readFromPrim (m_xformops s) (m_orderedOps s) s
  else s.

Definition initialiseToPrim (readFromPrim : bool) (s : TransformationMatrix)
  : TransformationMatrix :=
  match m_prim s with
  | None => s
  | Some p => lockIfAnimated (initialiseLoop readFromPrim (matchSchema p s))
  end.

(** *** [updateToTime] *)

Definition add_tweak_euler (e t : MEulerRotation) : MEulerRotation :=
  mkMEuler (dadd (ex e) (ex t)) (dadd (ey e) (ey t)) (dadd (ez e) (ez t)) (order e).

(** The body of the loop of [updateToTime] for one op. *)
Definition updateOp (op : UsdGeomXformOp) (opClass : UsdMayaXformOpClassification)
    (s : TransformationMatrix) : TransformationMatrix :=
  let opName := GetName opClass in
  if String.eqb opName Tokens.translate then
    if hasAnimatedTranslation s then
      let from := internal_readVector s (c_translation (fromUsd s)) op in
      set_values (with_translation (vadd from (c_translation (tweaks s))) (values s))
        (set_fromUsd (with_translation from (fromUsd s)) s)
    else s
  else if String.eqb opName Tokens.rotate then
    if hasAnimatedRotation s then
      let from := internal_readRotation s (c_rotation (fromUsd s)) op in
      set_values (with_rotation (add_tweak_euler from (c_rotation (tweaks s))) (values s))
        (set_fromUsd (with_rotation from (fromUsd s)) s)
    else s
  else if String.eqb opName Tokens.scale then
    if hasAnimatedScale s then
      let from := internal_readVector s (c_scale (fromUsd s)) op in
      set_values (with_scale (vadd from (c_scale (tweaks s))) (values s))
        (set_fromUsd (with_scale from (fromUsd s)) s)
    else s
  else if String.eqb opName Tokens.shear then
    if hasAnimatedShear s then
      let from := internal_readShear s (c_shear (fromUsd s)) op in
      set_values (with_shear (vadd from (c_shear (tweaks s))) (values s))
        (set_fromUsd (with_shear from (fromUsd s)) s)
    else s
  else if String.eqb opName Tokens.transform then
    if hasAnimatedMatrix s then
      (* op.Get<GfMatrix4d>(&matrix, getTimeCode()); a failed Get leaves
         the matrix without content *)
      let matrix :=
        match m_prim s with
        | Some p => match Usd.Get (interpolate env) p op (getTimeCode s) with
                    | Some (VMatrix m) => m
                    | _ => []
                    end
        | None => []
        end in
      let rot := mtm_eulerRotation (math env) matrix in
      let tr := mtm_getTranslation (math env) matrix in
      let sc := mtm_getScale (math env) matrix in
      let sh := mtm_getShear (math env) matrix in
      let from := with_shear sh (with_scale sc (with_translation tr (with_rotation rot (fromUsd s)))) in
      let t := tweaks s in
      let v := values s in
      let rv := mkMEuler (dadd (ex rot) (ex (c_rotation t))) (dadd (ey rot) (ey (c_rotation t)))
                  (dadd (ez rot) (ez (c_rotation t))) (order (c_rotation v)) in
      set_values
        (with_shear (vadd sh (c_shear t))
           (with_scale (vadd sc (c_scale t))
              (with_translation (vadd tr (c_translation t)) (with_rotation rv v))))
        (set_fromUsd from s)
    else s
  else s.

(** The loop walks [m_xformops] and [m_orderedOps] side by side, as the
    loops of [initialiseToPrim] and [pushToPrim] do. *)
Fixpoint updateOps (ops : list UsdGeomXformOp) (classes : list UsdMayaXformOpClassification)
    (s : TransformationMatrix) : TransformationMatrix :=
  match ops, classes with
  | op :: ops', opClass :: classes' => updateOps ops' classes' (updateOp op opClass s)
  | _, _ => s
  end.

Definition updateToTime (time : UsdTimeCode) (s : TransformationMatrix) : TransformationMatrix :=
  match m_prim s with
  | None => s
  | Some _ =>
      if negb (timecode_eqb (m_time s) time) then
        let s := set_time time s in
        if hasAnimation s then updateOps (m_xformops s) (m_orderedOps s) s else s
      else s
  end.

(** *** Insertion and removal of ops *)

Definition mayaIndexOf (singlePivot : bool) (op : UsdMayaXformOpClassification) : N :=
  let isInverted := IsInvertedTwin op in
  let name :=
    if singlePivot && String.eqb (GetName op) Tokens.pivot
    then (if isInverted then Tokens.scalePivot else Tokens.rotatePivot)
    else GetName op in
  FindOpIndex MayaStack name isInverted.

Definition buildOrderedOpMayaIndices (s : TransformationMatrix) : TransformationMatrix :=
  match m_orderedOpMayaIndices s, m_orderedOps s with
  | [], _ :: _ =>
      if has_flag (m_flags s) kFromMayaSchema then
        set_indices (map (mayaIndexOf false) (m_orderedOps s)) s
      else if has_flag (m_flags s) kSinglePivotSchema then
        set_indices (map (mayaIndexOf true) (m_orderedOps s)) s
      else s
  | _, _ => s
  end.

(** [v.erase(v.begin() + i)] and [v.insert(v.begin() + i, x)]; the source
    only uses them with [i] inside the vector. *)
Definition erase_at {A} (i : nat) (l : list A) : list A := take i l ++ drop (S i) l.
Definition insert_at {A} (i : nat) (x : A) (l : list A) : list A := take i l ++ x :: drop i l.

Definition nameAt (s : TransformationMatrix) (i : nat) (opName : string) : bool :=
  match nth_error (m_orderedOps s) i with
  | Some c => String.eqb opName (GetName c)
  | None => false
  end.

Definition eraseOpAt (i : nat) (s : TransformationMatrix) : TransformationMatrix :=
  let s := set_xformops (erase_at i (m_xformops s)) (set_orderedOps (erase_at i (m_orderedOps s)) s) in
  match m_orderedOpMayaIndices s with
  | [] => s
  | idx => set_indices (erase_at i idx) s
  end.

(** The backwards loop of [removeOp], from index [i] down to 0; it stops at
    the second op of the name. *)
Fixpoint removeOpFrom (opName : string) (i : nat) (foundOne : bool)
    (s : TransformationMatrix) : bool * TransformationMatrix :=
  if nameAt s i opName then
    let s' := eraseOpAt i s in
    if foundOne then (true, s')
    else match i with
         | O => (true, s')
         | S i' => removeOpFrom opName i' true s'
         end
  else
    match i with
    | O => (foundOne, s)
    | S i' => removeOpFrom opName i' foundOne s
    end.

(** [removeOp].  The loop starts at [m_orderedOps.size() - 1]; with no op
    in the list the source reads outside the vector, here no op is
    visited. *)
Definition removeOp (opName : string) (oldFlag : Z) (s : TransformationMatrix)
  : MStatus * TransformationMatrix :=
  let '(foundOne, s) :=
    match m_orderedOps s with
    | [] => (false, s)
    | _ :: rest => removeOpFrom opName (length rest) false s
    end in
  let s := and_not_flags oldFlag s in
  if negb foundOne then (kFailure, s)
  else
    let resets := negb (has_flag (m_flags s) kInheritsTransform) in
    (kSuccess,
     match m_prim s with
     | Some p => set_prim (Some (Usd.SetXformOpOrder p (m_xformops s) resets)) s
     | None => s
     end).

(** [std::lower_bound] over [m_orderedOpMayaIndices]. *)
Fixpoint lower_bound (l : list N) (x : N) : nat :=
  match l with
  | [] => O
  | y :: l' => if (y <? x)%N then S (lower_bound l' x) else O
  end.

Definition findOpInsertPos (opIndex : N) (s : TransformationMatrix) : nat :=
  lower_bound (m_orderedOpMayaIndices s) opIndex.

(** The lambda [addOp] of [insertOp]; [None] is its result -1. *)
Definition addOp (opType : XformOpType) (precision : Precision) (opName : string)
    (opIndex : N) (insertAtBeginning : bool) (s : TransformationMatrix)
  : option nat * TransformationMatrix :=
  match stack_nth MayaStack opIndex, m_prim s with
  | Some opClass, Some p =>
      match Usd.AddXformOp p opType precision opName (IsInvertedTwin opClass) with
      | None => (None, s)
      | Some (op, p') =>
          let insertIndex := if insertAtBeginning then O else findOpInsertPos opIndex s in
          (Some insertIndex,
           set_indices (insert_at insertIndex opIndex (m_orderedOpMayaIndices s))
             (set_xformops (insert_at insertIndex op (m_xformops s))
                (set_orderedOps (insert_at insertIndex opClass (m_orderedOps s))
                   (set_prim (Some p') s))))
      end
  | _, _ => (None, s)
  end.

Definition eraseInserted (i : nat) (s : TransformationMatrix) : TransformationMatrix :=
  set_indices (erase_at i (m_orderedOpMayaIndices s))
    (set_xformops (erase_at i (m_xformops s))
       (set_orderedOps (erase_at i (m_orderedOps s)) s)).

Definition commitOrder (newFlag : Z) (s : TransformationMatrix) : TransformationMatrix :=
  let resets := negb (has_flag (m_flags s) kInheritsTransform) in
  or_flags newFlag
    match m_prim s with
    | Some p => set_prim (Some (Usd.SetXformOpOrder p (m_xformops s) resets)) s
    | None => s
    end.

Definition insertOp (opType : XformOpType) (precision : Precision) (opName : string)
    (newFlag : Z) (insertAtBeginning : bool) (s : TransformationMatrix)
  : MStatus * TransformationMatrix :=
  let s := buildOrderedOpMayaIndices s in
  let opPair := FindOpIndexPair MayaStack opName in
  if negb (snd opPair =? NO_INDEX)%N then
    match addOp opType precision opName (snd opPair) insertAtBeginning s with
    | (None, s) => (kFailure, s)
    | (Some secondPos, s) =>
        match addOp opType precision opName (fst opPair) insertAtBeginning s with
        | (None, s) => (kFailure, eraseInserted secondPos s)
        | (Some _, s) => (kSuccess, commitOrder newFlag s)
        end
    end
  else
    match addOp opType precision opName (fst opPair) insertAtBeginning s with
    | (None, s) => (kFailure, s)
    | (Some _, s) => (kSuccess, commitOrder newFlag s)
    end.

Definition insertTranslateOp (s : TransformationMatrix) :=
  insertOp TypeTranslate PrecisionFloat Tokens.translate kPrimHasTranslation true s.

Definition insertScaleOp (s : TransformationMatrix) :=
  insertOp TypeScale PrecisionFloat Tokens.scale kPrimHasScale false s.

Definition insertShearOp (s : TransformationMatrix) :=
  insertOp TypeTransform PrecisionDouble Tokens.shear kPrimHasShear false s.

Definition insertScalePivotTranslationOp (s : TransformationMatrix) :=
  insertOp TypeTranslate PrecisionFloat Tokens.scalePivotTranslate kPrimHasScalePivotTranslate false s.

Definition insertRotatePivotTranslationOp (s : TransformationMatrix) :=
  insertOp TypeTranslate PrecisionFloat Tokens.rotatePivotTranslate kPrimHasRotatePivotTranslate false s.

Definition insertRotateAxesOp (s : TransformationMatrix) :=
  insertOp TypeRotateXYZ PrecisionFloat Tokens.rotateAxis kPrimHasRotateAxes false s.

Definition rotateOpType (o : RotationOrder) : XformOpType :=
  match o with
  | kXYZ => TypeRotateXYZ | kXZY => TypeRotateXZY | kYXZ => TypeRotateYXZ
  | kYZX => TypeRotateYZX | kZXY => TypeRotateZXY | kZYX => TypeRotateZYX
  end.

Definition insertRotateOp (s : TransformationMatrix) :=
  insertOp (rotateOpType (order (c_rotation (values s)))) PrecisionFloat
    Tokens.rotate kPrimHasRotation false s.

(** *** Pivot splitting

    [splitPivotIfNeeded] calls [insertRotatePivotOp] and
    [insertScalePivotOp], which call it in turn; [fuel] bounds the depth of
    these calls and [None] is its exhaustion. *)

Definition insertPivotOpWith
    (split : TransformationMatrix -> option (bool * TransformationMatrix))
    (opName : string) (newFlag : Z) (s : TransformationMatrix)
  : option (MStatus * TransformationMatrix) :=
  match split s with
  | None => None
  | Some (true, s) => Some (kSuccess, s)
  | Some (false, s) => Some (insertOp TypeTranslate PrecisionFloat opName newFlag false s)
  end.

Fixpoint splitPivotIfNeededFuel (fuel : nat) (s : TransformationMatrix)
  : option (bool * TransformationMatrix) :=
  match fuel with
  | O => None
  | S fuel' =>
      if negb (primHasPivot s) then Some (false, s)
      else if veqb (c_scalePivot (values s)) (c_rotatePivot (values s)) then Some (true, s)
      else
        match removeOp Tokens.pivot kPrimHasPivot s with
        | (kFailure, s) => Some (true, s)
        | (kSuccess, s) =>
            match insertPivotOpWith (splitPivotIfNeededFuel fuel')
                    Tokens.rotatePivot kPrimHasRotatePivot s with
            | None => None
            | Some (kFailure, s) => Some (true, s)
            | Some (kSuccess, s) =>
                match insertPivotOpWith (splitPivotIfNeededFuel fuel')
                        Tokens.scalePivot kPrimHasScalePivot s with
                | None => None
                | Some (_, s) => Some (true, s)
                end
            end
        end
  end.

(** Two levels of calls are all that the source can make: the inner
    calls find the pivot flag cleared by [removeOp] (lemma
    [splitPivotIfNeeded_fuel] below). *)
Definition splitPivotIfNeeded (s : TransformationMatrix) : bool * TransformationMatrix :=
  match splitPivotIfNeededFuel 2 s with
  | Some r => r
  | None => (true, s)
  end.

Definition insertScalePivotOp (s : TransformationMatrix) : MStatus * TransformationMatrix :=
  match splitPivotIfNeeded s with
  | (true, s) => (kSuccess, s)
  | (false, s) => insertOp TypeTranslate PrecisionFloat Tokens.scalePivot kPrimHasScalePivot false s
  end.

Definition insertRotatePivotOp (s : TransformationMatrix) : MStatus * TransformationMatrix :=
  match splitPivotIfNeeded s with
  | (true, s) => (kSuccess, s)
  | (false, s) => insertOp TypeTranslate PrecisionFloat Tokens.rotatePivot kPrimHasRotatePivot false s
  end.

(** *** [pushToPrim] *)

(** The body of the loop of [pushToPrim] for one op. *)
Definition pushOp (op : UsdGeomXformOp) (opClass : UsdMayaXformOpClassification)
    (s : TransformationMatrix) : TransformationMatrix :=
  if IsInvertedTwin opClass then s
  else
    let opName := GetName opClass in
    let v := values s in
    if String.eqb opName Tokens.translate then
      let s := internal_pushVector (c_translation v) op s in
      set_tweaks (with_translation zeroVec (tweaks s))
        (set_fromUsd (with_translation (c_translation v) (fromUsd s)) s)
    else if String.eqb opName Tokens.pivot then
      let s := internal_pushPoint (c_rotatePivot v) op s in
      set_tweaks (with_scalePivot zeroVec (with_rotatePivot zeroVec (tweaks s)))
        (set_fromUsd (with_scalePivot (c_scalePivot v)
                        (with_rotatePivot (c_rotatePivot v) (fromUsd s))) s)
    else if String.eqb opName Tokens.rotatePivotTranslate then
      let s := internal_pushPoint (c_rotatePivotTranslation v) op s in
      set_tweaks (with_rotatePivotTranslation zeroVec (tweaks s))
        (set_fromUsd (with_rotatePivotTranslation (c_rotatePivotTranslation v) (fromUsd s)) s)
    else if String.eqb opName Tokens.rotatePivot then
      let s := internal_pushPoint (c_rotatePivot v) op s in
      set_tweaks (with_rotatePivot zeroVec (tweaks s))
        (set_fromUsd (with_rotatePivot (c_rotatePivot v) (fromUsd s)) s)
    else if String.eqb opName Tokens.rotate then
      let s := internal_pushRotation (c_rotation v) op s in
      set_tweaks (with_rotation identityEuler (tweaks s))
        (set_fromUsd (with_rotation (c_rotation v) (fromUsd s)) s)
    else if String.eqb opName Tokens.rotateAxis then
      let e := asEulerRotation (math env) (c_rotateOrientation (fromUsd s)) in
      internal_pushVector
        (mkMVector (dmul (ex e) radToDeg) (dmul (ey e) radToDeg) (dmul (ez e) radToDeg)) op s
    else if String.eqb opName Tokens.scalePivotTranslate then
      let s := internal_pushVector (c_scalePivotTranslation v) op s in
      set_tweaks (with_scalePivotTranslation zeroVec (tweaks s))
        (set_fromUsd (with_scalePivotTranslation (c_scalePivotTranslation v) (fromUsd s)) s)
    else if String.eqb opName Tokens.scalePivot then
      let s := internal_pushPoint (c_scalePivot v) op s in
      set_tweaks (with_scalePivot zeroVec (tweaks s))
        (set_fromUsd (with_scalePivot (c_scalePivot v) (fromUsd s)) s)
    else if String.eqb opName Tokens.shear then
      let s := internal_pushShear (c_shear v) op s in
      set_tweaks (with_shear zeroVec (tweaks s))
        (set_fromUsd (with_shear (c_shear v) (fromUsd s)) s)
    else if String.eqb opName Tokens.scale then
      let s := internal_pushVector (c_scale v) op s in
      set_tweaks (with_scale zeroVec (tweaks s))
        (set_fromUsd (with_scale (c_scale v) (fromUsd s)) s)
    else if String.eqb opName Tokens.transform then
      if pushPrimToMatrix s then
        match m_prim s with
        | Some p =>
            set_prim (Some (snd (Usd.SetAs kMatrix4d p op (VMatrix (MPx_asMatrix (base env) v))
                                   (getTimeCode s)))) s
        | None => s
        end
      else s
    else s.

(** The loop walks [m_xformops] and advances the iterator over
    [m_orderedOps] with it, which it dereferences without a test: with
    fewer classifications than ops the source reads past the end of the
    vector.  [pushOps] stops there; what the properties say of a pass is
    said of lists in step ([aligned] below). *)
Fixpoint pushOps (ops : list UsdGeomXformOp) (classes : list UsdMayaXformOpClassification)
    (s : TransformationMatrix) : TransformationMatrix :=
  match ops, classes with
  | op :: ops', opClass :: classes' => pushOps ops' classes' (pushOp op opClass s)
  | _, _ => s
  end.

(** [pushToPrim]; the notification of the proxy shape that ends the
    function (a redraw request) stays outside the model. *)
Definition pushToPrim (s : TransformationMatrix) : TransformationMatrix :=
  match m_prim s with
  | None => s
  | Some _ => pushOps (m_xformops s) (m_orderedOps s) s
  end.

(** *** Setting a component *)

(** Modelled from the spec: the macro [AL_MAYA_CHECK_ERROR] is declared in
    a header that is not part of the sources; a failed insertion is
    "propagated to the caller of SetComponent as a hard failure" and "the
    push-to-source for that one component is skipped" (section 7): the
    enclosing function returns the failure, otherwise it goes on. *)
Definition AL_MAYA_CHECK_ERROR (r : MStatus * TransformationMatrix)
    (k : TransformationMatrix -> MStatus * TransformationMatrix)
  : MStatus * TransformationMatrix :=
  match r with
  | (kFailure, s) => (kFailure, s)
  | (kSuccess, s) => k s
  end.

(** The tail that the setters share: when [pushToPrimAvailable()], a
    missing op is inserted first (unless [pushPrimToMatrix()] or the new
    value is the identity of the component, and under
    [AL_MAYA_CHECK_ERROR]), then [pushToPrim()] runs; the function returns
    the status of the base class. *)
Definition pushComponent (primHasOp isIdentity : bool)
    (insertOp_ : TransformationMatrix -> MStatus * TransformationMatrix)
    (status : MStatus) (s : TransformationMatrix) : MStatus * TransformationMatrix :=
  if pushToPrimAvailable s then
    if primHasOp then (status, pushToPrim s)
    else if negb (pushPrimToMatrix s) && negb isIdentity then
      AL_MAYA_CHECK_ERROR (insertOp_ s) (fun s => (status, pushToPrim s))
    else (status, pushToPrim s)
  else (status, s).

Definition translateTo (vector : MVector) (space : Space) (s : TransformationMatrix)
  : MStatus * TransformationMatrix :=
  if isTranslateLocked s then (kSuccess, s)
  else
    let '(status, vals) := MPx_translateTo (base env) vector space (values s) in
    let s := set_values vals s in
    let s := if status_ok status
             then set_tweaks (with_translation
                    (vsub (c_translation (values s)) (c_translation (fromUsd s))) (tweaks s)) s
             else s in
    pushComponent (primHasTranslation s) (veqb vector zeroVec) insertTranslateOp status s.

Definition scaleTo (scale : MVector) (space : Space) (s : TransformationMatrix)
  : MStatus * TransformationMatrix :=
  if isScaleLocked s then (kSuccess, s)
  else
    let '(status, vals) := MPx_scaleTo (base env) scale space (values s) in
    let s := set_values vals s in
    let s := if status_ok status
             then set_tweaks (with_scale
                    (vsub (c_scale (values s)) (c_scale (fromUsd s))) (tweaks s)) s
             else s in
    pushComponent (primHasScale s) (veqb scale oneVec) insertScaleOp status s.

Definition shearTo (shear : MVector) (space : Space) (s : TransformationMatrix)
  : MStatus * TransformationMatrix :=
  let '(status, vals) := MPx_shearTo (base env) shear space (values s) in
  let s := set_values vals s in
  let s := if status_ok status
           then set_tweaks (with_shear
                  (vsub (c_shear (values s)) (c_shear (fromUsd s))) (tweaks s)) s
           else s in
  pushComponent (primHasShear s) (veqb shear zeroVec) insertShearOp status s.

Definition setScalePivot (sp : MPoint) (space : Space) (balance : bool)
    (s : TransformationMatrix) : MStatus * TransformationMatrix :=
  let '(status, vals) := MPx_setScalePivot (base env) sp space balance (values s) in
  let s := set_values vals s in
  let s := if status_ok status
           then set_tweaks (with_scalePivot
                  (vsub (c_scalePivot (values s)) (c_scalePivot (fromUsd s))) (tweaks s)) s
           else s in
  pushComponent (primHasScalePivot s) (veqb sp zeroVec) insertScalePivotOp status s.

Definition setScalePivotTranslation (sp : MVector) (space : Space)
    (s : TransformationMatrix) : MStatus * TransformationMatrix :=
  let '(status, vals) := MPx_setScalePivotTranslation (base env) sp space (values s) in
  let s := set_values vals s in
  let s := if status_ok status
           then set_tweaks (with_scalePivotTranslation
                  (vsub (c_scalePivotTranslation (values s))
                        (c_scalePivotTranslation (fromUsd s))) (tweaks s)) s
           else s in
  pushComponent (primHasScalePivotTranslate s) (veqb sp zeroVec)
    insertScalePivotTranslationOp status s.

Definition setRotatePivot (pivot : MPoint) (space : Space) (balance : bool)
    (s : TransformationMatrix) : MStatus * TransformationMatrix :=
  let '(status, vals) := MPx_setRotatePivot (base env) pivot space balance (values s) in
  let s := set_values vals s in
  let s := if status_ok status
           then set_tweaks (with_rotatePivot
                  (vsub (c_rotatePivot (values s)) (c_rotatePivot (fromUsd s))) (tweaks s)) s
           else s in
  pushComponent (primHasRotatePivot s) (veqb pivot zeroVec) insertRotatePivotOp status s.

Definition setRotatePivotTranslation (vector : MVector) (space : Space)
    (s : TransformationMatrix) : MStatus * TransformationMatrix :=
  let '(status, vals) := MPx_setRotatePivotTranslation (base env) vector space (values s) in
  let s := set_values vals s in
  let s := if status_ok status
           then set_tweaks (with_rotatePivotTranslation
                  (vsub (c_rotatePivotTranslation (values s))
                        (c_rotatePivotTranslation (fromUsd s))) (tweaks s)) s
           else s in
  pushComponent (primHasRotatePivotTranslate s) (veqb vector zeroVec)
    insertRotatePivotTranslationOp status s.

(** [m_rotationTweak.x = rotationValue.x - m_rotationFromUsd.x;] and so on. *)
Definition rotationTweakOf (s : TransformationMatrix) : MEulerRotation :=
  let v := c_rotation (values s) in
  let f := c_rotation (fromUsd s) in
  mkMEuler (dsub (ex v) (ex f)) (dsub (ey v) (ey f)) (dsub (ez v) (ez f))
    (order (c_rotation (tweaks s))).

Definition rotateTo_quat (q : MQuaternion) (space : Space) (s : TransformationMatrix)
  : MStatus * TransformationMatrix :=
  if isRotateLocked s then (kSuccess, s)
  else
    let '(status, vals) := MPx_rotateTo_quat (base env) q space (values s) in
    let s := set_values vals s in
    let s := if status_ok status
             then set_tweaks (with_rotation (rotationTweakOf s) (tweaks s)) s
             else s in
    pushComponent (primHasRotation s) (quat_eqb q identityQuat) insertRotateOp status s.

Definition rotateTo_euler (e : MEulerRotation) (space : Space) (s : TransformationMatrix)
  : MStatus * TransformationMatrix :=
  if isRotateLocked s then (kSuccess, s)
  else
    let '(status, vals) := MPx_rotateTo_euler (base env) e space (values s) in
    let s := set_values vals s in
    let s := if status_ok status
             then set_tweaks (with_rotation (rotationTweakOf s) (tweaks s)) s
             else s in
    pushComponent (primHasRotation s) (euler_eqb e identityEuler) insertRotateOp status s.

(** "do not allow people to change the rotation order here." *)
Definition setRotationOrder (o : RotationOrder) (reorder : bool) (s : TransformationMatrix)
  : MStatus * TransformationMatrix := (kFailure, s).

(** [m_rotateOrientationFromUsd = rotateOrientationValue * m_rotateOrientationTweak.inverse();] *)
Definition orientationFromUsdOf (s : TransformationMatrix) : MQuaternion :=
  quat_mul (math env) (c_rotateOrientation (values s))
    (quat_inverse (math env) (c_rotateOrientation (tweaks s))).

Definition setRotateOrientation_quat (q : MQuaternion) (space : Space) (balance : bool)
    (s : TransformationMatrix) : MStatus * TransformationMatrix :=
  let '(status, vals) := MPx_setRotateOrientation_quat (base env) q space balance (values s) in
  let s := set_values vals s in
  let s := if status_ok status
           then set_fromUsd (with_rotateOrientation (orientationFromUsdOf s) (fromUsd s)) s
           else s in
  pushComponent (primHasRotateAxes s) (quat_eqb q identityQuat) insertRotateAxesOp status s.

Definition setRotateOrientation_euler (euler : MEulerRotation) (space : Space) (balance : bool)
    (s : TransformationMatrix) : MStatus * TransformationMatrix :=
  let '(status, vals) := MPx_setRotateOrientation_euler (base env) euler space balance (values s) in
  let s := set_values vals s in
  let s := if status_ok status
           then set_fromUsd (with_rotateOrientation (orientationFromUsdOf s) (fromUsd s)) s
           else s in
  pushComponent (primHasRotateAxes s) (euler_eqb euler identityEuler) insertRotateAxesOp status s.

(** *** [setPrimInternal] *)

Definition zeroTweaks : Components :=
  mkComponents zeroVec identityEuler zeroVec zeroVec zeroVec zeroVec zeroVec zeroVec identityQuat.

Definition identityComponents : Components :=
  mkComponents oneVec identityEuler zeroVec zeroVec zeroVec zeroVec zeroVec zeroVec identityQuat.

(** [readingFile] is the answer of [MFileIO::isReadingFile()]. *)
Definition setPrimInternal (prim : option UsdPrim) (readingFile : bool)
    (s : TransformationMatrix) : TransformationMatrix :=
  let s := set_prim prim s in
  let s := set_flags (Z.land (m_flags s) kPreservationMask) s in
  let s := set_tweaks zeroTweaks s in
  let s := mkTM (values s) (tweaks s) (fromUsd s) (m_prim s) (m_time s) (m_xformops s)
             (m_orderedOps s) (m_orderedOpMayaIndices s) zeroVec (m_flags s)
             (translateLocked s) (rotateLocked s) (scaleLocked s) in
  match prim with
  | Some _ =>
      let s := initialiseToPrim (negb readingFile) (set_fromUsd identityComponents s) in
      set_values (fromUsd s) s
  | None => s
  end.

(** *** The set-component calls, as one operation *)

Inductive SetComponent :=
  | TranslateTo (v : MVector) (space : Space)
  | ScaleTo (v : MVector) (space : Space)
  | ShearTo (v : MVector) (space : Space)
  | SetScalePivot (v : MPoint) (space : Space) (balance : bool)
  | SetScalePivotTranslation (v : MVector) (space : Space)
  | SetRotatePivot (v : MPoint) (space : Space) (balance : bool)
  | SetRotatePivotTranslation (v : MVector) (space : Space)
  | RotateToQuat (q : MQuaternion) (space : Space)
  | RotateToEuler (e : MEulerRotation) (space : Space)
  | SetRotateOrientationQuat (q : MQuaternion) (space : Space) (balance : bool)
  | SetRotateOrientationEuler (e : MEulerRotation) (space : Space) (balance : bool).

Definition setComponent (call : SetComponent) (s : TransformationMatrix)
  : MStatus * TransformationMatrix :=
  match call with
  | TranslateTo v space => translateTo v space s
  | ScaleTo v space => scaleTo v space s
  | ShearTo v space => shearTo v space s
  | SetScalePivot v space balance => setScalePivot v space balance s
  | SetScalePivotTranslation v space => setScalePivotTranslation v space s
  | SetRotatePivot v space balance => setRotatePivot v space balance s
  | SetRotatePivotTranslation v space => setRotatePivotTranslation v space s
  | RotateToQuat q space => rotateTo_quat q space s
  | RotateToEuler e space => rotateTo_euler e space s
  | SetRotateOrientationQuat q space balance => setRotateOrientation_quat q space balance s
  | SetRotateOrientationEuler e space balance => setRotateOrientation_euler e space balance s
  end.

(** *** Construction *)

(** The from-source values that the constructor without a prim gives: a
    scale of 1.1, a rotation of 5 about x and a translation of
    (0.1, 0.2, 0.3), each number the double of its literal. *)
Definition unboundFromUsd : Components :=
  mkComponents
    (mkMVector (to_double env 1.1) (to_double env 1.1) (to_double env 1.1))
    (mkMEuler 5 0 0 kXYZ)
    (mkMVector (to_double env 0.1) (to_double env 0.2) (to_double env 0.3))
    zeroVec zeroVec zeroVec zeroVec zeroVec identityQuat.

(** The two constructors.  The base class is constructed first and holds
    the identity transformation; the locks are those of the plugs of the
    node, open here.  Both end in [initialiseToPrim()], called with the
    default arguments of its declaration; the declaration is in the
    header, which is not part of the sources, so that [readFromPrim] is
    an argument here.  The constructor with a prim does not copy the
    from-source values to the host values, as [setPrimInternal] does. *)
Definition construct (readFromPrim : bool) : TransformationMatrix :=
  initialiseToPrim readFromPrim
    (mkTM identityComponents zeroTweaks unboundFromUsd None Default [] [] [] zeroVec 0
       false false false).


(** *** The two switches

    [enableReadAnimatedValues] and [enablePushToPrim] begin with the
    change of their flag.  With [enabled] false that is all they do: what
    follows is under [if(enabled)].  With [enabled] true and a bound prim
    they go on to calls of the set functions, made through [translateBy],
    [scaleBy], [shearBy] and [rotateBy] of the base class or directly, and
    on a matrix prim to a store to the transform op; these calls are not
    part of the two definitions. *)
Definition enableReadAnimatedValues_flag (enabled : bool) (s : TransformationMatrix)
  : TransformationMatrix :=
  if enabled then or_flags kReadAnimatedValues s else and_not_flags kReadAnimatedValues s.


(** *** The insert functions, as one operation *)



End Engine.

(** ** The translator of transforms
    ([fileio::translators::TransformTranslator]) *)

Module Translator.

(** [convertRotationOrder]. *)
Definition convertRotationOrder (type : XformOpType) : RotationOrder :=
  match type with
  | TypeRotateX | TypeRotateY | TypeRotateZ | TypeRotateXYZ => kXYZ
  | TypeRotateXZY => kXZY
  | TypeRotateYXZ => kYXZ
  | TypeRotateYZX => kYZX
  | TypeRotateZXY => kZXY
  | TypeRotateZYX => kZYX
  | _ => kXYZ
  end.

(** The attributes of the transform node that the translator holds
    handles of. *)
Inductive TransformAttr :=
  | m_translation | m_rotatePivotTranslate | m_scalePivotTranslate
  | m_rotatePivot | m_scalePivot | m_rotation | m_rotateAxis
  | m_shear | m_scale | m_visible.

Definition pivotTranslate : string := "pivotTranslate".

(** [getAnimationVariables]: the result, the attributes and the conversion
    factor it leaves; [oneDegree] is
    [MAngle(1.0, MAngle::kDegrees).as(MAngle::kRadians)].  The function
    returns 1, that is [true], for a name it does not know. *)
Definition getAnimationVariables (oneDegree : Q) (opIt : UsdMayaXformOpClassification)
    (conversionFactor : Q) : bool * list TransformAttr * Q :=
  let opName := GetName opIt in
  if String.eqb opName Tokens.translate then (false, [m_translation], conversionFactor)
  else if String.eqb opName pivotTranslate then
    (false, [m_rotatePivotTranslate; m_scalePivotTranslate], conversionFactor)
  else if String.eqb opName Tokens.pivot then
    (false, [m_rotatePivot; m_scalePivot], conversionFactor)
  else if String.eqb opName Tokens.rotatePivotTranslate then
    (false, [m_rotatePivotTranslate], conversionFactor)
  else if String.eqb opName Tokens.rotatePivot then (false, [m_rotatePivot], conversionFactor)
  else if String.eqb opName Tokens.rotate then (false, [m_rotation], oneDegree)
  else if String.eqb opName Tokens.rotateAxis then (false, [m_rotateAxis], oneDegree)
  else if String.eqb opName Tokens.scalePivotTranslate then
    (false, [m_scalePivotTranslate], conversionFactor)
  else if String.eqb opName Tokens.scalePivot then (false, [m_scalePivot], conversionFactor)
  else if String.eqb opName Tokens.shear then (false, [m_shear], conversionFactor)
  else if String.eqb opName Tokens.scale then (false, [m_scale], conversionFactor)
  else (true, [], conversionFactor).

(** *** Export *)

(** What the exporter reads from the plugs of the transform node, the
    vectors as [float]; [n_rotateOrder] is [None] for an integer that is
    none of the six rotation orders. *)
Record TransformNode := mkNode {
  n_scale : MVector;
  n_shear : MVector;
  n_rotation : MVector;
  n_rotateOrder : option RotationOrder;
  n_rotateAxis : MVector;
  n_translation : MVector;
  n_scalePivot : MVector;
  n_rotatePivot : MVector;
  n_scalePivotTranslate : MVector;
  n_rotatePivotTranslate : MVector;
  n_inheritsTransform : bool;
  n_visible : bool
}.

(** The answers of the [AnimationTranslator]. *)
Record AnimationTranslator := mkAnimationTranslator {
  isAnimated : TransformAttr -> bool;
  isAnimatedTransform : bool
}.

Record ExporterParams := mkExporterParams {
  m_animTranslator : option AnimationTranslator;
  m_extensiveAnimationCheck : bool;
  m_timeCode : UsdTimeCode
}.

(** The calls made on the animation translator: the plug, the attribute
    it is paired with ([None] for the attribute of an op that could not be
    added) and the scale, where one is given. *)
Inductive Registration :=
  | forceAddTransformPlug (plug : TransformAttr)
  | forceAddPlug (plug : TransformAttr) (attr : option string) (scale : option Q).

(** The prim that is written, the visibility that was authored ([true] for
    [inherited], [false] for [invisible]) and the registrations. *)
Record Export := mkExport {
  e_prim : UsdPrim;
  e_visibility : option bool;
  e_plugs : list Registration
}.

Definition animationCheck (animTranslator : option AnimationTranslator) (plug : TransformAttr)
  : bool :=
  match animTranslator with
  | None => false
  | Some a => isAnimated a plug
  end.

(** [addTranslateOp]; the value is a [GfVec3f]. *)
Definition addTranslateOp (xformSchema : UsdPrim) (attrName : string) (currentValue : MVector)
    (time : UsdTimeCode) (invert : bool) : option string * UsdPrim :=
  match Usd.AddXformOp xformSchema TypeTranslate PrecisionFloat attrName invert with
  | Some (op, p) =>
      (Some (Usd.opAttrName op),
       if negb invert then snd (Usd.SetAs kVec3f p op (VVec currentValue) time) else p)
  | None => (None, xformSchema)
  end.

(** [addRotateOp]; the [default] case of the switch leaves the op
    invalid; the value is a [GfVec3f]. *)
Definition addRotateOp (xformSchema : UsdPrim) (attrName : string)
    (rotateOrder : option RotationOrder) (rotation : MVector) (time : UsdTimeCode)
  : option string * UsdPrim :=
  let added :=
    match rotateOrder with
    | Some kXYZ => Usd.AddXformOp xformSchema TypeRotateXYZ PrecisionFloat attrName false
    | Some kXZY => Usd.AddXformOp xformSchema TypeRotateXZY PrecisionFloat attrName false
    | Some kYXZ => Usd.AddXformOp xformSchema TypeRotateYXZ PrecisionFloat attrName false
    | Some kYZX => Usd.AddXformOp xformSchema TypeRotateYZX PrecisionFloat attrName false
    | Some kZXY => Usd.AddXformOp xformSchema TypeRotateZXY PrecisionFloat attrName false
    | Some kZYX => Usd.AddXformOp xformSchema TypeRotateZYX PrecisionFloat attrName false
    | None => None
    end in
  match added with
  | Some (op, p) => (Some (Usd.opAttrName op), snd (Usd.SetAs kVec3f p op (VVec rotation) time))
  | None => (None, xformSchema)
  end.

(** One block of [copyAttributes] runs when its condition holds. *)
Definition when (c : bool) (block : Export -> Export) (e : Export) : Export :=
  if c then block e else e.

Section Exporter.

Variable env : Env.

(** [const float radToDeg = 57.295779506f], and the product of two
    [float]s. *)
Definition radToDeg : Q := double_to_float env 57.295779506.
Definition fmul (a b : Q) : Q := double_to_float env (a * b).

Variable from : TransformNode.
Variable params : ExporterParams.

Definition hasTranslator : bool :=
  match m_animTranslator params with
  | Some _ => true
  | None => false
  end.

(** [if(plugAnimated && animTranslator) animTranslator->forceAddPlug(...)] *)
Definition register (plugAnimated : bool) (r : Registration) (e : Export) : Export :=
  if plugAnimated && hasTranslator
  then mkExport (e_prim e) (e_visibility e) (e_plugs e ++ [r])
  else e.

Definition visibilityBlock (plugAnimated : bool) (e : Export) : Export :=
  if plugAnimated && hasTranslator
  then mkExport (e_prim e) (e_visibility e) (e_plugs e ++ [forceAddTransformPlug m_visible])
  else mkExport (e_prim e) (Some (n_visible from)) (e_plugs e).

Definition translateBlock (plugAnimated : bool) (plug : TransformAttr) (attrName : string)
    (value : MVector) (invert : bool) (e : Export) : Export :=
  let '(attr, p) := addTranslateOp (e_prim e) attrName value (m_timeCode params) invert in
  register plugAnimated (forceAddPlug plug attr None)
    (mkExport p (e_visibility e) (e_plugs e)).

Definition rotateBlock (plugAnimated : bool) (plug : TransformAttr) (attrName : string)
    (rotateOrder : option RotationOrder) (value : MVector) (e : Export) : Export :=
  let rotation := vmap (fun x => fmul x radToDeg) value in
  let '(attr, p) := addRotateOp (e_prim e) attrName rotateOrder rotation (m_timeCode params) in
  register plugAnimated (forceAddPlug plug attr (Some radToDeg))
    (mkExport p (e_visibility e) (e_plugs e)).

Definition shearBlock (e : Export) : Export :=
  match Usd.AddXformOp (e_prim e) TypeTransform PrecisionDouble Tokens.shear false with
  | Some (op, p) =>
      mkExport (snd (Usd.SetAs kMatrix4d p op (VMatrix (shearMatrix (n_shear from)))
                       (m_timeCode params)))
        (e_visibility e) (e_plugs e)
  | None => e
  end.

Definition scaleBlock (plugAnimated : bool) (e : Export) : Export :=
  match Usd.AddXformOp (e_prim e) TypeScale PrecisionFloat Tokens.scale false with
  | Some (op, p) =>
      register plugAnimated (forceAddPlug m_scale (Some (Usd.opAttrName op)) None)
        (mkExport (snd (Usd.SetAs kVec3f p op (VVec (n_scale from)) (m_timeCode params)))
           (e_visibility e) (e_plugs e))
  | None => register plugAnimated (forceAddPlug m_scale None None) e
  end.

(** [copyAttributes(const MObject& from, UsdPrim& to, const
    ExporterParams& params)].  With the extensive check asked for, the
    animation translator is used without a test: [None] stands for the
    call through a null pointer.  The flag [plugAnimated] that the blocks
    of the two inverse pivot ops test is the one of the block before them
    (of the rotate axis, of the scale). *)
Definition copyAttributes (to : UsdPrim) : option (MStatus * Export) :=
  let animTranslator := m_animTranslator params in
  let check := animationCheck animTranslator in
  match (if m_extensiveAnimationCheck params
         then option_map isAnimatedTransform animTranslator
         else Some false) with
  | None => None
  | Some transformAnimated =>
      (* ClearXformOpOrder, then SetResetXformStack(!inheritsTransform) *)
      let xformSchema := Usd.SetXformOpOrder to [] false in
      let xformSchema :=
        Usd.SetXformOpOrder xformSchema (xformOpOrder xformSchema)
          (negb (n_inheritsTransform from)) in
      let e := mkExport xformSchema None [] in
      let visibleAnimated := check m_visible in
      let e := when (visibleAnimated || negb (Bool.eqb (n_visible from) true))
                 (visibilityBlock visibleAnimated) e in
      let translationAnimated := transformAnimated || check m_translation in
      let e := when (translationAnimated || negb (veqb (n_translation from) zeroVec))
                 (translateBlock translationAnimated m_translation Tokens.translate
                    (n_translation from) false) e in
      let rptAnimated := check m_rotatePivotTranslate in
      let e := when (rptAnimated || negb (veqb (n_rotatePivotTranslate from) zeroVec))
                 (translateBlock rptAnimated m_rotatePivotTranslate Tokens.rotatePivotTranslate
                    (n_rotatePivotTranslate from) false) e in
      let rotatePivotAnimated := check m_rotatePivot in
      let makeRotatePivot := rotatePivotAnimated || negb (veqb (n_rotatePivot from) zeroVec) in
      let e := when makeRotatePivot
                 (translateBlock rotatePivotAnimated m_rotatePivot Tokens.rotatePivot
                    (n_rotatePivot from) false) e in
      let rotationAnimated := transformAnimated || check m_rotation in
      let e := when (rotationAnimated || negb (veqb (n_rotation from) zeroVec))
                 (rotateBlock rotationAnimated m_rotation Tokens.rotate
                    (n_rotateOrder from) (n_rotation from)) e in
      let rotateAxisAnimated := check m_rotateAxis in
      let e := when (rotateAxisAnimated || negb (veqb (n_rotateAxis from) zeroVec))
                 (rotateBlock rotateAxisAnimated m_rotateAxis Tokens.rotateAxis
                    (Some kXYZ) (n_rotateAxis from)) e in
      let e := when makeRotatePivot
                 (translateBlock rotateAxisAnimated m_rotatePivot Tokens.rotatePivot
                    (n_rotatePivot from) true) e in
      let sptAnimated := check m_scalePivotTranslate in
      let e := when (sptAnimated || negb (veqb (n_scalePivotTranslate from) zeroVec))
                 (translateBlock sptAnimated m_scalePivotTranslate Tokens.scalePivotTranslate
                    (n_scalePivotTranslate from) false) e in
      let scalePivotAnimated := check m_scalePivot in
      let makeScalePivot := scalePivotAnimated || negb (veqb (n_scalePivot from) zeroVec) in
      let e := when makeScalePivot
                 (translateBlock scalePivotAnimated m_scalePivot Tokens.scalePivot
                    (n_scalePivot from) false) e in
      let e := when (negb (veqb (n_shear from) zeroVec)) shearBlock e in
      let scaleAnimated := transformAnimated || check m_scale in
      let e := when (scaleAnimated || negb (veqb (n_scale from) oneVec))
                 (scaleBlock scaleAnimated) e in
      let e := when makeScalePivot
                 (translateBlock scaleAnimated m_scalePivot Tokens.scalePivot
                    (n_scalePivot from) true) e in
      Some (kSuccess, e)
  end.

End Exporter.

End Translator.

(** ** [convertDoubleVec4ArrayToFloatVec3Array] (usdmayautils) *)

Module Utils.

Section Convert.

(** [float(x)] *)
Variable to_float : Q -> Q.

(** The loop from [i] on, with [n] rounds to go; [None] stands for an
    access outside of one of the arrays. *)
Fixpoint convertFrom (i n : nat) (input output : list Q) : option (list Q) :=
  match n with
  | O => Some output
  | S n' =>
      match input !! (i * 4)%nat, input !! (i * 4 + 1)%nat, input !! (i * 4 + 2)%nat with
      | Some x, Some y, Some z =>
          if decide (i * 3 + 2 < length output)%nat then
            convertFrom (S i) n' input
              (<[(i * 3 + 2)%nat := to_float z]>
                 (<[(i * 3 + 1)%nat := to_float y]>
                    (<[(i * 3)%nat := to_float x]> output)))
          else None
      | _, _, _ => None
      end
  end.

Definition convertDoubleVec4ArrayToFloatVec3Array (input output : list Q) (count : nat)
  : option (list Q) :=
  convertFrom O count input output.

End Convert.

End Utils.

(** ** [mapUsdPrimToMayaNode] (Utils) *)

Module PrimMapping.

(** The stage as the function uses it: the layer that edits go to, the
    session layer, and the custom data of the prim, by layer and key. *)
Record Stage := mkStage {
  editTarget : string;
  sessionLayer : string;
  customData : gmap (string * string) string
}.

Definition SetEditTarget (layer : string) (st : Stage) : Stage :=
  mkStage layer (sessionLayer st) (customData st).

(** [usdPrim.SetCustomDataByKey(key, value)]: authored in the layer of the
    edit target. *)
Definition SetCustomDataByKey (key value : string) (st : Stage) : Stage :=
  mkStage (editTarget st) (sessionLayer st) (<[(editTarget st, key) := value]> (customData st)).

(** [std::replace(begin, end, from, to)] *)
Fixpoint replace (from to : ascii) (s : string) : string :=
  match s with
  | EmptyString => EmptyString
  | String c rest => String (if Ascii.eqb c from then to else c) (replace from to rest)
  end.

Definition mayaPathAttributeName : string := "MayaPath".

(** [valid] is [usdPrim.IsValid()], [fullPathName] and [dagLength] are the
    full path name and the length of the DAG path of the Maya object,
    [proxyShapeNode] the full path name of the proxy shape when one is
    given, [primPath] the path of the prim. *)
Definition mapUsdPrimToMayaNode (valid : bool) (st : Stage) (fullPathName : string)
    (dagLength : nat) (proxyShapeNode : option string) (primPath : string)
  : string * Stage :=
  if negb valid then (EmptyString, st)
  else
    let previousTarget := editTarget st in
    let st := SetEditTarget (sessionLayer st) st in
    let mayaElementPath :=
      match dagLength, proxyShapeNode with
      | O, Some proxy => replace "/" "|" (String.append proxy primPath)
      | _, _ => fullPathName
      end in
    let st := SetCustomDataByKey mayaPathAttributeName mayaElementPath st in
    let st := SetEditTarget previousTarget st in
    (mayaElementPath, st).

End PrimMapping.

(** ** Vocabulary of the properties *)

(** The role an op is matched by: its suffix, or the role its type names. *)
Definition roleName (op : UsdGeomXformOp) : string :=
  if String.eqb (op_suffix op) EmptyString then
    match op_type op with
    | TypeTranslate => Tokens.translate
    | TypeScale => Tokens.scale
    | TypeTransform => Tokens.transform
    | TypeRotateX | TypeRotateY | TypeRotateZ
    | TypeRotateXYZ | TypeRotateXZY | TypeRotateYXZ
    | TypeRotateYZX | TypeRotateZXY | TypeRotateZYX => Tokens.rotate
    | _ => EmptyString
    end
  else op_suffix op.

(** The classification describes the op: same role, same inversion. *)
Definition corresponds (op : UsdGeomXformOp) (c : UsdMayaXformOpClassification) : Prop :=
  roleName op = GetName c /\ op_inverse op = IsInvertedTwin c.

Definition aligned (s : TransformationMatrix) : Prop :=
  Forall2 corresponds (m_xformops s) (m_orderedOps s).

Definition indices_fit (s : TransformationMatrix) : Prop :=
  (length (m_orderedOpMayaIndices s) <= length (m_orderedOps s))%nat.

(** Alignment, decided. *)
Definition correspondsb (op : UsdGeomXformOp) (c : UsdMayaXformOpClassification) : bool :=
  String.eqb (roleName op) (GetName c) && Bool.eqb (op_inverse op) (IsInvertedTwin c).

Fixpoint alignedb (ops : list UsdGeomXformOp) (classes : list UsdMayaXformOpClassification) : bool :=
  match ops, classes with
  | [], [] => true
  | op :: ops', c :: classes' => correspondsb op c && alignedb ops' classes'
  | _, _ => false
  end.

(** The flag that marks the component of a role as animated. *)
Definition animatedFlagOf (name : string) : option Z :=
  if String.eqb name Tokens.translate then Some kAnimatedTranslation
  else if String.eqb name Tokens.rotate then Some kAnimatedRotation
  else if String.eqb name Tokens.scale then Some kAnimatedScale
  else if String.eqb name Tokens.shear then Some kAnimatedShear
  else if String.eqb name Tokens.transform then Some kAnimatedMatrix
  else None.

Inductive Component :=
  | Scale | Rotation | Translation | Shear | ScalePivot | ScalePivotTranslation
  | RotatePivot | RotatePivotTranslation | RotateOrientation.

Definition componentOf (call : SetComponent) : Component :=
  match call with
  | TranslateTo _ _ => Translation
  | ScaleTo _ _ => Scale
  | ShearTo _ _ => Shear
  | SetScalePivot _ _ _ => ScalePivot
  | SetScalePivotTranslation _ _ => ScalePivotTranslation
  | SetRotatePivot _ _ _ => RotatePivot
  | SetRotatePivotTranslation _ _ => RotatePivotTranslation
  | RotateToQuat _ _ | RotateToEuler _ _ => Rotation
  | SetRotateOrientationQuat _ _ _ | SetRotateOrientationEuler _ _ _ => RotateOrientation
  end.

(** The lock that guards a call, if any. *)
Definition lockedFor (call : SetComponent) (s : TransformationMatrix) : bool :=
  match call with
  | TranslateTo _ _ => isTranslateLocked s
  | ScaleTo _ _ => isScaleLocked s
  | RotateToQuat _ _ | RotateToEuler _ _ => isRotateLocked s
  | _ => false
  end.

Definition coords (v : MVector) : list Q := [vx v; vy v; vz v].

(** The numbers of one component in a group of slots. *)
Definition slot (c : Component) (cs : Components) : list Q :=
  match c with
  | Scale => coords (c_scale cs)
  | Rotation => [ex (c_rotation cs); ey (c_rotation cs); ez (c_rotation cs)]
  | Translation => coords (c_translation cs)
  | Shear => coords (c_shear cs)
  | ScalePivot => coords (c_scalePivot cs)
  | ScalePivotTranslation => coords (c_scalePivotTranslation cs)
  | RotatePivot => coords (c_rotatePivot cs)
  | RotatePivotTranslation => coords (c_rotatePivotTranslation cs)
  | RotateOrientation =>
      [qx (c_rotateOrientation cs); qy (c_rotateOrientation cs);
       qz (c_rotateOrientation cs); qw (c_rotateOrientation cs)]
  end.

Fixpoint zipQ (f : Q -> Q -> Q) (a b : list Q) : list Q :=
  match a, b with
  | x :: a', y :: b' => f x y :: zipQ f a' b'
  | _, _ => []
  end.

(** host value = from-source value + tweak, number by number, the sum
    being the one of doubles *)
Definition tweak_invariant (env : Env) (c : Component) (s : TransformationMatrix) : Prop :=
  Forall2 Qeq (slot c (values s)) (zipQ (dadd env) (slot c (fromUsd s)) (slot c (tweaks s))).

(** The relation of [tweak_invariant] between two lists, decided. *)
Fixpoint all_Qeq (a b : list Q) : bool :=
  match a, b with
  | [], [] => true
  | x :: a', y :: b' => Qeq_bool x y && all_Qeq a' b'
  | _, _ => false
  end.

(** tweak = host value - from-source value, the difference being the one
    of doubles *)
Definition tweak_is_delta (env : Env) (c : Component) (s : TransformationMatrix) : Prop :=
  slot c (tweaks s) = zipQ (dsub env) (slot c (values s)) (slot c (fromUsd s)).


(** A codec write either leaves the prim as it is or stores a value that
    the op does not hold at the time of the comparison; the comparison is
    made at [timeCode] by every write but [pushDouble], which makes it at
    the default time. *)
Definition stores_only_changes (env : Env) (readTime writeTime : UsdTimeCode) (op : UsdGeomXformOp)
    (p p' : UsdPrim) : Prop :=
  p' = p \/
  exists value,
    p' = snd (Usd.Set_ p op value writeTime) /\
    forall old, Usd.Get (interpolate env) p op readTime = Some old -> value_eqb value old = false.

(** *** Vocabulary of a pass of [pushToPrim] *)

(** The content of a prim: everything but the count of the stores. *)
Definition forget_edits (p : UsdPrim) : UsdPrim :=
  mkPrim (prim_attrs p) (xformOpOrder p) (resetsXformStack p) 0.

Definition forget (s : TransformationMatrix) : TransformationMatrix :=
  set_prim (option_map forget_edits (m_prim s)) s.

(** The attributes that a pass of [pushToPrim] addresses: those of the ops
    whose classification is not an inverted twin. *)
Fixpoint pushedAttrs (ops : list UsdGeomXformOp)
    (classes : list UsdMayaXformOpClassification) : list string :=
  match ops, classes with
  | op :: ops', opClass :: classes' =>
      if IsInvertedTwin opClass then pushedAttrs ops' classes'
      else Usd.opAttrName op :: pushedAttrs ops' classes'
  | _, _ => []
  end.

Definition distinct_attributes (s : TransformationMatrix) : Prop :=
  NoDup (pushedAttrs (m_xformops s) (m_orderedOps s)).


(** A change of one attribute of a prim. *)
Definition alter_attr (n : string) (g : UsdAttribute -> UsdAttribute) (p : UsdPrim) : UsdPrim :=
  mkPrim (alter g n (prim_attrs p)) (xformOpOrder p) (resetsXformStack p) (value_edits p).

(** The components of [x], those selected by [sel] replaced by the ones of
    [r]. *)
Definition overwrite (sel : Component -> bool) (r x : Components) : Components :=
  mkComponents
    (if sel Scale then c_scale r else c_scale x)
    (if sel Rotation then c_rotation r else c_rotation x)
    (if sel Translation then c_translation r else c_translation x)
    (if sel Shear then c_shear r else c_shear x)
    (if sel ScalePivot then c_scalePivot r else c_scalePivot x)
    (if sel ScalePivotTranslation then c_scalePivotTranslation r else c_scalePivotTranslation x)
    (if sel RotatePivot then c_rotatePivot r else c_rotatePivot x)
    (if sel RotatePivotTranslation
     then c_rotatePivotTranslation r else c_rotatePivotTranslation x)
    (if sel RotateOrientation then c_rotateOrientation r else c_rotateOrientation x).

Definition restTweaks : Components :=
  mkComponents zeroVec identityEuler zeroVec zeroVec zeroVec zeroVec zeroVec zeroVec
    (mkMQuat 0 0 0 1).

(** What the push of one op amounts to: a change of the attribute of the
    op, and for the selected components a tweak at rest and a from-source
    value equal to the host value. *)
Definition settle (n : string) (g : UsdAttribute -> UsdAttribute) (sel : Component -> bool)
    (s : TransformationMatrix) : TransformationMatrix :=
  set_tweaks (overwrite sel restTweaks (tweaks s))
    (set_fromUsd (overwrite sel (values s) (fromUsd s))
       (set_prim (option_map (alter_attr n g) (m_prim s)) s)).

(** The host side of a state, on which the writes of a pass depend. *)
Definition sameHost (s s' : TransformationMatrix) : Prop :=
  values s = values s' /\
  c_rotateOrientation (fromUsd s) = c_rotateOrientation (fromUsd s') /\
  m_flags s = m_flags s' /\ m_time s = m_time s'.

Definition keep_or_set (keep : UsdAttribute -> bool) (tc : UsdTimeCode) (v : VtValue)
    (x : UsdAttribute) : UsdAttribute :=
  if keep x then x else Usd.attr_set x tc v.

(** The change that a write makes through an op: none when the write is
    refused, as it is for an inverse op. *)
Definition unless (refused : bool) (g : UsdAttribute -> UsdAttribute)
  : UsdAttribute -> UsdAttribute :=
  if refused then fun x => x else g.

Definition by_type (G : UsdDataType -> UsdAttribute -> UsdAttribute) (x : UsdAttribute)
  : UsdAttribute :=
  G (attr_type x) x.

Definition idempotent {A} (g : A -> A) : Prop := forall x, g (g x) = g x.

Definition keeps_type (g : UsdAttribute -> UsdAttribute) : Prop :=
  forall x, attr_type (g x) = attr_type x.

(** The test of [set_if_changed] on the attribute. *)
Definition unchanged (env : Env) (v : VtValue) (readTime : UsdTimeCode) (x : UsdAttribute) : bool :=
  match Usd.attr_get (interpolate env) x readTime with
  | Some oldValue => value_eqb v oldValue
  | None => negb (unset_differs env v)
  end.

(** The change of the attribute that each write of the codec makes, by the
    storage type of the attribute. *)
Definition stored (env : Env) (v : VtValue) (readTime writeTime : UsdTimeCode) :=
  keep_or_set (unchanged env v readTime) writeTime v.

Definition vectorWrite (env : Env) (v : MVector) (tc : UsdTimeCode) (ty : UsdDataType)
  : UsdAttribute -> UsdAttribute :=
  match ty with
  | kVec3d => stored env (VVec v) tc tc
  | kVec3f => stored env (VVec (vmap (double_to_float env) v)) tc tc
  | kVec3h => stored env (VVec (vmap (double_to_half env) v)) tc tc
  | kVec3i => stored env (VVec (vmap (double_to_int env) v)) tc tc
  | _ => fun x => x
  end.

Definition doubleWrite (env : Env) (d : Q) (tc : UsdTimeCode) (ty : UsdDataType)
  : UsdAttribute -> UsdAttribute :=
  match ty with
  | kHalf => stored env (VScalar (double_to_half env d)) Default tc
  | kFloat => stored env (VScalar (double_to_float env d)) Default tc
  | kDouble => stored env (VScalar d) Default tc
  | kInt => stored env (VScalar (double_to_int env d)) Default tc
  | _ => fun x => x
  end.

Definition shearWrite (env : Env) (v : MVector) (tc : UsdTimeCode) (ty : UsdDataType)
  : UsdAttribute -> UsdAttribute :=
  match ty with
  | kMatrix4d => stored env (VMatrix (shearMatrix v)) tc tc
  | _ => fun x => x
  end.

(** A write of the codec: a change of the attribute of the op that a
    second application leaves as it is. *)
Definition attribute_write (op : UsdGeomXformOp) (W : UsdPrim -> UsdPrim) : Prop :=
  exists g, idempotent g /\
    forall p, forget_edits (W p) = alter_attr (Usd.opAttrName op) g (forget_edits p).

Definition component_eqb (c d : Component) : bool :=
  match c, d with
  | Scale, Scale | Rotation, Rotation | Translation, Translation | Shear, Shear
  | ScalePivot, ScalePivot | ScalePivotTranslation, ScalePivotTranslation
  | RotatePivot, RotatePivot | RotatePivotTranslation, RotatePivotTranslation
  | RotateOrientation, RotateOrientation => true
  | _, _ => false
  end.

(** The components named in a list. *)
Definition selects (l : list Component) (c : Component) : bool :=
  existsb (component_eqb c) l.

(** The components whose tweak and from-source value the push of an op of
    a role brings up to date. *)
Definition settledBy (opName : string) : list Component :=
  if String.eqb opName Tokens.translate then [Translation]
  else if String.eqb opName Tokens.pivot then [RotatePivot; ScalePivot]
  else if String.eqb opName Tokens.rotatePivotTranslate then [RotatePivotTranslation]
  else if String.eqb opName Tokens.rotatePivot then [RotatePivot]
  else if String.eqb opName Tokens.rotate then [Rotation]
  else if String.eqb opName Tokens.scalePivotTranslate then [ScalePivotTranslation]
  else if String.eqb opName Tokens.scalePivot then [ScalePivot]
  else if String.eqb opName Tokens.shear then [Shear]
  else if String.eqb opName Tokens.scale then [Scale]
  else [].

(** A component at rest: no tweak, and a from-source value that is the host
    value. *)
Definition at_rest (c : Component) (s : TransformationMatrix) : Prop :=
  slot c (tweaks s) = slot c restTweaks /\ slot c (fromUsd s) = slot c (values s).

(** A pass as a sequence of settlings. *)
Record Settling := mkSettling {
  settled_attr : string;
  settled_change : UsdAttribute -> UsdAttribute;
  settled_components : Component -> bool
}.

Definition settleOne (s : TransformationMatrix) (st : Settling) : TransformationMatrix :=
  settle (settled_attr st) (settled_change st) (settled_components st) s.

Definition settleAll (steps : list Settling) (s : TransformationMatrix) : TransformationMatrix :=
  fold_left settleOne steps s.

Definition well_formed (st : Settling) : Prop :=
  idempotent (settled_change st) /\ settled_components st RotateOrientation = false.

(** What a settling leaves alone. *)
Definition same_frame (s s' : TransformationMatrix) : Prop :=
  sameHost s s' /\ m_xformops s = m_xformops s' /\ m_orderedOps s = m_orderedOps s' /\
  prim_valid s = prim_valid s'.

(** *** Vocabulary of the codec, of the removal and of the frames *)

Definition isVec3 (ty : UsdDataType) : bool :=
  match ty with kVec3d | kVec3f | kVec3h | kVec3i => true | _ => false end.

Definition isScalar (ty : UsdDataType) : bool :=
  match ty with kDouble | kFloat | kHalf | kInt => true | _ => false end.

(** The vector that an attribute of a storage type holds for [v]. *)
Definition narrowVector (env : Env) (ty : UsdDataType) (v : MVector) : MVector :=
  match ty with
  | kVec3f => vmap (double_to_float env) v
  | kVec3h => vmap (double_to_half env) v
  | kVec3i => vmap (double_to_int env) v
  | _ => v
  end.

Definition narrowScalar (env : Env) (ty : UsdDataType) (d : Q) : Q :=
  match ty with
  | kFloat => double_to_float env d
  | kHalf => double_to_half env d
  | kInt => double_to_int env d
  | _ => d
  end.

Definition mat_equiv (a b : GfMatrix4d) : Prop := Forall2 Qeq a b.

(** The store of [v] through an op is not left to chance: the op holds a
    value at the time of the comparison, or the comparison of [v] with an
    unset old value reports a difference. *)
Definition storable (env : Env) (p : UsdPrim) (op : UsdGeomXformOp) (tc : UsdTimeCode)
    (v : VtValue) : Prop :=
  Usd.Get (interpolate env) p op tc <> None \/ unset_differs env v = true.

(** The host vector that the push of an op of a role stores. *)
Definition hostVector (opName : string) (v : Components) : option MVector :=
  if String.eqb opName Tokens.translate then Some (c_translation v)
  else if String.eqb opName Tokens.pivot then Some (c_rotatePivot v)
  else if String.eqb opName Tokens.rotatePivotTranslate then Some (c_rotatePivotTranslation v)
  else if String.eqb opName Tokens.rotatePivot then Some (c_rotatePivot v)
  else if String.eqb opName Tokens.scalePivotTranslate then Some (c_scalePivotTranslation v)
  else if String.eqb opName Tokens.scalePivot then Some (c_scalePivot v)
  else if String.eqb opName Tokens.scale then Some (c_scale v)
  else None.

(** The presence flag that a set call consults. *)
Definition presentFor (call : SetComponent) (s : TransformationMatrix) : bool :=
  match call with
  | TranslateTo _ _ => primHasTranslation s
  | ScaleTo _ _ => primHasScale s
  | ShearTo _ _ => primHasShear s
  | SetScalePivot _ _ _ => primHasScalePivot s
  | SetScalePivotTranslation _ _ => primHasScalePivotTranslate s
  | SetRotatePivot _ _ _ => primHasRotatePivot s
  | SetRotatePivotTranslation _ _ => primHasRotatePivotTranslate s
  | RotateToQuat _ _ | RotateToEuler _ _ => primHasRotation s
  | SetRotateOrientationQuat _ _ _ | SetRotateOrientationEuler _ _ _ => primHasRotateAxes s
  end.




Definition indexInMaya (c : UsdMayaXformOpClassification) : N :=
  FindOpIndex MayaStack (GetName c) (IsInvertedTwin c).

(** What the insertion and the removal of ops leave alone. *)
Definition host_kept (s s' : TransformationMatrix) : Prop :=
  values s' = values s /\ tweaks s' = tweaks s /\ fromUsd s' = fromUsd s /\
  m_time s' = m_time s.

(** What a change of time leaves alone. *)
Definition time_frame (s s' : TransformationMatrix) : Prop :=
  m_prim s' = m_prim s /\ m_flags s' = m_flags s /\ tweaks s' = tweaks s /\
  m_xformops s' = m_xformops s /\ m_orderedOps s' = m_orderedOps s /\
  m_orderedOpMayaIndices s' = m_orderedOpMayaIndices s.

(** Whether the op of role [other] writes the from-source vector of the
    role [role]: the op of the role itself, the transform op, and the
    single pivot for the two pivots. *)
Definition writesVectorOf (other role : string) : bool :=
  String.eqb other role
  || String.eqb other Tokens.transform
  || (String.eqb other Tokens.pivot
      && (String.eqb role Tokens.rotatePivot || String.eqb role Tokens.scalePivot))
  || (String.eqb other Tokens.rotatePivot && String.eqb role Tokens.pivot).

(** The presence flag of a role. *)
Definition presenceFlagOf (name : string) : option Z :=
  if String.eqb name Tokens.translate then Some kPrimHasTranslation
  else if String.eqb name Tokens.pivot then Some kPrimHasPivot
  else if String.eqb name Tokens.rotatePivotTranslate then Some kPrimHasRotatePivotTranslate
  else if String.eqb name Tokens.rotatePivot then Some kPrimHasRotatePivot
  else if String.eqb name Tokens.rotate then Some kPrimHasRotation
  else if String.eqb name Tokens.rotateAxis then Some kPrimHasRotateAxes
  else if String.eqb name Tokens.scalePivotTranslate then Some kPrimHasScalePivotTranslate
  else if String.eqb name Tokens.scalePivot then Some kPrimHasScalePivot
  else if String.eqb name Tokens.shear then Some kPrimHasShear
  else if String.eqb name Tokens.scale then Some kPrimHasScale
  else if String.eqb name Tokens.transform then Some kPrimHasTransform
  else None.



(** Whether a character occurs in a string. *)
Fixpoint occurs (c : ascii) (s : string) : bool :=
  match s with
  | EmptyString => false
  | String d rest => Ascii.eqb d c || occurs c rest
  end.

(** *** Vocabulary of an export *)

(** What a block of the exporter does to the prim: when it runs, it adds
    an op and offers a value to it (no value for an inverted twin). *)
Record Authoring := mkAuthoring {
  au_run : bool;
  au_op : UsdGeomXformOp;
  au_precision : Precision;
  au_value : option VtValue
}.

Definition au_name (a : Authoring) : string := Usd.opAttrName (au_op a).
Definition au_type (a : Authoring) : UsdDataType :=
  Usd.valueTypeOf (op_type (au_op a)) (au_precision a).

Definition author (time : UsdTimeCode) (a : Authoring) (p : UsdPrim) : UsdPrim :=
  if au_run a then
    match Usd.AddXformOp p (op_type (au_op a)) (au_precision a) (op_suffix (au_op a))
            (op_inverse (au_op a)) with
    | Some (op, p1) =>
        match au_value a with
        | Some v => snd (Usd.SetAs (au_type a) p1 op v time)
        | None => p1
        end
    | None => p
    end
  else p.

Definition authorAll (time : UsdTimeCode) (plan : list Authoring) (p : UsdPrim) : UsdPrim :=
  fold_left (fun p a => author time a p) plan p.

(** The attribute of that name can hold values of that type: it does not
    exist yet or it has the type. *)
Definition usable (p : UsdPrim) (n : string) (ty : UsdDataType) : bool :=
  match prim_attrs p !! n with
  | Some x => Usd.dataType_eqb (attr_type x) ty
  | None => true
  end.

(** The op of the block enters the op order. *)
Definition enters (a : Authoring) : bool :=
  au_run a && negb (xformOpType_eqb (op_type (au_op a)) TypeInvalid).

(** The op of the block enters the op order and its attribute takes the
    value of the block. *)
Definition takes (p : UsdPrim) (a : Authoring) : bool :=
  enters a && usable p (au_name a) (au_type a).

Definition entered (plan : list Authoring) : list UsdGeomXformOp :=
  flat_map (fun a => if enters a then [au_op a] else []) plan.

(** No op twice, and one value type for the blocks of one attribute. *)
Fixpoint plan_ok (plan : list Authoring) : bool :=
  match plan with
  | [] => true
  | a :: rest =>
      forallb (fun b => negb (op_eqb (au_op b) (au_op a))
                        && (negb (String.eqb (au_name b) (au_name a))
                            || Usd.dataType_eqb (au_type b) (au_type a))) rest
      && plan_ok rest
  end.

Definition rotateTypeOf (rotateOrder : option RotationOrder) : XformOpType :=
  match rotateOrder with
  | Some o => rotateOpType o
  | None => TypeInvalid
  end.

Definition degrees (env : Env) (v : MVector) : VtValue :=
  VVec (vmap (fun x => Translator.fmul env x (Translator.radToDeg env)) v).

Definition differs (v d : MVector) : bool := negb (veqb v d).

(** The blocks of [copyAttributes] in their order, each with its
    condition, its op and the value it stores. *)
Definition exportPlan (env : Env) (from : Translator.TransformNode)
    (params : Translator.ExporterParams) (transformAnimated : bool) : list Authoring :=
  let check := Translator.animationCheck (Translator.m_animTranslator params) in
  let makeRotatePivot := check Translator.m_rotatePivot || differs (Translator.n_rotatePivot from) zeroVec in
  let makeScalePivot := check Translator.m_scalePivot || differs (Translator.n_scalePivot from) zeroVec in
  [ mkAuthoring (transformAnimated || check Translator.m_translation || differs (Translator.n_translation from) zeroVec)
      (mkOp TypeTranslate Tokens.translate false) PrecisionFloat
      (Some (VVec (Translator.n_translation from)));
    mkAuthoring (check Translator.m_rotatePivotTranslate || differs (Translator.n_rotatePivotTranslate from) zeroVec)
      (mkOp TypeTranslate Tokens.rotatePivotTranslate false) PrecisionFloat
      (Some (VVec (Translator.n_rotatePivotTranslate from)));
    mkAuthoring makeRotatePivot
      (mkOp TypeTranslate Tokens.rotatePivot false) PrecisionFloat
      (Some (VVec (Translator.n_rotatePivot from)));
    mkAuthoring (transformAnimated || check Translator.m_rotation || differs (Translator.n_rotation from) zeroVec)
      (mkOp (rotateTypeOf (Translator.n_rotateOrder from)) Tokens.rotate false) PrecisionFloat
      (Some (degrees env (Translator.n_rotation from)));
    mkAuthoring (check Translator.m_rotateAxis || differs (Translator.n_rotateAxis from) zeroVec)
      (mkOp TypeRotateXYZ Tokens.rotateAxis false) PrecisionFloat
      (Some (degrees env (Translator.n_rotateAxis from)));
    mkAuthoring makeRotatePivot
      (mkOp TypeTranslate Tokens.rotatePivot true) PrecisionFloat None;
    mkAuthoring (check Translator.m_scalePivotTranslate || differs (Translator.n_scalePivotTranslate from) zeroVec)
      (mkOp TypeTranslate Tokens.scalePivotTranslate false) PrecisionFloat
      (Some (VVec (Translator.n_scalePivotTranslate from)));
    mkAuthoring makeScalePivot
      (mkOp TypeTranslate Tokens.scalePivot false) PrecisionFloat
      (Some (VVec (Translator.n_scalePivot from)));
    mkAuthoring (differs (Translator.n_shear from) zeroVec)
      (mkOp TypeTransform Tokens.shear false) PrecisionDouble
      (Some (VMatrix (shearMatrix (Translator.n_shear from))));
    mkAuthoring (transformAnimated || check Translator.m_scale || differs (Translator.n_scale from) oneVec)
      (mkOp TypeScale Tokens.scale false) PrecisionFloat
      (Some (VVec (Translator.n_scale from)));
    mkAuthoring makeScalePivot
      (mkOp TypeTranslate Tokens.scalePivot true) PrecisionFloat None ].

(** The prim before the first block. *)
Definition cleared (from : Translator.TransformNode) (to : UsdPrim) : UsdPrim :=
  mkPrim (prim_attrs to) [] (negb (Translator.n_inheritsTransform from)) (value_edits to).

(** The node has the default of every value that the exporter tests. *)
Definition atDefaults (from : Translator.TransformNode) : bool :=
  Bool.eqb (Translator.n_visible from) true
  && veqb (Translator.n_translation from) zeroVec
  && veqb (Translator.n_rotatePivotTranslate from) zeroVec
  && veqb (Translator.n_rotatePivot from) zeroVec
  && veqb (Translator.n_rotation from) zeroVec
  && veqb (Translator.n_rotateAxis from) zeroVec
  && veqb (Translator.n_scalePivotTranslate from) zeroVec
  && veqb (Translator.n_scalePivot from) zeroVec
  && veqb (Translator.n_shear from) zeroVec
  && veqb (Translator.n_scale from) oneVec.

Local Open Scope Z_scope.

(** Sets of flag bits: [f'] has every bit of [f]; [f'] is [f] with some
    bits of [mask] set. *)
Definition flag_grows (f f' : Z) : Prop :=
  forall k, 0 <= k -> Z.testbit f k = true -> Z.testbit f' k = true.

(** The bits that the initialisation loop may set. *)
Definition initMask : Z :=
  Z.lor kAnimationMask
    (Z.lor kFromMatrix
       (Z.lor kPushPrimToMatrix
          (Z.lor kPrimHasScale (Z.lor kPrimHasRotation (Z.lor kPrimHasTranslation
          (Z.lor kPrimHasShear (Z.lor kPrimHasScalePivot (Z.lor kPrimHasScalePivotTranslate
          (Z.lor kPrimHasRotatePivot (Z.lor kPrimHasRotatePivotTranslate
          (Z.lor kPrimHasRotateAxes (Z.lor kPrimHasPivot kPrimHasTransform)))))))))))).

Definition sets_within (mask f f' : Z) : Prop :=
  forall k, 0 <= k ->
    Z.testbit f' k = Z.testbit f k || (Z.testbit f' k && Z.testbit mask k).

Definition inheritFlags (p : UsdPrim) (f : Z) : Z :=
  if negb (resetsXformStack p) then set_flag f kInheritsTransform else f.

(** What the translate branch of [updateToTime] depends on and writes. *)
Definition translation_view (s s' : TransformationMatrix) : Prop :=
  m_prim s' = m_prim s /\ m_flags s' = m_flags s /\ m_time s' = m_time s /\
  tweaks s' = tweaks s /\
  c_translation (values s') = c_translation (values s) /\
  c_translation (fromUsd s') = c_translation (fromUsd s).

(** The bits of [f'] are those of [f] but for bit 25, which is clear, and
    bits 20 and 22, which may have been set. *)
Definition pivot_flags_split (f f' : Z) : Prop :=
  Z.testbit f' 25 = false /\
  forall k, 0 <= k -> k <> 25 ->
    Z.testbit f' k = Z.testbit f k \/ ((k = 20 \/ k = 22) /\ Z.testbit f' k = true).

Local Close Scope Z_scope.

(** ** Collaborators to run the engine with

    Arithmetic and narrowing that round to the nearest number of the
    binary format, ties to even, as IEEE 754 has it; a host base class
    whose setters store their argument, and one that balances the pivot
    translation as well; held interpolation; a comparison with an unset
    value that reports a difference; and a matcher that follows the
    contract of [MatchingSubstack]. *)

Module Run.

(** The quotient [n / d] of two positive integers rounded to the nearest
    integer, a tie to the even one. *)
Definition halfEven (n d : Z) : Z :=
  let q := (n / d)%Z in
  match (2 * (n mod d) ?= d)%Z with
  | Lt => q
  | Gt => (q + 1)%Z
  | Eq => if Z.even q then q else (q + 1)%Z
  end.

(** Rounding to the binary format with [prec] significant bits whose
    least exponent is [emin]: the exponent [e] is the one for which the
    significand [|x| / 2^e] lies in [2^(prec-1), 2^prec), and [emin] for
    the subnormal numbers.  The format has a largest finite number as
    well, beyond which the source has an infinity; the numbers used below
    stay far from it. *)
Definition nearest (prec emin : Z) (x : Q) : Q :=
  let n := Z.abs (Qnum x) in
  let d := Zpos (Qden x) in
  if (n =? 0)%Z then 0
  else
    let k := (Z.log2 n - Z.log2 d)%Z in
    let a := if (if (0 <=? k)%Z then (d * 2 ^ k <=? n)%Z else (d <=? n * 2 ^ (- k))%Z)
             then k else (k - 1)%Z in
    let e := Z.max (a - prec + 1) emin in
    let r := if (0 <=? e)%Z
             then inject_Z (halfEven n (d * 2 ^ e) * 2 ^ e)
             else Qred (Qmake (halfEven (n * 2 ^ (- e)) d) (Z.to_pos (2 ^ (- e)))) in
    if (Qnum x <? 0)%Z then Qopp r else r.

Definition double : Q -> Q := nearest 53 (-1074).
Definition float : Q -> Q := nearest 24 (-149).
Definition half : Q -> Q := nearest 11 (-24).

(** The truncation towards zero where it is an [int32_t], the least
    [int32_t] elsewhere. *)
Definition toInt32 (q : Q) : Q :=
  let z := Z.quot (Qnum q) (Zpos (Qden q)) in
  if ((-2147483648 <=? z) && (z <=? 2147483647))%Z then inject_Z z
  else inject_Z (-2147483648).

(** The latest sample at or before [t], the first sample before all of
    them. *)
Fixpoint held (l : list (Q * VtValue)) (t : Q) : option VtValue :=
  match l with
  | [] => None
  | (k, v) :: l' =>
      match l' with
      | (k', _) :: _ => if Qle_bool k' t then held l' t else Some v
      | [] => Some v
      end
  end.

Definition accepted (space : Space) : MStatus :=
  match space with kInvalid => kFailure | _ => kSuccess end.

Definition store {A} (upd : A -> Components -> Components) (x : A) (space : Space)
    (c : Components) : MStatus * Components :=
  match space with
  | kInvalid => (kFailure, c)
  | _ => (kSuccess, upd x c)
  end.

Definition quatAsEuler (q : MQuaternion) : MEulerRotation := mkMEuler (qx q) (qy q) (qz q) kXYZ.
Definition eulerAsQuat (e : MEulerRotation) : MQuaternion := mkMQuat (ex e) (ey e) (ez e) 1.

Definition storeBase : MPxBase :=
  mkMPxBase
    (store with_translation) (store with_scale) (store with_shear)
    (fun v sp _ => store with_scalePivot v sp)
    (store with_scalePivotTranslation)
    (fun v sp _ => store with_rotatePivot v sp)
    (store with_rotatePivotTranslation)
    (fun q sp c => store with_rotation
                     (mkMEuler (qx q) (qy q) (qz q) (order (c_rotation c))) sp c)
    (store with_rotation)
    (fun q sp _ => store with_rotateOrientation q sp)
    (fun e sp _ => store with_rotateOrientation (eulerAsQuat e) sp)
    (fun _ c => c)
    (fun _ => identityMatrix).

(** A base class that balances: with [balance] set, [setScalePivot] and
    [setRotatePivot] move the translation of the pivot by the way the
    pivot went, the other way round. *)
Definition rebalanced (t old new : MVector) : MVector :=
  mkMVector (double (vx t + double (vx old - vx new)))
            (double (vy t + double (vy old - vy new)))
            (double (vz t + double (vz old - vz new))).

Definition balancingBase : MPxBase :=
  mkMPxBase
    (MPx_translateTo storeBase) (MPx_scaleTo storeBase) (MPx_shearTo storeBase)
    (fun v sp balance c =>
       store with_scalePivot v sp
         (if balance
          then with_scalePivotTranslation
                 (rebalanced (c_scalePivotTranslation c) (c_scalePivot c) v) c
          else c))
    (MPx_setScalePivotTranslation storeBase)
    (fun v sp balance c =>
       store with_rotatePivot v sp
         (if balance
          then with_rotatePivotTranslation
                 (rebalanced (c_rotatePivotTranslation c) (c_rotatePivot c) v) c
          else c))
    (MPx_setRotatePivotTranslation storeBase)
    (MPx_rotateTo_quat storeBase) (MPx_rotateTo_euler storeBase)
    (MPx_setRotateOrientation_quat storeBase) (MPx_setRotateOrientation_euler storeBase)
    (MPx_decomposeMatrix storeBase) (MPx_asMatrix storeBase).

Definition quatMul (a b : MQuaternion) : MQuaternion :=
  mkMQuat
    (qw a * qx b + qx a * qw b + qy a * qz b - qz a * qy b)
    (qw a * qy b - qx a * qz b + qy a * qw b + qz a * qx b)
    (qw a * qz b + qx a * qy b - qy a * qx b + qz a * qw b)
    (qw a * qw b - qx a * qx b - qy a * qy b - qz a * qz b).

Definition quatInverse (q : MQuaternion) : MQuaternion :=
  let n := qx q * qx q + qy q * qy q + qz q * qz q + qw q * qw q in
  mkMQuat (- qx q / n) (- qy q / n) (- qz q / n) (qw q / n).

Definition plainMath : MayaMath :=
  mkMayaMath eulerAsQuat quatAsEuler quatMul quatInverse
    (fun _ => identityEuler) (fun _ => zeroVec) (fun _ => oneVec) (fun _ => zeroVec).

Definition isThreeAxisRotate (t : XformOpType) : bool :=
  match t with
  | TypeRotateXYZ | TypeRotateXZY | TypeRotateYXZ
  | TypeRotateYZX | TypeRotateZXY | TypeRotateZYX => true
  | _ => false
  end.

Definition isOneOrThreeAxisRotate (t : XformOpType) : bool :=
  match t with
  | TypeRotateX | TypeRotateY | TypeRotateZ => true
  | _ => isThreeAxisRotate t
  end.

Definition IsCompatibleType (c : UsdMayaXformOpClassification) (t : XformOpType) : bool :=
  xformOpType_eqb (GetOpType c) t
  || (String.eqb (GetName c) Tokens.rotate && isOneOrThreeAxisRotate t)
  || (String.eqb (GetName c) Tokens.rotateAxis && isThreeAxisRotate t).

(** First entry of [l] (the entries from index [i] on) that the op matches. *)
Fixpoint findFrom (op : UsdGeomXformOp) (l : list UsdMayaXformOpClassification) (i : nat)
  : option (nat * UsdMayaXformOpClassification) :=
  match l with
  | [] => None
  | c :: l' =>
      if String.eqb (GetName c) (roleName op)
         && Bool.eqb (IsInvertedTwin c) (op_inverse op)
         && IsCompatibleType c (op_type op)
      then Some (i, c)
      else findFrom op l' (S i)
  end.

(** Every op finds an entry after the entry of the op before it. *)
Fixpoint matchOps (stackOps : list UsdMayaXformOpClassification) (next : nat)
    (ops : list UsdGeomXformOp) : option (list (nat * UsdMayaXformOpClassification)) :=
  match ops with
  | [] => Some []
  | op :: ops' =>
      match findFrom op (drop next stackOps) next with
      | None => None
      | Some (i, c) =>
          match matchOps stackOps (S i) ops' with
          | None => None
          | Some r => Some ((i, c) :: r)
          end
      end
  end.

Definition twinsAgree (found : list nat) (pair : N * N) : bool :=
  Bool.eqb (existsb (Nat.eqb (N.to_nat (fst pair))) found)
           (existsb (Nat.eqb (N.to_nat (snd pair))) found).

Definition matchingSubstack (stack : UsdMayaXformStack) (ops : list UsdGeomXformOp)
  : list UsdMayaXformOpClassification :=
  match matchOps (GetOps stack) O ops with
  | None => []
  | Some r =>
      if forallb (twinsAgree (map fst r)) (GetInversionTwins stack) then map snd r else []
  end.

Definition env : Env :=
  mkEnv double float half toInt32 (fun _ => true) held matchingSubstack storeBase plainMath.

Definition balancingEnv : Env :=
  mkEnv double float half toInt32 (fun _ => true) held matchingSubstack balancingBase plainMath.

End Run.

(** ** Concrete prims and states *)

Module Scenario.

Definition vec (x y z : Q) : MVector := mkMVector x y z.

Definition blank (flags : Z) : TransformationMatrix :=
  mkTM identityComponents zeroTweaks identityComponents None Default [] [] [] zeroVec flags
    false false false.

Definition staticAttr (ty : UsdDataType) (v : VtValue) : UsdAttribute := mkAttr ty (Some v) [].

(** A prim of the single-pivot schema: translate, pivot, rotateXYZ, scale
    and the inverse of the pivot; the pivot is at (1,2,3). *)
Definition translateOp : UsdGeomXformOp := mkOp TypeTranslate EmptyString false.
Definition pivotOp : UsdGeomXformOp := mkOp TypeTranslate Tokens.pivot false.
Definition pivotInverseOp : UsdGeomXformOp := mkOp TypeTranslate Tokens.pivot true.
Definition rotateOp : UsdGeomXformOp := mkOp TypeRotateXYZ EmptyString false.
Definition scaleOp : UsdGeomXformOp := mkOp TypeScale EmptyString false.

Definition pivotPrim : UsdPrim :=
  mkPrim
    (<[Usd.opAttrName translateOp := staticAttr kVec3d (VVec (vec 10 0 0))]>
       (<[Usd.opAttrName pivotOp := staticAttr kVec3f (VVec (vec 1 2 3))]>
          (<[Usd.opAttrName rotateOp := staticAttr kVec3f (VVec (vec 0 90 0))]>
             (<[Usd.opAttrName scaleOp := staticAttr kVec3f (VVec (vec 2 2 2))]> ∅))))
    [translateOp; pivotOp; rotateOp; scaleOp; pivotInverseOp] false 0.

(** Bound to the prim with push-to-prim enabled, and with it disabled. *)
Definition pivotState : TransformationMatrix :=
  setPrimInternal Run.env (Some pivotPrim) false (blank kPushToPrimEnabled).

Definition readOnlyState : TransformationMatrix :=
  setPrimInternal Run.env (Some pivotPrim) false (blank 0).

(** The same prim with nothing but the pivot and its inverse. *)
Definition barePivotPrim : UsdPrim :=
  mkPrim (<[Usd.opAttrName pivotOp := staticAttr kVec3f (VVec (vec 1 2 3))]> ∅)
    [pivotOp; pivotInverseOp] false 0.

Definition barePivotState : TransformationMatrix :=
  setPrimInternal Run.env (Some barePivotPrim) false (blank kPushToPrimEnabled).

Definition rotatePivotOp : UsdGeomXformOp := mkOp TypeTranslate Tokens.rotatePivot false.
Definition rotatePivotInverseOp : UsdGeomXformOp := mkOp TypeTranslate Tokens.rotatePivot true.
Definition scalePivotOp : UsdGeomXformOp := mkOp TypeTranslate Tokens.scalePivot false.
Definition scalePivotInverseOp : UsdGeomXformOp := mkOp TypeTranslate Tokens.scalePivot true.

(** A prim whose translate op has two time samples and no default value. *)
Definition animatedPrim : UsdPrim :=
  mkPrim
    (<[Usd.opAttrName translateOp :=
         mkAttr kVec3d None [(1, VVec (vec 1 0 0)); (2, VVec (vec 2 0 0))]]> ∅)
    [translateOp] false 0.

Definition animatedState : TransformationMatrix :=
  setPrimInternal Run.env (Some animatedPrim) false (blank kPushToPrimEnabled).

(** A double-precision rotateX op with a default value and one time sample. *)
Definition rotateXOp : UsdGeomXformOp := mkOp TypeRotateX EmptyString false.

Definition rotateXPrim (default sample : Q) : UsdPrim :=
  mkPrim
    (<[Usd.opAttrName rotateXOp := mkAttr kDouble (Some (VScalar default)) [(1, VScalar sample)]]> ∅)
    [rotateXOp] false 0.

(** A shear op: a matrix4d transform op of suffix "shear". *)
Definition shearOp : UsdGeomXformOp := mkOp TypeTransform Tokens.shear false.

Definition shearPrim : UsdPrim :=
  mkPrim (<[Usd.opAttrName shearOp := staticAttr kMatrix4d (VMatrix identityMatrix)]> ∅)
    [shearOp] false 0.

(** A state whose three component locks are set. *)
Definition lockedState : TransformationMatrix :=
  mkTM identityComponents zeroTweaks identityComponents (Some pivotPrim) Default [] [] [] zeroVec
    kPushToPrimEnabled true true true.



(** A prim whose translation is far out, at 10^16 along x (a double), and
    the engine bound to it with push-to-prim disabled. *)
Definition farPrim : UsdPrim :=
  mkPrim (<[Usd.opAttrName translateOp :=
              staticAttr kVec3d (VVec (vec 10000000000000000 0 0))]> ∅)
    [translateOp] false 0.

Definition farState : TransformationMatrix :=
  setPrimInternal Run.env (Some farPrim) false (blank 0).

(** The engine as the constructor without a prim leaves it. *)
Definition unboundState : TransformationMatrix := construct Run.env true.

(** The states in which [initialiseToPrim] is entered for two of the prims. *)
Definition pivotBinding : TransformationMatrix :=
  set_prim (Some pivotPrim) (blank kPushToPrimEnabled).

Definition animatedBinding : TransformationMatrix :=
  set_prim (Some animatedPrim) (blank kPushToPrimEnabled).

(** The stack of the single-pivot prim once its pivot is split. *)
Definition newStack : list UsdGeomXformOp :=
  [translateOp; rotatePivotOp; rotateOp; rotatePivotInverseOp;
   scalePivotOp; scaleOp; scalePivotInverseOp].

End Scenario.

(** ** A transform node and its export *)

Module Samples.

(** A node with a translation, a rotate pivot, a rotation in the order
    ZXY, a shear and a scale; and a node at its defaults. *)
Definition node : Translator.TransformNode :=
  Translator.mkNode (Scenario.vec 2 2 2) (Scenario.vec 1 0 0) (Scenario.vec 0 1 0) (Some kZXY)
    zeroVec (Scenario.vec 1 2 3) zeroVec (Scenario.vec 1 0 0) zeroVec zeroVec true true.

Definition defaultNode : Translator.TransformNode :=
  Translator.mkNode oneVec zeroVec zeroVec (Some kXYZ)
    zeroVec zeroVec zeroVec zeroVec zeroVec zeroVec true true.

(** No animation translator, the default time. *)
Definition plainParams : Translator.ExporterParams :=
  Translator.mkExporterParams None false Default.

Definition emptyPrim : UsdPrim := mkPrim ∅ [] false 0.

(** The result of the export of [node] to the empty prim. *)
Definition result : MStatus * Translator.Export :=
  Eval vm_compute in
    match Translator.copyAttributes Run.env node plainParams emptyPrim with
    | Some r => r
    | None => (kFailure, Translator.mkExport emptyPrim None [])
    end.

Definition exported : UsdPrim := Eval vm_compute in Translator.e_prim (snd result).

End Samples.

(** * Properties *)

Section FlagFacts.
Local Open Scope Z_scope.

Lemma has_flag_bit (f k : Z) : 0 <= k -> has_flag f (Z.shiftl 1 k) = Z.testbit f k.
Proof.
  intros Hk. unfold has_flag. rewrite Z.shiftl_1_l.
  destruct (Z.testbit f k) eqn:E.
  - apply negb_true_iff, Z.eqb_neq. intros H0.
    assert (Z.testbit (Z.land f (2 ^ k)) k = true) as Hb.
    { rewrite Z.land_spec, E, Z.pow2_bits_true; auto. }
    rewrite H0, Z.bits_0 in Hb. discriminate.
  - apply negb_false_iff, Z.eqb_eq. apply Z.bits_inj'. intros n Hn.
    rewrite Z.land_spec, Z.bits_0, Z.pow2_bits_eqb by lia.
    destruct (Z.eqb_spec k n) as [->|]; [rewrite E|]; auto using andb_false_r.
Qed.

Lemma has_flag_lor (f a b : Z) : has_flag f (Z.lor a b) = has_flag f a || has_flag f b.
Proof.
  unfold has_flag. rewrite Z.land_lor_distr_r.
  destruct (Z.eqb_spec (Z.land f a) 0) as [Ha|Ha], (Z.eqb_spec (Z.land f b) 0) as [Hb|Hb]; simpl.
  - rewrite Ha, Hb. reflexivity.
  - apply negb_true_iff, Z.eqb_neq. rewrite Z.lor_eq_0_iff. tauto.
  - apply negb_true_iff, Z.eqb_neq. rewrite Z.lor_eq_0_iff. tauto.
  - apply negb_true_iff, Z.eqb_neq. rewrite Z.lor_eq_0_iff. tauto.
Qed.

Lemma testbit_set_flag (f m k : Z) : Z.testbit (set_flag f m) k = Z.testbit f k || Z.testbit m k.
Proof. apply Z.lor_spec. Qed.

Lemma testbit_clear_flag (f m k : Z) : 0 <= k ->
  Z.testbit (clear_flag f m) k = Z.testbit f k && negb (Z.testbit m k).
Proof. intros. unfold clear_flag. rewrite Z.land_spec, Z.lnot_spec; auto. Qed.

Lemma testbit_bit (k n : Z) : 0 <= k -> 0 <= n -> Z.testbit (Z.shiftl 1 k) n = (k =? n).
Proof. intros. rewrite Z.shiftl_1_l. apply Z.pow2_bits_eqb; auto. Qed.

End FlagFacts.

Ltac is_flag_constant c :=
  match c with
  | kAnimatedScale => idtac | kAnimatedRotation => idtac | kAnimatedTranslation => idtac
  | kAnimatedMatrix => idtac | kAnimatedShear => idtac | kFromMatrix => idtac
  | kFromMayaSchema => idtac | kSinglePivotSchema => idtac | kPrimHasScale => idtac
  | kPrimHasRotation => idtac | kPrimHasTranslation => idtac | kPrimHasShear => idtac
  | kPrimHasScalePivot => idtac | kPrimHasScalePivotTranslate => idtac
  | kPrimHasRotatePivot => idtac | kPrimHasRotatePivotTranslate => idtac
  | kPrimHasRotateAxes => idtac | kPrimHasPivot => idtac | kPrimHasTransform => idtac
  | kPushToPrimEnabled => idtac | kInheritsTransform => idtac | kPushPrimToMatrix => idtac
  | kReadAnimatedValues => idtac | kAnimationMask => idtac | kAnyKnownSchema => idtac
  | kPreservationMask => idtac
  end.

(** Evaluates the bits of the flag constants that occur in the goal. *)
Ltac flag_bits :=
  repeat match goal with
         | |- context [Z.testbit ?c (Zpos ?k)] =>
             is_flag_constant c;
             let v := eval vm_compute in (Z.testbit c (Zpos k)) in
             change (Z.testbit c (Zpos k)) with v
         | |- context [Z.testbit ?c 0%Z] =>
             is_flag_constant c;
             let v := eval vm_compute in (Z.testbit c 0%Z) in
             change (Z.testbit c 0%Z) with v
         end;
  rewrite ?orb_true_r, ?orb_false_r, ?andb_true_r, ?andb_false_r.

Section Props.
Variable env : Env.
Local Open Scope Z_scope.

Lemma flag_grows_refl f : flag_grows f f.
Proof. intros k _ H; exact H. Qed.

Lemma flag_grows_trans f g h : flag_grows f g -> flag_grows g h -> flag_grows f h.
Proof. intros A B k Hk H. apply B, A; auto. Qed.

Lemma flag_grows_set f m : flag_grows f (set_flag f m).
Proof. intros k _ H. rewrite testbit_set_flag, H. reflexivity. Qed.

(** What one step of the initialisation loop does to the fields that the
    loop does not own. *)
Lemma m_flags_or_flags m s : m_flags (or_flags m s) = set_flag (m_flags s) m.
Proof. reflexivity. Qed.

Lemma animated_if_cases mask op s :
  animated_if mask op s = s \/ animated_if mask op s = or_flags mask s.
Proof.
  unfold animated_if. destruct (m_prim s); auto.
  destruct (1 <? Usd.GetNumTimeSamples u op)%nat; auto.
Qed.

Lemma sets_within_refl mask f : sets_within mask f f.
Proof. intros k _. destruct (Z.testbit f k); reflexivity. Qed.

Lemma sets_within_trans mask f g h :
  sets_within mask f g -> sets_within mask g h -> sets_within mask f h.
Proof.
  intros A B k Hk. specialize (A k Hk). specialize (B k Hk).
  destruct (Z.testbit f k), (Z.testbit g k), (Z.testbit h k), (Z.testbit mask k);
    simpl in *; congruence.
Qed.

Lemma sets_within_set mask f m :
  (forall k, 0 <= k -> Z.testbit m k = true -> Z.testbit mask k = true) ->
  sets_within mask f (set_flag f m).
Proof.
  intros Hm k Hk. rewrite testbit_set_flag. specialize (Hm k Hk).
  destruct (Z.testbit f k), (Z.testbit m k), (Z.testbit mask k); simpl; auto.
  discriminate Hm; reflexivity.
Qed.

Lemma bit_in_initMask n :
  In n [0;1;2;3;4;8;30;16;17;18;19;20;21;22;23;24;25;26] ->
  forall k, 0 <= k -> Z.testbit (Z.shiftl 1 n) k = true -> Z.testbit initMask k = true.
Proof.
  intros Hin k Hk Hb.
  assert (0 <= n) by (simpl in Hin; lia).
  rewrite testbit_bit in Hb by auto. apply Z.eqb_eq in Hb. subst k.
  simpl in Hin.
  repeat (destruct Hin as [<-|Hin]; [reflexivity|]). contradiction.
Qed.

Lemma sets_within_or_flags n s :
  In n [0;1;2;3;4;8;30;16;17;18;19;20;21;22;23;24;25;26] ->
  sets_within initMask (m_flags s) (m_flags (or_flags (Z.shiftl 1 n) s)).
Proof. intros. apply sets_within_set, bit_in_initMask; auto. Qed.

Lemma sets_within_animated_if n op s :
  In n [0;1;2;3;4;8;30;16;17;18;19;20;21;22;23;24;25;26] ->
  sets_within initMask (m_flags s) (m_flags (animated_if (Z.shiftl 1 n) op s)).
Proof.
  intros. destruct (animated_if_cases (Z.shiftl 1 n) op s) as [-> | ->].
  - apply sets_within_refl.
  - apply sets_within_or_flags; auto.
Qed.

Lemma animated_if_prim mask op s : m_prim (animated_if mask op s) = m_prim s.
Proof. destruct (animated_if_cases mask op s) as [-> | ->]; reflexivity. Qed.

Lemma animated_if_xformops mask op s : m_xformops (animated_if mask op s) = m_xformops s.
Proof. destruct (animated_if_cases mask op s) as [-> | ->]; reflexivity. Qed.

Lemma animated_if_orderedOps mask op s : m_orderedOps (animated_if mask op s) = m_orderedOps s.
Proof. destruct (animated_if_cases mask op s) as [-> | ->]; reflexivity. Qed.

Ltac in_list := simpl; tauto.

Ltac init_flags_step :=
  match goal with
  | |- sets_within _ ?f ?f => apply sets_within_refl
  | |- sets_within _ _ (m_flags (animated_if (Z.shiftl 1 ?n) _ ?s)) =>
      eapply sets_within_trans; [| apply (sets_within_animated_if n); in_list]
  | |- sets_within _ _ (m_flags (or_flags (Z.shiftl 1 ?n) ?s)) =>
      eapply sets_within_trans; [| apply (sets_within_or_flags n); in_list]
  end.

Lemma initialiseOp_flags readFromPrim op opClass s :
  sets_within initMask (m_flags s) (m_flags (initialiseOp env readFromPrim op opClass s)).
Proof.
  unfold initialiseOp.
  destruct (IsInvertedTwin opClass); [apply sets_within_refl|].
  repeat match goal with
         | |- context [if String.eqb ?a ?b then _ else _] => destruct (String.eqb a b)
         end;
    destruct readFromPrim;
    cbn [m_flags set_fromUsd set_values];
    unfold kAnimatedScale, kAnimatedRotation, kAnimatedTranslation, kAnimatedMatrix,
      kAnimatedShear, kFromMatrix, kPushPrimToMatrix, kPrimHasScale, kPrimHasRotation,
      kPrimHasTranslation, kPrimHasShear, kPrimHasScalePivot, kPrimHasScalePivotTranslate,
      kPrimHasRotatePivot, kPrimHasRotatePivotTranslate, kPrimHasRotateAxes, kPrimHasPivot,
      kPrimHasTransform;
    repeat init_flags_step.
Qed.

Lemma initialiseOp_frame readFromPrim op opClass s :
  let s' := initialiseOp env readFromPrim op opClass s in
  m_prim s' = m_prim s /\ m_xformops s' = m_xformops s /\ m_orderedOps s' = m_orderedOps s.
Proof.
  unfold initialiseOp.
  destruct (IsInvertedTwin opClass); [auto|].
  repeat match goal with
         | |- context [if String.eqb ?a ?b then _ else _] => destruct (String.eqb a b)
         end;
    destruct readFromPrim;
    cbn [m_prim m_xformops m_orderedOps set_fromUsd set_values or_flags set_flags];
    rewrite ?animated_if_prim, ?animated_if_xformops, ?animated_if_orderedOps;
    cbn [m_prim m_xformops m_orderedOps set_fromUsd set_values or_flags set_flags];
    auto.
Qed.

Lemma initialiseOps_flags readFromPrim ops classes s :
  sets_within initMask (m_flags s) (m_flags (initialiseOps env readFromPrim ops classes s)).
Proof.
  revert classes s. induction ops as [|op ops IH]; intros [|c classes] s; simpl;
    try apply sets_within_refl.
  eapply sets_within_trans; [apply initialiseOp_flags | apply IH].
Qed.

Lemma initialiseOps_frame readFromPrim ops classes s :
  let s' := initialiseOps env readFromPrim ops classes s in
  m_prim s' = m_prim s /\ m_xformops s' = m_xformops s /\ m_orderedOps s' = m_orderedOps s.
Proof.
  revert classes s. induction ops as [|op ops IH]; intros [|c classes] s; simpl; auto.
  destruct (IH classes (initialiseOp env readFromPrim op c s)) as (A & B & C).
  destruct (initialiseOp_frame readFromPrim op c s) as (A' & B' & C').
  simpl in *. rewrite A, B, C. auto.
Qed.

(** *** The schema loop *)

Lemma matchStacks_spec pairs ops flags :
  let r := matchStacks env pairs ops [] flags in
  (fst r = [] /\ snd r = flags /\
     forall st fl, In (st, fl) pairs -> MatchingSubstack env st ops = []) \/
  (exists before st fl after,
      pairs = before ++ (st, fl) :: after /\
      (forall st' fl', In (st', fl') before -> MatchingSubstack env st' ops = []) /\
      MatchingSubstack env st ops <> [] /\
      fst r = MatchingSubstack env st ops /\ snd r = set_flag flags fl).
Proof.
  induction pairs as [|[st fl] pairs IH]; simpl.
  - left. repeat split; auto. intros ? ? [].
  - destruct (MatchingSubstack env st ops) as [|c found] eqn:E.
    + destruct IH as [(A & B & C) | (before & st0 & fl0 & after & A & B & C & D & F)].
      * left. repeat split; auto. intros st' fl' [H|H]; [congruence | eauto].
      * right. exists ((st, fl) :: before), st0, fl0, after. subst pairs.
        repeat split; auto. intros st' fl' [H|H]; [congruence | eauto].
    + right. exists [], st, fl, pairs. simpl. rewrite E.
      repeat split; auto; try discriminate. intros ? ? [].
Qed.

Lemma matchSchema_fields p s :
  m_prim (matchSchema env p s) = m_prim s /\ m_xformops (matchSchema env p s) = xformOpOrder p.
Proof.
  unfold matchSchema, Usd.GetOrderedXformOps; simpl.
  destruct (xformOpOrder p) eqn:E, (negb (resetsXformStack p)); auto.
Qed.

Lemma lockIfAnimated_fields s :
  m_prim (lockIfAnimated s) = m_prim s /\ m_xformops (lockIfAnimated s) = m_xformops s /\
  m_orderedOps (lockIfAnimated s) = m_orderedOps s.
Proof. unfold lockIfAnimated. destruct (has_flag _ _); auto. Qed.

Lemma lockIfAnimated_bit s k :
  0 <= k -> k <> 28 -> k <> 31 ->
  Z.testbit (m_flags (lockIfAnimated s)) k = Z.testbit (m_flags s) k.
Proof.
  intros Hk H28 H31. unfold lockIfAnimated. destruct (has_flag _ _); [|reflexivity].
  cbn [m_flags or_flags and_not_flags set_flags].
  rewrite testbit_set_flag, testbit_clear_flag by auto.
  unfold kReadAnimatedValues, kPushToPrimEnabled.
  rewrite !testbit_bit by lia.
  destruct (Z.eqb_spec 31 k), (Z.eqb_spec 28 k); try lia.
  simpl. rewrite andb_true_r, orb_false_r. reflexivity.
Qed.

Lemma not_in_initMask k : k = 9 \/ k = 10 \/ k = 28 \/ k = 29 \/ k = 31 -> Z.testbit initMask k = false.
Proof. intros [->|[->|[->|[->| ->]]]]; reflexivity. Qed.

Lemma sets_within_outside mask f f' k :
  sets_within mask f f' -> 0 <= k -> Z.testbit mask k = false -> Z.testbit f' k = Z.testbit f k.
Proof.
  intros H Hk Hm. rewrite (H k Hk), Hm, andb_false_r, orb_false_r. reflexivity.
Qed.

Lemma sets_within_grows mask f f' : sets_within mask f f' -> flag_grows f f'.
Proof. intros H k Hk Hb. rewrite (H k Hk), Hb. reflexivity. Qed.

Lemma initialiseToPrim_eq readFromPrim p s :
  m_prim s = Some p ->
  initialiseToPrim env readFromPrim s =
    lockIfAnimated (initialiseLoop env readFromPrim (matchSchema env p s)).
Proof. intros H. unfold initialiseToPrim. rewrite H. reflexivity. Qed.

Lemma initialiseLoop_flags readFromPrim s2 :
  sets_within initMask (m_flags s2) (m_flags (initialiseLoop env readFromPrim s2)).
Proof.
  unfold initialiseLoop. destruct (has_flag _ _);
    [apply initialiseOps_flags | apply sets_within_refl].
Qed.

Lemma initialiseLoop_frame readFromPrim s2 :
  let s' := initialiseLoop env readFromPrim s2 in
  m_prim s' = m_prim s2 /\ m_xformops s' = m_xformops s2 /\ m_orderedOps s' = m_orderedOps s2.
Proof.
  unfold initialiseLoop. destruct (has_flag _ _); [apply initialiseOps_frame | auto].
Qed.

Lemma initialiseLoop_nil readFromPrim s2 :
  m_orderedOps s2 = [] -> initialiseLoop env readFromPrim s2 = s2.
Proof.
  intros H. unfold initialiseLoop. rewrite H. destruct (has_flag _ _); [|reflexivity].
  destruct (m_xformops s2); reflexivity.
Qed.

(** Bits 9 and 10 are the schema flags [kFromMayaSchema] and
    [kSinglePivotSchema]: only the choice of the schema writes them. *)
Lemma schema_bit_kept readFromPrim s2 k :
  k = 9 \/ k = 10 ->
  Z.testbit (m_flags (lockIfAnimated (initialiseLoop env readFromPrim s2))) k =
    Z.testbit (m_flags s2) k.
Proof.
  intros Hk. rewrite lockIfAnimated_bit by lia.
  apply (sets_within_outside initMask); [apply initialiseLoop_flags | lia |].
  apply not_in_initMask. tauto.
Qed.

Lemma schema_bit_grows readFromPrim s2 k :
  0 <= k -> k <> 28 -> k <> 31 ->
  Z.testbit (m_flags s2) k = true ->
  Z.testbit (m_flags (lockIfAnimated (initialiseLoop env readFromPrim s2))) k = true.
Proof.
  intros. rewrite lockIfAnimated_bit by lia.
  apply (sets_within_grows _ _ _ (initialiseLoop_flags readFromPrim s2)); auto.
Qed.

Lemma has_kAnyKnownSchema f :
  has_flag f kAnyKnownSchema = Z.testbit f 8 || (Z.testbit f 9 || Z.testbit f 10).
Proof.
  unfold kAnyKnownSchema. rewrite !has_flag_lor.
  unfold kFromMatrix, kFromMayaSchema, kSinglePivotSchema.
  rewrite !has_flag_bit by lia. reflexivity.
Qed.

Lemma inheritFlags_bit p f k :
  0 <= k -> k <> 29 -> Z.testbit (inheritFlags p f) k = Z.testbit f k.
Proof.
  intros. unfold inheritFlags. destruct (negb _); [|reflexivity].
  rewrite testbit_set_flag. unfold kInheritsTransform. rewrite testbit_bit by lia.
  destruct (Z.eqb_spec 29 k); [lia | apply orb_false_r].
Qed.

Lemma matchSchema_eq p s :
  let r := matchStacks env stackFlagPairs (xformOpOrder p) [] (inheritFlags p (m_flags s)) in
  m_flags (matchSchema env p s) =
    match xformOpOrder p with
    | [] => set_flag (inheritFlags p (m_flags s)) kFromMayaSchema
    | _ => snd r
    end /\
  m_orderedOps (matchSchema env p s) =
    match xformOpOrder p with
    | [] => []
    | _ => fst r
    end.
Proof.
  unfold matchSchema, inheritFlags, Usd.GetOrderedXformOps; simpl.
  destruct (xformOpOrder p) eqn:E, (negb (resetsXformStack p)); auto.
Qed.

(** The two lists after [initialiseToPrim]: the ops are those of the prim and
    the classification is empty or what the matcher returned for one of the
    stacks. *)
Lemma initialiseToPrim_lists readFromPrim s p :
  m_prim s = Some p ->
  let s' := initialiseToPrim env readFromPrim s in
  m_xformops s' = xformOpOrder p /\
  (m_orderedOps s' = [] \/
   exists stack, m_orderedOps s' = MatchingSubstack env stack (xformOpOrder p)).
Proof.
  intros Hp s'. subst s'. rewrite (initialiseToPrim_eq _ p) by exact Hp.
  set (s2 := matchSchema env p s).
  destruct (lockIfAnimated_fields (initialiseLoop env readFromPrim s2)) as (_ & Lx & Lo).
  destruct (initialiseLoop_frame readFromPrim s2) as (_ & Ax & Ao). simpl in Ax, Ao.
  rewrite Lx, Lo, Ax, Ao.
  split. { apply matchSchema_fields. }
  destruct (matchSchema_eq p s) as [_ Ho]. fold s2 in Ho. rewrite Ho.
  destruct (xformOpOrder p) as [|op ops]; [left; reflexivity|].
  destruct (matchStacks_spec stackFlagPairs (op :: ops) (inheritFlags p (m_flags s)))
    as [(E & _) | (_ & st & _ & _ & _ & _ & _ & E & _)].
  - left. exact E.
  - right. exists st. exact E.
Qed.

(** C5.  Schema matching in [initialiseToPrim]: the ops of the prim become
    [m_xformops]; for a prim with ops the stacks are tried in the order
    Maya stack, single-pivot stack, matrix stack, the classification of
    the first stack whose [MatchingSubstack] is not empty becomes
    [m_orderedOps] and its flag is set, while the flags of the Maya and the
    single-pivot schema that were not chosen stay as they were (an empty
    result, which is what the matcher returns for a partial match, moves
    on to the next stack); when no stack matches, the classification is
    empty and no schema flag changes; a prim without ops gets the
    from-Maya-schema flag and an empty classification. *)
Theorem schema_priority (readFromPrim : bool) (s : TransformationMatrix) (p : UsdPrim) :
  m_prim s = Some p ->
  let ops := xformOpOrder p in
  let s' := initialiseToPrim env readFromPrim s in
  m_xformops s' = ops /\
  match ops with
  | [] => m_orderedOps s' = [] /\ has_flag (m_flags s') kFromMayaSchema = true
  | _ :: _ =>
      match MatchingSubstack env MayaStack ops,
            MatchingSubstack env MayaSinglePivotStack ops,
            MatchingSubstack env MatrixStack ops with
      | (_ :: _) as r1, _, _ =>
          m_orderedOps s' = r1 /\ has_flag (m_flags s') kFromMayaSchema = true /\
          has_flag (m_flags s') kSinglePivotSchema = has_flag (m_flags s) kSinglePivotSchema
      | [], (_ :: _) as r2, _ =>
          m_orderedOps s' = r2 /\ has_flag (m_flags s') kSinglePivotSchema = true /\
          has_flag (m_flags s') kFromMayaSchema = has_flag (m_flags s) kFromMayaSchema
      | [], [], (_ :: _) as r3 =>
          m_orderedOps s' = r3 /\ has_flag (m_flags s') kFromMatrix = true /\
          has_flag (m_flags s') kFromMayaSchema = has_flag (m_flags s) kFromMayaSchema /\
          has_flag (m_flags s') kSinglePivotSchema = has_flag (m_flags s) kSinglePivotSchema
      | [], [], [] =>
          m_orderedOps s' = [] /\
          has_flag (m_flags s') kAnyKnownSchema = has_flag (m_flags s) kAnyKnownSchema
      end
  end.
Proof.
  intros Hp ops s'. subst s'. rewrite (initialiseToPrim_eq _ p) by exact Hp.
  set (s2 := matchSchema env p s).
  destruct (lockIfAnimated_fields (initialiseLoop env readFromPrim s2)) as (_ & Lx & Lo).
  destruct (initialiseLoop_frame readFromPrim s2) as (_ & Ax & Ao). simpl in Ax, Ao.
  rewrite Lx, Lo, Ax, Ao.
  split. { apply matchSchema_fields. }
  destruct (matchSchema_eq p s) as [Hf Ho]. fold s2 in Hf, Ho. fold ops in Hf, Ho.
  unfold kFromMayaSchema, kSinglePivotSchema, kFromMatrix.
  rewrite ?has_flag_bit by lia.
  rewrite ?(schema_bit_kept readFromPrim s2 9), ?(schema_bit_kept readFromPrim s2 10) by tauto.
  destruct ops as [|op ops'] eqn:Eops.
  - split; [exact Ho|]. rewrite Hf, testbit_set_flag. flag_bits. reflexivity.
  - cbn [matchStacks stackFlagPairs fst snd] in Hf, Ho.
    destruct (MatchingSubstack env MayaStack (op :: ops')) as [|c1 r1].
    2:{ cbn [fst snd] in Hf, Ho. split; [exact Ho|].
        rewrite Hf, !testbit_set_flag, !inheritFlags_bit by lia. flag_bits.
        split; reflexivity. }
    destruct (MatchingSubstack env MayaSinglePivotStack (op :: ops')) as [|c2 r2].
    2:{ cbn [fst snd] in Hf, Ho. split; [exact Ho|].
        rewrite Hf, !testbit_set_flag, !inheritFlags_bit by lia. flag_bits.
        split; reflexivity. }
    destruct (MatchingSubstack env MatrixStack (op :: ops')) as [|c3 r3].
    2:{ cbn [fst snd] in Hf, Ho. split; [exact Ho|]. split.
        - apply schema_bit_grows; try lia. rewrite Hf, testbit_set_flag. flag_bits.
          reflexivity.
        - rewrite Hf, !testbit_set_flag, !inheritFlags_bit by lia. flag_bits.
          split; reflexivity. }
    cbn [fst snd] in Hf, Ho. split; [exact Ho|].
    rewrite (initialiseLoop_nil _ _ Ho), !has_kAnyKnownSchema.
    rewrite !lockIfAnimated_bit by lia. rewrite Hf, !inheritFlags_bit by lia.
    reflexivity.
Qed.

(** *** Animation *)

Lemma animatedFlagOf_bit name mask :
  animatedFlagOf name = Some mask ->
  exists n, mask = Z.shiftl 1 n /\ 0 <= n <= 4.
Proof.
  unfold animatedFlagOf.
  repeat match goal with
         | |- context [if ?c then _ else _] => destruct c
         end; intros [= <-].
  - exists 2; split; [reflexivity | lia].
  - exists 1; split; [reflexivity | lia].
  - exists 0; split; [reflexivity | lia].
  - exists 4; split; [reflexivity | lia].
  - exists 3; split; [reflexivity | lia].
Qed.

Lemma animated_if_sets mask op s p :
  m_prim s = Some p -> (1 < Usd.GetNumTimeSamples p op)%nat ->
  animated_if mask op s = or_flags mask s.
Proof.
  intros Hp Hn. unfold animated_if. rewrite Hp.
  destruct (Nat.ltb_spec 1 (Usd.GetNumTimeSamples p op)); [reflexivity | lia].
Qed.

Ltac eval_string_eqb :=
  repeat match goal with
         | |- context [String.eqb ?a ?b] =>
             let v := eval vm_compute in (String.eqb a b) in
             match v with
             | true => change (String.eqb a b) with true
             | false => change (String.eqb a b) with false
             end
         end.

Lemma initialiseOp_marks readFromPrim op opClass s p mask :
  IsInvertedTwin opClass = false ->
  animatedFlagOf (GetName opClass) = Some mask ->
  m_prim s = Some p -> (1 < Usd.GetNumTimeSamples p op)%nat ->
  has_flag (m_flags (initialiseOp env readFromPrim op opClass s)) mask = true.
Proof.
  intros Htwin Hname Hp Hn. unfold initialiseOp. rewrite Htwin.
  unfold animatedFlagOf in Hname.
  destruct (String.eqb_spec (GetName opClass) Tokens.translate) as [E|_];
    [|destruct (String.eqb_spec (GetName opClass) Tokens.rotate) as [E|_];
      [|destruct (String.eqb_spec (GetName opClass) Tokens.scale) as [E|_];
        [|destruct (String.eqb_spec (GetName opClass) Tokens.shear) as [E|_];
          [|destruct (String.eqb_spec (GetName opClass) Tokens.transform) as [E|_];
            [|discriminate]]]]];
    injection Hname as <-; rewrite ?E; eval_string_eqb; cbv iota;
    rewrite (animated_if_sets _ _ _ p) by (exact Hp || exact Hn);
    destruct readFromPrim; cbn [m_flags set_fromUsd set_values or_flags set_flags];
    unfold kAnimatedTranslation, kAnimatedRotation, kAnimatedScale, kAnimatedShear, kAnimatedMatrix;
    rewrite has_flag_bit by lia; rewrite !testbit_set_flag; flag_bits;
    rewrite ?testbit_bit by lia; simpl; rewrite ?orb_true_r; reflexivity.
Qed.

Lemma initialiseOps_marks readFromPrim ops classes s p (i : nat) op opClass mask :
  ops !! i = Some op -> classes !! i = Some opClass ->
  IsInvertedTwin opClass = false ->
  animatedFlagOf (GetName opClass) = Some mask ->
  m_prim s = Some p -> (1 < Usd.GetNumTimeSamples p op)%nat ->
  has_flag (m_flags (initialiseOps env readFromPrim ops classes s)) mask = true.
Proof.
  intros Ho Hc Htwin Hname. revert classes s i Ho Hc.
  destruct (animatedFlagOf_bit _ _ Hname) as (n & -> & Hn).
  induction ops as [|o ops IH]; intros [|c classes] s i Ho Hc Hp Hs;
    try discriminate.
  destruct i as [|i]; simpl in Ho, Hc; simpl.
  - injection Ho as ->. injection Hc as ->.
    rewrite has_flag_bit by lia.
    apply (sets_within_grows _ _ _ (initialiseOps_flags readFromPrim ops classes _)); [lia|].
    rewrite <- has_flag_bit by lia. eapply initialiseOp_marks; eauto.
  - eapply IH; eauto.
    destruct (initialiseOp_frame readFromPrim o c s) as (A & _). simpl in A. congruence.
Qed.

Lemma has_kAnimationMask f :
  has_flag f kAnimationMask =
  Z.testbit f 4 || (Z.testbit f 0 || (Z.testbit f 1 || (Z.testbit f 2 || Z.testbit f 3))).
Proof.
  unfold kAnimationMask. rewrite !has_flag_lor.
  unfold kAnimatedShear, kAnimatedScale, kAnimatedRotation, kAnimatedTranslation, kAnimatedMatrix.
  rewrite !has_flag_bit by lia. reflexivity.
Qed.

Lemma lockIfAnimated_locks s :
  hasAnimation (lockIfAnimated s) = true ->
  pushToPrimEnabled (lockIfAnimated s) = false /\ readAnimatedValues (lockIfAnimated s) = true.
Proof.
  unfold hasAnimation, pushToPrimEnabled, readAnimatedValues.
  rewrite has_kAnimationMask, !lockIfAnimated_bit by lia.
  rewrite <- has_kAnimationMask. intros H.
  unfold lockIfAnimated. rewrite H.
  cbn [m_flags or_flags and_not_flags set_flags].
  unfold kPushToPrimEnabled, kReadAnimatedValues.
  rewrite !has_flag_bit by lia.
  rewrite !testbit_set_flag, !testbit_clear_flag by lia.
  rewrite !testbit_bit by lia. simpl. rewrite andb_false_r, orb_true_r. auto.
Qed.

(** C8.  Animation lock of [initialiseToPrim]: an op of the prim with more
    than one time sample whose classification (not an inverted twin) has
    the role translate, rotate, scale, shear or transform leaves the
    animated flag of that component set; and whenever the state that
    [initialiseToPrim] returns has an animated flag, push-to-prim is
    disabled and read-animated-values is enabled in it, whatever the two
    flags were before. *)
Theorem animated_lock (readFromPrim : bool) (s : TransformationMatrix) (p : UsdPrim) :
  m_prim s = Some p ->
  let s' := initialiseToPrim env readFromPrim s in
  (forall (i : nat) op opClass mask,
      m_xformops s' !! i = Some op ->
      m_orderedOps s' !! i = Some opClass ->
      IsInvertedTwin opClass = false ->
      animatedFlagOf (GetName opClass) = Some mask ->
      (1 < Usd.GetNumTimeSamples p op)%nat ->
      has_flag (m_flags s') mask = true) /\
  (hasAnimation s' = true ->
   pushToPrimEnabled s' = false /\ readAnimatedValues s' = true).
Proof.
  intros Hp s'. subst s'. rewrite (initialiseToPrim_eq _ p) by exact Hp.
  set (s2 := matchSchema env p s).
  split; [|apply lockIfAnimated_locks].
  intros i op opClass mask Ho Hc Htwin Hname Hn.
  destruct (lockIfAnimated_fields (initialiseLoop env readFromPrim s2)) as (_ & Lx & Lo).
  destruct (initialiseLoop_frame readFromPrim s2) as (_ & Ax & Ao). simpl in Ax, Ao.
  rewrite Lx, Ax in Ho. rewrite Lo, Ao in Hc.
  destruct (animatedFlagOf_bit _ _ Hname) as (n & Hmask & Hrange).
  rewrite Hmask, has_flag_bit, lockIfAnimated_bit by lia.
  rewrite <- has_flag_bit, <- Hmask by lia.
  assert (Hknown : has_flag (m_flags s2) kAnyKnownSchema = true).
  { destruct (matchSchema_eq p s) as [Hf Hord]. fold s2 in Hf, Hord.
    destruct (xformOpOrder p) as [|o ops] eqn:E.
    - rewrite Hord in Hc. discriminate.
    - destruct (matchStacks_spec stackFlagPairs (o :: ops) (inheritFlags p (m_flags s)))
        as [(A & _) | (before & st & fl & after & Hpairs & _ & _ & _ & Hsnd)].
      + rewrite Hord, A in Hc. discriminate.
      + rewrite Hf, Hsnd, has_kAnyKnownSchema, !testbit_set_flag.
        assert (fl = kFromMayaSchema \/ fl = kSinglePivotSchema \/ fl = kFromMatrix) as Hfl.
        { assert (In (st, fl) stackFlagPairs) as Hin
            by (rewrite Hpairs; apply in_elt).
          simpl in Hin. destruct Hin as [H|[H|[H|[]]]]; inversion H; auto. }
        destruct Hfl as [-> | [-> | ->]]; flag_bits; reflexivity. }
  unfold initialiseLoop. rewrite Hknown.
  eapply initialiseOps_marks; eauto.
  destruct (matchSchema_fields p s) as [A _]. fold s2 in A. congruence.
Qed.

(** *** Locks *)

(** C10.  A locked component refuses its setter: with the translate (rotate,
    scale) lock set, [translateTo] (both [rotateTo], [scaleTo]) returns
    success and the state it was given, prim included: neither the host
    values nor the tweaks nor the op lists change and nothing is pushed. *)
Theorem locked_setters_change_nothing (s : TransformationMatrix) :
  (isTranslateLocked s = true ->
   forall v space, translateTo env v space s = (kSuccess, s)) /\
  (isRotateLocked s = true ->
   (forall q space, rotateTo_quat env q space s = (kSuccess, s)) /\
   (forall e space, rotateTo_euler env e space s = (kSuccess, s))) /\
  (isScaleLocked s = true ->
   forall v space, scaleTo env v space s = (kSuccess, s)).
Proof.
  repeat split; intros; unfold translateTo, rotateTo_quat, rotateTo_euler, scaleTo;
    match goal with H : _ = true |- _ => rewrite H end; reflexivity.
Qed.

(** *** Codec results *)

(** C9.  What the code does where the claim expects [true]: [pushShear]
    reports [false] for every op, time and value, also for an op of
    matrix4d storage on which it has just performed the write (lemma
    [pushShear_writes]). *)
Theorem pushShear_reports_false (result : MVector) (op : UsdGeomXformOp)
    (timeCode : UsdTimeCode) (p : UsdPrim) :
  fst (pushShear env result op timeCode p) = false.
Proof. unfold pushShear. destruct (Usd.GetTypeName p op); reflexivity. Qed.

Lemma pushShear_writes (result : MVector) (op : UsdGeomXformOp)
    (timeCode : UsdTimeCode) (p : UsdPrim) :
  Usd.GetTypeName p op = kMatrix4d ->
  pushShear env result op timeCode p =
  (false, set_if_changed env p op (VMatrix (shearMatrix result)) timeCode timeCode).
Proof. intros H. unfold pushShear. rewrite H. reflexivity. Qed.

(** *** Removal *)



(** *** Alignment of the two lists *)

Section ListEdits.
Context {A B : Type} (R : A -> B -> Prop).

Lemma Forall2_insert_at (i : nat) x y l k :
  Forall2 R l k -> R x y -> Forall2 R (insert_at i x l) (insert_at i y k).
Proof.
  intros H Hxy. unfold insert_at. apply Forall2_app.
  - apply Forall2_take, H.
  - constructor; [exact Hxy | apply Forall2_drop, H].
Qed.

Lemma Forall2_erase_at (i : nat) l k :
  Forall2 R l k -> Forall2 R (erase_at i l) (erase_at i k).
Proof.
  intros H. unfold erase_at. apply Forall2_app; [apply Forall2_take | apply Forall2_drop]; exact H.
Qed.

Lemma erase_insert_at (i : nat) (x : A) l :
  (i <= length l)%nat -> erase_at i (insert_at i x l) = l.
Proof.
  intros Hi. unfold erase_at, insert_at.
  rewrite take_app_le by (rewrite length_take; lia).
  rewrite take_take, Nat.min_id.
  rewrite drop_app_ge by (rewrite length_take; lia).
  rewrite length_take, Nat.min_l by lia.
  replace (S i - i)%nat with 1%nat by lia. simpl. rewrite drop_0.
  apply take_drop.
Qed.

End ListEdits.

Lemma MayaStack_lookup name inverted c :
  stack_nth MayaStack (FindOpIndex MayaStack name inverted) = Some c ->
  GetName c = name /\ IsInvertedTwin c = inverted.
Proof.
  unfold FindOpIndex, MayaStack. cbn [GetOps find_index_from GetName IsInvertedTwin].
  repeat match goal with
         | |- context [String.eqb ?a name] =>
             destruct (String.eqb_spec a name); cbn [andb]
         | |- context [Bool.eqb ?a inverted] =>
             destruct (Bool.eqb_spec a inverted); cbn [andb]
         end;
    try (intros [= <-]; split; assumption);
    try (vm_compute; discriminate).
Qed.

Lemma addOp_aligned opType precision opName opIndex inverted insertAtBeginning s :
  opName <> EmptyString ->
  opIndex = FindOpIndex MayaStack opName inverted ->
  aligned s ->
  aligned (snd (addOp opType precision opName opIndex insertAtBeginning s)).
Proof.
  intros Hname -> Hal. unfold addOp.
  destruct (stack_nth MayaStack _) as [opClass|] eqn:E; [|exact Hal].
  destruct (m_prim s) as [p|]; [|exact Hal].
  destruct (Usd.AddXformOp p opType precision opName (IsInvertedTwin opClass))
    as [[op p']|] eqn:EA; [|exact Hal].
  unfold aligned. cbn [snd m_xformops m_orderedOps set_indices set_xformops set_orderedOps set_prim].
  apply Forall2_insert_at; [exact Hal|].
  assert (op = mkOp opType opName (IsInvertedTwin opClass)) as ->.
  { unfold Usd.AddXformOp in EA.
    repeat match type of EA with
           | context [if ?c then _ else _] => destruct c
           | context [match ?c with _ => _ end] => destruct c
           end; congruence. }
  destruct (MayaStack_lookup _ _ _ E) as [Hn Hi].
  split; [|reflexivity].
  unfold roleName. cbn [op_suffix].
  destruct (String.eqb_spec opName EmptyString); [contradiction | congruence].
Qed.

Lemma addOp_result opType precision opName opIndex insertAtBeginning s :
  match addOp opType precision opName opIndex insertAtBeginning s with
  | (None, s') => s' = s
  | (Some pos, s') =>
      (pos <= length (m_orderedOpMayaIndices s))%nat /\
      m_flags s' = m_flags s /\
      exists op opClass,
        m_xformops s' = insert_at pos op (m_xformops s) /\
        m_orderedOps s' = insert_at pos opClass (m_orderedOps s) /\
        m_orderedOpMayaIndices s' = insert_at pos opIndex (m_orderedOpMayaIndices s)
  end.
Proof.
  unfold addOp.
  destruct (stack_nth MayaStack opIndex) as [opClass|]; [|reflexivity].
  destruct (m_prim s) as [p|]; [|reflexivity].
  destruct (Usd.AddXformOp p opType precision opName (IsInvertedTwin opClass))
    as [[op p']|]; [|reflexivity].
  split; [|split; [reflexivity | exists op, opClass; auto]].
  destruct insertAtBeginning; [lia|].
  unfold findOpInsertPos. generalize (m_orderedOpMayaIndices s). clear.
  induction l as [|y l IH]; simpl; [lia|]. destruct (y <? opIndex)%N; lia.
Qed.

Lemma buildOrderedOpMayaIndices_lists s :
  m_xformops (buildOrderedOpMayaIndices s) = m_xformops s /\
  m_orderedOps (buildOrderedOpMayaIndices s) = m_orderedOps s /\
  (indices_fit s -> indices_fit (buildOrderedOpMayaIndices s)).
Proof.
  unfold buildOrderedOpMayaIndices, indices_fit.
  destruct (m_orderedOpMayaIndices s) eqn:Ei, (m_orderedOps s) eqn:Eo; auto;
    repeat match goal with |- context [if ?c then _ else _] => destruct c end;
    cbn [m_xformops m_orderedOps m_orderedOpMayaIndices set_indices];
    rewrite ?Ei, ?Eo, ?length_map; auto.
Qed.

Lemma commitOrder_lists newFlag s :
  m_xformops (commitOrder newFlag s) = m_xformops s /\
  m_orderedOps (commitOrder newFlag s) = m_orderedOps s.
Proof. unfold commitOrder. destruct (m_prim s); auto. Qed.

Lemma aligned_ext s s' :
  m_xformops s' = m_xformops s -> m_orderedOps s' = m_orderedOps s -> aligned s -> aligned s'.
Proof. unfold aligned. intros -> ->. auto. Qed.

Lemma eraseInserted_aligned i s : aligned s -> aligned (eraseInserted i s).
Proof. intros H. apply Forall2_erase_at, H. Qed.

Lemma insertOp_aligned opType precision opName newFlag insertAtBeginning s :
  opName <> EmptyString -> aligned s ->
  aligned (snd (insertOp opType precision opName newFlag insertAtBeginning s)).
Proof.
  intros Hname Hal. unfold insertOp.
  destruct (buildOrderedOpMayaIndices_lists s) as (Bx & Bo & _).
  assert (Hb : aligned (buildOrderedOpMayaIndices s)) by (eapply aligned_ext; eauto).
  set (s1 := buildOrderedOpMayaIndices s) in *.
  unfold FindOpIndexPair. cbn [fst snd].
  assert (A2 := addOp_aligned opType precision opName _ true insertAtBeginning s1 Hname eq_refl Hb).
  destruct (negb (FindOpIndex MayaStack opName true =? NO_INDEX)%N).
  - destruct (addOp opType precision opName (FindOpIndex MayaStack opName true)
                insertAtBeginning s1) as [[secondPos|] s2]; [|exact A2].
    cbn [snd] in A2.
    assert (A1 := addOp_aligned opType precision opName _ false insertAtBeginning s2 Hname eq_refl A2).
    destruct (addOp opType precision opName (FindOpIndex MayaStack opName false)
                insertAtBeginning s2) as [[firstPos|] s3]; cbn [snd] in *.
    + destruct (commitOrder_lists newFlag s3). eapply aligned_ext; eauto.
    + apply eraseInserted_aligned, A1.
  - assert (A1 := addOp_aligned opType precision opName _ false insertAtBeginning s1 Hname eq_refl Hb).
    destruct (addOp opType precision opName (FindOpIndex MayaStack opName false)
                insertAtBeginning s1) as [[firstPos|] s3]; cbn [snd] in *.
    + destruct (commitOrder_lists newFlag s3). eapply aligned_ext; eauto.
    + exact A1.
Qed.

(** A failed insertion leaves the two lists as they were. *)
Lemma insertOp_rollback opType precision opName newFlag insertAtBeginning s :
  aligned s -> indices_fit s ->
  fst (insertOp opType precision opName newFlag insertAtBeginning s) = kFailure ->
  let s' := snd (insertOp opType precision opName newFlag insertAtBeginning s) in
  m_xformops s' = m_xformops s /\ m_orderedOps s' = m_orderedOps s.
Proof.
  intros Hal Hfit. unfold insertOp.
  destruct (buildOrderedOpMayaIndices_lists s) as (Bx & Bo & Bf). specialize (Bf Hfit).
  set (s1 := buildOrderedOpMayaIndices s) in *.
  unfold FindOpIndexPair. cbn [fst snd].
  destruct (negb (FindOpIndex MayaStack opName true =? NO_INDEX)%N).
  - pose proof (addOp_result opType precision opName (FindOpIndex MayaStack opName true)
                  insertAtBeginning s1) as R2.
    destruct (addOp opType precision opName (FindOpIndex MayaStack opName true)
                insertAtBeginning s1) as [[secondPos|] s2].
    + destruct R2 as (Hpos & _ & op & opClass & Hx & Ho & Hi).
      pose proof (addOp_result opType precision opName (FindOpIndex MayaStack opName false)
                    insertAtBeginning s2) as R1.
      destruct (addOp opType precision opName (FindOpIndex MayaStack opName false)
                  insertAtBeginning s2) as [[firstPos|] s3]; cbn [fst snd].
      * discriminate.
      * intros _. subst s3.
        cbn [eraseInserted m_xformops m_orderedOps set_indices set_xformops set_orderedOps].
        rewrite Hx, Ho.
        assert (length (m_xformops s1) = length (m_orderedOps s1)) as Hlen.
        { rewrite Bx, Bo. apply (Forall2_length _ _ _ Hal). }
        unfold indices_fit in Bf.
        rewrite !erase_insert_at by lia. auto.
    + cbn [fst snd]. intros _. subst s2. auto.
  - pose proof (addOp_result opType precision opName (FindOpIndex MayaStack opName false)
                  insertAtBeginning s1) as R1.
    destruct (addOp opType precision opName (FindOpIndex MayaStack opName false)
                insertAtBeginning s1) as [[firstPos|] s3]; cbn [fst snd].
    + discriminate.
    + intros _. subst s3. auto.
Qed.

Lemma eraseOpAt_aligned i s : aligned s -> aligned (eraseOpAt i s).
Proof.
  intros H. unfold eraseOpAt.
  cbn [m_orderedOpMayaIndices set_xformops set_orderedOps].
  destruct (m_orderedOpMayaIndices s); apply Forall2_erase_at, H.
Qed.

Lemma removeOpFrom_aligned opName i foundOne s :
  aligned s -> aligned (snd (removeOpFrom opName i foundOne s)).
Proof.
  revert foundOne s. induction i as [|i IH]; intros foundOne s H; simpl.
  - destruct (nameAt s 0 opName); [|destruct foundOne; exact H].
    destruct foundOne; apply eraseOpAt_aligned, H.
  - destruct (nameAt s (S i) opName).
    + destruct foundOne; [apply eraseOpAt_aligned, H|]. apply IH, eraseOpAt_aligned, H.
    + apply IH, H.
Qed.

Lemma removeOp_aligned opName oldFlag s :
  aligned s -> aligned (snd (removeOp opName oldFlag s)).
Proof.
  intros H. unfold removeOp.
  assert (aligned (snd (match m_orderedOps s with
                        | [] => (false, s)
                        | _ :: rest => removeOpFrom opName (length rest) false s
                        end))) as H'.
  { destruct (m_orderedOps s); [exact H | apply removeOpFrom_aligned, H]. }
  destruct (match m_orderedOps s with
            | [] => (false, s)
            | _ :: rest => removeOpFrom opName (length rest) false s
            end) as [foundOne s1]. cbn [snd] in H'.
  destruct foundOne; cbn [negb snd].
  - cbn [and_not_flags m_prim set_flags]. destruct (m_prim s1); exact H'.
  - exact H'.
Qed.

(** *** Growth of the lists under a successful insertion *)

Lemma length_insert_at {A} (i : nat) (x : A) l : length (insert_at i x l) = S (length l).
Proof.
  unfold insert_at. rewrite length_app, length_take. simpl. rewrite length_drop. lia.
Qed.

Lemma insertOp_grows opType precision opName newFlag insertAtBeginning s :
  fst (insertOp opType precision opName newFlag insertAtBeginning s) = kSuccess ->
  let s' := snd (insertOp opType precision opName newFlag insertAtBeginning s) in
  let n := if (FindOpIndex MayaStack opName true =? NO_INDEX)%N then 1%nat else 2%nat in
  length (m_xformops s') = (length (m_xformops s) + n)%nat /\
  length (m_orderedOps s') = (length (m_orderedOps s) + n)%nat.
Proof.
  unfold insertOp.
  destruct (buildOrderedOpMayaIndices_lists s) as (Bx & Bo & _).
  set (s1 := buildOrderedOpMayaIndices s) in *.
  unfold FindOpIndexPair. cbn [fst snd].
  destruct (FindOpIndex MayaStack opName true =? NO_INDEX)%N; cbn [negb].
  - pose proof (addOp_result opType precision opName (FindOpIndex MayaStack opName false)
                  insertAtBeginning s1) as R1.
    destruct (addOp opType precision opName (FindOpIndex MayaStack opName false)
                insertAtBeginning s1) as [[firstPos|] s3]; cbn [fst snd]; [|discriminate].
    intros _. destruct R1 as (_ & _ & op & c & Hx & Ho & _).
    destruct (commitOrder_lists newFlag s3) as [-> ->].
    rewrite Hx, Ho, !length_insert_at, Bx, Bo. lia.
  - pose proof (addOp_result opType precision opName (FindOpIndex MayaStack opName true)
                  insertAtBeginning s1) as R2.
    destruct (addOp opType precision opName (FindOpIndex MayaStack opName true)
                insertAtBeginning s1) as [[secondPos|] s2]; cbn [fst snd]; [|discriminate].
    destruct R2 as (_ & _ & op2 & c2 & Hx2 & Ho2 & _).
    pose proof (addOp_result opType precision opName (FindOpIndex MayaStack opName false)
                  insertAtBeginning s2) as R1.
    destruct (addOp opType precision opName (FindOpIndex MayaStack opName false)
                insertAtBeginning s2) as [[firstPos|] s3]; cbn [fst snd]; [|discriminate].
    intros _. destruct R1 as (_ & _ & op & c & Hx & Ho & _).
    destruct (commitOrder_lists newFlag s3) as [-> ->].
    rewrite Hx, Ho, !length_insert_at, Hx2, Ho2, !length_insert_at, Bx, Bo. lia.
Qed.

(** C6.  Insertion and removal keep the classification list aligned with
    the op list: from a state whose i-th classification describes its
    i-th op (same role, same inversion), [insertOp] of any named role
    ends, on success and on failure, in such a state again, with lists of
    equal length; a successful [insertOp] makes both lists longer by one
    entry, by two for a role with an inverse twin; a failed [insertOp]
    leaves both lists as they were (the entry inserted for the inverse
    twin is erased from both when the insertion of its partner fails);
    [removeOp] too ends in an aligned state with lists of equal length. *)
Theorem lists_stay_aligned (s : TransformationMatrix) :
  aligned s ->
  (forall opType precision opName newFlag insertAtBeginning,
      opName <> EmptyString ->
      let r := insertOp opType precision opName newFlag insertAtBeginning s in
      let n := if (FindOpIndex MayaStack opName true =? NO_INDEX)%N then 1%nat else 2%nat in
      aligned (snd r) /\
      length (m_orderedOps (snd r)) = length (m_xformops (snd r)) /\
      (fst r = kSuccess ->
       length (m_xformops (snd r)) = (length (m_xformops s) + n)%nat /\
       length (m_orderedOps (snd r)) = (length (m_orderedOps s) + n)%nat) /\
      (indices_fit s -> fst r = kFailure ->
       m_xformops (snd r) = m_xformops s /\ m_orderedOps (snd r) = m_orderedOps s)) /\
  (forall opName oldFlag,
      let r := removeOp opName oldFlag s in
      aligned (snd r) /\ length (m_orderedOps (snd r)) = length (m_xformops (snd r))).
Proof.
  intros Hal. split.
  - intros opType precision opName newFlag insertAtBeginning Hname r n.
    pose proof (insertOp_aligned opType precision opName newFlag insertAtBeginning s Hname Hal) as A.
    split; [exact A|]. split; [|split].
    + symmetry. apply (Forall2_length _ _ _ A).
    + intros Hok. apply insertOp_grows, Hok.
    + intros Hfit Hfail. apply insertOp_rollback; auto.
  - intros opName oldFlag r.
    pose proof (removeOp_aligned opName oldFlag s Hal) as A.
    split; [exact A|]. symmetry. apply (Forall2_length _ _ _ A).
Qed.

(** *** Tweaks *)

Lemma pushComponent_off primHasOp isIdentity ins status s :
  pushToPrimAvailable s = false ->
  pushComponent env primHasOp isIdentity ins status s = (status, s).
Proof. intros H. unfold pushComponent. rewrite H. reflexivity. Qed.

Lemma pushToPrimAvailable_ext s s' :
  m_flags s' = m_flags s -> m_prim s' = m_prim s ->
  pushToPrimAvailable s' = pushToPrimAvailable s.
Proof.
  intros Hf Hp. unfold pushToPrimAvailable, pushToPrimEnabled, prim_valid. rewrite Hf, Hp.
  reflexivity.
Qed.

Ltac run_setter H :=
  match goal with
  | |- context [let '(status, vals) := ?b in _] =>
      let st := fresh "status" in
      let vals := fresh "vals" in
      destruct b as [st vals];
      rewrite pushComponent_off
        by (destruct (status_ok st);
            (rewrite <- H; apply pushToPrimAvailable_ext; reflexivity))
  end;
  cbn [fst snd].

Lemma setter_frame (call : SetComponent) (s : TransformationMatrix) :
  pushToPrimAvailable s = false ->
  let s' := snd (setComponent env call s) in
  forall c', c' <> componentOf call ->
    slot c' (tweaks s') = slot c' (tweaks s) /\ slot c' (fromUsd s') = slot c' (fromUsd s).
Proof.
  intros Hpush.
  destruct call; cbn [setComponent componentOf];
    unfold translateTo, scaleTo, shearTo, setScalePivot, setScalePivotTranslation,
      setRotatePivot, setRotatePivotTranslation, rotateTo_quat, rotateTo_euler,
      setRotateOrientation_quat, setRotateOrientation_euler;
    try match goal with
        | |- context [if ?l s then _ else _] => destruct (l s); [cbn [snd]; auto|]
        end;
    match goal with
    | |- context [let '(status, vals) := ?b in _] =>
        let st := fresh "status" in
        let vals := fresh "vals" in
        destruct b as [st vals];
        rewrite pushComponent_off
          by (destruct (status_ok st);
              (rewrite <- Hpush; apply pushToPrimAvailable_ext; reflexivity));
        destruct st
    end;
    cbn [snd status_ok]; intros c' Hc'; destruct c'; try (split; reflexivity);
    exfalso; apply Hc'; reflexivity.
Qed.

Lemma locked_call_refused (call : SetComponent) (s : TransformationMatrix) :
  lockedFor call s = true -> setComponent env call s = (kSuccess, s).
Proof.
  destruct call; cbn [setComponent lockedFor]; try discriminate; intros H;
    unfold translateTo, scaleTo, rotateTo_quat, rotateTo_euler; rewrite H; reflexivity.
Qed.

Ltac open_setter Hpush Hlock :=
  cbn [setComponent lockedFor componentOf] in *;
  unfold translateTo, scaleTo, shearTo, setScalePivot, setScalePivotTranslation,
    setRotatePivot, setRotatePivotTranslation, rotateTo_quat, rotateTo_euler,
    setRotateOrientation_quat, setRotateOrientation_euler;
  rewrite ?Hlock;
  run_setter Hpush.

Lemma rejected_call_keeps_tweaks (call : SetComponent) (s : TransformationMatrix) :
  pushToPrimAvailable s = false ->
  lockedFor call s = false ->
  fst (setComponent env call s) = kFailure ->
  tweaks (snd (setComponent env call s)) = tweaks s /\
  fromUsd (snd (setComponent env call s)) = fromUsd s.
Proof.
  intros Hpush Hlock.
  destruct call; open_setter Hpush Hlock; intros ->; cbn [status_ok]; split; reflexivity.
Qed.

Lemma vector_call_sets_delta (call : SetComponent) (s : TransformationMatrix) :
  pushToPrimAvailable s = false ->
  lockedFor call s = false ->
  fst (setComponent env call s) = kSuccess ->
  componentOf call <> RotateOrientation ->
  tweak_is_delta env (componentOf call) (snd (setComponent env call s)) /\
  fromUsd (snd (setComponent env call s)) = fromUsd s.
Proof.
  intros Hpush Hlock.
  destruct call; open_setter Hpush Hlock; intros -> Hc; cbn [status_ok];
    try (exfalso; apply Hc; reflexivity);
    split; reflexivity.
Qed.

Lemma orientation_call_sets_source (call : SetComponent) (s : TransformationMatrix) :
  pushToPrimAvailable s = false ->
  fst (setComponent env call s) = kSuccess ->
  componentOf call = RotateOrientation ->
  tweaks (snd (setComponent env call s)) = tweaks s /\
  c_rotateOrientation (fromUsd (snd (setComponent env call s))) =
    quat_mul (math env) (c_rotateOrientation (values (snd (setComponent env call s))))
      (quat_inverse (math env) (c_rotateOrientation (tweaks s))).
Proof.
  intros Hpush.
  destruct call; cbn [componentOf]; intros Hs Hc; try discriminate Hc; revert Hs;
    open_setter Hpush (@eq_refl bool false); intros ->; cbn [status_ok];
    split; reflexivity.
Qed.

(** C1, as the code does it.  With push-to-prim unavailable, for every
    set-component call: a call that a lock refuses returns the state it
    was given; a call that the base class rejects changes no tweak and no
    from-source value; a call on one of the eight vector components
    (translate, rotate, scale, shear, the two pivots and the two pivot
    translations) that is carried out sets the tweak of its component to
    the host value minus the from-source value, the difference of
    doubles, and leaves the from-source values as they are; a call on
    rotate-orientation that is carried out changes no tweak and sets the
    from-source orientation to the host orientation times the inverse of
    the tweak.  Whatever the call, the tweak and the from-source value of
    every other component stay, so that a component whose host value the
    base class leaves alone keeps the relation host value = from-source
    value + tweak if it had it. *)
Theorem tweak_bookkeeping (call : SetComponent) (s : TransformationMatrix) :
  pushToPrimAvailable s = false ->
  let r := setComponent env call s in
  let s' := snd r in
  let c := componentOf call in
  (lockedFor call s = true -> r = (kSuccess, s)) /\
  (lockedFor call s = false -> fst r = kFailure ->
     tweaks s' = tweaks s /\ fromUsd s' = fromUsd s) /\
  (lockedFor call s = false -> fst r = kSuccess -> c <> RotateOrientation ->
     tweak_is_delta env c s' /\ fromUsd s' = fromUsd s) /\
  (fst r = kSuccess -> c = RotateOrientation ->
     tweaks s' = tweaks s /\
     c_rotateOrientation (fromUsd s') =
       quat_mul (math env) (c_rotateOrientation (values s'))
         (quat_inverse (math env) (c_rotateOrientation (tweaks s)))) /\
  (forall c', c' <> c ->
     slot c' (tweaks s') = slot c' (tweaks s) /\
     slot c' (fromUsd s') = slot c' (fromUsd s) /\
     (slot c' (values s') = slot c' (values s) ->
      tweak_invariant env c' s -> tweak_invariant env c' s')).
Proof.
  intros Hpush r s' c.
  split; [apply locked_call_refused|].
  split; [apply rejected_call_keeps_tweaks, Hpush|].
  split; [apply vector_call_sets_delta, Hpush|].
  split; [apply orientation_call_sets_source, Hpush|].
  intros c' Hc'.
  destruct (setter_frame call s Hpush c' Hc') as [Ht Hf].
  split; [exact Ht|]. split; [exact Hf|].
  intros Hv. unfold tweak_invariant. subst s' r. rewrite Hv, Ht, Hf. auto.
Qed.

(** *** Time *)

Lemma translation_view_refl s : translation_view s s.
Proof. repeat split. Qed.

Lemma translation_view_trans s1 s2 s3 :
  translation_view s1 s2 -> translation_view s2 s3 -> translation_view s1 s3.
Proof.
  unfold translation_view. intros (A1 & A2 & A3 & A4 & A5 & A6) (B1 & B2 & B3 & B4 & B5 & B6).
  repeat split; congruence.
Qed.

Lemma updateOp_other op opClass s :
  GetName opClass <> Tokens.translate ->
  hasAnimatedMatrix s = false ->
  translation_view s (updateOp env op opClass s).
Proof.
  intros Hname Hmat. unfold updateOp.
  destruct (String.eqb_spec (GetName opClass) Tokens.translate); [contradiction|].
  rewrite Hmat.
  repeat match goal with
         | |- context [if ?c then _ else _] => destruct c
         end; repeat split.
Qed.

Lemma updateOps_other ops classes s :
  (forall c, In c classes -> GetName c <> Tokens.translate) ->
  hasAnimatedMatrix s = false ->
  translation_view s (updateOps env ops classes s).
Proof.
  revert classes s. induction ops as [|op ops IH]; intros [|c classes] s Hn Hm; simpl;
    try apply translation_view_refl.
  assert (V := updateOp_other op c s (Hn c (or_introl eq_refl)) Hm).
  eapply translation_view_trans; [exact V|].
  apply IH; [intros; apply Hn; right; assumption|].
  destruct V as (_ & Hf & _). unfold hasAnimatedMatrix in *. rewrite Hf. exact Hm.
Qed.

Lemma updateOp_translate op opClass s :
  GetName opClass = Tokens.translate ->
  hasAnimatedTranslation s = true ->
  let from := internal_readVector env s (c_translation (fromUsd s)) op in
  let s' := updateOp env op opClass s in
  m_prim s' = m_prim s /\ m_flags s' = m_flags s /\ m_time s' = m_time s /\
  tweaks s' = tweaks s /\
  c_translation (values s') = vadd env from (c_translation (tweaks s)) /\
  c_translation (fromUsd s') = from.
Proof.
  intros Hname Hanim. unfold updateOp. rewrite Hname.
  change (String.eqb Tokens.translate Tokens.translate) with true. cbv iota.
  rewrite Hanim. repeat split.
Qed.

Lemma updateOps_translate ops classes s (i : nat) op opClass :
  ops !! i = Some op -> classes !! i = Some opClass ->
  GetName opClass = Tokens.translate ->
  (forall (j : nat) c, classes !! j = Some c -> j <> i -> GetName c <> Tokens.translate) ->
  hasAnimatedMatrix s = false -> hasAnimatedTranslation s = true ->
  let from := internal_readVector env s (c_translation (fromUsd s)) op in
  let s' := updateOps env ops classes s in
  tweaks s' = tweaks s /\
  c_translation (values s') = vadd env from (c_translation (tweaks s)) /\
  c_translation (fromUsd s') = from.
Proof.
  revert classes s i. induction ops as [|o ops IH]; intros [|c classes] s i Ho Hc Hname Huniq Hm Ha;
    try discriminate.
  destruct i as [|i]; simpl in Ho, Hc.
  - injection Ho as ->. injection Hc as ->. simpl.
    destruct (updateOp_translate op opClass s Hname Ha) as (A1 & A2 & A3 & A4 & A5 & A6).
    destruct (updateOps_other ops classes (updateOp env op opClass s))
      as (B1 & B2 & B3 & B4 & B5 & B6).
    + intros c' Hin. apply list_elem_of_In, list_elem_of_lookup in Hin.
      destruct Hin as [j Hj]. apply (Huniq (S j) c'); [exact Hj | lia].
    + unfold hasAnimatedMatrix in *. rewrite A2. exact Hm.
    + repeat split; congruence.
  - simpl.
    assert (V := updateOp_other o c s (Huniq 0%nat c eq_refl ltac:(lia)) Hm).
    destruct V as (A1 & A2 & A3 & A4 & A5 & A6).
    destruct (IH classes (updateOp env o c s) i Ho Hc Hname) as (B1 & B2 & B3).
    + intros j c' Hj Hne. apply (Huniq (S j) c'); [exact Hj | lia].
    + unfold hasAnimatedMatrix in *. rewrite A2. exact Hm.
    + unfold hasAnimatedTranslation in *. rewrite A2. exact Ha.
    + assert (internal_readVector env (updateOp env o c s)
                (c_translation (fromUsd (updateOp env o c s))) op =
              internal_readVector env s (c_translation (fromUsd s)) op) as E.
      { unfold internal_readVector, getTimeCode, readAnimatedValues.
        rewrite A1, A2, A3, A6. reflexivity. }
      rewrite E in B2, B3. repeat split; congruence.
Qed.

(** C4, as the code does it.  Tweak conservation.  With push-to-prim
    unavailable, animated values being read, translate not locked, the
    base class storing [v], and a stack in step with its classifications
    that holds one op of role translate, translation animated (and no
    animated matrix): after [translateTo v] the translate tweak is [v]
    minus the from-source value before the edit; after [updateToTime T] to
    a time other than the current one, at which the op reads [src], the
    tweak is still that and the host translate is [src] plus it (sum and
    difference are those of doubles).  And [updateToTime T] returns the
    state it was given when [T] is the current time. *)
Theorem tweak_survives_time :
  (forall (s : TransformationMatrix) (p : UsdPrim) (v src : MVector) (space : Space)
          (T : UsdTimeCode) (i : nat) (op : UsdGeomXformOp)
          (opClass : UsdMayaXformOpClassification) (vals : Components),
      m_prim s = Some p ->
      aligned s ->
      pushToPrimAvailable s = false ->
      isTranslateLocked s = false ->
      MPx_translateTo (base env) v space (values s) = (kSuccess, vals) ->
      c_translation vals = v ->
      m_xformops s !! i = Some op ->
      m_orderedOps s !! i = Some opClass ->
      GetName opClass = Tokens.translate ->
      (forall (j : nat) c, m_orderedOps s !! j = Some c -> j <> i ->
                           GetName c <> Tokens.translate) ->
      hasAnimatedTranslation s = true ->
      hasAnimatedMatrix s = false ->
      readAnimatedValues s = true ->
      timecode_eqb (m_time s) T = false ->
      readVector env p op T = Some src ->
      let edited := snd (translateTo env v space s) in
      let advanced := updateToTime env T edited in
      c_translation (tweaks edited) = vsub env v (c_translation (fromUsd s)) /\
      c_translation (tweaks advanced) = c_translation (tweaks edited) /\
      c_translation (values advanced) = vadd env src (vsub env v (c_translation (fromUsd s)))) /\
  (forall (s : TransformationMatrix) (T : UsdTimeCode),
      timecode_eqb (m_time s) T = true -> updateToTime env T s = s).
Proof.
  split.
  - intros s p v src space T i op opClass vals Hp _ Hpush Hlock Hbase Hv Ho Hc Hname Huniq
      Ha Hm Hr Ht Hsrc edited advanced.
    assert (He : edited =
              set_tweaks (with_translation (vsub env v (c_translation (fromUsd s))) (tweaks s))
                (set_values vals s)).
    { subst edited. unfold translateTo. rewrite Hlock, Hbase. cbn [status_ok].
      rewrite pushComponent_off
        by (rewrite <- Hpush; apply pushToPrimAvailable_ext; reflexivity).
      cbn [snd values set_tweaks set_values fromUsd]. rewrite Hv. reflexivity. }
    assert (Hanim : hasAnimation edited = true).
    { rewrite He. unfold hasAnimation, hasAnimatedTranslation in *.
      cbn [m_flags set_tweaks set_values].
      rewrite has_kAnimationMask. unfold kAnimatedTranslation in Ha.
      rewrite has_flag_bit in Ha by lia. rewrite Ha, !orb_true_r. reflexivity. }
    subst advanced. unfold updateToTime.
    replace (m_prim edited) with (Some p) by (rewrite He; symmetry; exact Hp).
    replace (m_time edited) with (m_time s) by (rewrite He; reflexivity).
    rewrite Ht. cbn [negb].
    replace (hasAnimation (set_time T edited)) with true
      by (rewrite <- Hanim; reflexivity).
    destruct (updateOps_translate (m_xformops (set_time T edited))
                (m_orderedOps (set_time T edited)) (set_time T edited) i op opClass)
      as (B1 & B2 & B3); try assumption; try (rewrite He; assumption).
    assert (internal_readVector env (set_time T edited)
              (c_translation (fromUsd (set_time T edited))) op = src) as E.
    { unfold internal_readVector, getTimeCode.
      replace (m_prim (set_time T edited)) with (Some p) by (rewrite He; symmetry; exact Hp).
      replace (readAnimatedValues (set_time T edited)) with true
        by (rewrite <- Hr, He; reflexivity).
      cbn [m_time set_time]. rewrite Hsrc. reflexivity. }
    rewrite E in B2.
    split; [rewrite He; reflexivity|]. split.
    + rewrite B1. reflexivity.
    + rewrite B2. rewrite He. reflexivity.
  - intros s T Ht. unfold updateToTime. rewrite Ht. destruct (m_prim s); reflexivity.
Qed.

(** *** Pivot splitting terminates within two levels *)

Lemma removeOpFrom_flags opName i foundOne s :
  m_flags (snd (removeOpFrom opName i foundOne s)) = m_flags s.
Proof.
  assert (E : forall j x, m_flags (eraseOpAt j x) = m_flags x).
  { intros j x. unfold eraseOpAt.
    cbn [m_orderedOpMayaIndices set_xformops set_orderedOps].
    destruct (m_orderedOpMayaIndices x); reflexivity. }
  revert foundOne s. induction i as [|i IH]; intros foundOne s; simpl.
  - destruct (nameAt s 0 opName); [|destruct foundOne; reflexivity].
    destruct foundOne; apply E.
  - destruct (nameAt s (S i) opName).
    + destruct foundOne; [apply E|]. rewrite IH. apply E.
    + apply IH.
Qed.

Lemma removeOp_flags opName oldFlag s :
  m_flags (snd (removeOp opName oldFlag s)) = clear_flag (m_flags s) oldFlag.
Proof.
  unfold removeOp.
  assert (m_flags (snd (match m_orderedOps s with
                        | [] => (false, s)
                        | _ :: rest => removeOpFrom opName (length rest) false s
                        end)) = m_flags s) as H.
  { destruct (m_orderedOps s); [reflexivity | apply removeOpFrom_flags]. }
  destruct (match m_orderedOps s with
            | [] => (false, s)
            | _ :: rest => removeOpFrom opName (length rest) false s
            end) as [foundOne s1]. cbn [snd] in H.
  destruct foundOne; cbn [negb snd].
  - destruct (m_prim (and_not_flags oldFlag s1));
      cbn [m_flags set_prim and_not_flags set_flags]; congruence.
  - cbn [m_flags and_not_flags set_flags]. congruence.
Qed.

Lemma insertOp_flags opType precision opName newFlag insertAtBeginning s :
  let s' := snd (insertOp opType precision opName newFlag insertAtBeginning s) in
  m_flags s' = m_flags s \/ m_flags s' = set_flag (m_flags s) newFlag.
Proof.
  assert (B : m_flags (buildOrderedOpMayaIndices s) = m_flags s).
  { unfold buildOrderedOpMayaIndices.
    destruct (m_orderedOpMayaIndices s), (m_orderedOps s); try reflexivity;
      repeat match goal with |- context [if ?c then _ else _] => destruct c end; reflexivity. }
  assert (C : forall x, m_flags (commitOrder newFlag x) = set_flag (m_flags x) newFlag).
  { intros x. unfold commitOrder. destruct (m_prim x); reflexivity. }
  unfold insertOp. set (s1 := buildOrderedOpMayaIndices s) in *.
  unfold FindOpIndexPair. cbn [fst snd].
  destruct (negb (FindOpIndex MayaStack opName true =? NO_INDEX)%N).
  - pose proof (addOp_result opType precision opName (FindOpIndex MayaStack opName true)
                  insertAtBeginning s1) as R2.
    destruct (addOp opType precision opName (FindOpIndex MayaStack opName true)
                insertAtBeginning s1) as [[secondPos|] s2].
    + destruct R2 as (_ & F2 & _).
      pose proof (addOp_result opType precision opName (FindOpIndex MayaStack opName false)
                    insertAtBeginning s2) as R1.
      destruct (addOp opType precision opName (FindOpIndex MayaStack opName false)
                  insertAtBeginning s2) as [[firstPos|] s3]; cbn [snd].
      * destruct R1 as (_ & F1 & _). right. rewrite C. congruence.
      * subst s3. left. cbn [eraseInserted m_flags set_indices set_xformops set_orderedOps].
        congruence.
    + subst s2. left. exact B.
  - pose proof (addOp_result opType precision opName (FindOpIndex MayaStack opName false)
                  insertAtBeginning s1) as R1.
    destruct (addOp opType precision opName (FindOpIndex MayaStack opName false)
                insertAtBeginning s1) as [[firstPos|] s3]; cbn [snd].
    + destruct R1 as (_ & F1 & _). right. rewrite C. congruence.
    + subst s3. left. exact B.
Qed.

Lemma insertPivotOpWith_no_pivot n opName newFlag s :
  primHasPivot s = false ->
  insertPivotOpWith (splitPivotIfNeededFuel (S n)) opName newFlag s =
  Some (insertOp TypeTranslate PrecisionFloat opName newFlag false s).
Proof.
  intros H. unfold insertPivotOpWith. simpl. rewrite H. reflexivity.
Qed.

Lemma has_bit25 f : has_flag f kPrimHasPivot = Z.testbit f 25.
Proof. unfold kPrimHasPivot. apply has_flag_bit. lia. Qed.

(** X17.  The mutual calls between splitPivotIfNeeded and
    insertRotatePivotOp / insertScalePivotOp end: two levels of calls
    always suffice, because the inner calls find the pivot flag cleared by
    removeOp; a larger bound on the depth gives the same result. *)
Lemma splitPivotIfNeeded_fuel (n : nat) (s : TransformationMatrix) :
  splitPivotIfNeededFuel (S (S n)) s = Some (splitPivotIfNeeded s).
Proof.
  assert (H : forall m, splitPivotIfNeededFuel (S (S m)) s = splitPivotIfNeededFuel 2 s
                        /\ splitPivotIfNeededFuel 2 s <> None).
  { intros m.
    change (splitPivotIfNeededFuel (S (S m)) s) with
      (if negb (primHasPivot s) then Some (false, s)
       else if veqb (c_scalePivot (values s)) (c_rotatePivot (values s)) then Some (true, s)
       else
         match removeOp Tokens.pivot kPrimHasPivot s with
         | (kFailure, s) => Some (true, s)
         | (kSuccess, s) =>
             match insertPivotOpWith (splitPivotIfNeededFuel (S m))
                     Tokens.rotatePivot kPrimHasRotatePivot s with
             | None => None
             | Some (kFailure, s) => Some (true, s)
             | Some (kSuccess, s) =>
                 match insertPivotOpWith (splitPivotIfNeededFuel (S m))
                         Tokens.scalePivot kPrimHasScalePivot s with
                 | None => None
                 | Some (_, s) => Some (true, s)
                 end
             end
         end).
    change (splitPivotIfNeededFuel 2 s) with
      (if negb (primHasPivot s) then Some (false, s)
       else if veqb (c_scalePivot (values s)) (c_rotatePivot (values s)) then Some (true, s)
       else
         match removeOp Tokens.pivot kPrimHasPivot s with
         | (kFailure, s) => Some (true, s)
         | (kSuccess, s) =>
             match insertPivotOpWith (splitPivotIfNeededFuel 1)
                     Tokens.rotatePivot kPrimHasRotatePivot s with
             | None => None
             | Some (kFailure, s) => Some (true, s)
             | Some (kSuccess, s) =>
                 match insertPivotOpWith (splitPivotIfNeededFuel 1)
                         Tokens.scalePivot kPrimHasScalePivot s with
                 | None => None
                 | Some (_, s) => Some (true, s)
                 end
             end
         end).
    destruct (negb (primHasPivot s)); [split; [reflexivity|discriminate]|].
    destruct (veqb _ _); [split; [reflexivity|discriminate]|].
    pose proof (removeOp_flags Tokens.pivot kPrimHasPivot s) as Hf.
    destruct (removeOp Tokens.pivot kPrimHasPivot s) as [[|] s1]; cbn [snd] in Hf;
      [|split; [reflexivity|discriminate]].
    assert (P1 : primHasPivot s1 = false).
    { unfold primHasPivot. rewrite has_bit25, Hf, testbit_clear_flag by lia.
      flag_bits. reflexivity. }
    rewrite !insertPivotOpWith_no_pivot by exact P1.
    pose proof (insertOp_flags TypeTranslate PrecisionFloat Tokens.rotatePivot
                  kPrimHasRotatePivot false s1) as Hi.
    destruct (insertOp TypeTranslate PrecisionFloat Tokens.rotatePivot
                kPrimHasRotatePivot false s1) as [[|] s2]; cbn [snd] in Hi;
      [|split; [reflexivity|discriminate]].
    assert (P2 : primHasPivot s2 = false).
    { unfold primHasPivot in *. rewrite has_bit25 in *.
      destruct Hi as [-> | ->]; [exact P1|].
      rewrite testbit_set_flag, P1. flag_bits. reflexivity. }
    rewrite !insertPivotOpWith_no_pivot by exact P2.
    destruct (insertOp TypeTranslate PrecisionFloat Tokens.scalePivot
                kPrimHasScalePivot false s2) as [st s3].
    split; [reflexivity|discriminate]. }
  destruct (H n) as [E Hn]. rewrite E. unfold splitPivotIfNeeded.
  destruct (splitPivotIfNeededFuel 2 s); [reflexivity | contradiction].
Qed.

(** *** Codec writes store only what differs *)

Lemma set_if_changed_cases p op value readTime writeTime :
  set_if_changed env p op value readTime writeTime = p \/
  (set_if_changed env p op value readTime writeTime = snd (Usd.Set_ p op value writeTime) /\
   forall old, Usd.Get (interpolate env) p op readTime = Some old -> value_eqb value old = false).
Proof.
  unfold set_if_changed.
  destruct (Usd.Get (interpolate env) p op readTime) as [old|].
  - destruct (value_eqb value old) eqn:E; [left; reflexivity|].
    right. split; [reflexivity|]. intros ? [= <-]. exact E.
  - destruct (unset_differs env value); [|left; reflexivity].
    right. split; [reflexivity|]. discriminate.
Qed.

(** X6.  A write of pushVector, pushPoint, pushShear, pushMatrix or
    pushDouble either leaves the prim untouched or stores a value that
    differs from the one the op holds at the time of the comparison. The
    comparison is made at the time of the write, but by pushDouble, which
    makes it at the default time. *)
Lemma codec_writes_skip_equal_values op timeCode p :
  (forall v, stores_only_changes env timeCode timeCode op p (snd (pushVector env v op timeCode p))) /\
  (forall v, stores_only_changes env timeCode timeCode op p (snd (pushPoint env v op timeCode p))) /\
  (forall v, stores_only_changes env timeCode timeCode op p (snd (pushShear env v op timeCode p))) /\
  (forall m, stores_only_changes env timeCode timeCode op p (snd (pushMatrix env m op timeCode p))) /\
  (forall d, stores_only_changes env Default timeCode op p (pushDouble env d op timeCode p)).
Proof.
  unfold stores_only_changes, pushVector, pushPoint, pushShear, pushMatrix, pushDouble.
  repeat split; intros;
    destruct (Usd.GetTypeName p op); cbn [snd]; try (left; reflexivity);
    try (match goal with
         | |- context [set_if_changed env p op ?v ?r ?w] =>
             destruct (set_if_changed_cases p op v r w) as [-> | [-> H]];
             [left; reflexivity | right; exists v; split; [reflexivity | exact H]]
         end).
  destruct (Usd.Get (interpolate env) p op timeCode) as [old|] eqn:E.
  - destruct (value_eqb (VMatrix m) old) eqn:Ev; [left; reflexivity|].
    right. exists (VMatrix m). split; [reflexivity|]. intros ? [= <-]. exact Ev.
  - destruct (unset_differs env (VMatrix m)); [|left; reflexivity].
    right. exists (VMatrix m). split; [reflexivity|]. discriminate.
Qed.

End Props.

(** ** A second pass of [pushToPrim]

    The content of the prim and the engine state after two passes in a row
    are those after one pass, whatever each write stored or skipped. *)

(** *** Stores *)

Lemma set_sample_twice l t v : Usd.set_sample (Usd.set_sample l t v) t v = Usd.set_sample l t v.
Proof.
  assert (R : Qeq_bool t t = true) by (apply Qeq_bool_iff; reflexivity).
  induction l as [|[k w] l IH]; simpl.
  - rewrite R. reflexivity.
  - destruct (Qeq_bool k t) eqn:E; simpl.
    + rewrite E. reflexivity.
    + destruct (Qle_bool t k) eqn:L; simpl.
      * rewrite R. reflexivity.
      * rewrite E, L, IH. reflexivity.
Qed.

Lemma attr_set_twice x tc v : Usd.attr_set (Usd.attr_set x tc v) tc v = Usd.attr_set x tc v.
Proof. destruct tc; simpl; [reflexivity|]. rewrite set_sample_twice. reflexivity. Qed.

Lemma attr_set_type x tc v : attr_type (Usd.attr_set x tc v) = attr_type x.
Proof. destruct tc; reflexivity. Qed.

Lemma keep_or_set_idempotent keep tc v : idempotent (keep_or_set keep tc v).
Proof.
  intros x. unfold keep_or_set. destruct (keep x) eqn:E; [rewrite E; reflexivity|].
  destruct (keep (Usd.attr_set x tc v)); [reflexivity | apply attr_set_twice].
Qed.

Lemma keep_or_set_type keep tc v : keeps_type (keep_or_set keep tc v).
Proof. intros x. unfold keep_or_set. destruct (keep x); [reflexivity | apply attr_set_type]. Qed.

Lemma by_type_idempotent G :
  (forall ty, keeps_type (G ty)) -> (forall ty, idempotent (G ty)) -> idempotent (by_type G).
Proof. intros Ht Hi x. unfold by_type. rewrite Ht. apply Hi. Qed.

Lemma id_idempotent {A} : idempotent (fun x : A => x).
Proof. intros x. reflexivity. Qed.

Lemma id_keeps_type : keeps_type (fun x => x).
Proof. intros x. reflexivity. Qed.

Lemma alter_present (g : UsdAttribute -> UsdAttribute) (n : string)
    (m : gmap string UsdAttribute) x :
  m !! n = Some x -> alter g n m = <[n := g x]> m.
Proof.
  intros H. apply map_eq. intros k. destruct (decide (n = k)) as [<-|Hne].
  - rewrite lookup_alter_eq, lookup_insert_eq, H. reflexivity.
  - rewrite lookup_alter_ne, lookup_insert_ne by exact Hne. reflexivity.
Qed.

Section Passes.

Variable env : Env.

Lemma unless_idempotent b g : idempotent g -> idempotent (unless b g).
Proof. intros H. destruct b; [apply id_idempotent | exact H]. Qed.

Lemma unless_keeps_type b g : keeps_type g -> keeps_type (unless b g).
Proof. intros H. destruct b; [apply id_keeps_type | exact H]. Qed.

Lemma alter_attr_id n p : alter_attr n (fun x => x) p = p.
Proof.
  unfold alter_attr. rewrite alter_id by reflexivity. destruct p; reflexivity.
Qed.

Lemma Set_inverse p op v tc : op_inverse op = true -> Usd.Set_ p op v tc = (false, p).
Proof. intros H. unfold Usd.Set_. rewrite H. reflexivity. Qed.

Lemma set_if_changed_inverse p op v readTime writeTime :
  op_inverse op = true -> set_if_changed env p op v readTime writeTime = p.
Proof.
  intros H. unfold set_if_changed. rewrite (Set_inverse _ _ _ _ H).
  repeat match goal with
         | |- context [match ?c with _ => _ end] => destruct c
         end; reflexivity.
Qed.

Lemma set_if_changed_alters p op v readTime writeTime :
  forget_edits (set_if_changed env p op v readTime writeTime) =
  alter_attr (Usd.opAttrName op)
    (unless (op_inverse op) (keep_or_set (unchanged env v readTime) writeTime v))
    (forget_edits p).
Proof.
  destruct (op_inverse op) eqn:I; cbn [unless].
  { rewrite (set_if_changed_inverse _ _ _ _ _ I), alter_attr_id. reflexivity. }
  unfold set_if_changed, Usd.Get, Usd.Set_, Usd.GetAttribute, alter_attr, forget_edits.
  rewrite I.
  cbn [prim_attrs xformOpOrder resetsXformStack value_edits].
  destruct (prim_attrs p !! Usd.opAttrName op) as [x|] eqn:E.
  - rewrite (alter_present _ _ _ _ E). unfold keep_or_set, unchanged.
    destruct (Usd.attr_get (interpolate env) x readTime) as [old|].
    + destruct (value_eqb v old); [|reflexivity].
      rewrite (insert_id _ _ _ E). reflexivity.
    + destruct (unset_differs env v); cbn [negb]; [reflexivity|].
      rewrite (insert_id _ _ _ E). reflexivity.
  - rewrite (alter_id' _ _ _ E).
    repeat match goal with
           | |- context [if ?c then _ else _] => destruct c
           end; reflexivity.
Qed.

Lemma Set_alters p op v tc :
  forget_edits (snd (Usd.Set_ p op v tc)) =
  alter_attr (Usd.opAttrName op) (unless (op_inverse op) (fun x => Usd.attr_set x tc v))
    (forget_edits p).
Proof.
  destruct (op_inverse op) eqn:I; cbn [unless].
  { rewrite (Set_inverse _ _ _ _ I), alter_attr_id. reflexivity. }
  unfold Usd.Set_, Usd.GetAttribute, alter_attr, forget_edits. rewrite I.
  cbn [prim_attrs xformOpOrder resetsXformStack value_edits].
  destruct (prim_attrs p !! Usd.opAttrName op) as [x|] eqn:E; cbn [snd].
  - rewrite (alter_present _ _ _ _ E). reflexivity.
  - rewrite (alter_id' _ _ _ E). reflexivity.
Qed.

Lemma stored_idempotent v rt wt : idempotent (stored env v rt wt).
Proof. apply keep_or_set_idempotent. Qed.

Lemma stored_type v rt wt : keeps_type (stored env v rt wt).
Proof. apply keep_or_set_type. Qed.

Lemma vectorWrite_idempotent v tc : idempotent (by_type (vectorWrite env v tc)).
Proof.
  apply by_type_idempotent; intros []; simpl;
    auto using stored_idempotent, stored_type, id_idempotent, id_keeps_type.
Qed.

Lemma doubleWrite_idempotent d tc : idempotent (by_type (doubleWrite env d tc)).
Proof.
  apply by_type_idempotent; intros []; simpl;
    auto using stored_idempotent, stored_type, id_idempotent, id_keeps_type.
Qed.

Lemma shearWrite_idempotent v tc : idempotent (by_type (shearWrite env v tc)).
Proof.
  apply by_type_idempotent; intros []; simpl;
    auto using stored_idempotent, stored_type, id_idempotent, id_keeps_type.
Qed.

Lemma alter_attr_by_type op G W p :
  (forall x, prim_attrs p !! Usd.opAttrName op = Some x ->
     forget_edits W =
     alter_attr (Usd.opAttrName op) (unless (op_inverse op) (G (attr_type x))) (forget_edits p)) ->
  (prim_attrs p !! Usd.opAttrName op = None -> forget_edits W = forget_edits p) ->
  forget_edits W =
  alter_attr (Usd.opAttrName op) (unless (op_inverse op) (by_type G)) (forget_edits p).
Proof.
  intros HS HN. destruct (prim_attrs p !! Usd.opAttrName op) as [x|] eqn:E.
  - rewrite (HS x eq_refl). unfold alter_attr. f_equal. apply alter_ext.
    intros y Hy. cbn [forget_edits prim_attrs] in Hy. unfold unless, by_type.
    destruct (op_inverse op); congruence.
  - rewrite (HN eq_refl). unfold alter_attr, forget_edits.
    cbn [prim_attrs xformOpOrder resetsXformStack value_edits].
    rewrite (alter_id' _ _ _ E). reflexivity.
Qed.

Lemma alter_attr_unless_id b n p : alter_attr n (unless b (fun x => x)) p = p.
Proof. destruct b; apply alter_attr_id. Qed.

Ltac typed_codec :=
  intros p; apply alter_attr_by_type;
  [ intros x Hx; unfold Usd.GetTypeName, Usd.GetAttribute; rewrite Hx;
    destruct (attr_type x); cbn [snd vectorWrite doubleWrite shearWrite];
    first [ apply set_if_changed_alters | symmetry; apply alter_attr_unless_id ]
  | intros Hx; unfold Usd.GetTypeName, Usd.GetAttribute; rewrite Hx; reflexivity ].

Lemma pushVector_alters v op tc :
  forall p, forget_edits (snd (pushVector env v op tc p)) =
            alter_attr (Usd.opAttrName op)
              (unless (op_inverse op) (by_type (vectorWrite env v tc))) (forget_edits p).
Proof. unfold pushVector. typed_codec. Qed.

Lemma pushPoint_alters v op tc :
  forall p, forget_edits (snd (pushPoint env v op tc p)) =
            alter_attr (Usd.opAttrName op)
              (unless (op_inverse op) (by_type (vectorWrite env v tc))) (forget_edits p).
Proof. unfold pushPoint. typed_codec. Qed.

Lemma pushShear_alters v op tc :
  forall p, forget_edits (snd (pushShear env v op tc p)) =
            alter_attr (Usd.opAttrName op)
              (unless (op_inverse op) (by_type (shearWrite env v tc))) (forget_edits p).
Proof. unfold pushShear. typed_codec. Qed.

Lemma pushDouble_alters d op tc :
  forall p, forget_edits (pushDouble env d op tc p) =
            alter_attr (Usd.opAttrName op)
              (unless (op_inverse op) (by_type (doubleWrite env d tc))) (forget_edits p).
Proof. unfold pushDouble. typed_codec. Qed.

Lemma pushVector_write v op tc : attribute_write op (fun p => snd (pushVector env v op tc p)).
Proof.
  exists (unless (op_inverse op) (by_type (vectorWrite env v tc))).
  split; [apply unless_idempotent, vectorWrite_idempotent | apply pushVector_alters].
Qed.

Lemma pushPoint_write v op tc : attribute_write op (fun p => snd (pushPoint env v op tc p)).
Proof.
  exists (unless (op_inverse op) (by_type (vectorWrite env v tc))).
  split; [apply unless_idempotent, vectorWrite_idempotent | apply pushPoint_alters].
Qed.

Lemma pushShear_write v op tc : attribute_write op (fun p => snd (pushShear env v op tc p)).
Proof.
  exists (unless (op_inverse op) (by_type (shearWrite env v tc))).
  split; [apply unless_idempotent, shearWrite_idempotent | apply pushShear_alters].
Qed.

Lemma pushDouble_write d op tc : attribute_write op (fun p => pushDouble env d op tc p).
Proof.
  exists (unless (op_inverse op) (by_type (doubleWrite env d tc))).
  split; [apply unless_idempotent, doubleWrite_idempotent | apply pushDouble_alters].
Qed.

Lemma no_write op : attribute_write op (fun p => p).
Proof.
  exists (fun x => x). split; [apply id_idempotent|].
  intros p. symmetry. apply alter_attr_id.
Qed.

Lemma pushRotation_write e op tc : attribute_write op (fun p => snd (pushRotation env e op tc p)).
Proof.
  unfold pushRotation. destruct (op_type op); cbn [snd];
    first [ apply pushDouble_write | apply pushVector_write | apply no_write ].
Qed.

Lemma Set_write v op tc : attribute_write op (fun p => snd (Usd.Set_ p op v tc)).
Proof.
  exists (unless (op_inverse op) (fun x => Usd.attr_set x tc v)). split.
  - apply unless_idempotent. intros x. apply attr_set_twice.
  - intros p. apply Set_alters.
Qed.

Lemma SetAs_write ty v op tc : attribute_write op (fun p => snd (Usd.SetAs ty p op v tc)).
Proof.
  exists (unless (op_inverse op)
            (fun x => if Usd.dataType_eqb (attr_type x) ty then Usd.attr_set x tc v else x)).
  split.
  - apply unless_idempotent. intros x.
    destruct (Usd.dataType_eqb (attr_type x) ty) eqn:E; [|rewrite E; reflexivity].
    rewrite attr_set_type, E. apply attr_set_twice.
  - intros p. unfold Usd.SetAs, Usd.GetTypeName.
    destruct (Usd.GetAttribute p op) as [a|] eqn:Ea.
    + destruct (Usd.dataType_eqb (attr_type a) ty) eqn:E.
      * rewrite Set_alters. unfold alter_attr. f_equal. apply alter_ext.
        intros y Hy. cbn [forget_edits prim_attrs] in Hy.
        unfold Usd.GetAttribute in Ea. assert (y = a) by congruence. subst y.
        unfold unless. destruct (op_inverse op); [reflexivity|]. rewrite E. reflexivity.
      * cbn [snd]. unfold alter_attr, forget_edits.
        cbn [prim_attrs xformOpOrder resetsXformStack value_edits]. f_equal.
        symmetry. unfold Usd.GetAttribute in Ea. rewrite (alter_present _ _ _ _ Ea).
        unfold unless. destruct (op_inverse op); [|rewrite E]; apply insert_id, Ea.
    + assert (N : forall q, Usd.Set_ p op v tc = q -> snd q = p).
      { unfold Usd.Set_. rewrite Ea. destruct (op_inverse op); intros q <-; reflexivity. }
      replace (snd (if Usd.dataType_eqb kUnknown ty then Usd.Set_ p op v tc else (false, p)))
        with p by (destruct (Usd.dataType_eqb kUnknown ty); [symmetry; eapply N|]; reflexivity).
      unfold alter_attr, forget_edits.
      cbn [prim_attrs xformOpOrder resetsXformStack value_edits].
      unfold Usd.GetAttribute in Ea. rewrite (alter_id' _ _ _ Ea). reflexivity.
Qed.


(** *** One op of a pass *)

Lemma overwrite_none r x : overwrite (fun _ => false) r x = x.
Proof. destruct x; reflexivity. Qed.

Lemma option_map_id {A} (o : option A) : option_map (fun x => x) o = o.
Proof. destruct o; reflexivity. Qed.

Lemma settle_nothing n s : settle n (fun x => x) (fun _ => false) s = s.
Proof.
  unfold settle. rewrite !overwrite_none.
  replace (option_map (alter_attr n (fun x => x)) (m_prim s)) with (m_prim s).
  - destruct s; reflexivity.
  - destruct (m_prim s) as [p|]; [|reflexivity]. simpl. rewrite alter_attr_id. reflexivity.
Qed.

Lemma getTimeCode_sameHost s0 s : sameHost s0 s -> getTimeCode s = getTimeCode s0.
Proof.
  intros (_ & _ & Hf & Ht). unfold getTimeCode, readAnimatedValues. rewrite Hf, Ht. reflexivity.
Qed.

Ltac covers_settled :=
  let c := fresh "c" in
  let Hc := fresh "Hc" in
  intros _ c Hc;
  try match goal with
      | E : String.eqb _ _ = true |- _ =>
          apply String.eqb_eq in E; rewrite E in Hc; vm_compute in Hc
      end;
  unfold settledBy in Hc;
  repeat match goal with
         | E : String.eqb _ _ = false |- _ => rewrite E in Hc; clear E
         end;
  repeat (destruct Hc as [<-|Hc]; [reflexivity|]); destruct Hc.

Ltac settle_with W sel :=
  let g := fresh "g" in
  let Hg := fresh "Hg" in
  let HW := fresh "HW" in
  let s := fresh "s" in
  let H := fresh "H" in
  let Htc := fresh "Htc" in
  destruct W as (g & Hg & HW); exists g, (selects sel);
  split; [exact Hg|]; split; [reflexivity|]; split; [|covers_settled];
  intros s H; pose proof (getTimeCode_sameHost _ _ H) as Htc;
  destruct H as (Hv & Ho & Hf & Ht);
  unfold internal_pushVector, internal_pushPoint, internal_pushShear, internal_pushRotation;
  rewrite Htc; rewrite ?Hv, ?Ho in HW; clear Htc Hv Ho Hf Ht;
  unfold settle, forget; destruct s as [vals tw fu [p|] tm xo oo oi lo fl tl rl sl];
  cbn -[forget_edits alter_attr pushVector pushPoint pushShear pushRotation Usd.Set_] in *;
  rewrite ?HW; first [reflexivity | destruct tw, fu; reflexivity].

(** The push of one op is a settling that depends on the host side of the
    state only. *)
Lemma pushOp_settles op opClass s0 :
  exists g sel, idempotent g /\ sel RotateOrientation = false /\
    (forall s, sameHost s0 s ->
       forget (pushOp env op opClass s) = settle (Usd.opAttrName op) g sel (forget s)) /\
    (IsInvertedTwin opClass = false ->
     forall c, In c (settledBy (GetName opClass)) -> sel c = true).
Proof.
  assert (Hnone : exists g sel, idempotent g /\ sel RotateOrientation = false /\
            forall s, sameHost s0 s ->
              forget s = settle (Usd.opAttrName op) g sel (forget s)).
  { exists (fun x => x), (fun _ => false). split; [apply id_idempotent|].
    split; [reflexivity|]. intros s _. rewrite settle_nothing. reflexivity. }
  unfold pushOp. destruct (IsInvertedTwin opClass).
  { destruct Hnone as (g & sel & Hg & Hs & Hn). exists g, sel.
    repeat split; auto. discriminate. }
  destruct (String.eqb (GetName opClass) Tokens.translate) eqn:E1.
  { settle_with (pushVector_write (c_translation (values s0)) op (getTimeCode s0)) [Translation]. }
  destruct (String.eqb (GetName opClass) Tokens.pivot) eqn:E2.
  { settle_with (pushPoint_write (c_rotatePivot (values s0)) op (getTimeCode s0)) [RotatePivot; ScalePivot]. }
  destruct (String.eqb (GetName opClass) Tokens.rotatePivotTranslate) eqn:E3.
  { settle_with (pushPoint_write (c_rotatePivotTranslation (values s0)) op (getTimeCode s0))
      [RotatePivotTranslation]. }
  destruct (String.eqb (GetName opClass) Tokens.rotatePivot) eqn:E4.
  { settle_with (pushPoint_write (c_rotatePivot (values s0)) op (getTimeCode s0)) [RotatePivot]. }
  destruct (String.eqb (GetName opClass) Tokens.rotate) eqn:E5.
  { settle_with (pushRotation_write (c_rotation (values s0)) op (getTimeCode s0)) [Rotation]. }
  destruct (String.eqb (GetName opClass) Tokens.rotateAxis) eqn:E6.
  { settle_with
      (pushVector_write
         (mkMVector
            (dmul env (ex (asEulerRotation (math env) (c_rotateOrientation (fromUsd s0))))
               (radToDeg env))
            (dmul env (ey (asEulerRotation (math env) (c_rotateOrientation (fromUsd s0))))
               (radToDeg env))
            (dmul env (ez (asEulerRotation (math env) (c_rotateOrientation (fromUsd s0))))
               (radToDeg env)))
         op (getTimeCode s0))
      (@nil Component). }
  destruct (String.eqb (GetName opClass) Tokens.scalePivotTranslate) eqn:E7.
  { settle_with (pushVector_write (c_scalePivotTranslation (values s0)) op (getTimeCode s0))
      [ScalePivotTranslation]. }
  destruct (String.eqb (GetName opClass) Tokens.scalePivot) eqn:E8.
  { settle_with (pushPoint_write (c_scalePivot (values s0)) op (getTimeCode s0)) [ScalePivot]. }
  destruct (String.eqb (GetName opClass) Tokens.shear) eqn:E9.
  { settle_with (pushShear_write (c_shear (values s0)) op (getTimeCode s0)) [Shear]. }
  destruct (String.eqb (GetName opClass) Tokens.scale) eqn:E10.
  { settle_with (pushVector_write (c_scale (values s0)) op (getTimeCode s0)) [Scale]. }
  destruct (String.eqb (GetName opClass) Tokens.transform) eqn:E11.
  2:{ destruct Hnone as (g & sel & Hg & Hs & Hn). exists g, sel.
      repeat split; auto. covers_settled. }
  destruct (pushPrimToMatrix s0) eqn:Em.
  - destruct (SetAs_write kMatrix4d (VMatrix (MPx_asMatrix (base env) (values s0))) op
                (getTimeCode s0)) as (g & Hg & HW).
    exists g, (selects []). split; [exact Hg|]. split; [reflexivity|].
    split; [|covers_settled].
    intros s H. rewrite (getTimeCode_sameHost _ _ H).
    destruct H as (Hv & Ho & Hf & Ht).
    replace (pushPrimToMatrix s) with true
      by (rewrite <- Em; unfold pushPrimToMatrix; rewrite Hf; reflexivity).
    rewrite Hv in HW. unfold settle, forget.
    destruct s as [vals tw fu [p|] tm xo oo oi lo fl tl rl sl];
      cbn -[forget_edits alter_attr Usd.Set_ Usd.SetAs] in *; rewrite ?HW;
      destruct tw, fu; reflexivity.
  - destruct Hnone as (g & sel & Hg & Hs & Hn). exists g, sel.
    split; [exact Hg|]. split; [exact Hs|]. split; [|covers_settled]. intros s H.
    replace (pushPrimToMatrix s) with false; [apply Hn, H|].
    rewrite <- Em. destruct H as (_ & _ & Hf & _). unfold pushPrimToMatrix.
    rewrite Hf. reflexivity.
Qed.


(** *** A pass *)

Lemma overwrite_twice sel r x : overwrite sel r (overwrite sel r x) = overwrite sel r x.
Proof.
  unfold overwrite; cbn. f_equal; destruct (sel _); reflexivity.
Qed.

Lemma overwrite_comm sel sel' r x :
  overwrite sel r (overwrite sel' r x) = overwrite sel' r (overwrite sel r x).
Proof.
  unfold overwrite; cbn. f_equal; destruct (sel _), (sel' _); reflexivity.
Qed.

Lemma alter_attr_twice n g p : idempotent g -> alter_attr n g (alter_attr n g p) = alter_attr n g p.
Proof.
  intros Hg. unfold alter_attr; cbn. f_equal. rewrite alter_alter_eq.
  apply alter_ext. intros x _. apply Hg.
Qed.

Lemma alter_attr_comm n n' g g' p :
  n <> n' -> alter_attr n g (alter_attr n' g' p) = alter_attr n' g' (alter_attr n g p).
Proof. intros Hn. unfold alter_attr; cbn. f_equal. apply alter_alter_ne, Hn. Qed.

Lemma settle_twice n g sel s : idempotent g -> settle n g sel (settle n g sel s) = settle n g sel s.
Proof.
  intros Hg. unfold settle. destruct s as [vals tw fu [p|] tm xo oo oi lo fl tl rl sl];
    cbn -[alter_attr overwrite]; rewrite !overwrite_twice, ?(alter_attr_twice _ _ _ Hg);
    reflexivity.
Qed.

Lemma settle_comm n n' g g' sel sel' s :
  n <> n' ->
  settle n g sel (settle n' g' sel' s) = settle n' g' sel' (settle n g sel s).
Proof.
  intros Hn. unfold settle. destruct s as [vals tw fu [p|] tm xo oo oi lo fl tl rl sl];
    cbn -[alter_attr overwrite];
    rewrite (overwrite_comm sel sel' restTweaks), (overwrite_comm sel sel' vals),
      ?(alter_attr_comm _ _ g g' _ Hn);
    reflexivity.
Qed.

Lemma settleAll_comm st steps s :
  ~ In (settled_attr st) (map settled_attr steps) ->
  settleOne (settleAll steps s) st = settleAll steps (settleOne s st).
Proof.
  revert s. induction steps as [|st' steps IH]; intros s Hn; [reflexivity|].
  cbn [settleAll fold_left]. fold (settleAll steps (settleOne s st')).
  rewrite IH by (intros H; apply Hn; right; exact H).
  fold (settleAll steps (settleOne (settleOne s st) st')). f_equal.
  unfold settleOne. apply settle_comm. intros E. apply Hn. left. symmetry. exact E.
Qed.

Lemma settleAll_twice steps s :
  List.NoDup (map settled_attr steps) -> Forall well_formed steps ->
  settleAll steps (settleAll steps s) = settleAll steps s.
Proof.
  revert s. induction steps as [|st steps IH]; intros s Hd Hw; [reflexivity|].
  inversion Hd as [|? ? Hn Hd']; subst. inversion Hw as [|? ? [Hg _] Hw']; subst.
  cbn [settleAll fold_left]. fold (settleAll steps (settleOne s st)).
  fold (settleAll steps (settleOne (settleAll steps (settleOne s st)) st)).
  rewrite (settleAll_comm st steps _ Hn).
  replace (settleOne (settleOne s st) st) with (settleOne s st)
    by (symmetry; apply settle_twice, Hg).
  apply IH; assumption.
Qed.

Lemma same_frame_refl s : same_frame s s.
Proof. repeat split. Qed.

Lemma same_frame_trans s1 s2 s3 : same_frame s1 s2 -> same_frame s2 s3 -> same_frame s1 s3.
Proof.
  unfold same_frame, sameHost.
  intros ((A1 & A2 & A3 & A4) & A5 & A6 & A7) ((B1 & B2 & B3 & B4) & B5 & B6 & B7).
  repeat split; congruence.
Qed.

Lemma forget_frame s : same_frame s (forget s).
Proof.
  unfold forget. destruct s as [vals tw fu [p|] tm xo oo oi lo fl tl rl sl]; repeat split.
Qed.

Lemma frame_forget s s' : same_frame s (forget s') -> same_frame s s'.
Proof.
  intros H. apply (same_frame_trans _ _ _ H).
  unfold forget. destruct s' as [vals tw fu [p|] tm xo oo oi lo fl tl rl sl]; repeat split.
Qed.

Lemma settle_frame n g sel s :
  sel RotateOrientation = false -> same_frame s (settle n g sel s).
Proof.
  intros Hs. unfold settle. destruct s as [vals tw fu [p|] tm xo oo oi lo fl tl rl sl];
    repeat split; cbn; rewrite Hs; reflexivity.
Qed.

Lemma pushOp_frame op opClass s : same_frame s (pushOp env op opClass s).
Proof.
  destruct (pushOp_settles op opClass s) as (g & sel & _ & Hs & H & _).
  apply frame_forget. rewrite (H s) by (repeat split).
  eapply same_frame_trans; [apply forget_frame | apply settle_frame, Hs].
Qed.

Lemma pushOps_settles ops classes s0 :
  exists steps,
    map settled_attr steps = pushedAttrs ops classes /\ Forall well_formed steps /\
    forall s, sameHost s0 s ->
      forget (pushOps env ops classes s) = settleAll steps (forget s) /\
      same_frame s (pushOps env ops classes s).
Proof.
  revert classes. induction ops as [|op ops IH]; intros classes.
  { exists []. repeat split; constructor. }
  destruct classes as [|opClass classes].
  { exists []. repeat split; constructor. }
  destruct (IH classes) as (steps & Hn & Hw & H).
  cbn [pushedAttrs pushOps].
  destruct (IsInvertedTwin opClass) eqn:Et.
  - exists steps. split; [exact Hn|]. split; [exact Hw|]. intros s Hs.
    replace (pushOp env op opClass s) with s by (unfold pushOp; rewrite Et; reflexivity).
    apply H, Hs.
  - destruct (pushOp_settles op opClass s0) as (g & sel & Hg & Hsel & H1 & _).
    exists (mkSettling (Usd.opAttrName op) g sel :: steps).
    split; [cbn; rewrite Hn; reflexivity|].
    split; [constructor; [split; assumption | exact Hw]|].
    intros s Hs.
    pose proof (pushOp_frame op opClass s) as F1.
    assert (Hs1 : sameHost s0 (pushOp env op opClass s)).
    { destruct F1 as ((A1 & A2 & A3 & A4) & _). destruct Hs as (B1 & B2 & B3 & B4).
      repeat split; congruence. }
    destruct (H _ Hs1) as [E F]. split.
    + rewrite E, (H1 s Hs). reflexivity.
    + eapply same_frame_trans; eassumption.
Qed.

Lemma sameHost_refl s : sameHost s s.
Proof. repeat split. Qed.

(** X7.  pushToPrim is idempotent on lists in step: when every op has
    its classification (the op list and the classification list are
    aligned, so that the loop never leaves the classification list) and
    the ops that a pass writes each have an attribute of their own, a
    second pushToPrim in a row leaves the engine state and the content of
    the prim as the first one left them (only the count of stores can
    grow).  Where an op holds no value, the comparison with the unset old
    value is taken to come out the same in both passes. *)
Lemma pushToPrim_twice s :
  aligned s ->
  distinct_attributes s ->
  forget (pushToPrim env (pushToPrim env s)) = forget (pushToPrim env s).
Proof.
  intros _ Hd. unfold pushToPrim at 2 3.
  destruct (m_prim s) as [p|] eqn:Ep.
  2:{ unfold pushToPrim. rewrite Ep. reflexivity. }
  destruct (pushOps_settles (m_xformops s) (m_orderedOps s) s) as (steps & Hn & Hw & H).
  destruct (H s (sameHost_refl s)) as [E1 F1].
  set (s1 := pushOps env (m_xformops s) (m_orderedOps s) s) in *.
  destruct F1 as (Hh & Hx & Ho & Hv).
  unfold pushToPrim. unfold prim_valid in Hv. rewrite Ep in Hv.
  destruct (m_prim s1) as [p1|] eqn:Ep1; [|discriminate].
  rewrite <- Hx, <- Ho.
  destruct (H s1 Hh) as [E2 _]. rewrite E2, E1.
  apply settleAll_twice; [|exact Hw].
  rewrite Hn. apply NoDup_ListNoDup. exact Hd.
Qed.

End Passes.

(** *** The matcher of [Run] keeps to the contract *)

Lemma findFrom_corresponds op l i j c :
  Run.findFrom op l i = Some (j, c) -> corresponds op c.
Proof.
  revert i. induction l as [|d l IH]; intros i; simpl; [discriminate|].
  destruct (String.eqb_spec (GetName d) (roleName op)) as [En|]; [|apply IH].
  destruct (Bool.eqb_spec (IsInvertedTwin d) (op_inverse op)) as [Ei|]; [|apply IH].
  destruct (Run.IsCompatibleType d (op_type op)); [|apply IH].
  simpl. intros [= <- <-]. split; congruence.
Qed.

Lemma matchOps_aligned stackOps next ops r :
  Run.matchOps stackOps next ops = Some r -> Forall2 corresponds ops (map snd r).
Proof.
  revert next r. induction ops as [|op ops IH]; intros next r; simpl.
  - intros [= <-]. constructor.
  - destruct (Run.findFrom op (drop next stackOps) next) as [[i c]|] eqn:E; [|discriminate].
    destruct (Run.matchOps stackOps (S i) ops) as [r'|] eqn:E'; [|discriminate].
    intros [= <-]. simpl. constructor; [eapply findFrom_corresponds; eauto | eapply IH; eauto].
Qed.

(** A match is complete or empty: a partial match is not returned. *)
Lemma matchingSubstack_all_or_nothing stack ops :
  Run.matchingSubstack stack ops = [] \/
  Forall2 corresponds ops (Run.matchingSubstack stack ops).
Proof.
  unfold Run.matchingSubstack.
  destruct (Run.matchOps (GetOps stack) 0 ops) as [r|] eqn:E; [|left; reflexivity].
  destruct (forallb _ _); [|left; reflexivity].
  right. eapply matchOps_aligned; eauto.
Qed.

(** X21.  initialiseToPrim hands the alignment of the matcher on to the
    engine: with a matcher that returns, for every stack and every op
    list, nothing or one classification per op with the role and the
    inversion of the op, initialiseToPrim on a bound prim ends with the op
    list and the classification list aligned, provided the prim has no op
    or a schema was matched (when no schema matches the ops, the op list
    keeps the ops and the classification list is empty). *)
Theorem initialiseToPrim_aligned (env : Env) readFromPrim s p :
  (forall stack ops,
     MatchingSubstack env stack ops = [] \/
     Forall2 corresponds ops (MatchingSubstack env stack ops)) ->
  m_prim s = Some p ->
  xformOpOrder p = [] \/ m_orderedOps (initialiseToPrim env readFromPrim s) <> [] ->
  aligned (initialiseToPrim env readFromPrim s).
Proof.
  intros Hm Hp Hne. unfold aligned.
  destruct (initialiseToPrim_lists env readFromPrim s p Hp) as [Hx [H|[stack H]]].
  - cbv zeta in Hx. rewrite Hx, H.
    destruct Hne as [E|N]; [rewrite E; constructor | contradiction].
  - cbv zeta in Hx. rewrite Hx, H.
    destruct (Hm stack (xformOpOrder p)) as [E|A]; [|exact A].
    destruct Hne as [E'|N]; [rewrite E, E'; constructor|].
    rewrite H, E in N. contradiction.
Qed.

(** ** Further properties: the codec, a pass, the op lists, binding
    and the translator *)

Ltac eval_eqb :=
  repeat match goal with
         | |- context [String.eqb ?a ?b] =>
             let r := eval vm_compute in (String.eqb a b) in
             change (String.eqb a b) with r
         end; cbv iota.

(** *** Round trips of the codec *)

Section CodecRoundTrips.

Lemma Qeq_bool_refl x : Qeq_bool x x = true.
Proof. apply Qeq_bool_iff. reflexivity. Qed.

Lemma veqb_refl v : veqb v v = true.
Proof. unfold veqb. rewrite !Qeq_bool_refl. reflexivity. Qed.

Lemma mat_eqb_refl m : mat_eqb m m = true.
Proof. induction m as [|x m IH]; simpl; [reflexivity|]. rewrite Qeq_bool_refl, IH. reflexivity. Qed.

Lemma value_eqb_refl v : value_eqb v v = true.
Proof. destruct v; simpl; [apply veqb_refl | apply Qeq_bool_refl | apply mat_eqb_refl]. Qed.

Lemma veqb_vequiv a b : veqb a b = true -> vequiv a b.
Proof.
  unfold veqb, vequiv. intros H.
  apply andb_true_iff in H as [H Hz]. apply andb_true_iff in H as [Hx Hy].
  repeat split; apply Qeq_bool_iff; assumption.
Qed.

Lemma mat_eqb_equiv a b : mat_eqb a b = true -> mat_equiv a b.
Proof.
  revert b. induction a as [|x a IH]; intros [|y b]; simpl; try discriminate.
  - constructor.
  - intros H. apply andb_true_iff in H as [Hx H]. constructor; [|apply IH, H].
    apply Qeq_bool_iff, Hx.
Qed.

Lemma vequiv_sym a b : vequiv a b -> vequiv b a.
Proof. unfold vequiv. intros (A & B & C). repeat split; symmetry; assumption. Qed.

Lemma sample_at_set_sample l t v : Usd.sample_at (Usd.set_sample l t v) t = Some v.
Proof.
  induction l as [|[k w] l IH]; simpl.
  - rewrite Qeq_bool_refl. reflexivity.
  - destruct (Qeq_bool k t) eqn:E; simpl.
    + rewrite E. reflexivity.
    + destruct (Qle_bool t k); simpl.
      * rewrite Qeq_bool_refl. reflexivity.
      * rewrite E. exact IH.
Qed.

Lemma set_sample_not_nil l t v : Usd.set_sample l t v <> [].
Proof.
  destruct l as [|[k w] l]; simpl; [discriminate|].
  destruct (Qeq_bool k t); [discriminate|]. destruct (Qle_bool t k); discriminate.
Qed.

(** What is stored at a time is what is read at that time. *)
Lemma attr_get_set interp a tc v : Usd.attr_get interp (Usd.attr_set a tc v) tc = Some v.
Proof.
  destruct tc as [|t]; [reflexivity|].
  unfold Usd.attr_get, Usd.attr_set. cbn [attr_samples attr_default].
  pose proof (sample_at_set_sample (attr_samples a) t v) as Hs.
  pose proof (set_sample_not_nil (attr_samples a) t v) as Hn.
  destruct (Usd.set_sample (attr_samples a) t v) as [|kv l]; [contradiction|].
  rewrite Hs. reflexivity.
Qed.

Section Codec.

Variable env : Env.

Lemma Get_Set p op a v tc :
  op_inverse op = false ->
  Usd.GetAttribute p op = Some a ->
  Usd.Get (interpolate env) (snd (Usd.Set_ p op v tc)) op tc = Some v.
Proof.
  intros I H. unfold Usd.Set_. rewrite I, H. cbn [snd].
  unfold Usd.Get, Usd.GetAttribute. cbn [prim_attrs].
  rewrite lookup_insert_eq. apply attr_get_set.
Qed.

Lemma GetTypeName_Set p op v tc op' :
  Usd.GetTypeName (snd (Usd.Set_ p op v tc)) op' = Usd.GetTypeName p op'.
Proof.
  unfold Usd.Set_. destruct (op_inverse op); [reflexivity|].
  destruct (Usd.GetAttribute p op) as [a|] eqn:E; [|reflexivity].
  cbn [snd]. unfold Usd.GetTypeName, Usd.GetAttribute in *. cbn [prim_attrs].
  destruct (decide (Usd.opAttrName op = Usd.opAttrName op')) as [En|Hn].
  - rewrite <- En, lookup_insert_eq, E. destruct tc; reflexivity.
  - rewrite lookup_insert_ne by exact Hn. reflexivity.
Qed.

Lemma GetTypeName_set_if_changed p op v rt wt op' :
  Usd.GetTypeName (set_if_changed env p op v rt wt) op' = Usd.GetTypeName p op'.
Proof.
  unfold set_if_changed. destruct (Usd.Get _ _ _ _) as [old|];
    [destruct (value_eqb v old) | destruct (unset_differs env v)];
    first [reflexivity | apply GetTypeName_Set].
Qed.

(** After the conditional store at one time through an op that is not an
    inverse, the op holds there a value that compares equal to the one
    offered. *)
Lemma set_if_changed_holds p op a v tc :
  op_inverse op = false ->
  Usd.GetAttribute p op = Some a ->
  storable env p op tc v ->
  exists w, Usd.Get (interpolate env) (set_if_changed env p op v tc tc) op tc = Some w /\
            value_eqb v w = true.
Proof.
  intros I H Hs. unfold set_if_changed.
  destruct (Usd.Get (interpolate env) p op tc) as [old|] eqn:E.
  - destruct (value_eqb v old) eqn:Ev.
    + exists old. split; assumption.
    + exists v. split; [eapply Get_Set; eauto | apply value_eqb_refl].
  - destruct Hs as [Hs|Hs]; [rewrite E in Hs; contradiction|]. rewrite Hs.
    exists v. split; [eapply Get_Set; eauto | apply value_eqb_refl].
Qed.

(** With no value in the op and a comparison that reports no difference,
    nothing is stored. *)
Lemma set_if_changed_unset p op v rt wt :
  Usd.Get (interpolate env) p op rt = None -> unset_differs env v = false ->
  set_if_changed env p op v rt wt = p.
Proof. intros E U. unfold set_if_changed. rewrite E, U. reflexivity. Qed.

Lemma typed_attribute p op : Usd.GetTypeName p op <> kUnknown -> exists a, Usd.GetAttribute p op = Some a.
Proof.
  unfold Usd.GetTypeName. destruct (Usd.GetAttribute p op) as [a|]; [eauto | congruence].
Qed.

Ltac vec_case p op H I Hs :=
  let a := fresh "a" in
  let Ha := fresh "Ha" in
  destruct (typed_attribute p op) as [a Ha]; [rewrite H; discriminate|];
  match goal with
  | |- context [set_if_changed env p op ?x ?t ?t] =>
      let w := fresh "w" in
      let Hw := fresh "Hw" in
      let Hv := fresh "Hv" in
      destruct (set_if_changed_holds p op a x t I Ha Hs) as (w & Hw & Hv);
      rewrite Hw; destruct w as [o|o|o]; simpl in Hv; try discriminate;
      split; [reflexivity|]; exists o; split; [reflexivity|];
      apply vequiv_sym, veqb_vequiv, Hv
  end.

(** Vectors and points *)
Lemma pushVector_stored (v : MVector) (op : UsdGeomXformOp) (tc : UsdTimeCode) (p : UsdPrim) :
  op_inverse op = false ->
  isVec3 (Usd.GetTypeName p op) = true ->
  storable env p op tc (VVec (narrowVector env (Usd.GetTypeName p op) v)) ->
  fst (pushVector env v op tc p) = true /\
  exists v', readVector env (snd (pushVector env v op tc p)) op tc = Some v' /\
             vequiv v' (narrowVector env (Usd.GetTypeName p op) v).
Proof.
  intros I Hty Hs. unfold pushVector, readVector.
  destruct (Usd.GetTypeName p op) eqn:T; try discriminate; cbn [fst snd narrowVector] in *;
    rewrite GetTypeName_set_if_changed, T; vec_case p op T I Hs.
Qed.

Lemma pushPoint_stored (v : MPoint) (op : UsdGeomXformOp) (tc : UsdTimeCode) (p : UsdPrim) :
  op_inverse op = false ->
  isVec3 (Usd.GetTypeName p op) = true ->
  storable env p op tc (VVec (narrowVector env (Usd.GetTypeName p op) v)) ->
  fst (pushPoint env v op tc p) = true /\
  exists v', readPoint env (snd (pushPoint env v op tc p)) op tc = Some v' /\
             vequiv v' (narrowVector env (Usd.GetTypeName p op) v).
Proof.
  intros I Hty Hs. unfold pushPoint, readPoint.
  destruct (Usd.GetTypeName p op) eqn:T; try discriminate; cbn [fst snd narrowVector] in *;
    rewrite GetTypeName_set_if_changed, T; vec_case p op T I Hs.
Qed.

Lemma pushVector_inverse v op tc p :
  op_inverse op = true -> snd (pushVector env v op tc p) = p.
Proof.
  intros I. unfold pushVector.
  destruct (Usd.GetTypeName p op); cbn [snd]; rewrite ?set_if_changed_inverse by exact I;
    reflexivity.
Qed.

Lemma pushPoint_inverse v op tc p :
  op_inverse op = true -> snd (pushPoint env v op tc p) = p.
Proof.
  intros I. unfold pushPoint.
  destruct (Usd.GetTypeName p op); cbn [snd]; rewrite ?set_if_changed_inverse by exact I;
    reflexivity.
Qed.

(** X1.  On an op that is not an inverse and whose attribute stores a
    three-component vector (double3, float3, half3 or int3), pushVector
    and pushPoint report true, and readVector and readPoint at the same
    time code then give the pushed vector narrowed to the storage type,
    provided that the op held a value at that time or that the comparison
    with the unset old value reports a difference.  Through an inverse op
    nothing is stored, whatever the push reports.  On an op of any other
    storage type the push reports false and leaves the prim as it is, and
    the read finds nothing. *)
Theorem vector_round_trip (v : MVector) (op : UsdGeomXformOp) (tc : UsdTimeCode) (p : UsdPrim) :
  (op_inverse op = false -> isVec3 (Usd.GetTypeName p op) = true ->
   storable env p op tc (VVec (narrowVector env (Usd.GetTypeName p op) v)) ->
   (fst (pushVector env v op tc p) = true /\
    exists v', readVector env (snd (pushVector env v op tc p)) op tc = Some v' /\
               vequiv v' (narrowVector env (Usd.GetTypeName p op) v)) /\
   (fst (pushPoint env v op tc p) = true /\
    exists v', readPoint env (snd (pushPoint env v op tc p)) op tc = Some v' /\
               vequiv v' (narrowVector env (Usd.GetTypeName p op) v))) /\
  (op_inverse op = true ->
   snd (pushVector env v op tc p) = p /\ snd (pushPoint env v op tc p) = p) /\
  (isVec3 (Usd.GetTypeName p op) = false ->
   pushVector env v op tc p = (false, p) /\ readVector env p op tc = None /\
   pushPoint env v op tc p = (false, p) /\ readPoint env p op tc = None).
Proof.
  split; [|split].
  - intros I Hty Hs. split; [apply pushVector_stored | apply pushPoint_stored]; assumption.
  - intros I. split; [apply pushVector_inverse | apply pushPoint_inverse]; exact I.
  - intros Hty. unfold pushVector, readVector, pushPoint, readPoint.
    destruct (Usd.GetTypeName p op); try discriminate; repeat split.
Qed.

(** Shear: the matrix that [pushShear] stores is the one [readShear]
    decodes. *)
Lemma mat_eqb_nth a b : mat_eqb a b = true -> forall i, nth i a 0 == nth i b 0.
Proof.
  revert b. induction a as [|x a IH]; intros [|y b]; simpl; try discriminate.
  - intros _ [|i]; reflexivity.
  - intros H. apply andb_true_iff in H as [Hx H]. intros [|i]; [apply Qeq_bool_iff, Hx|].
    apply IH, H.
Qed.

(** X2.  On an op of matrix4d storage that is not an inverse, readShear
    after pushShear at the same time code gives back the pushed shear,
    provided that the op held a value at that time or that the comparison
    with the unset old value reports a difference: the matrix that
    pushShear builds is the one readShear decodes.  Through an inverse op
    nothing is stored.  On an op of any other storage type pushShear
    leaves the prim as it is and readShear finds nothing. *)
Theorem shear_round_trip (v : MVector) (op : UsdGeomXformOp) (tc : UsdTimeCode) (p : UsdPrim) :
  (op_inverse op = false -> Usd.GetTypeName p op = kMatrix4d ->
   storable env p op tc (VMatrix (shearMatrix v)) ->
   exists v', readShear env (snd (pushShear env v op tc p)) op tc = Some v' /\ vequiv v' v) /\
  (op_inverse op = true -> snd (pushShear env v op tc p) = p) /\
  (Usd.GetTypeName p op <> kMatrix4d ->
   snd (pushShear env v op tc p) = p /\ readShear env p op tc = None).
Proof.
  split; [|split].
  - intros I Hty Hs. unfold pushShear, readShear. rewrite Hty. cbn [snd].
    rewrite GetTypeName_set_if_changed, Hty.
    destruct (typed_attribute p op) as [a Ha]; [rewrite Hty; discriminate|].
    destruct (set_if_changed_holds p op a (VMatrix (shearMatrix v)) tc I Ha Hs) as (w & Hw & Hv).
    rewrite Hw. destruct w as [o|o|m]; cbn [value_eqb] in Hv; try discriminate.
    eexists. split; [reflexivity|].
    pose proof (mat_eqb_nth _ _ Hv) as Hn. unfold vequiv, mat_at. cbn [vx vy vz].
    repeat split; symmetry.
    + exact (Hn 4%nat).
    + exact (Hn 8%nat).
    + exact (Hn 9%nat).
  - intros I. unfold pushShear.
    destruct (Usd.GetTypeName p op); cbn [snd]; rewrite ?set_if_changed_inverse by exact I;
      reflexivity.
  - intros Hty. unfold pushShear, readShear.
    destruct (Usd.GetTypeName p op); try congruence; split; reflexivity.
Qed.

(** X3.  On an op of matrix4d storage that is not an inverse, pushMatrix
    reports true, and readMatrix at the same time code then gives a matrix
    equal, entry by entry, to the pushed one, provided that the op held a
    value at that time or that the comparison with the unset old value
    reports a difference.  Through an inverse op nothing is stored, and
    pushMatrix reports false when the op holds a value that differs from
    the pushed matrix.  On an op of any other storage type pushMatrix
    reports false and leaves the prim as it is, and readMatrix finds
    nothing. *)
Theorem matrix_round_trip (m : GfMatrix4d) (op : UsdGeomXformOp) (tc : UsdTimeCode)
    (p : UsdPrim) :
  (op_inverse op = false -> Usd.GetTypeName p op = kMatrix4d ->
   storable env p op tc (VMatrix m) ->
   fst (pushMatrix env m op tc p) = true /\
   exists m', readMatrix env (snd (pushMatrix env m op tc p)) op tc = Some m' /\
              mat_equiv m m') /\
  (op_inverse op = true ->
   snd (pushMatrix env m op tc p) = p /\
   (Usd.GetTypeName p op = kMatrix4d ->
    forall old, Usd.Get (interpolate env) p op tc = Some old ->
                value_eqb (VMatrix m) old = false ->
                fst (pushMatrix env m op tc p) = false)) /\
  (Usd.GetTypeName p op <> kMatrix4d ->
   pushMatrix env m op tc p = (false, p) /\ readMatrix env p op tc = None).
Proof.
  split; [|split].
  - intros I Hty Hs.
    destruct (typed_attribute p op) as [a Ha]; [rewrite Hty; discriminate|].
    assert (St : Usd.Set_ p op (VMatrix m) tc =
                 (true, snd (Usd.Set_ p op (VMatrix m) tc))).
    { unfold Usd.Set_. rewrite I, Ha. reflexivity. }
    unfold pushMatrix, readMatrix. rewrite Hty.
    destruct (Usd.Get (interpolate env) p op tc) as [old|] eqn:E.
    + destruct (value_eqb (VMatrix m) old) eqn:Ev.
      * cbn [fst snd]. rewrite Hty, E. destruct old as [o|o|m']; cbn [value_eqb] in Ev; try discriminate.
        split; [reflexivity|]. exists m'. split; [reflexivity | apply mat_eqb_equiv, Ev].
      * rewrite GetTypeName_Set, Hty, (Get_Set _ _ _ _ _ I Ha).
        rewrite St. split; [reflexivity|].
        exists m. split; [reflexivity | apply mat_eqb_equiv, mat_eqb_refl].
    + destruct Hs as [Hs|Hs]; [rewrite E in Hs; contradiction|]. rewrite Hs.
      rewrite GetTypeName_Set, Hty, (Get_Set _ _ _ _ _ I Ha).
      rewrite St. split; [reflexivity|].
      exists m. split; [reflexivity | apply mat_eqb_equiv, mat_eqb_refl].
  - intros I. split.
    + unfold pushMatrix. rewrite (Set_inverse _ _ _ _ I).
      repeat match goal with
             | |- context [match ?c with _ => _ end] => destruct c
             end; reflexivity.
    + intros Hty old E Ev. unfold pushMatrix. rewrite Hty, E, Ev, (Set_inverse _ _ _ _ I).
      reflexivity.
  - intros Hty. unfold pushMatrix, readMatrix.
    destruct (Usd.GetTypeName p op); try congruence; split; reflexivity.
Qed.

(** Single numbers, at the default time *)
Lemma pushDouble_stored_default (d : Q) (op : UsdGeomXformOp) (p : UsdPrim) :
  op_inverse op = false ->
  isScalar (Usd.GetTypeName p op) = true ->
  storable env p op Default (VScalar (narrowScalar env (Usd.GetTypeName p op) d)) ->
  readDouble env (pushDouble env d op Default p) op Default ==
  narrowScalar env (Usd.GetTypeName p op) d.
Proof.
  intros I Hty Hs.
  destruct (typed_attribute p op) as [a Ha];
    [destruct (Usd.GetTypeName p op); discriminate|].
  unfold pushDouble, readDouble.
  destruct (Usd.GetTypeName p op) eqn:T; try discriminate; cbn [narrowScalar] in *;
    rewrite GetTypeName_set_if_changed, T;
    match goal with
    | |- context [set_if_changed env p op ?x Default Default] =>
        destruct (set_if_changed_holds p op a x Default I Ha Hs) as (w & Hw & Hv)
    end;
    rewrite Hw; destruct w as [o|o|o]; simpl in Hv; try discriminate;
    symmetry; apply Qeq_bool_iff, Hv.
Qed.

(** X4.  At the default time, readDouble after pushDouble on an op of
    scalar storage (double, float, half or int) that is not an inverse
    gives the pushed number narrowed to the storage type, provided that
    the op held a default value or that the comparison with the unset old
    value reports a difference.  Through an inverse op nothing is stored.
    On an op of any other storage type pushDouble leaves the prim as it is
    at every time and readDouble gives 0. *)
Theorem double_round_trip_default (d : Q) (op : UsdGeomXformOp) (p : UsdPrim) :
  (op_inverse op = false -> isScalar (Usd.GetTypeName p op) = true ->
   storable env p op Default (VScalar (narrowScalar env (Usd.GetTypeName p op) d)) ->
   readDouble env (pushDouble env d op Default p) op Default ==
   narrowScalar env (Usd.GetTypeName p op) d) /\
  (op_inverse op = true -> forall tc, pushDouble env d op tc p = p) /\
  (isScalar (Usd.GetTypeName p op) = false ->
   forall tc, pushDouble env d op tc p = p /\ readDouble env p op tc = 0).
Proof.
  split; [|split].
  - apply pushDouble_stored_default.
  - intros I tc. unfold pushDouble.
    destruct (Usd.GetTypeName p op); rewrite ?set_if_changed_inverse by exact I; reflexivity.
  - intros Hty tc. unfold pushDouble, readDouble.
    destruct (Usd.GetTypeName p op); try discriminate; split; reflexivity.
Qed.

(** Rotations *)


End Codec.

End CodecRoundTrips.

(** *** Components at rest after a pass *)

Section AtRest.

Lemma at_rest_forget c s : at_rest c (forget s) <-> at_rest c s.
Proof. unfold at_rest, forget. destruct s; cbn. tauto. Qed.

Lemma settle_establishes n g sel c s : sel c = true -> at_rest c (settle n g sel s).
Proof.
  intros Hc. unfold at_rest, settle. destruct s as [vals tw fu pr tm xo oo oi lo fl tl rl sl].
  destruct c; cbn; rewrite Hc; split; reflexivity.
Qed.

Lemma settle_keeps n g sel c s : at_rest c s -> at_rest c (settle n g sel s).
Proof.
  unfold at_rest, settle. destruct s as [vals tw fu pr tm xo oo oi lo fl tl rl sl].
  destruct c; cbn; intros [Ht Hf]; destruct (sel _); split;
    first [assumption | reflexivity].
Qed.

Lemma settledBy_not_orientation name : ~ In RotateOrientation (settledBy name).
Proof.
  unfold settledBy.
  repeat match goal with
         | |- context [if ?b then _ else _] => destruct b
         end; simpl; intuition discriminate.
Qed.


Section Rest.

Variable env : Env.

Lemma pushOp_rest_kept op opClass c s : at_rest c s -> at_rest c (pushOp env op opClass s).
Proof.
  intros H. destruct (pushOp_settles env op opClass s) as (g & sel & _ & _ & E & _).
  apply (proj1 (at_rest_forget c _)). rewrite (E s (sameHost_refl s)).
  apply settle_keeps, (proj2 (at_rest_forget c s)), H.
Qed.

Lemma pushOp_rest_established op opClass c s :
  IsInvertedTwin opClass = false -> In c (settledBy (GetName opClass)) ->
  at_rest c (pushOp env op opClass s).
Proof.
  intros Ht Hc. destruct (pushOp_settles env op opClass s) as (g & sel & _ & _ & E & S).
  apply (proj1 (at_rest_forget c _)). rewrite (E s (sameHost_refl s)).
  apply settle_establishes, S; assumption.
Qed.

Lemma pushOps_rest_kept ops classes c s :
  at_rest c s -> at_rest c (pushOps env ops classes s).
Proof.
  revert classes s. induction ops as [|op ops IH]; intros [|opClass classes] s H; simpl; auto.
  apply IH, pushOp_rest_kept, H.
Qed.

Lemma pushOps_rest ops classes s (i : nat) op opClass c :
  ops !! i = Some op -> classes !! i = Some opClass ->
  IsInvertedTwin opClass = false -> In c (settledBy (GetName opClass)) ->
  at_rest c (pushOps env ops classes s).
Proof.
  revert classes s i. induction ops as [|op0 ops IH]; intros [|c0 classes] s i Ho Hc Ht Hin;
    try discriminate.
  destruct i as [|i]; simpl in *.
  - injection Ho as ->. injection Hc as ->.
    apply pushOps_rest_kept, pushOp_rest_established; assumption.
  - eapply IH; eauto.
Qed.

Lemma pushToPrim_at_rest (s : TransformationMatrix) (i : nat) (op : UsdGeomXformOp)
    (opClass : UsdMayaXformOpClassification) (c : Component) :
  prim_valid s = true ->
  m_xformops s !! i = Some op -> m_orderedOps s !! i = Some opClass ->
  IsInvertedTwin opClass = false -> In c (settledBy (GetName opClass)) ->
  at_rest c (pushToPrim env s).
Proof.
  intros Hp Ho Hc Ht Hin. unfold pushToPrim.
  unfold prim_valid in Hp. destruct (m_prim s) as [p|] eqn:Ep; [|discriminate].
  eapply pushOps_rest; eauto.
Qed.

Lemma pushToPrim_frame (s : TransformationMatrix) : same_frame s (pushToPrim env s).
Proof.
  unfold pushToPrim. destruct (m_prim s) as [p|] eqn:Ep; [|apply same_frame_refl].
  destruct (pushOps_settles env (m_xformops s) (m_orderedOps s) s) as (steps & _ & _ & H).
  apply (H s (sameHost_refl s)).
Qed.

(** X8.  After pushToPrim on a valid prim whose op list and classification
    list are in step, an op of the stack that is not an inverted twin and
    has the role translate, rotate, scale, shear, rotatePivot, scalePivot,
    rotatePivotTranslate or scalePivotTranslate leaves the component of
    its role at rest, and an op of the role pivot both pivots: the tweak
    is zero and the from-source value is the host value.  (The ops of the
    roles rotateAxis and transform bring no component to rest: their
    branches write to the prim only.)  The pass changes neither the host
    values nor the flags, the time or the two op lists. *)
Theorem pushToPrim_brings_to_rest (s : TransformationMatrix) (i : nat) (op : UsdGeomXformOp)
    (opClass : UsdMayaXformOpClassification) (c : Component) :
  prim_valid s = true -> aligned s ->
  m_xformops s !! i = Some op -> m_orderedOps s !! i = Some opClass ->
  IsInvertedTwin opClass = false -> In c (settledBy (GetName opClass)) ->
  let s' := pushToPrim env s in
  at_rest c s' /\ same_frame s s'.
Proof.
  intros Hp _ Ho Hc Ht Hin s'. subst s'.
  split; [|apply pushToPrim_frame].
  exact (pushToPrim_at_rest s i op opClass c Hp Ho Hc Ht Hin).
Qed.

End Rest.

End AtRest.

(** *** What a pass stores *)

Section PassStores.

Section ReadBack.

Variable env : Env.

Lemma pushPoint_is_pushVector v op tc p : pushPoint env v op tc p = pushVector env v op tc p.
Proof. reflexivity. Qed.

Lemma pushOp_vector op opClass s p v :
  IsInvertedTwin opClass = false ->
  hostVector (GetName opClass) (values s) = Some v ->
  m_prim s = Some p ->
  m_prim (pushOp env op opClass s) = Some (snd (pushVector env v op (getTimeCode s) p)).
Proof.
  intros Ht Hv Hp. unfold pushOp. rewrite Ht. unfold hostVector in Hv.
  repeat match type of Hv with
         | (if String.eqb ?a ?b then _ else _) = _ =>
             let E := fresh "E" in
             destruct (String.eqb a b) eqn:E;
             [ apply String.eqb_eq in E; rewrite ?E; eval_eqb; injection Hv as <-;
               try unfold internal_pushVector; try unfold internal_pushPoint;
               rewrite Hp; reflexivity |]
         end.
  discriminate.
Qed.

Lemma pushOp_prim op opClass s p :
  m_prim s = Some p ->
  exists p', m_prim (pushOp env op opClass s) = Some p' /\
    forall n, IsInvertedTwin opClass = true \/ n <> Usd.opAttrName op ->
              prim_attrs p' !! n = prim_attrs p !! n.
Proof.
  intros Hp. destruct (IsInvertedTwin opClass) eqn:Et.
  - exists p. unfold pushOp. rewrite Et. split; [exact Hp | reflexivity].
  - destruct (pushOp_settles env op opClass s) as (g & sel & _ & _ & E & _).
    specialize (E s (sameHost_refl s)).
    apply (f_equal m_prim) in E. unfold forget, settle in E. cbn in E. rewrite Hp in E.
    destruct (m_prim (pushOp env op opClass s)) as [p'|]; [|discriminate].
    exists p'. split; [reflexivity|]. intros n [Hn|Hn]; [discriminate|].
    cbn in E. injection E as E _ _. rewrite E. apply lookup_alter_ne. congruence.
Qed.

Lemma pushOps_prim ops classes s p :
  m_prim s = Some p ->
  exists p', m_prim (pushOps env ops classes s) = Some p' /\
    forall n, ~ In n (pushedAttrs ops classes) -> prim_attrs p' !! n = prim_attrs p !! n.
Proof.
  revert classes s p. induction ops as [|op ops IH]; intros [|c classes] s p Hp;
    try (exists p; split; [exact Hp | reflexivity]).
  destruct (pushOp_prim op c s p Hp) as (p1 & Hp1 & H1).
  destruct (IH classes _ _ Hp1) as (p' & Hp' & H').
  exists p'. split; [exact Hp'|]. intros n Hn. cbn [pushedAttrs] in Hn.
  destruct (IsInvertedTwin c) eqn:Et.
  - rewrite (H' n Hn). apply H1. left. reflexivity.
  - rewrite H'; [apply H1; right|]; intros E; apply Hn; [left; congruence | right; exact E].
Qed.

Lemma readVector_ext p q op tc :
  prim_attrs p !! Usd.opAttrName op = prim_attrs q !! Usd.opAttrName op ->
  readVector env p op tc = readVector env q op tc /\ Usd.GetTypeName p op = Usd.GetTypeName q op.
Proof.
  intros H. unfold readVector, Usd.GetTypeName, Usd.Get, Usd.GetAttribute. rewrite H.
  split; reflexivity.
Qed.

Lemma pushedAttrs_In ops classes (i : nat) op opClass :
  ops !! i = Some op -> classes !! i = Some opClass -> IsInvertedTwin opClass = false ->
  In (Usd.opAttrName op) (pushedAttrs ops classes).
Proof.
  revert classes i. induction ops as [|op0 ops IH]; intros [|c0 classes] i Ho Hc Ht;
    try discriminate.
  destruct i as [|i]; simpl in *.
  - injection Ho as ->. injection Hc as ->. rewrite Ht. left. reflexivity.
  - destruct (IsInvertedTwin c0); [|right]; eapply IH; eauto.
Qed.

Lemma storable_ext p q op tc v :
  prim_attrs p !! Usd.opAttrName op = prim_attrs q !! Usd.opAttrName op ->
  storable env p op tc v -> storable env q op tc v.
Proof.
  intros H. unfold storable, Usd.Get, Usd.GetAttribute. rewrite H. auto.
Qed.

Lemma pushOps_stores ops classes s p (i : nat) op opClass v :
  m_prim s = Some p -> List.NoDup (pushedAttrs ops classes) ->
  ops !! i = Some op -> classes !! i = Some opClass ->
  IsInvertedTwin opClass = false -> op_inverse op = false ->
  hostVector (GetName opClass) (values s) = Some v ->
  isVec3 (Usd.GetTypeName p op) = true ->
  storable env p op (getTimeCode s) (VVec (narrowVector env (Usd.GetTypeName p op) v)) ->
  exists p' v', m_prim (pushOps env ops classes s) = Some p' /\
    readVector env p' op (getTimeCode s) = Some v' /\
    vequiv v' (narrowVector env (Usd.GetTypeName p op) v).
Proof.
  revert classes s p i. induction ops as [|op0 ops IH];
    intros [|c0 classes] s p i Hp Hd Ho Hc Ht Hi Hv Hty Hst; try discriminate.
  destruct i as [|i]; simpl in Ho, Hc.
  - injection Ho as ->. injection Hc as ->.
    cbn [pushOps pushedAttrs] in *. rewrite Ht in Hd. inversion Hd as [|? ? Hn Hd']; subst.
    pose proof (pushOp_vector op opClass s p v Ht Hv Hp) as H1.
    destruct (pushVector_stored env v op (getTimeCode s) p Hi Hty Hst) as [_ (v' & Hr & He)].
    destruct (pushOps_prim ops classes _ _ H1) as (p' & Hp' & H').
    exists p', v'. split; [exact Hp'|]. split; [|exact He].
    rewrite <- Hr. apply readVector_ext, H', Hn.
  - cbn [pushOps pushedAttrs] in *.
    destruct (pushOp_prim op0 c0 s p Hp) as (p1 & Hp1 & H1).
    pose proof (pushedAttrs_In ops classes i op opClass Ho Hc Ht) as Hin.
    assert (Ha : prim_attrs p1 !! Usd.opAttrName op = prim_attrs p !! Usd.opAttrName op).
    { apply H1. destruct (IsInvertedTwin c0); [left; reflexivity | right].
      inversion Hd; subst. intros E. congruence. }
    destruct (readVector_ext p1 p op Default Ha) as [_ Hty1].
    destruct (pushOp_frame env op0 c0 s) as ((Hvals & _ & Hf & Htm) & _).
    assert (Hd' : List.NoDup (pushedAttrs ops classes))
      by (destruct (IsInvertedTwin c0); [exact Hd | inversion Hd; assumption]).
    assert (Htc : getTimeCode (pushOp env op0 c0 s) = getTimeCode s)
      by (unfold getTimeCode, readAnimatedValues; rewrite Hf, Htm; reflexivity).
    destruct (IH classes (pushOp env op0 c0 s) p1 i Hp1 Hd' Ho Hc Ht Hi) as (p' & v' & A & B & C).
    + rewrite <- Hvals. exact Hv.
    + rewrite Hty1. exact Hty.
    + rewrite Htc, Hty1. apply (storable_ext p p1); [symmetry; exact Ha | exact Hst].
    + exists p', v'. split; [exact A|]. rewrite Hty1 in C. split; [|exact C].
      rewrite <- B. f_equal. unfold getTimeCode, readAnimatedValues. rewrite Hf, Htm. reflexivity.
Qed.

(** X9.  After pushToPrim on a state whose op list and classification
    list are in step (each classification has the role and the inversion
    of its op), when the written ops each have an attribute of their own,
    the op of a vector role (translate, pivot, rotatePivot, scalePivot,
    the pivot translates, scale) with three-component storage reads, at
    the time code of the engine, the host vector of that role narrowed to
    the storage type of the op, provided that the op held a value at that
    time or that the comparison with the unset old value reports a
    difference. *)
Theorem pushToPrim_stores_host_vectors (s : TransformationMatrix) (p : UsdPrim) (i : nat)
    (op : UsdGeomXformOp) (opClass : UsdMayaXformOpClassification) (v : MVector) :
  m_prim s = Some p -> aligned s -> distinct_attributes s ->
  m_xformops s !! i = Some op -> m_orderedOps s !! i = Some opClass ->
  IsInvertedTwin opClass = false ->
  hostVector (GetName opClass) (values s) = Some v ->
  isVec3 (Usd.GetTypeName p op) = true ->
  storable env p op (getTimeCode s) (VVec (narrowVector env (Usd.GetTypeName p op) v)) ->
  exists p' v', m_prim (pushToPrim env s) = Some p' /\
    readVector env p' op (getTimeCode s) = Some v' /\
    vequiv v' (narrowVector env (Usd.GetTypeName p op) v).
Proof.
  intros Hp Hal Hd Ho Hc Ht Hv Hty Hst. unfold pushToPrim. rewrite Hp.
  assert (Hi : op_inverse op = false).
  { destruct (Forall2_lookup_lr _ _ _ _ _ _ Hal Ho Hc) as [_ E]. congruence. }
  eapply pushOps_stores; eauto. apply NoDup_ListNoDup, Hd.
Qed.

End ReadBack.

End PassStores.

(** *** A set call that pushes *)

Section SetCalls.

Section SetAndPush.

Variable env : Env.

Lemma setComponent_pushes call s :
  pushToPrimAvailable s = true -> lockedFor call s = false -> presentFor call s = true ->
  exists s2, snd (setComponent env call s) = pushToPrim env s2 /\
    m_prim s2 = m_prim s /\ m_xformops s2 = m_xformops s /\
    m_orderedOps s2 = m_orderedOps s /\ m_flags s2 = m_flags s.
Proof.
  intros Hpush Hlock Hpres.
  destruct call; cbn [setComponent lockedFor presentFor] in *;
    unfold translateTo, scaleTo, shearTo, setScalePivot, setScalePivotTranslation,
      setRotatePivot, setRotatePivotTranslation, rotateTo_quat, rotateTo_euler,
      setRotateOrientation_quat, setRotateOrientation_euler;
    rewrite ?Hlock;
    match goal with
    | |- context [let '(status, vals) := ?b in _] =>
        let st := fresh "status" in
        let vals := fresh "vals" in
        destruct b as [st vals]; destruct st; cbn [status_ok]
    end;
    unfold pushComponent;
    match goal with
    | |- context [pushToPrimAvailable ?x] =>
        replace (pushToPrimAvailable x) with true
          by (rewrite <- Hpush; apply pushToPrimAvailable_ext; reflexivity)
    end;
    match goal with
    | |- context [if ?b then _ else _] => change b with true || replace b with true by (symmetry; exact Hpres)
    end;
    cbn [snd]; eexists; (split; [reflexivity|]); repeat split.
Qed.

(** X10.  A set call on one of the eight vector components (translateTo,
    scaleTo, shearTo, rotateTo, the two pivot setters and the two pivot
    translation setters; not the rotate-orientation setters, whose
    component no push brings to rest) whose component is unlocked, has
    its presence flag set and has its op in the stack, made while
    push-to-prim is available on a state whose op list and classification
    list are in step, ends in a push: afterwards the component is at rest
    (zero tweak, from-source value equal to the host value), and the two
    op lists and the flags are as before. *)
Theorem setter_push_brings_to_rest (call : SetComponent) (s : TransformationMatrix)
    (i : nat) (op : UsdGeomXformOp) (opClass : UsdMayaXformOpClassification) :
  pushToPrimAvailable s = true -> aligned s ->
  lockedFor call s = false -> presentFor call s = true ->
  m_xformops s !! i = Some op -> m_orderedOps s !! i = Some opClass ->
  IsInvertedTwin opClass = false ->
  In (componentOf call) (settledBy (GetName opClass)) ->
  let s' := snd (setComponent env call s) in
  componentOf call <> RotateOrientation /\
  at_rest (componentOf call) s' /\
  m_xformops s' = m_xformops s /\ m_orderedOps s' = m_orderedOps s /\
  m_flags s' = m_flags s.
Proof.
  intros Hpush _ Hlock Hpres Ho Hc Ht Hin s'. subst s'.
  split.
  { intros E. rewrite E in Hin. exact (settledBy_not_orientation _ Hin). }
  destruct (setComponent_pushes call s Hpush Hlock Hpres) as (s2 & -> & Hp & Hx & Hoo & Hf).
  assert (Hv : prim_valid s2 = true).
  { unfold pushToPrimAvailable in Hpush. apply andb_true_iff in Hpush as [_ Hpush].
    unfold prim_valid in *. rewrite Hp. exact Hpush. }
  rewrite <- Hx in Ho. rewrite <- Hoo in Hc.
  pose proof (pushToPrim_at_rest env s2 i op opClass (componentOf call) Hv Ho Hc Ht Hin) as R.
  split; [exact R|].
  destruct (pushToPrim_frame env s2) as ((_ & _ & Ff & _) & Fx & Fo & _).
  repeat split; congruence.
Qed.

End SetAndPush.

Section OtherComponents.

Variable env : Env.

(** X11.  A set call made while push-to-prim is not available leaves the
    tweak and the from-source value of every component other than its own
    as they were; a component whose host value the base class left alone
    then keeps the relation host value = from-source value + tweak. *)
Theorem setter_leaves_other_components (call : SetComponent) (s : TransformationMatrix)
    (c' : Component) :
  pushToPrimAvailable s = false ->
  c' <> componentOf call ->
  let s' := snd (setComponent env call s) in
  slot c' (tweaks s') = slot c' (tweaks s) /\
  slot c' (fromUsd s') = slot c' (fromUsd s) /\
  (slot c' (values s') = slot c' (values s) -> tweak_invariant env c' s -> tweak_invariant env c' s').
Proof.
  intros Hpush Hc' s'.
  destruct (setter_frame env call s Hpush c' Hc') as [Ht Hf]. fold s' in Ht, Hf.
  split; [exact Ht|]. split; [exact Hf|].
  intros Hv. unfold tweak_invariant. rewrite Hv, Ht, Hf. auto.
Qed.

End OtherComponents.

End SetCalls.

(** *** Removal and insertion of ops *)

Section OpLists.
Local Close Scope Q_scope.












(** *** Order of the Maya indices *)

Lemma lower_bound_le l x : (lower_bound l x <= length l)%nat.
Proof. induction l as [|y l IH]; simpl; [lia|]. destruct (y <? x)%N; simpl; lia. Qed.

Lemma insert_at_sorted l x :
  StronglySorted N.le l -> StronglySorted N.le (insert_at (lower_bound l x) x l).
Proof.
  induction l as [|y l IH]; intros H.
  - repeat constructor.
  - inversion H as [|? ? Hs Hf]; subst. cbn [lower_bound].
    destruct (N.ltb_spec y x) as [Hlt|Hge].
    + unfold insert_at. cbn [take drop app].
      constructor; [apply IH, Hs|].
      fold (insert_at (lower_bound l x) x l).
      unfold insert_at. apply Forall_app. split.
      * apply Forall_take, Hf.
      * constructor; [lia|]. apply Forall_drop, Hf.
    + unfold insert_at. cbn [take drop app].
      constructor; [exact H|]. constructor; [exact Hge|].
      rewrite List.Forall_forall in *. intros z Hz. specialize (Hf z Hz). lia.
Qed.

Lemma erase_at_sorted (i : nat) l : StronglySorted N.le l -> StronglySorted N.le (erase_at i l).
Proof.
  revert i. induction l as [|y l IH]; intros [|i] H; unfold erase_at; cbn [take drop app];
    try exact H.
  - inversion H; assumption.
  - inversion H as [|? ? Hs Hf]; subst. constructor; [apply IH, Hs|].
    fold (erase_at i l). unfold erase_at. apply Forall_app. split.
    + apply Forall_take, Hf.
    + apply Forall_drop, Hf.
Qed.

Lemma addOp_indices opType precision opName opIndex insertAtBeginning s :
  match addOp opType precision opName opIndex insertAtBeginning s with
  | (None, s') => s' = s
  | (Some pos, s') =>
      pos = (if insertAtBeginning then O
             else lower_bound (m_orderedOpMayaIndices s) opIndex) /\
      m_orderedOpMayaIndices s' = insert_at pos opIndex (m_orderedOpMayaIndices s)
  end.
Proof.
  unfold addOp.
  destruct (stack_nth MayaStack opIndex) as [opClass|]; [|reflexivity].
  destruct (m_prim s) as [p|]; [|reflexivity].
  destruct (Usd.AddXformOp p opType precision opName (IsInvertedTwin opClass)) as [[op p']|];
    [|reflexivity].
  unfold findOpInsertPos. split; reflexivity.
Qed.

Lemma commitOrder_indices newFlag s :
  m_orderedOpMayaIndices (commitOrder newFlag s) = m_orderedOpMayaIndices s.
Proof. unfold commitOrder. destruct (m_prim s); reflexivity. Qed.

Lemma addOp_sorted opType precision opName opIndex s :
  StronglySorted N.le (m_orderedOpMayaIndices s) ->
  StronglySorted N.le
    (m_orderedOpMayaIndices (snd (addOp opType precision opName opIndex false s))).
Proof.
  intros H. pose proof (addOp_indices opType precision opName opIndex false s) as R.
  destruct (addOp opType precision opName opIndex false s) as [[pos|] s']; cbn [snd].
  - destruct R as [-> ->]. apply insert_at_sorted, H.
  - subst s'. exact H.
Qed.

(** X14.  When the Maya indices of the ops are in ascending order once
    built, they still are after any insertOp that does not insert at the
    beginning (the index goes where std::lower_bound puts it) and after
    insertTranslateOp (which inserts the least index at the beginning). *)
Theorem insertOp_keeps_indices_sorted (s : TransformationMatrix) :
  StronglySorted N.le (m_orderedOpMayaIndices (buildOrderedOpMayaIndices s)) ->
  (forall opType precision opName newFlag,
     StronglySorted N.le
       (m_orderedOpMayaIndices (snd (insertOp opType precision opName newFlag false s)))) /\
  StronglySorted N.le (m_orderedOpMayaIndices (snd (insertTranslateOp s))).
Proof.
  intros H. split.
  - intros opType precision opName newFlag. unfold insertOp.
    set (s1 := buildOrderedOpMayaIndices s) in *.
    destruct (negb (snd (FindOpIndexPair MayaStack opName) =? NO_INDEX)%N).
    + pose proof (addOp_sorted opType precision opName (snd (FindOpIndexPair MayaStack opName))
                    s1 H) as H2.
      destruct (addOp opType precision opName (snd (FindOpIndexPair MayaStack opName)) false s1)
        as [[secondPos|] s2]; cbn [snd] in *; [|exact H2].
      pose proof (addOp_sorted opType precision opName (fst (FindOpIndexPair MayaStack opName))
                    s2 H2) as H3.
      destruct (addOp opType precision opName (fst (FindOpIndexPair MayaStack opName)) false s2)
        as [[firstPos|] s3]; cbn [snd] in *.
      * rewrite commitOrder_indices. exact H3.
      * unfold eraseInserted. cbn [m_orderedOpMayaIndices set_indices].
        apply erase_at_sorted, H3.
    + pose proof (addOp_sorted opType precision opName (fst (FindOpIndexPair MayaStack opName))
                    s1 H) as H3.
      destruct (addOp opType precision opName (fst (FindOpIndexPair MayaStack opName)) false s1)
        as [[firstPos|] s3]; cbn [snd] in *; [|exact H3].
      rewrite commitOrder_indices. exact H3.
  - unfold insertTranslateOp, insertOp.
    set (s1 := buildOrderedOpMayaIndices s) in *.
    change (FindOpIndexPair MayaStack Tokens.translate) with (0%N, NO_INDEX).
    cbn [fst snd]. change (negb (NO_INDEX =? NO_INDEX)%N) with false. cbv iota.
    pose proof (addOp_indices TypeTranslate PrecisionFloat Tokens.translate 0%N true s1) as R.
    destruct (addOp TypeTranslate PrecisionFloat Tokens.translate 0%N true s1)
      as [[pos|] s3]; cbn [snd].
    + destruct R as [-> R]. rewrite commitOrder_indices, R. unfold insert_at.
      rewrite take_0, drop_0. cbn [app]. constructor; [exact H|].
      apply List.Forall_forall. intros z _. lia.
    + subst s3. exact H.
Qed.

(** *** [buildOrderedOpMayaIndices] *)

Lemma sublist_map {A B} (f : A -> B) l k : sublist l k -> sublist (map f l) (map f k).
Proof. induction 1; simpl; constructor; assumption. Qed.

Lemma sublist_Forall {A} (P : A -> Prop) l k : sublist l k -> Forall P k -> Forall P l.
Proof.
  induction 1 as [|x l k _ IH|x l k _ IH]; intros H; [constructor| |];
    inversion H; subst; [constructor|]; auto.
Qed.

Lemma sublist_sorted l k : sublist l k -> StronglySorted N.lt k -> StronglySorted N.lt l.
Proof.
  induction 1 as [|x l k Hs IH|x l k Hs IH]; intros H; [constructor| |];
    inversion H; subst; [|auto].
  constructor; [auto|]. eapply sublist_Forall; eauto.
Qed.


Lemma ascending_from (n : N) (l : list N) :
  (fix up (k : N) (l : list N) : bool :=
     match l with
     | [] => true
     | x :: l' => (k <=? x)%N && up (x + 1)%N l'
     end) n l = true ->
  StronglySorted N.lt l /\ Forall (N.le n) l.
Proof.
  revert n. induction l as [|x l IH]; intros n H; [split; constructor|].
  apply andb_true_iff in H as [Hx H]. apply N.leb_le in Hx.
  destruct (IH _ H) as [Hs Hf]. split.
  - constructor; [exact Hs|]. eapply Forall_impl; [exact Hf|]. intros z Hz. simpl in Hz. lia.
  - constructor; [exact Hx|]. eapply Forall_impl; [exact Hf|]. intros z Hz. simpl in Hz. lia.
Qed.

(** X15.  buildOrderedOpMayaIndices fills the index list only when it is
    empty, and a second call changes nothing. For a classification list
    that is a sublist of the stack of its schema (Maya or single pivot)
    the indices it computes are strictly ascending, and under the Maya
    schema each index is the place of its classification in the Maya
    stack. *)
Theorem buildOrderedOpMayaIndices_ascending (s : TransformationMatrix) :
  let s' := buildOrderedOpMayaIndices s in
  (m_orderedOpMayaIndices s <> [] -> s' = s) /\
  (m_orderedOpMayaIndices s = [] -> has_flag (m_flags s) kFromMayaSchema = true ->
   sublist (m_orderedOps s) (GetOps MayaStack) ->
   m_orderedOpMayaIndices s' = map indexInMaya (m_orderedOps s) /\
   StronglySorted N.lt (m_orderedOpMayaIndices s') /\
   Forall2 (fun i c => stack_nth MayaStack i = Some c)
     (m_orderedOpMayaIndices s') (m_orderedOps s)) /\
  (m_orderedOpMayaIndices s = [] -> has_flag (m_flags s) kFromMayaSchema = false ->
   has_flag (m_flags s) kSinglePivotSchema = true ->
   sublist (m_orderedOps s) (GetOps MayaSinglePivotStack) ->
   m_orderedOpMayaIndices s' = map (mayaIndexOf true) (m_orderedOps s) /\
   StronglySorted N.lt (m_orderedOpMayaIndices s')) /\
  buildOrderedOpMayaIndices s' = s'.
Proof.
  intros s'. subst s'. split; [|split; [|split]].
  - intros Hne. unfold buildOrderedOpMayaIndices.
    destruct (m_orderedOpMayaIndices s); [congruence|reflexivity].
  - intros He Hf Hs.
    assert (E : m_orderedOpMayaIndices (buildOrderedOpMayaIndices s) =
                map indexInMaya (m_orderedOps s)).
    { unfold buildOrderedOpMayaIndices. rewrite He, Hf.
      destruct (m_orderedOps s); [exact He | reflexivity]. }
    split; [exact E|]. rewrite E. split.
    + apply (sublist_sorted _ (map indexInMaya (GetOps MayaStack))).
      * apply sublist_map, Hs.
      * apply (ascending_from 0). vm_compute. reflexivity.
    + assert (F : Forall (fun c => stack_nth MayaStack (indexInMaya c) = Some c)
                    (m_orderedOps s)).
      { eapply sublist_Forall; [exact Hs|]. vm_compute. repeat constructor. }
      clear E Hs. induction F as [|c l Hc F IH]; cbn [map];
        [constructor | constructor; assumption].
  - intros He Hf Hp Hs.
    assert (E : m_orderedOpMayaIndices (buildOrderedOpMayaIndices s) =
                map (mayaIndexOf true) (m_orderedOps s)).
    { unfold buildOrderedOpMayaIndices. rewrite He, Hf, Hp.
      destruct (m_orderedOps s); [exact He | reflexivity]. }
    split; [exact E|]. rewrite E.
    apply (sublist_sorted _ (map (mayaIndexOf true) (GetOps MayaSinglePivotStack))).
    + apply sublist_map, Hs.
    + apply (ascending_from 0). vm_compute. reflexivity.
  - unfold buildOrderedOpMayaIndices.
    destruct (m_orderedOpMayaIndices s) as [|i idx] eqn:Ei.
    + destruct (m_orderedOps s) as [|c l] eqn:Eo.
      * rewrite Ei, Eo. reflexivity.
      * destruct (has_flag (m_flags s) kFromMayaSchema) eqn:Ef;
          [|destruct (has_flag (m_flags s) kSinglePivotSchema) eqn:Ep];
          cbn [m_orderedOpMayaIndices m_orderedOps m_flags set_indices map];
          rewrite ?Ei, ?Eo, ?Ef, ?Ep; reflexivity.
    + rewrite Ei. reflexivity.
Qed.

Lemma AddXformOp_keeps p t pr suffix inv op p' :
  Usd.AddXformOp p t pr suffix inv = Some (op, p') ->
  op = mkOp t suffix inv /\
  xformOpOrder p' = xformOpOrder p ++ [op] /\
  resetsXformStack p' = resetsXformStack p /\
  value_edits p' = value_edits p /\
  (forall n a, prim_attrs p !! n = Some a -> prim_attrs p' !! n = Some a) /\
  exists a, prim_attrs p' !! Usd.opAttrName op = Some a /\
    (prim_attrs p !! Usd.opAttrName op = None -> a = mkAttr (Usd.valueTypeOf t pr) None []).
Proof.
  unfold Usd.AddXformOp.
  destruct (Usd.in_order _ _); [discriminate|].
  destruct (xformOpType_eqb t TypeInvalid); [discriminate|].
  destruct (prim_attrs p !! Usd.attrName t suffix) as [a|] eqn:E.
  - intros [= <- <-]. cbn. repeat split; auto.
    exists a. split; [exact E|]. unfold Usd.opAttrName. cbn. congruence.
  - intros [= <- <-]. cbn. repeat split; auto.
    + intros n a Hn. rewrite lookup_insert_ne; [exact Hn|]. intros <-. congruence.
    + eexists. unfold Usd.opAttrName. cbn. rewrite lookup_insert_eq. split; reflexivity.
Qed.

Lemma addOp_prim opType precision opName opIndex insertAtBeginning s :
  match addOp opType precision opName opIndex insertAtBeginning s with
  | (None, s') => s' = s
  | (Some _, s') =>
      exists p p', m_prim s = Some p /\ m_prim s' = Some p' /\
        (forall n a, prim_attrs p !! n = Some a -> prim_attrs p' !! n = Some a) /\
        value_edits p' = value_edits p
  end.
Proof.
  unfold addOp.
  destruct (stack_nth MayaStack opIndex) as [opClass|]; [|reflexivity].
  destruct (m_prim s) as [p|] eqn:Ep; [|reflexivity].
  destruct (Usd.AddXformOp p opType precision opName (IsInvertedTwin opClass)) as [[op p']|] eqn:E;
    [|reflexivity].
  destruct (AddXformOp_keeps _ _ _ _ _ _ _ E) as (_ & _ & _ & Hv & Hk & _).
  exists p, p'. repeat split; auto.
Qed.

Lemma commitOrder_prim newFlag s p :
  m_prim s = Some p ->
  exists p', m_prim (commitOrder newFlag s) = Some p' /\
    xformOpOrder p' = m_xformops (commitOrder newFlag s) /\
    resetsXformStack p' = negb (has_flag (m_flags s) kInheritsTransform) /\
    prim_attrs p' = prim_attrs p /\ value_edits p' = value_edits p /\
    m_flags (commitOrder newFlag s) = set_flag (m_flags s) newFlag.
Proof.
  intros Hp. unfold commitOrder. rewrite Hp. eexists. repeat split.
Qed.

Lemma build_prim s :
  m_prim (buildOrderedOpMayaIndices s) = m_prim s /\
  m_flags (buildOrderedOpMayaIndices s) = m_flags s.
Proof.
  unfold buildOrderedOpMayaIndices.
  destruct (m_orderedOpMayaIndices s), (m_orderedOps s); try (split; reflexivity);
    repeat match goal with |- context [if ?c then _ else _] => destruct c end;
    split; reflexivity.
Qed.

(** X13.  A successful insertOp leaves the op order of the prim equal to
    the op list of the engine, sets the presence flag it is given and the
    reset flag that matches the inherits-transform flag, keeps every
    attribute the prim had and stores no value. Without a bound prim
    insertOp fails. *)
Theorem insertOp_success (opType : XformOpType) (precision : Precision) (opName : string)
    (newFlag : Z) (insertAtBeginning : bool) (s : TransformationMatrix) :
  let r := insertOp opType precision opName newFlag insertAtBeginning s in
  (fst r = kSuccess ->
   exists p p', m_prim s = Some p /\ m_prim (snd r) = Some p' /\
     xformOpOrder p' = m_xformops (snd r) /\
     resetsXformStack p' = negb (has_flag (m_flags s) kInheritsTransform) /\
     m_flags (snd r) = set_flag (m_flags s) newFlag /\
     (forall n a, prim_attrs p !! n = Some a -> prim_attrs p' !! n = Some a) /\
     value_edits p' = value_edits p) /\
  (m_prim s = None -> fst r = kFailure).
Proof.
  intros r. subst r. destruct (build_prim s) as [Bp Bf].
  unfold insertOp. set (s1 := buildOrderedOpMayaIndices s) in *.
  destruct (negb (snd (FindOpIndexPair MayaStack opName) =? NO_INDEX)%N).
  - pose proof (addOp_prim opType precision opName (snd (FindOpIndexPair MayaStack opName))
                  insertAtBeginning s1) as R2.
    pose proof (addOp_result opType precision opName (snd (FindOpIndexPair MayaStack opName))
                  insertAtBeginning s1) as Q2.
    destruct (addOp opType precision opName (snd (FindOpIndexPair MayaStack opName))
                insertAtBeginning s1) as [[secondPos|] s2]; cbn [fst snd].
    2:{ split; [discriminate | reflexivity]. }
    destruct R2 as (p & p2 & Hp & Hp2 & Hk2 & Hv2). destruct Q2 as (_ & Hf2 & _).
    pose proof (addOp_prim opType precision opName (fst (FindOpIndexPair MayaStack opName))
                  insertAtBeginning s2) as R1.
    pose proof (addOp_result opType precision opName (fst (FindOpIndexPair MayaStack opName))
                  insertAtBeginning s2) as Q1.
    destruct (addOp opType precision opName (fst (FindOpIndexPair MayaStack opName))
                insertAtBeginning s2) as [[firstPos|] s3]; cbn [fst snd].
    2:{ split; [discriminate|]. intros Hn. reflexivity. }
    destruct R1 as (q & p3 & Hq & Hp3 & Hk3 & Hv3). destruct Q1 as (_ & Hf3 & _).
    split; [|intros Hn; rewrite <- Bp, Hp in Hn; discriminate].
    intros _. destruct (commitOrder_prim newFlag s3 p3 Hp3) as (p' & A & B & C & D & E & F).
    exists p, p'. rewrite <- Bp. split; [exact Hp|]. split; [exact A|]. split; [exact B|].
    split; [rewrite C, Hf3, Hf2, Bf; reflexivity|].
    split; [rewrite F, Hf3, Hf2, Bf; reflexivity|].
    assert (q = p2) by congruence. subst q.
    split; [|congruence]. intros n a Hn. rewrite D. auto.
  - pose proof (addOp_prim opType precision opName (fst (FindOpIndexPair MayaStack opName))
                  insertAtBeginning s1) as R1.
    pose proof (addOp_result opType precision opName (fst (FindOpIndexPair MayaStack opName))
                  insertAtBeginning s1) as Q1.
    destruct (addOp opType precision opName (fst (FindOpIndexPair MayaStack opName))
                insertAtBeginning s1) as [[firstPos|] s3]; cbn [fst snd].
    2:{ split; [discriminate | reflexivity]. }
    destruct R1 as (p & p3 & Hp & Hp3 & Hk3 & Hv3). destruct Q1 as (_ & Hf3 & _).
    split; [|intros Hn; rewrite <- Bp, Hp in Hn; discriminate].
    intros _. destruct (commitOrder_prim newFlag s3 p3 Hp3) as (p' & A & B & C & D & E & F).
    exists p, p'. rewrite <- Bp. split; [exact Hp|]. split; [exact A|]. split; [exact B|].
    split; [rewrite C, Hf3, Bf; reflexivity|].
    split; [rewrite F, Hf3, Bf; reflexivity|].
    split; [|congruence]. intros n a Hn. rewrite D. auto.
Qed.

End OpLists.

(** *** The split of the pivot *)

Section PivotSplit.
Local Close Scope Q_scope.

Lemma host_kept_refl s : host_kept s s.
Proof. repeat split. Qed.

Lemma host_kept_trans s1 s2 s3 : host_kept s1 s2 -> host_kept s2 s3 -> host_kept s1 s3.
Proof. unfold host_kept. intuition congruence. Qed.

Lemma eraseOpAt_host i s : host_kept s (eraseOpAt i s).
Proof.
  unfold eraseOpAt, host_kept.
  cbn [m_orderedOpMayaIndices set_xformops set_orderedOps].
  destruct (m_orderedOpMayaIndices s); cbn; auto.
Qed.

Lemma removeOpFrom_host opName i foundOne s :
  host_kept s (snd (removeOpFrom opName i foundOne s)).
Proof.
  revert foundOne s. induction i as [|i IH]; intros foundOne s; simpl.
  - destruct (nameAt s 0 opName); [|destruct foundOne; apply host_kept_refl].
    destruct foundOne; apply eraseOpAt_host.
  - destruct (nameAt s (S i) opName).
    + destruct foundOne; [apply eraseOpAt_host|].
      eapply host_kept_trans; [apply eraseOpAt_host | apply IH].
    + apply IH.
Qed.

Lemma removeOp_host opName oldFlag s : host_kept s (snd (removeOp opName oldFlag s)).
Proof.
  unfold removeOp.
  assert (H : host_kept s (snd (match m_orderedOps s with
                        | [] => (false, s)
                        | _ :: rest => removeOpFrom opName (length rest) false s
                        end))).
  { destruct (m_orderedOps s); [apply host_kept_refl | apply removeOpFrom_host]. }
  destruct (match m_orderedOps s with
            | [] => (false, s)
            | _ :: rest => removeOpFrom opName (length rest) false s
            end) as [foundOne s1]. cbn [snd] in H.
  destruct foundOne; cbn [negb snd].
  - destruct (m_prim (and_not_flags oldFlag s1)); exact H.
  - exact H.
Qed.

Lemma addOp_host opType precision opName opIndex insertAtBeginning s :
  host_kept s (snd (addOp opType precision opName opIndex insertAtBeginning s)).
Proof.
  unfold addOp.
  destruct (stack_nth MayaStack opIndex) as [opClass|]; [|apply host_kept_refl].
  destruct (m_prim s) as [p|]; [|apply host_kept_refl].
  destruct (Usd.AddXformOp p opType precision opName (IsInvertedTwin opClass)) as [[op p']|];
    [|apply host_kept_refl].
  repeat split.
Qed.

Lemma insertOp_host opType precision opName newFlag insertAtBeginning s :
  host_kept s (snd (insertOp opType precision opName newFlag insertAtBeginning s)).
Proof.
  assert (B : host_kept s (buildOrderedOpMayaIndices s)).
  { unfold buildOrderedOpMayaIndices.
    destruct (m_orderedOpMayaIndices s), (m_orderedOps s); try apply host_kept_refl;
      repeat match goal with |- context [if ?c then _ else _] => destruct c end;
      repeat split. }
  assert (C : forall x, host_kept x (commitOrder newFlag x)).
  { intros x. unfold commitOrder. destruct (m_prim x); repeat split. }
  unfold insertOp. set (s1 := buildOrderedOpMayaIndices s) in *.
  destruct (negb (snd (FindOpIndexPair MayaStack opName) =? NO_INDEX)%N).
  - pose proof (addOp_host opType precision opName (snd (FindOpIndexPair MayaStack opName))
                  insertAtBeginning s1) as R2.
    destruct (addOp opType precision opName (snd (FindOpIndexPair MayaStack opName))
                insertAtBeginning s1) as [[secondPos|] s2]; cbn [snd] in *.
    + pose proof (addOp_host opType precision opName (fst (FindOpIndexPair MayaStack opName))
                    insertAtBeginning s2) as R1.
      destruct (addOp opType precision opName (fst (FindOpIndexPair MayaStack opName))
                  insertAtBeginning s2) as [[firstPos|] s3]; cbn [snd] in *.
      * eapply host_kept_trans; [exact B|]. eapply host_kept_trans; [exact R2|].
        eapply host_kept_trans; [exact R1 | apply C].
      * eapply host_kept_trans; [exact B|]. eapply host_kept_trans; [exact R2|].
        eapply host_kept_trans; [exact R1 |]. repeat split.
    + eapply host_kept_trans; eassumption.
  - pose proof (addOp_host opType precision opName (fst (FindOpIndexPair MayaStack opName))
                  insertAtBeginning s1) as R1.
    destruct (addOp opType precision opName (fst (FindOpIndexPair MayaStack opName))
                insertAtBeginning s1) as [[firstPos|] s3]; cbn [snd] in *.
    + eapply host_kept_trans; [exact B|]. eapply host_kept_trans; [exact R1 | apply C].
    + eapply host_kept_trans; eassumption.
Qed.

Local Open Scope Z_scope.


Lemma insertOp_flag_bits opType precision opName newFlag b s j :
  0 <= j -> newFlag = Z.shiftl 1 j ->
  forall k, 0 <= k ->
    let f' := m_flags (snd (insertOp opType precision opName newFlag b s)) in
    Z.testbit f' k = Z.testbit (m_flags s) k \/ (k = j /\ Z.testbit f' k = true).
Proof.
  intros Hj -> k Hk f'. subst f'.
  destruct (insertOp_flags opType precision opName (Z.shiftl 1 j) b s) as [-> | ->];
    [left; reflexivity|].
  rewrite testbit_set_flag, testbit_bit by lia.
  destruct (Z.eqb_spec j k) as [->|]; [right | left].
  - split; [reflexivity | apply orb_true_r].
  - apply orb_false_r.
Qed.

(** X16.  splitPivotIfNeeded returns whether the prim had the single pivot
    op. Without that op, or with equal scale and rotate pivots, it changes
    nothing. With different pivots it clears the pivot flag, can set only
    the rotate-pivot and scale-pivot presence flags, and keeps the host
    values, tweaks, from-source values and the time. *)
Theorem splitPivotIfNeeded_result (s : TransformationMatrix) :
  let r := splitPivotIfNeeded s in
  fst r = primHasPivot s /\
  (primHasPivot s = false \/
   veqb (c_scalePivot (values s)) (c_rotatePivot (values s)) = true -> snd r = s) /\
  (primHasPivot s = true ->
   veqb (c_scalePivot (values s)) (c_rotatePivot (values s)) = false ->
   pivot_flags_split (m_flags s) (m_flags (snd r)) /\ host_kept s (snd r)).
Proof.
  unfold splitPivotIfNeeded.
  change (splitPivotIfNeededFuel 2 s) with
      (if negb (primHasPivot s) then Some (false, s)
       else if veqb (c_scalePivot (values s)) (c_rotatePivot (values s)) then Some (true, s)
       else
         match removeOp Tokens.pivot kPrimHasPivot s with
         | (kFailure, s) => Some (true, s)
         | (kSuccess, s) =>
             match insertPivotOpWith (splitPivotIfNeededFuel 1)
                     Tokens.rotatePivot kPrimHasRotatePivot s with
             | None => None
             | Some (kFailure, s) => Some (true, s)
             | Some (kSuccess, s) =>
                 match insertPivotOpWith (splitPivotIfNeededFuel 1)
                         Tokens.scalePivot kPrimHasScalePivot s with
                 | None => None
                 | Some (_, s) => Some (true, s)
                 end
             end
         end).
  destruct (primHasPivot s) eqn:P; cbn [negb].
  2:{ cbn. repeat split; auto; discriminate. }
  destruct (veqb _ _) eqn:V.
  { cbn. repeat split; auto; discriminate. }
  pose proof (removeOp_flags Tokens.pivot kPrimHasPivot s) as Hf.
  pose proof (removeOp_host Tokens.pivot kPrimHasPivot s) as Hh.
  destruct (removeOp Tokens.pivot kPrimHasPivot s) as [st s1]; cbn [snd] in Hf, Hh.
  assert (F1 : pivot_flags_split (m_flags s) (m_flags s1)).
  { rewrite Hf. split.
    - rewrite testbit_clear_flag by lia. flag_bits. reflexivity.
    - intros k Hk Hne. left. rewrite testbit_clear_flag by lia.
      unfold kPrimHasPivot. rewrite testbit_bit by lia.
      destruct (Z.eqb_spec 25 k); [lia|]. apply andb_true_r. }
  assert (P1 : primHasPivot s1 = false).
  { unfold primHasPivot. rewrite has_bit25. apply F1. }
  assert (Step : forall x opName newFlag j, (j = 20 \/ j = 22) -> newFlag = Z.shiftl 1 j ->
            pivot_flags_split (m_flags s) (m_flags x) -> host_kept s x ->
            let y := snd (insertOp TypeTranslate PrecisionFloat opName newFlag false x) in
            pivot_flags_split (m_flags s) (m_flags y) /\ host_kept s y).
  { intros x opName newFlag j Hj Hn [A B] Hx y. subst y. split.
    - split.
      + destruct (insertOp_flag_bits TypeTranslate PrecisionFloat opName newFlag false x j
                    ltac:(lia) Hn 25 ltac:(lia)) as [E | [E _]]; [|lia].
        cbv zeta in E. rewrite E. exact A.
      + intros k Hk Hne.
        destruct (insertOp_flag_bits TypeTranslate PrecisionFloat opName newFlag false x j
                    ltac:(lia) Hn k Hk) as [E | [E T]]; cbv zeta in *.
        * rewrite E. apply B; assumption.
        * right. split; [lia | exact T].
    - eapply host_kept_trans; [exact Hx | apply insertOp_host]. }
  destruct st.
  2:{ cbn. split; [reflexivity|]. split; [intros [|]; discriminate|]. auto. }
  rewrite (insertPivotOpWith_no_pivot 0) by exact P1.
  destruct (Step s1 Tokens.rotatePivot kPrimHasRotatePivot 22 ltac:(lia) eq_refl F1 Hh)
    as [F2 H2].
  destruct (insertOp TypeTranslate PrecisionFloat Tokens.rotatePivot
              kPrimHasRotatePivot false s1) as [st2 s2]; cbn [snd] in *.
  destruct st2.
  2:{ cbn. split; [reflexivity|]. split; [intros [|]; discriminate|]. auto. }
  assert (P2 : primHasPivot s2 = false).
  { unfold primHasPivot. rewrite has_bit25. apply F2. }
  rewrite (insertPivotOpWith_no_pivot 0) by exact P2.
  destruct (Step s2 Tokens.scalePivot kPrimHasScalePivot 20 ltac:(lia) eq_refl F2 H2)
    as [F3 H3].
  destruct (insertOp TypeTranslate PrecisionFloat Tokens.scalePivot
              kPrimHasScalePivot false s2) as [st3 s3]; cbn [snd] in *.
  cbn. split; [reflexivity|]. split; [intros [|]; discriminate|]. auto.
Qed.

End PivotSplit.

(** *** Time and binding *)

Section TimeAndBinding.
Local Close Scope Q_scope.

Lemma time_frame_refl s : time_frame s s.
Proof. repeat split. Qed.

Lemma time_frame_trans s1 s2 s3 : time_frame s1 s2 -> time_frame s2 s3 -> time_frame s1 s3.
Proof. unfold time_frame. intuition congruence. Qed.

Lemma Forall2_Qeq_refl l : Forall2 Qeq l l.
Proof. induction l; constructor; [reflexivity | assumption]. Qed.

Section Time.
Variable env : Env.

Lemma updateOp_time_frame op opClass s : time_frame s (updateOp env op opClass s).
Proof.
  unfold updateOp.
  repeat match goal with
         | |- context [if ?c then _ else _] => destruct c
         end; repeat split.
Qed.

Lemma updateOps_time_frame ops classes s : time_frame s (updateOps env ops classes s).
Proof.
  revert classes s. induction ops as [|op ops IH]; intros [|c classes] s; simpl;
    try apply time_frame_refl.
  eapply time_frame_trans; [apply updateOp_time_frame | apply IH].
Qed.

Lemma updateOp_invariant c op opClass s :
  tweak_invariant env c s -> tweak_invariant env c (updateOp env op opClass s).
Proof.
  unfold updateOp, tweak_invariant. intros H.
  repeat match goal with
         | |- context [if ?b then _ else _] => destruct b
         end; try exact H;
    destruct c; cbn in *; try exact H; repeat constructor; reflexivity.
Qed.

Lemma updateOps_invariant c ops classes s :
  tweak_invariant env c s -> tweak_invariant env c (updateOps env ops classes s).
Proof.
  revert classes s. induction ops as [|op ops IH]; intros [|d classes] s H; simpl; auto.
  apply IH, updateOp_invariant, H.
Qed.

(** X18.  updateToTime never writes: the prim, the flags, the tweaks and
    the op lists are those it was given, and a component whose host value
    was its from-source value plus its tweak is still so afterwards.
    Without a prim nothing changes; with a prim and a new time the time
    becomes the one asked for, and without animation nothing else changes. *)
Theorem updateToTime_keeps_tweaks (time : UsdTimeCode) (s : TransformationMatrix) :
  let s' := updateToTime env time s in
  time_frame s s' /\
  (forall c, tweak_invariant env c s -> tweak_invariant env c s') /\
  (m_prim s = None -> s' = s) /\
  (prim_valid s = true -> timecode_eqb (m_time s) time = false -> m_time s' = time) /\
  (prim_valid s = true -> timecode_eqb (m_time s) time = false -> hasAnimation s = false ->
   s' = set_time time s).
Proof.
  cbv zeta. unfold updateToTime, prim_valid.
  destruct (m_prim s) as [p|] eqn:Ep.
  2:{ repeat split; auto; discriminate. }
  destruct (timecode_eqb (m_time s) time) eqn:Et; cbn [negb].
  { repeat split; auto; discriminate. }
  change (hasAnimation (set_time time s)) with (hasAnimation s).
  destruct (hasAnimation s) eqn:Ea.
  - pose proof (updateOps_time_frame (m_xformops (set_time time s))
                  (m_orderedOps (set_time time s)) (set_time time s)) as F.
    split; [|split; [|split; [|split]]].
    + eapply time_frame_trans; [|exact F]. repeat split.
    + intros c H. apply updateOps_invariant. exact H.
    + discriminate.
    + intros _ _.
      assert (T : forall ops classes x, m_time (updateOps env ops classes x) = m_time x).
      { induction ops as [|op ops IH]; intros [|d classes] x; simpl; auto.
        rewrite IH. unfold updateOp.
        repeat match goal with
               | |- context [if ?b then _ else _] => destruct b
               end; reflexivity. }
      rewrite T. reflexivity.
    + discriminate.
  - repeat split; auto; discriminate.
Qed.

End Time.

Section Bind.
Variable env : Env.

Lemma animated_if_tweaks mask op s :
  tweaks (animated_if mask op s) = tweaks s /\
  m_localTranslateOffset (animated_if mask op s) = m_localTranslateOffset s.
Proof.
  unfold animated_if. destruct (m_prim s); [|auto]. destruct (_ <? _)%nat; auto.
Qed.

Lemma initialiseOp_tweaks readFromPrim op opClass s :
  tweaks (initialiseOp env readFromPrim op opClass s) = tweaks s.
Proof.
  unfold initialiseOp.
  destruct (IsInvertedTwin opClass); [auto|].
  repeat match goal with
         | |- context [if String.eqb ?a ?b then _ else _] => destruct (String.eqb a b)
         end;
    destruct readFromPrim;
    cbn [tweaks set_fromUsd set_values or_flags set_flags];
    rewrite ?(fun m o x => proj1 (animated_if_tweaks m o x));
    reflexivity.
Qed.

Lemma initialiseOps_tweaks readFromPrim ops classes s :
  tweaks (initialiseOps env readFromPrim ops classes s) = tweaks s.
Proof.
  revert classes s. induction ops as [|op ops IH]; intros [|c classes] s; simpl; auto.
  rewrite IH. apply initialiseOp_tweaks.
Qed.

Lemma initialiseToPrim_tweaks readFromPrim s :
  tweaks (initialiseToPrim env readFromPrim s) = tweaks s /\
  m_prim (initialiseToPrim env readFromPrim s) = m_prim s.
Proof.
  unfold initialiseToPrim. destruct (m_prim s) as [p|] eqn:Ep; [|auto].
  set (s2 := matchSchema env p s).
  assert (A : tweaks s2 = tweaks s /\ m_prim s2 = m_prim s).
  { subst s2. unfold matchSchema. destruct (negb _), (fst _); split; reflexivity. }
  assert (B : tweaks (initialiseLoop env readFromPrim s2) = tweaks s2).
  { unfold initialiseLoop. destruct (has_flag _ _); [apply initialiseOps_tweaks | reflexivity]. }
  destruct (initialiseLoop_frame env readFromPrim s2) as (C & _).
  cbv zeta in C. destruct A as [A1 A2]. rewrite Ep in A2.
  unfold lockIfAnimated. destruct (has_flag _ _); cbn; split; congruence.
Qed.


Local Open Scope Z_scope.

Lemma matchSchema_external p s k :
  k = 28 \/ k = 31 ->
  Z.testbit (m_flags (matchSchema env p s)) k = Z.testbit (m_flags s) k.
Proof.
  intros Hk. destruct (matchSchema_eq env p s) as [Hf _]. rewrite Hf.
  destruct (xformOpOrder p) as [|o ops].
  - rewrite testbit_set_flag, inheritFlags_bit by lia.
    destruct Hk as [-> | ->]; flag_bits; rewrite ?orb_false_r; reflexivity.
  - destruct (matchStacks_spec env stackFlagPairs (o :: ops) (inheritFlags p (m_flags s)))
      as [(_ & A & _) | (before & st & fl & after & Hpairs & _ & _ & _ & Hsnd)].
    + cbv zeta in A. rewrite A. apply inheritFlags_bit; lia.
    + rewrite Hsnd, testbit_set_flag, inheritFlags_bit by lia.
      assert (fl = kFromMayaSchema \/ fl = kSinglePivotSchema \/ fl = kFromMatrix) as Hfl.
      { assert (In (st, fl) stackFlagPairs) as Hin by (rewrite Hpairs; apply in_elt).
        simpl in Hin. destruct Hin as [H|[H|[H|[]]]]; inversion H; auto. }
      destruct Hk as [-> | ->]; destruct Hfl as [-> | [-> | ->]]; flag_bits; rewrite ?orb_false_r; reflexivity.
Qed.

Lemma initialiseToPrim_external readFromPrim s p k :
  m_prim s = Some p ->
  hasAnimation (initialiseToPrim env readFromPrim s) = false ->
  k = 28 \/ k = 31 ->
  Z.testbit (m_flags (initialiseToPrim env readFromPrim s)) k = Z.testbit (m_flags s) k.
Proof.
  intros Hp Ha Hk. rewrite (initialiseToPrim_eq env _ p) in * by exact Hp.
  set (s3 := initialiseLoop env readFromPrim (matchSchema env p s)) in *.
  assert (E : lockIfAnimated s3 = s3).
  { unfold hasAnimation in Ha. rewrite has_kAnimationMask, !lockIfAnimated_bit in Ha by lia.
    rewrite <- has_kAnimationMask in Ha. unfold lockIfAnimated. rewrite Ha. reflexivity. }
  rewrite E. subst s3.
  rewrite (sets_within_outside initMask _ _ k (initialiseLoop_flags env readFromPrim _));
    [apply matchSchema_external; exact Hk | lia | apply not_in_initMask; tauto].
Qed.

(** X19.  setPrimInternal with a valid prim holds that prim unchanged with
    its op order, zero tweaks and host values equal to the from-source
    values (every component at rest), and keeps the push-to-prim and read-
    animated-values flags as they were unless the prim is animated. With
    an invalid prim it drops the prim, cuts the flags down to those two
    and resets the tweaks, while host values, from-source values and op
    lists stay. *)
Theorem setPrimInternal_rebinds (readingFile : bool) (s : TransformationMatrix) :
  (forall p,
     let s' := setPrimInternal env (Some p) readingFile s in
     m_prim s' = Some p /\ m_xformops s' = xformOpOrder p /\
     tweaks s' = zeroTweaks /\ values s' = fromUsd s' /\
     (forall c, at_rest c s') /\
     (hasAnimation s' = false ->
      pushToPrimEnabled s' = pushToPrimEnabled s /\
      readAnimatedValues s' = readAnimatedValues s)) /\
  (let s' := setPrimInternal env None readingFile s in
   m_prim s' = None /\ m_flags s' = Z.land (m_flags s) kPreservationMask /\
   tweaks s' = zeroTweaks /\ values s' = values s /\ fromUsd s' = fromUsd s /\
   m_xformops s' = m_xformops s /\ m_orderedOps s' = m_orderedOps s).
Proof.
  split; [|repeat split].
  intros p s'. subst s'. unfold setPrimInternal.
  match goal with
  | |- context [initialiseToPrim env ?r ?x] => set (s0 := x); set (s1 := initialiseToPrim env r s0)
  end.
  assert (Hp0 : m_prim s0 = Some p) by reflexivity.
  destruct (initialiseToPrim_tweaks (negb readingFile) s0) as [Ht Hp]. fold s1 in Ht, Hp.
  destruct (initialiseToPrim_lists env (negb readingFile) s0 p Hp0) as [Hx _].
  cbv zeta in Hx. fold s1 in Hx.
  assert (Tw : tweaks (set_values (fromUsd s1) s1) = zeroTweaks).
  { cbn [tweaks set_values]. rewrite Ht. reflexivity. }
  split; [cbn [m_prim set_values]; rewrite Hp; exact Hp0|].
  split; [exact Hx|]. split; [exact Tw|]. split; [reflexivity|].
  split.
  { intros c. unfold at_rest. rewrite Tw. split; reflexivity. }
  intros Ha.
  assert (Ha1 : hasAnimation s1 = false) by exact Ha.
  unfold pushToPrimEnabled, readAnimatedValues, kPushToPrimEnabled, kReadAnimatedValues.
  rewrite !has_flag_bit by lia. cbn [m_flags set_values].
  pose proof (initialiseToPrim_external (negb readingFile) s0 p 28 Hp0 Ha1 ltac:(lia)) as E28.
  pose proof (initialiseToPrim_external (negb readingFile) s0 p 31 Hp0 Ha1 ltac:(lia)) as E31.
  fold s1 in E28, E31. rewrite E28, E31.
  subst s0. cbn [m_flags set_flags set_fromUsd set_tweaks set_prim].
  rewrite !Z.land_spec. unfold kPreservationMask, kPushToPrimEnabled, kReadAnimatedValues.
  rewrite !Z.lor_spec, !testbit_bit by lia. cbn. rewrite !andb_true_r. auto.
Qed.

End Bind.



Section Reads.

Variable env : Env.

Lemma readPoint_is_readVector p op tc : readPoint env p op tc = readVector env p op tc.
Proof. reflexivity. Qed.

Lemma animated_if_fields mask op s :
  fromUsd (animated_if mask op s) = fromUsd s /\
  m_prim (animated_if mask op s) = m_prim s /\
  m_time (animated_if mask op s) = m_time s.
Proof.
  unfold animated_if. destruct (m_prim s) as [p|] eqn:E; [|auto].
  destruct (_ <? _)%nat; cbn; auto.
Qed.

Local Open Scope Z_scope.

Lemma getTimeCode_flags s s' :
  m_time s' = m_time s -> Z.testbit (m_flags s') 31 = Z.testbit (m_flags s) 31 ->
  getTimeCode s' = getTimeCode s.
Proof.
  intros Ht Hb. unfold getTimeCode, readAnimatedValues, kReadAnimatedValues.
  rewrite !has_flag_bit by lia. rewrite Ht, Hb. reflexivity.
Qed.

Lemma getTimeCode_or_flags m s :
  Z.testbit m 31 = false -> getTimeCode (or_flags m s) = getTimeCode s.
Proof.
  intros H. apply getTimeCode_flags; [reflexivity|].
  cbn [m_flags or_flags set_flags]. rewrite testbit_set_flag, H. apply orb_false_r.
Qed.

Lemma getTimeCode_animated_if m op s :
  Z.testbit m 31 = false -> getTimeCode (animated_if m op s) = getTimeCode s.
Proof.
  intros H. destruct (animated_if_cases m op s) as [-> | ->];
    [reflexivity | apply getTimeCode_or_flags, H].
Qed.

Lemma initialiseOp_time readFromPrim op opClass s :
  getTimeCode (initialiseOp env readFromPrim op opClass s) = getTimeCode s.
Proof.
  apply getTimeCode_flags.
  - unfold initialiseOp.
    destruct (IsInvertedTwin opClass); [auto|].
    repeat match goal with
           | |- context [if String.eqb ?a ?b then _ else _] => destruct (String.eqb a b)
           end;
      destruct readFromPrim;
      cbn [m_time set_fromUsd set_values or_flags set_flags];
      rewrite ?(fun m o x => proj2 (proj2 (animated_if_fields m o x)));
      reflexivity.
  - apply (sets_within_outside initMask); [apply initialiseOp_flags | lia |].
    apply not_in_initMask. tauto.
Qed.

Local Close Scope Z_scope.

Ltac name_cases c :=
  repeat match goal with
         | |- context [if String.eqb (GetName c) ?b then _ else _] =>
             destruct (String.eqb_spec (GetName c) b)
         end.

(** An op that does not write the vector of a role leaves it alone. *)
Lemma initialiseOp_keeps readFromPrim op opClass role s :
  IsInvertedTwin opClass = true \/ writesVectorOf (GetName opClass) role = false ->
  hostVector role (fromUsd (initialiseOp env readFromPrim op opClass s)) =
  hostVector role (fromUsd s).
Proof.
  intros H. unfold initialiseOp.
  destruct (IsInvertedTwin opClass) eqn:Et; [reflexivity|].
  destruct H as [H|H]; [discriminate|].
  unfold writesVectorOf in H.
  name_cases opClass;
    try reflexivity;
    match goal with E : GetName opClass = _ |- _ => rewrite E in H end;
    destruct readFromPrim;
    cbn [fromUsd set_fromUsd set_values or_flags set_flags];
    rewrite ?(fun m o x => proj1 (animated_if_fields m o x));
    cbn [fromUsd set_fromUsd set_values or_flags set_flags];
    try reflexivity;
    unfold hostVector;
    repeat match goal with
           | |- context [if String.eqb role ?b then _ else _] =>
               destruct (String.eqb_spec role b)
           end;
    try reflexivity;
    subst role; vm_compute in H; discriminate H.
Qed.


(** The op of a vector role reads the vector of the role; when the
    read finds no value the vector stays, but that the single pivot
    then gives both pivots the scale pivot. *)
Lemma initialiseOp_reads op opClass role s p v0 :
  IsInvertedTwin opClass = false -> GetName opClass = role ->
  hostVector role (fromUsd s) = Some v0 ->
  m_prim s = Some p ->
  hostVector role (fromUsd (initialiseOp env true op opClass s)) =
  Some (match readVector env p op (getTimeCode s) with
        | Some v => v
        | None => if String.eqb role Tokens.pivot then c_scalePivot (fromUsd s) else v0
        end).
Proof.
  intros Et En Hv Hp. subst role. unfold initialiseOp. rewrite Et.
  unfold hostVector in *.
  repeat match goal with
         | H : context [if String.eqb (GetName opClass) ?b then _ else _] |- _ =>
             destruct (String.eqb_spec (GetName opClass) b) as [e|]
         end; try discriminate; rewrite ?e; eval_eqb;
    injection Hv as <-;
    unfold internal_readVector, internal_readPoint;
    rewrite ?(fun m o x => proj1 (proj2 (animated_if_fields m o x)));
    rewrite ?(fun m o x => proj1 (animated_if_fields m o x));
    cbn [m_prim fromUsd set_fromUsd or_flags set_flags];
    rewrite Hp, ?readPoint_is_readVector;
    rewrite ?getTimeCode_animated_if, ?getTimeCode_or_flags by reflexivity;
    cbn; reflexivity.
Qed.

Lemma initialiseOps_keeps readFromPrim ops classes role s :
  Forall (fun d => IsInvertedTwin d = true \/ writesVectorOf (GetName d) role = false) classes ->
  hostVector role (fromUsd (initialiseOps env readFromPrim ops classes s)) =
  hostVector role (fromUsd s).
Proof.
  revert classes s. induction ops as [|o ops IH]; intros [|d classes] s H; simpl; auto.
  inversion H as [|? ? Hd Hrest]; subst.
  rewrite IH by exact Hrest. apply initialiseOp_keeps, Hd.
Qed.

Lemma initialiseOps_reads ops classes s p (i : nat) op c v :
  ops !! i = Some op -> classes !! i = Some c ->
  IsInvertedTwin c = false ->
  hostVector (GetName c) (fromUsd s) <> None ->
  m_prim s = Some p ->
  readVector env p op (getTimeCode s) = Some v ->
  (forall (j : nat) d, classes !! j = Some d -> j <> i ->
     IsInvertedTwin d = true \/ writesVectorOf (GetName d) (GetName c) = false) ->
  hostVector (GetName c) (fromUsd (initialiseOps env true ops classes s)) = Some v.
Proof.
  revert classes s i. induction ops as [|o ops IH]; intros [|d classes] s i Ho Hc Ht Hv Hp Hr Hu;
    try discriminate.
  destruct i as [|i]; simpl in Ho, Hc; simpl.
  - injection Ho as ->. injection Hc as ->.
    rewrite initialiseOps_keeps.
    + destruct (hostVector (GetName c) (fromUsd s)) as [v0|] eqn:E; [|contradiction].
      rewrite (initialiseOp_reads op c (GetName c) s p v0 Ht eq_refl E Hp), Hr. reflexivity.
    + apply Forall_lookup. intros j d Hj. apply (Hu (S j) d Hj). discriminate.
  - assert (Hd := Hu 0%nat d eq_refl ltac:(discriminate)).
    apply (IH classes _ i Ho Hc Ht).
    + rewrite initialiseOp_keeps by exact Hd. exact Hv.
    + destruct (initialiseOp_frame env true o d s) as (A & _). cbv zeta in A. congruence.
    + rewrite initialiseOp_time. exact Hr.
    + intros j e Hj Hne. apply (Hu (S j) e Hj). congruence.
Qed.

Lemma hostVector_role name x y : hostVector name x <> None -> hostVector name y <> None.
Proof.
  unfold hostVector.
  repeat match goal with
         | |- context [if String.eqb name ?b then _ else _] => destruct (String.eqb name b)
         end; auto; discriminate.
Qed.

Lemma matchSchema_reads p s :
  fromUsd (matchSchema env p s) = fromUsd s /\
  getTimeCode (matchSchema env p s) = getTimeCode s.
Proof.
  split.
  - unfold matchSchema. destruct (negb _), (fst _); reflexivity.
  - apply getTimeCode_flags.
    + unfold matchSchema. destruct (negb _), (fst _); reflexivity.
    + apply matchSchema_external. tauto.
Qed.

Lemma matched_is_known p s :
  m_orderedOps (matchSchema env p s) <> [] ->
  has_flag (m_flags (matchSchema env p s)) kAnyKnownSchema = true.
Proof.
  intros Hne. destruct (matchSchema_eq env p s) as [Hf Hord].
  destruct (xformOpOrder p) as [|o ops] eqn:E; [rewrite Hord in Hne; contradiction|].
  destruct (matchStacks_spec env stackFlagPairs (o :: ops) (inheritFlags p (m_flags s)))
    as [(A & _) | (before & st & fl & after & Hpairs & _ & _ & _ & Hsnd)].
  - rewrite Hord, A in Hne. contradiction.
  - rewrite Hf, Hsnd, has_kAnyKnownSchema, !testbit_set_flag.
    assert (fl = kFromMayaSchema \/ fl = kSinglePivotSchema \/ fl = kFromMatrix) as Hfl.
    { assert (In (st, fl) stackFlagPairs) as Hin by (rewrite Hpairs; apply in_elt).
      simpl in Hin. destruct Hin as [H|[H|[H|[]]]]; inversion H; auto. }
    destruct Hfl as [-> | [-> | ->]]; flag_bits; rewrite ?orb_true_r; reflexivity.
Qed.

Lemma setPrimInternal_reads (s : TransformationMatrix) (p : UsdPrim) (i : nat)
    (op : UsdGeomXformOp) (opClass : UsdMayaXformOpClassification) (v : MVector) :
  let s' := setPrimInternal env (Some p) false s in
  m_xformops s' !! i = Some op -> m_orderedOps s' !! i = Some opClass ->
  IsInvertedTwin opClass = false ->
  hostVector (GetName opClass) (values s) <> None ->
  (forall (j : nat) d, m_orderedOps s' !! j = Some d -> j <> i ->
     IsInvertedTwin d = true \/ writesVectorOf (GetName d) (GetName opClass) = false) ->
  readVector env p op (getTimeCode s) = Some v ->
  hostVector (GetName opClass) (fromUsd s') = Some v /\
  hostVector (GetName opClass) (values s') = Some v.
Proof.
  intros s'. subst s'. unfold setPrimInternal. cbn [negb].
  match goal with
  | |- context [initialiseToPrim env true ?x] => set (s0 := x)
  end.
  assert (Hp0 : m_prim s0 = Some p) by reflexivity.
  assert (Ht0 : getTimeCode s0 = getTimeCode s).
  { apply getTimeCode_flags; [reflexivity|]. subst s0.
    cbn [m_flags set_flags set_fromUsd set_tweaks set_prim].
    rewrite Z.land_spec. unfold kPreservationMask, kPushToPrimEnabled, kReadAnimatedValues.
    rewrite Z.lor_spec, !testbit_bit by lia. cbn. apply andb_true_r. }
  cbn [m_xformops m_orderedOps values fromUsd set_values].
  rewrite (initialiseToPrim_eq env _ p) by exact Hp0.
  set (s2 := matchSchema env p s0).
  destruct (lockIfAnimated_fields (initialiseLoop env true s2)) as (_ & Lx & Lo).
  destruct (initialiseLoop_frame env true s2) as (_ & Ax & Ao). cbv zeta in Ax, Ao.
  rewrite Lx, Lo, Ax, Ao.
  intros Ho Hc Htw Hrole Huniq Hread.
  assert (F : fromUsd (lockIfAnimated (initialiseLoop env true s2)) =
              fromUsd (initialiseLoop env true s2)).
  { unfold lockIfAnimated. destruct (has_flag _ _); reflexivity. }
  rewrite F. unfold initialiseLoop.
  assert (K : has_flag (m_flags s2) kAnyKnownSchema = true).
  { apply matched_is_known. fold s2. intros E. rewrite E in Hc. discriminate. }
  rewrite K.
  destruct (matchSchema_reads p s0) as [Mf Mt]. fold s2 in Mf, Mt.
  destruct (matchSchema_fields env p s0) as [Mp _]. fold s2 in Mp.
  assert (R : hostVector (GetName opClass)
                (fromUsd (initialiseOps env true (m_xformops s2) (m_orderedOps s2) s2)) = Some v).
  { apply (initialiseOps_reads _ _ s2 p i op opClass v Ho Hc Htw).
    - eapply hostVector_role, Hrole.
    - congruence.
    - rewrite Mt, Ht0. exact Hread.
    - exact Huniq. }
  split; exact R.
Qed.

Local Open Scope Z_scope.

Lemma presenceFlagOf_bit name mask :
  presenceFlagOf name = Some mask ->
  exists n, mask = Z.shiftl 1 n /\ In n [16;17;18;19;20;21;22;23;24;25;26].
Proof.
  unfold presenceFlagOf.
  repeat match goal with
         | |- context [if String.eqb name ?b then _ else _] => destruct (String.eqb name b)
         end; intros [= <-]; eexists; (split; [reflexivity|]); simpl; tauto.
Qed.

Lemma initialiseOp_present readFromPrim op opClass s mask :
  IsInvertedTwin opClass = false ->
  presenceFlagOf (GetName opClass) = Some mask ->
  has_flag (m_flags (initialiseOp env readFromPrim op opClass s)) mask = true.
Proof.
  intros Htwin Hname. unfold initialiseOp. rewrite Htwin.
  unfold presenceFlagOf in Hname.
  repeat match goal with
         | H : context [if String.eqb (GetName opClass) ?b then _ else _] |- _ =>
             destruct (String.eqb_spec (GetName opClass) b) as [e|]
         end; try discriminate; injection Hname as <-; rewrite ?e; eval_eqb;
    destruct readFromPrim;
    repeat match goal with
           | |- context [animated_if ?m ?o ?x] =>
               destruct (animated_if_cases m o x) as [-> | ->]
           end;
    cbn [m_flags set_fromUsd set_values or_flags set_flags];
    unfold kPrimHasScale, kPrimHasRotation, kPrimHasTranslation, kPrimHasShear,
      kPrimHasScalePivot, kPrimHasScalePivotTranslate, kPrimHasRotatePivot,
      kPrimHasRotatePivotTranslate, kPrimHasRotateAxes, kPrimHasPivot, kPrimHasTransform;
    rewrite has_flag_bit by lia; rewrite !testbit_set_flag; flag_bits;
    rewrite ?testbit_bit by lia; simpl; rewrite ?orb_true_r; reflexivity.
Qed.

Lemma initialiseOps_present readFromPrim ops classes s (i : nat) op opClass mask :
  ops !! i = Some op -> classes !! i = Some opClass ->
  IsInvertedTwin opClass = false ->
  presenceFlagOf (GetName opClass) = Some mask ->
  has_flag (m_flags (initialiseOps env readFromPrim ops classes s)) mask = true.
Proof.
  intros Ho Hc Htwin Hname. revert classes s i Ho Hc.
  destruct (presenceFlagOf_bit _ _ Hname) as (n & -> & Hn).
  assert (0 <= n) by (simpl in Hn; lia).
  induction ops as [|o ops IH]; intros [|c classes] s i Ho Hc; try discriminate.
  destruct i as [|i]; simpl in Ho, Hc; simpl.
  - injection Ho as ->. injection Hc as ->.
    rewrite has_flag_bit by lia.
    apply (sets_within_grows _ _ _ (initialiseOps_flags env readFromPrim ops classes _)); [lia|].
    rewrite <- has_flag_bit by lia. eapply initialiseOp_present; eauto.
  - eapply IH; eauto.
Qed.

Lemma initialiseToPrim_present readFromPrim s p (i : nat) op opClass mask :
  m_prim s = Some p ->
  let s' := initialiseToPrim env readFromPrim s in
  m_xformops s' !! i = Some op -> m_orderedOps s' !! i = Some opClass ->
  IsInvertedTwin opClass = false ->
  presenceFlagOf (GetName opClass) = Some mask ->
  has_flag (m_flags s') mask = true.
Proof.
  intros Hp s'. subst s'. rewrite (initialiseToPrim_eq env _ p) by exact Hp.
  set (s2 := matchSchema env p s).
  destruct (lockIfAnimated_fields (initialiseLoop env readFromPrim s2)) as (_ & Lx & Lo).
  destruct (initialiseLoop_frame env readFromPrim s2) as (_ & Ax & Ao). cbv zeta in Ax, Ao.
  rewrite Lx, Lo, Ax, Ao. intros Ho Hc Htw Hname.
  destruct (presenceFlagOf_bit _ _ Hname) as (n & Hm & Hn).
  assert (0 <= n /\ n <> 28 /\ n <> 31) as (N0 & N1 & N2) by (simpl in Hn; lia).
  rewrite Hm, has_flag_bit, lockIfAnimated_bit by lia.
  rewrite <- has_flag_bit, <- Hm by lia.
  assert (K : has_flag (m_flags s2) kAnyKnownSchema = true).
  { apply matched_is_known. fold s2. intros E. rewrite E in Hc. discriminate. }
  unfold initialiseLoop. rewrite K.
  eapply initialiseOps_present; eauto.
Qed.

Local Close Scope Z_scope.

(** X20.  After setPrimInternal with a valid prim (not while reading a
    file), every op whose classification is not an inverted twin has the
    presence flag of its role set; and an op of a vector role (translate,
    a pivot, a pivot translate, scale) that is the only one to write that
    vector gives the vector it reads at the time code of the engine to
    both the from-source value and the host value of the role. *)
Theorem binding_reads_vectors (s : TransformationMatrix) (p : UsdPrim) (i : nat)
    (op : UsdGeomXformOp) (opClass : UsdMayaXformOpClassification) :
  let s' := setPrimInternal env (Some p) false s in
  m_xformops s' !! i = Some op -> m_orderedOps s' !! i = Some opClass ->
  IsInvertedTwin opClass = false ->
  (forall mask, presenceFlagOf (GetName opClass) = Some mask ->
     has_flag (m_flags s') mask = true) /\
  (forall v,
     hostVector (GetName opClass) (values s) <> None ->
     (forall (j : nat) d, m_orderedOps s' !! j = Some d -> j <> i ->
        IsInvertedTwin d = true \/ writesVectorOf (GetName d) (GetName opClass) = false) ->
     readVector env p op (getTimeCode s) = Some v ->
     hostVector (GetName opClass) (fromUsd s') = Some v /\
     hostVector (GetName opClass) (values s') = Some v).
Proof.
  intros s' Ho Hc Htw. split.
  - intros mask Hm. subst s'. unfold setPrimInternal in *. cbn [negb] in *.
    cbn [m_flags m_xformops m_orderedOps set_values] in *.
    eapply initialiseToPrim_present; eauto.
  - intros v Hrole Huniq Hread.
    exact (setPrimInternal_reads s p i op opClass v Ho Hc Htw Hrole Huniq Hread).
Qed.

End Reads.

End TimeAndBinding.

(** *** The presence flags on the states of an engine *)

Section Reachable.

Variable env : Env.
Local Open Scope Z_scope.







(** **** Binding *)









(** **** Removal and insertion *)














(** **** The calls *)









End Reachable.

(** *** The split of the pivot by a set call *)

Section SplitByCall.

Variable env : Env.

(** **** The attributes that a pass writes *)






(** **** The removal of the pivot *)




(** **** The insertion of a pair *)













End SplitByCall.

(** *** The exporter *)

Section ExportBlocks.
Local Close Scope Q_scope.
Import Translator.

(** *** One block *)

Lemma flat_map_ext_In {A B} (f g : A -> list B) l :
  (forall a, In a l -> f a = g a) -> flat_map f l = flat_map g l.
Proof.
  induction l as [|a l IH]; intros H; simpl; [reflexivity|].
  rewrite (H a (or_introl eq_refl)), IH; [reflexivity|]. intros b Hb. apply H. right. exact Hb.
Qed.

Lemma dataType_eqb_eq a b : Usd.dataType_eqb a b = true <-> a = b.
Proof. destruct a, b; simpl; split; intros H; try discriminate; reflexivity. Qed.

Lemma op_rebuild op : mkOp (op_type op) (op_suffix op) (op_inverse op) = op.
Proof. destruct op; reflexivity. Qed.

Lemma AddXformOp_cases p op pr :
  let n := Usd.opAttrName op in
  let ty := Usd.valueTypeOf (op_type op) pr in
  if negb (Usd.in_order op (xformOpOrder p)) && negb (xformOpType_eqb (op_type op) TypeInvalid)
  then exists p1,
      Usd.AddXformOp p (op_type op) pr (op_suffix op) (op_inverse op) = Some (op, p1) /\
      xformOpOrder p1 = xformOpOrder p ++ [op] /\
      resetsXformStack p1 = resetsXformStack p /\ value_edits p1 = value_edits p /\
      (forall m, m <> n -> prim_attrs p1 !! m = prim_attrs p !! m) /\
      (exists x, prim_attrs p1 !! n = Some x /\
                 (forall y, prim_attrs p !! n = Some y -> x = y) /\
                 (prim_attrs p !! n = None -> x = mkAttr ty None []))
  else Usd.AddXformOp p (op_type op) pr (op_suffix op) (op_inverse op) = None.
Proof.
  cbv zeta. unfold Usd.AddXformOp, Usd.opAttrName. rewrite op_rebuild.
  destruct (Usd.in_order op (xformOpOrder p)); [reflexivity|].
  destruct (xformOpType_eqb (op_type op) TypeInvalid); [reflexivity|]. cbn [negb andb].
  destruct (prim_attrs p !! Usd.attrName (op_type op) (op_suffix op)) as [x|] eqn:E.
  - eexists. split; [reflexivity|]. cbn. repeat split; auto.
    exists x. split; [exact E|]. split; congruence.
  - eexists. split; [reflexivity|]. cbn. repeat split; auto.
    + intros m Hm. apply lookup_insert_ne. congruence.
    + eexists. rewrite lookup_insert_eq. split; [reflexivity|]. split; [discriminate|].
      reflexivity.
Qed.

Lemma Set_frame p op v tc :
  let p' := snd (Usd.Set_ p op v tc) in
  xformOpOrder p' = xformOpOrder p /\ resetsXformStack p' = resetsXformStack p /\
  (forall m, m <> Usd.opAttrName op -> prim_attrs p' !! m = prim_attrs p !! m) /\
  (forall m ty, usable p' m ty = usable p m ty).
Proof.
  cbv zeta. unfold Usd.Set_, Usd.GetAttribute. destruct (op_inverse op); [cbn; auto|].
  destruct (prim_attrs p !! Usd.opAttrName op) as [x|] eqn:E; cbn; [|auto].
  repeat split; auto.
  - intros m Hm. apply lookup_insert_ne. congruence.
  - intros m ty. unfold usable. cbn.
    destruct (decide (Usd.opAttrName op = m)) as [<-|Hn].
    + rewrite lookup_insert_eq, E. destruct tc; reflexivity.
    + rewrite lookup_insert_ne by exact Hn. reflexivity.
Qed.

Lemma SetAs_frame t p op v tc :
  let p' := snd (Usd.SetAs t p op v tc) in
  xformOpOrder p' = xformOpOrder p /\ resetsXformStack p' = resetsXformStack p /\
  (forall m, m <> Usd.opAttrName op -> prim_attrs p' !! m = prim_attrs p !! m) /\
  (forall m ty, usable p' m ty = usable p m ty).
Proof.
  cbv zeta. unfold Usd.SetAs.
  destruct (Usd.dataType_eqb (Usd.GetTypeName p op) t); [apply Set_frame | cbn; auto].
Qed.

Section Blocks.

Variable time : UsdTimeCode.

Lemma author_spec a p :
  let p' := author time a p in
  xformOpOrder p' =
    xformOpOrder p ++
      (if negb (Usd.in_order (au_op a) (xformOpOrder p)) && enters a then [au_op a] else []) /\
  resetsXformStack p' = resetsXformStack p /\
  (forall m, m <> au_name a -> prim_attrs p' !! m = prim_attrs p !! m) /\
  usable p' (au_name a) (au_type a) = usable p (au_name a) (au_type a).
Proof.
  cbv zeta. unfold author, enters.
  destruct (au_run a); cbn [andb].
  2:{ rewrite andb_false_r, app_nil_r. auto. }
  pose proof (AddXformOp_cases p (au_op a) (au_precision a)) as H. cbv zeta in H.
  fold (au_name a) (au_type a) in H.
  destruct (negb (Usd.in_order (au_op a) (xformOpOrder p)) &&
            negb (xformOpType_eqb (op_type (au_op a)) TypeInvalid)) eqn:Eb.
  - destruct H as (p1 & -> & Ho & Hr & _ & Hm & x & Hx & Hsame & Hnew).
    assert (U : usable p1 (au_name a) (au_type a) = usable p (au_name a) (au_type a)).
    { unfold usable. rewrite Hx.
      destruct (prim_attrs p !! au_name a) as [y|] eqn:Ey.
      - rewrite (Hsame y eq_refl). reflexivity.
      - rewrite (Hnew eq_refl). cbn [attr_type]. apply dataType_eqb_eq. reflexivity. }
    destruct (au_value a) as [v|].
    + destruct (SetAs_frame (au_type a) p1 (au_op a) v time) as (A & B & C & D).
      cbv zeta in *. rewrite A, B, Ho, D. repeat split; auto.
      intros m Hn. rewrite C by exact Hn. apply Hm, Hn.
    + repeat split; auto.
  - rewrite H, app_nil_r. auto.
Qed.

Lemma author_usable a p n ty :
  (n = au_name a -> ty = au_type a) ->
  usable (author time a p) n ty = usable p n ty.
Proof.
  intros H. destruct (author_spec a p) as (_ & _ & Hm & Hu). cbv zeta in *.
  destruct (decide (n = au_name a)) as [->|Hn].
  - rewrite (H eq_refl). exact Hu.
  - unfold usable. rewrite Hm by exact Hn. reflexivity.
Qed.

(** *** A sequence of blocks *)

Lemma in_order_app op l k : Usd.in_order op (l ++ k) = Usd.in_order op l || Usd.in_order op k.
Proof. unfold Usd.in_order. apply existsb_app. Qed.

Lemma authorAll_order plan p :
  plan_ok plan = true ->
  forallb (fun a => negb (Usd.in_order (au_op a) (xformOpOrder p))) plan = true ->
  xformOpOrder (authorAll time plan p) = xformOpOrder p ++ entered plan /\
  resetsXformStack (authorAll time plan p) = resetsXformStack p.
Proof.
  revert p. induction plan as [|a plan IH]; intros p Hok Hfresh;
    unfold authorAll, entered; cbn [fold_left flat_map].
  - rewrite app_nil_r. auto.
  - cbn [plan_ok] in Hok. cbn [forallb] in Hfresh.
    apply andb_true_iff in Hok as [Ha Hok]. apply andb_true_iff in Hfresh as [Hfa Hfresh].
    destruct (author_spec a p) as (Ho & Hr & Hm & Hu). cbv zeta in *.
    rewrite Hfa in Ho. cbn [andb] in Ho.
    destruct (IH (author time a p) Hok) as [E R].
    { rewrite forallb_forall in *. intros b Hb. rewrite Ho, in_order_app.
      rewrite (proj1 (negb_true_iff _) (Hfresh b Hb)). cbn [orb].
      specialize (Ha b Hb). apply andb_true_iff in Ha as [Hne _].
      destruct (enters a); simpl; [|reflexivity].
      rewrite orb_false_r. exact Hne. }
    unfold authorAll in *. rewrite E, R, Ho, Hr. split; [|reflexivity].
    rewrite <- app_assoc. reflexivity.
Qed.

End Blocks.

(** *** The blocks of the exporter *)


Section Exported.

Variable env : Env.
Variable from : TransformNode.
Variable params : ExporterParams.



Lemma register_prim pa r e : e_prim (register params pa r e) = e_prim e.
Proof. unfold register. destruct (pa && _); reflexivity. Qed.

Lemma translateBlock_prim c pa plug name v inv e :
  e_prim (when c (translateBlock params pa plug name v inv) e) =
  author (m_timeCode params)
    (mkAuthoring c (mkOp TypeTranslate name inv) PrecisionFloat
       (if inv then None else Some (VVec v))) (e_prim e).
Proof.
  unfold when, author, translateBlock, addTranslateOp. cbn [au_run au_op au_value au_precision
    op_type op_suffix op_inverse].
  destruct c; [|reflexivity].
  destruct (Usd.AddXformOp (e_prim e) TypeTranslate PrecisionFloat name inv) as [[op p1]|];
    rewrite register_prim; destruct inv; reflexivity.
Qed.

Lemma rotateBlock_prim c pa plug name o v e :
  e_prim (when c (rotateBlock env params pa plug name o v) e) =
  author (m_timeCode params)
    (mkAuthoring c (mkOp (rotateTypeOf o) name false) PrecisionFloat (Some (degrees env v)))
    (e_prim e).
Proof.
  unfold when, author, rotateBlock, addRotateOp. cbn [au_run au_op au_value au_precision
    op_type op_suffix op_inverse].
  destruct c; [|reflexivity].
  destruct o as [[| | | | |]|]; cbn [rotateTypeOf rotateOpType];
    try (match goal with
         | |- context [Usd.AddXformOp ?p ?t ?pr ?n ?i] =>
             destruct (Usd.AddXformOp p t pr n i) as [[op p1]|]
         end; rewrite register_prim; reflexivity).
  rewrite register_prim. cbn [e_prim]. unfold Usd.AddXformOp.
  destruct (Usd.in_order _ _); reflexivity.
Qed.

Lemma shearBlock_prim c e :
  e_prim (when c (shearBlock from params) e) =
  author (m_timeCode params)
    (mkAuthoring c (mkOp TypeTransform Tokens.shear false) PrecisionDouble
       (Some (VMatrix (shearMatrix (n_shear from))))) (e_prim e).
Proof.
  unfold when, author, shearBlock. cbn [au_run au_op au_value au_precision
    op_type op_suffix op_inverse].
  destruct c; [|reflexivity].
  destruct (Usd.AddXformOp _ _ _ _ _) as [[op p1]|]; reflexivity.
Qed.

Lemma scaleBlock_prim c pa e :
  e_prim (when c (scaleBlock from params pa) e) =
  author (m_timeCode params)
    (mkAuthoring c (mkOp TypeScale Tokens.scale false) PrecisionFloat
       (Some (VVec (n_scale from)))) (e_prim e).
Proof.
  unfold when, author, scaleBlock. cbn [au_run au_op au_value au_precision
    op_type op_suffix op_inverse].
  destruct c; [|reflexivity].
  destruct (Usd.AddXformOp _ _ _ _ _) as [[op p1]|]; rewrite register_prim; reflexivity.
Qed.

Lemma visibilityBlock_prim c pa e : e_prim (when c (visibilityBlock from params pa) e) = e_prim e.
Proof. unfold when, visibilityBlock. destruct c; [|reflexivity]. destruct (pa && _); reflexivity. Qed.


Lemma copyAttributes_prim to r :
  copyAttributes env from params to = Some r ->
  fst r = kSuccess /\
  exists transformAnimated,
    e_prim (snd r) = authorAll (m_timeCode params) (exportPlan env from params transformAnimated) (cleared from to).
Proof.
  unfold copyAttributes.
  destruct (if m_extensiveAnimationCheck params
            then option_map isAnimatedTransform (m_animTranslator params)
            else Some false) as [ta|]; [|discriminate].
  intros [= <-]. split; [reflexivity|]. exists ta. cbv zeta. cbn [snd].
  rewrite !translateBlock_prim, scaleBlock_prim, shearBlock_prim, !translateBlock_prim,
    rotateBlock_prim, rotateBlock_prim, !translateBlock_prim, visibilityBlock_prim.
  reflexivity.
Qed.

End Exported.

Lemma entered_sublist plan : sublist (entered plan) (map au_op plan).
Proof.
  induction plan as [|a plan IH]; unfold entered; cbn [flat_map map]; [constructor|].
  destruct (enters a); cbn [app]; [apply sublist_skip | apply sublist_cons]; exact IH.
Qed.

Lemma sublist_Forall2_l {A B} (R : A -> B -> Prop) l ops classes :
  sublist l ops -> Forall2 R ops classes ->
  exists cs, sublist cs classes /\ Forall2 R l cs.
Proof.
  intros Hs. revert classes. induction Hs as [|x l1 l2 Hs IH|x l1 l2 Hs IH]; intros classes HF.
  - exists []. split; [apply sublist_nil_l | constructor].
  - inversion HF as [|? c ? cs Hx HF' E1 E2]; subst.
    destruct (IH cs HF') as (cs' & S' & F'). exists (c :: cs'). split; [|constructor; auto].
    apply sublist_skip, S'.
  - inversion HF as [|? c ? cs Hx HF' E1 E2]; subst.
    destruct (IH cs HF') as (cs' & S' & F'). exists cs'. split; [|exact F'].
    apply sublist_cons, S'.
Qed.

Lemma In_entered plan y :
  In y (entered plan) <-> exists a, In a plan /\ enters a = true /\ au_op a = y.
Proof.
  unfold entered. rewrite in_flat_map. split; intros (a & Ha & H); exists a; (split; [exact Ha|]).
  - destruct (enters a); simpl in H; [|contradiction].
    destruct H as [H|[]]. auto.
  - destruct H as [-> <-]. left. reflexivity.
Qed.

Section Stack.

Variable env : Env.

Lemma exportPlan_ok from params ta : plan_ok (exportPlan env from params ta) = true.
Proof. unfold exportPlan. destruct (n_rotateOrder from) as [[| | | | |]|]; vm_compute; reflexivity. Qed.

Lemma exportPlan_ops from params ta :
  Forall2 corresponds (map au_op (exportPlan env from params ta)) (GetOps MayaStack).
Proof.
  unfold exportPlan. cbn [map au_op MayaStack GetOps].
  repeat constructor.
Qed.

(** X22.  The exporter's copyAttributes reports success and leaves an op
    order that the Maya stack describes: the ops come in the order of the
    Maya stack and have its roles, an inverted pivot op is present exactly
    when its pivot op is, and the order resets the inherited stack exactly
    when the node does not inherit its transform. It has no result only
    when the extensive animation check is asked for without an animation
    translator (a null pointer is used). *)
Theorem export_order_follows_maya_stack (from : TransformNode) (params : ExporterParams)
    (to : UsdPrim) :
  match copyAttributes env from params to with
  | Some r =>
      let ops := xformOpOrder (e_prim (snd r)) in
      fst r = kSuccess /\
      resetsXformStack (e_prim (snd r)) = negb (n_inheritsTransform from) /\
      (exists classes, sublist classes (GetOps MayaStack) /\ Forall2 corresponds ops classes) /\
      (In (mkOp TypeTranslate Tokens.rotatePivot true) ops <->
       In (mkOp TypeTranslate Tokens.rotatePivot false) ops) /\
      (In (mkOp TypeTranslate Tokens.scalePivot true) ops <->
       In (mkOp TypeTranslate Tokens.scalePivot false) ops)
  | None => m_extensiveAnimationCheck params = true /\ m_animTranslator params = None
  end.
Proof.
  destruct (copyAttributes env from params to) as [r|] eqn:H.
  2:{ unfold copyAttributes in H.
      destruct (m_extensiveAnimationCheck params), (m_animTranslator params);
        cbn in H; try discriminate; auto. }
  intros ops. destruct (copyAttributes_prim env from params to r H) as (Hst & ta & Hp).
  destruct (authorAll_order (m_timeCode params) (exportPlan env from params ta)
              (cleared from to) (exportPlan_ok from params ta)) as [Ho Hr].
  { apply forallb_forall. intros a _. reflexivity. }
  subst ops. rewrite Hp, Ho, Hr. cbn [cleared xformOpOrder resetsXformStack app].
  split; [exact Hst|]. split; [reflexivity|]. split.
  { eapply sublist_Forall2_l; [apply entered_sublist | apply exportPlan_ops]. }
  assert (pick : forall y a, In a (exportPlan env from params ta) -> au_op a = y ->
            op_suffix y = Tokens.rotatePivot \/ op_suffix y = Tokens.scalePivot ->
            exists b, In b (exportPlan env from params ta) /\
              au_op b = mkOp (op_type y) (op_suffix y) (negb (op_inverse y)) /\
              enters b = enters a).
  { intros y a Ha <- Hs. unfold exportPlan in Ha. cbv zeta in Ha. cbn [In] in Ha.
    repeat (destruct Ha as [Ha|Ha];
            [subst a; cbn [au_op op_suffix] in Hs;
             try (destruct Hs as [Hs|Hs]; discriminate Hs)|]);
      try contradiction; clear Hs;
      eexists; (split; [unfold exportPlan; cbv zeta; cbn [In]|]).
    - do 5 right. left. reflexivity.
    - split; reflexivity.
    - do 2 right. left. reflexivity.
    - split; reflexivity.
    - do 10 right. left. reflexivity.
    - split; reflexivity.
    - do 7 right. left. reflexivity.
    - split; reflexivity. }
  rewrite !In_entered.
  split; split; intros (a & Ha & He & Hy);
    (destruct (pick _ a Ha Hy) as (b & Hb & Ho' & Hen); [cbn; auto|]);
    exists b; (split; [exact Hb|]); (split; [congruence | exact Ho']).
Qed.

End Stack.

Section Values.

Variable env : Env.
Variable time : UsdTimeCode.

(** The attribute of a block that entered the order holds the value of
    the block. *)
Lemma author_value a p v :
  Usd.in_order (au_op a) (xformOpOrder p) = false ->
  op_inverse (au_op a) = false ->
  takes p a = true -> au_value a = Some v ->
  exists x, prim_attrs (author time a p) !! au_name a = Some x /\
    attr_type x = au_type a /\ Usd.attr_get (interpolate env) x time = Some v.
Proof.
  intros Hf Hinv He Hv. unfold author. unfold takes, enters in He.
  apply andb_true_iff in He as [He Hu]. apply andb_true_iff in He as [Hr Hi].
  rewrite Hr, Hv.
  pose proof (AddXformOp_cases p (au_op a) (au_precision a)) as H. cbv zeta in H.
  fold (au_name a) (au_type a) in H. rewrite Hf, Hi in H. cbn [negb andb] in H.
  destruct H as (p1 & -> & _ & _ & _ & _ & x & Hx & Hsame & Hnew).
  assert (Hty : attr_type x = au_type a).
  { unfold usable in Hu. destruct (prim_attrs p !! au_name a) as [y|] eqn:Ey.
    - rewrite (Hsame y eq_refl). apply dataType_eqb_eq, Hu.
    - rewrite (Hnew eq_refl). reflexivity. }
  unfold Usd.SetAs, Usd.GetTypeName, Usd.Set_, Usd.GetAttribute. fold (au_name a).
  rewrite Hx, Hty, Hinv. rewrite (proj2 (dataType_eqb_eq _ _) eq_refl).
  cbn [snd prim_attrs].
  rewrite lookup_insert_eq. eexists. split; [reflexivity|]. split.
  - rewrite <- Hty. destruct time; reflexivity.
  - apply attr_get_set.
Qed.

(** A later block leaves the attribute as it is, unless it stores a value
    in it. *)
Lemma author_keeps a p n x :
  prim_attrs p !! n = Some x ->
  au_name a <> n \/ au_value a = None ->
  prim_attrs (author time a p) !! n = Some x.
Proof.
  intros Hx Hc. destruct (decide (n = au_name a)) as [->|Hn].
  - destruct Hc as [Hc|Hc]; [congruence|].
    unfold author. rewrite Hc. destruct (au_run a); [|exact Hx].
    pose proof (AddXformOp_cases p (au_op a) (au_precision a)) as H. cbv zeta in H.
    fold (au_name a) (au_type a) in H.
    destruct (_ && _).
    + destruct H as (p1 & -> & _ & _ & _ & _ & y & Hy & Hsame & _).
      rewrite Hy. f_equal. apply Hsame, Hx.
    + rewrite H. exact Hx.
  - destruct (author_spec time a p) as (_ & _ & Hm & _). cbv zeta in Hm.
    rewrite Hm by exact Hn. exact Hx.
Qed.

Lemma authorAll_keeps plan p n x :
  prim_attrs p !! n = Some x ->
  forallb (fun a => negb (String.eqb (au_name a) n)
                    || match au_value a with Some _ => false | None => true end) plan = true ->
  prim_attrs (authorAll time plan p) !! n = Some x.
Proof.
  revert p. induction plan as [|a plan IH]; intros p Hx Hl; [exact Hx|].
  cbn [forallb] in Hl. apply andb_true_iff in Hl as [Ha Hl].
  unfold authorAll. cbn [fold_left]. apply IH; [|exact Hl].
  apply author_keeps; [exact Hx|].
  apply orb_true_iff in Ha as [Ha|Ha].
  - left. apply negb_true_iff in Ha. intros E. rewrite E, String.eqb_refl in Ha. discriminate.
  - right. destruct (au_value a); [discriminate | reflexivity].
Qed.

Lemma plan_ok_app l1 l2 :
  plan_ok (l1 ++ l2) = true ->
  plan_ok l1 = true /\ plan_ok l2 = true /\
  forall a b, In a l1 -> In b l2 ->
    op_eqb (au_op b) (au_op a) = false /\
    (au_name b = au_name a -> au_type b = au_type a).
Proof.
  induction l1 as [|c l1 IH]; cbn [app plan_ok]; intros H.
  - repeat split; auto; contradiction.
  - apply andb_true_iff in H as [Hc H]. destruct (IH H) as (A & B & C).
    rewrite forallb_app in Hc. apply andb_true_iff in Hc as [Hc1 Hc2].
    rewrite Hc1, A. split; [reflexivity|]. split; [exact B|].
    intros a b [<-|Ha] Hb; [|apply C; assumption].
    rewrite forallb_forall in Hc2. specialize (Hc2 b Hb). cbv beta in Hc2.
    apply andb_true_iff in Hc2 as [N T]. apply negb_true_iff in N. split; [exact N|].
    intros E. apply orb_true_iff in T as [T|T].
    + apply negb_true_iff in T. rewrite E, String.eqb_refl in T. discriminate.
    + apply dataType_eqb_eq, T.
Qed.

Lemma authorAll_usable plan p n ty :
  (forall a, In a plan -> n = au_name a -> ty = au_type a) ->
  usable (authorAll time plan p) n ty = usable p n ty.
Proof.
  revert p. induction plan as [|a plan IH]; intros p H; [reflexivity|].
  unfold authorAll. cbn [fold_left]. fold (authorAll time plan (author time a p)).
  rewrite IH by (intros; apply H; [right|]; assumption).
  apply author_usable. apply H. left. reflexivity.
Qed.

Lemma in_order_entered op plan :
  (forall a, In a plan -> op_eqb op (au_op a) = false) ->
  Usd.in_order op (entered plan) = false.
Proof.
  intros H. unfold Usd.in_order. apply not_true_is_false. intros E.
  apply existsb_exists in E as (y & Hy & Ey).
  apply In_entered in Hy as (a & Ha & _ & <-). rewrite (H a Ha) in Ey. discriminate.
Qed.

(** The value of a block of a plan is in its attribute after the whole
    plan, when the op of the block entered the order. *)
Lemma authorAll_value l1 a l2 p v :
  plan_ok (l1 ++ a :: l2) = true ->
  xformOpOrder p = [] ->
  op_inverse (au_op a) = false ->
  takes p a = true -> au_value a = Some v ->
  forallb (fun b => negb (String.eqb (au_name b) (au_name a))
                    || match au_value b with Some _ => false | None => true end) l2 = true ->
  exists x, prim_attrs (authorAll time (l1 ++ a :: l2) p) !! au_name a = Some x /\
    attr_type x = au_type a /\ Usd.attr_get (interpolate env) x time = Some v.
Proof.
  intros Hok Hp Hinv He Hv Hl.
  destruct (plan_ok_app l1 (a :: l2) Hok) as (Hok1 & _ & Hsep).
  destruct (authorAll_order time l1 p Hok1) as [Ho _].
  { apply forallb_forall. intros b _. rewrite Hp. reflexivity. }
  unfold authorAll. rewrite fold_left_app. cbn [fold_left].
  fold (authorAll time l1 p). set (p1 := authorAll time l1 p) in *.
  destruct (author_value a p1 v) as (x & Hx & Hty & Hg); [|exact Hinv| |exact Hv|].
  - rewrite Ho, Hp. cbn [app]. apply in_order_entered.
    intros b Hb. apply (Hsep b a Hb). left. reflexivity.
  - unfold takes in *. subst p1. rewrite authorAll_usable; [exact He|].
    intros b Hb E. apply (proj2 (Hsep b a Hb (or_introl eq_refl))). exact E.
  - exists x. split; [|split; assumption].
    apply (authorAll_keeps l2 _ _ x Hx Hl).
Qed.

End Values.

Section ReadBack.

Variable env : Env.

Lemma exportPlan_value envx from params ta to (i : nat) a v :
  prim_attrs to = ∅ ->
  exportPlan envx from params ta !! i = Some a ->
  au_run a = true -> op_type (au_op a) <> TypeInvalid -> au_value a = Some v ->
  exists x,
    prim_attrs (authorAll (m_timeCode params) (exportPlan envx from params ta)
                  (cleared from to)) !! au_name a = Some x /\
    attr_type x = au_type a /\
    Usd.attr_get (interpolate env) x (m_timeCode params) = Some v.
Proof.
  intros Hempty Hi Hrun Hty Hv.
  rewrite <- (take_drop_middle _ i a Hi). apply authorAll_value.
  - rewrite take_drop_middle by exact Hi. apply exportPlan_ok.
  - reflexivity.
  - clear Hrun Hty. unfold exportPlan in Hi. cbv zeta in Hi.
    do 11 (destruct i as [|i];
           [injection Hi as <-; first [reflexivity | discriminate Hv]|]).
    discriminate.
  - unfold takes, enters, usable, cleared. cbn [prim_attrs]. rewrite Hrun, Hempty, lookup_empty.
    destruct (op_type (au_op a)); try reflexivity. contradiction.
  - exact Hv.
  - clear Hrun Hty Hv. unfold exportPlan in *. cbv zeta in *.
    destruct (n_rotateOrder from) as [[| | | | |]|];
      do 11 (destruct i as [|i]; [injection Hi as <-; vm_compute; reflexivity|]);
      discriminate.
Qed.

Lemma stored_vector p op x v tc :
  prim_attrs p !! Usd.opAttrName op = Some x ->
  attr_type x = kVec3f ->
  Usd.attr_get (interpolate env) x tc = Some (VVec v) ->
  readVector env p op tc = Some v.
Proof.
  intros Hx Hty Hg. unfold readVector, Usd.GetTypeName, Usd.Get, Usd.GetAttribute.
  rewrite Hx, Hty, Hg. reflexivity.
Qed.

Lemma stored_shear p op x v tc :
  prim_attrs p !! Usd.opAttrName op = Some x ->
  attr_type x = kMatrix4d ->
  Usd.attr_get (interpolate env) x tc = Some (VMatrix (shearMatrix v)) ->
  readShear env p op tc = Some v.
Proof.
  intros Hx Hty Hg. unfold readShear, Usd.GetTypeName, Usd.Get, Usd.GetAttribute.
  rewrite Hx, Hty, Hg. destruct v; reflexivity.
Qed.

(** X23.  After an export to a prim without attributes, the engine's
    readers find the node's values at the time of the export: every vector
    that differs from its default (translation, pivots, pivot translates,
    scale) in the op of its role, the shear through readShear, and the
    rotation and rotate axis in degrees, the rotate op having the type
    that names the node's rotation order. *)
Theorem exported_values_read_back (from : TransformNode) (params : ExporterParams)
    (to : UsdPrim) (r : MStatus * Export) :
  copyAttributes env from params to = Some r ->
  prim_attrs to = ∅ ->
  let p := e_prim (snd r) in
  let time := m_timeCode params in
  let plain name v :=
    differs v zeroVec = true ->
    readVector env p (mkOp TypeTranslate name false) time = Some v in
  let inDegrees v := vmap (fun x => fmul env x (radToDeg env)) v in
  plain Tokens.translate (n_translation from) /\
  plain Tokens.rotatePivotTranslate (n_rotatePivotTranslate from) /\
  plain Tokens.rotatePivot (n_rotatePivot from) /\
  plain Tokens.scalePivotTranslate (n_scalePivotTranslate from) /\
  plain Tokens.scalePivot (n_scalePivot from) /\
  (differs (n_scale from) oneVec = true ->
   readVector env p (mkOp TypeScale Tokens.scale false) time = Some (n_scale from)) /\
  (differs (n_shear from) zeroVec = true ->
   readShear env p (mkOp TypeTransform Tokens.shear false) time = Some (n_shear from)) /\
  (differs (n_rotateAxis from) zeroVec = true ->
   readVector env p (mkOp TypeRotateXYZ Tokens.rotateAxis false) time =
     Some (inDegrees (n_rotateAxis from))) /\
  (forall o, n_rotateOrder from = Some o ->
     differs (n_rotation from) zeroVec = true ->
     readVector env p (mkOp (rotateOpType o) Tokens.rotate false) time =
       Some (inDegrees (n_rotation from)) /\
     convertRotationOrder (rotateOpType o) = o).
Proof.
  intros H Hempty p time plain inDegrees.
  destruct (copyAttributes_prim env from params to r H) as (_ & ta & Hp).
  subst p plain inDegrees time. cbv beta. rewrite Hp.
  pose proof (exportPlan_value env from params ta to) as V.
  assert (run : forall a b c, c = true -> a || b || c = true)
    by (intros; subst; rewrite orb_true_r; reflexivity).
  assert (run' : forall b c, c = true -> b || c = true)
    by (intros; subst; rewrite orb_true_r; reflexivity).
  split; [|split; [|split; [|split; [|split; [|split; [|split; [|split]]]]]]].
  - intros D. destruct (V 0%nat _ _ Hempty eq_refl (run _ _ _ D) ltac:(discriminate) eq_refl)
      as (x & Hx & Hty & Hg). eapply stored_vector; eassumption.
  - intros D. destruct (V 1%nat _ _ Hempty eq_refl (run' _ _ D) ltac:(discriminate) eq_refl)
      as (x & Hx & Hty & Hg). eapply stored_vector; eassumption.
  - intros D. destruct (V 2%nat _ _ Hempty eq_refl (run' _ _ D) ltac:(discriminate) eq_refl)
      as (x & Hx & Hty & Hg). eapply stored_vector; eassumption.
  - intros D. destruct (V 6%nat _ _ Hempty eq_refl (run' _ _ D) ltac:(discriminate) eq_refl)
      as (x & Hx & Hty & Hg). eapply stored_vector; eassumption.
  - intros D. destruct (V 7%nat _ _ Hempty eq_refl (run' _ _ D) ltac:(discriminate) eq_refl)
      as (x & Hx & Hty & Hg). eapply stored_vector; eassumption.
  - intros D. destruct (V 9%nat _ _ Hempty eq_refl (run _ _ _ D) ltac:(discriminate) eq_refl)
      as (x & Hx & Hty & Hg). eapply stored_vector; eassumption.
  - intros D. destruct (V 8%nat _ _ Hempty eq_refl D ltac:(discriminate) eq_refl)
      as (x & Hx & Hty & Hg). eapply stored_shear; eassumption.
  - intros D. destruct (V 4%nat _ _ Hempty eq_refl (run' _ _ D) ltac:(discriminate) eq_refl)
      as (x & Hx & Hty & Hg). eapply stored_vector; eassumption.
  - intros o Ho D. split; [|destruct o; reflexivity].
    destruct (V 3%nat _ (degrees env (n_rotation from)) Hempty eq_refl (run _ _ _ D))
      as (x & Hx & Hty & Hg).
    + cbn [au_op op_type]. rewrite Ho. destruct o; discriminate.
    + reflexivity.
    + unfold au_name, au_type in Hx, Hty. cbn [au_op au_precision op_type] in Hx, Hty.
      rewrite Ho in Hx, Hty. cbn [rotateTypeOf] in Hx, Hty.
      eapply stored_vector; [exact Hx | | exact Hg].
      rewrite Hty. destruct o; reflexivity.
Qed.

End ReadBack.


Section Defaults.

Variable env : Env.

(** X24.  For a node at its defaults with nothing animated the exporter's
    copyAttributes clears the op order, sets whether the stack is reset,
    and does nothing else: no op, no attribute, no value, no visibility
    and no registration with the animation translator. *)
Theorem export_of_defaults (from : TransformNode) (params : ExporterParams) (to : UsdPrim) :
  atDefaults from = true ->
  m_extensiveAnimationCheck params = false ->
  (forall plug, animationCheck (m_animTranslator params) plug = false) ->
  copyAttributes env from params to =
    Some (kSuccess,
          mkExport (mkPrim (prim_attrs to) [] (negb (n_inheritsTransform from)) (value_edits to))
            None []).
Proof.
  unfold atDefaults. intros Hd He Ha.
  repeat (apply andb_true_iff in Hd as [Hd ?]).
  unfold copyAttributes. rewrite He, !Ha.
  repeat match goal with
         | H : _ = true |- _ => rewrite H; clear H
         end.
  reflexivity.
Qed.

End Defaults.

Section Matched.

Variable env : Env.

Lemma twin_enters run name v :
  enters (mkAuthoring run (mkOp TypeTranslate name true) PrecisionFloat None) =
  enters (mkAuthoring run (mkOp TypeTranslate name false) PrecisionFloat v).
Proof. reflexivity. Qed.

Lemma entered_matches from params ta :
  let ops := entered (exportPlan env from params ta) in
  ops = [] \/ Run.matchingSubstack MayaStack ops <> [].
Proof.
  cbv zeta. unfold entered, exportPlan. cbv zeta. cbn [flat_map].
  rewrite (twin_enters _ Tokens.rotatePivot (Some (VVec (n_rotatePivot from)))).
  rewrite (twin_enters _ Tokens.scalePivot (Some (VVec (n_scalePivot from)))).
  assert (inv : forall c n x,
            enters (mkAuthoring c (mkOp TypeInvalid n false) PrecisionFloat x) = false).
  { intros. unfold enters. cbn. rewrite andb_false_r. reflexivity. }
  destruct (n_rotateOrder from) as [o|]; cbn [rotateTypeOf]; [|rewrite inv];
    repeat match goal with
           | |- context [if enters ?a then _ else _] =>
               generalize (enters a); intros []
           end;
    try destruct o; cbn [app au_op rotateOpType];
    (left; reflexivity) || (right; vm_compute; discriminate).
Qed.

End Matched.

Local Open Scope Z_scope.

(** What the exporter writes, the engine binds as a prim of the Maya
    schema. *)
Lemma exported_prim_binds (env : Env) (from : TransformNode)
    (params : ExporterParams) (to : UsdPrim) (r : MStatus * Export)
    (readFromPrim : bool) (s : TransformationMatrix) :
  copyAttributes env from params to = Some r ->
  m_prim s = Some (e_prim (snd r)) ->
  let s' := initialiseToPrim Run.env readFromPrim s in
  has_flag (m_flags s') kFromMayaSchema = true /\
  m_xformops s' = xformOpOrder (e_prim (snd r)) /\
  aligned s'.
Proof.
  intros H Hs s'. subst s'.
  destruct (copyAttributes_prim env from params to r H) as (_ & ta & Hp).
  destruct (authorAll_order (m_timeCode params) (exportPlan env from params ta)
              (cleared from to) (exportPlan_ok env from params ta)) as [Ho _].
  { apply forallb_forall. intros a _. reflexivity. }
  cbn [cleared xformOpOrder app] in Ho. rewrite <- Hp in Ho.
  set (p := e_prim (snd r)) in *.
  rewrite (initialiseToPrim_eq Run.env _ p) by exact Hs.
  set (s2 := matchSchema Run.env p s).
  destruct (lockIfAnimated_fields (initialiseLoop Run.env readFromPrim s2)) as (_ & Lx & Lo).
  destruct (initialiseLoop_frame Run.env readFromPrim s2) as (_ & Ax & Ao). cbv zeta in Ax, Ao.
  destruct (matchSchema_fields Run.env p s) as [_ Mx]. fold s2 in Mx.
  destruct (matchSchema_eq Run.env p s) as [Mf Mo]. fold s2 in Mf, Mo.
  unfold aligned. rewrite Lx, Lo, Ax, Ao, Mx.
  unfold kFromMayaSchema. rewrite has_flag_bit by lia.
  rewrite (schema_bit_kept Run.env readFromPrim s2 9) by lia.
  destruct (entered_matches env from params ta) as [E|E]; cbv zeta in E; rewrite <- Ho in E.
  - rewrite E in *. rewrite Mf, Mo. split; [|split; [reflexivity | constructor]].
    rewrite testbit_set_flag. flag_bits. rewrite ?orb_true_r. reflexivity.
  - destruct (xformOpOrder p) as [|o ops] eqn:Eo.
    { exfalso. apply E. reflexivity. }
    rewrite <- Eo in *. 
    assert (R : matchStacks Run.env stackFlagPairs (xformOpOrder p) []
                  (inheritFlags p (m_flags s)) =
                (Run.matchingSubstack MayaStack (xformOpOrder p),
                 set_flag (inheritFlags p (m_flags s)) kFromMayaSchema)).
    { unfold stackFlagPairs. cbn [matchStacks].
      change (MatchingSubstack Run.env) with Run.matchingSubstack.
      destruct (Run.matchingSubstack MayaStack (xformOpOrder p)); [contradiction | reflexivity]. }
    rewrite Eo in Mf, Mo. rewrite <- Eo in Mf, Mo. rewrite R in Mf, Mo. cbn [fst snd] in Mf, Mo.
    rewrite Mf, Mo. split; [|split; [reflexivity|]].
    + rewrite testbit_set_flag. flag_bits. rewrite ?orb_true_r. reflexivity.
    + destruct (matchingSubstack_all_or_nothing MayaStack (xformOpOrder p)) as [N|A];
        [contradiction | exact A].
Qed.

Section Importer.

Variable env : Env.

(** X26.  Importer, exporter and engine agree on rotation orders:
    convertRotationOrder gives back the order from which insertRotateOp
    and addRotateOp choose the type of a rotate op, and the order of every
    rotation that readRotation decodes is the one convertRotationOrder
    gives for the type of the op (XYZ for the single-axis types). *)
Theorem rotation_orders_agree :
  (forall o, convertRotationOrder (rotateOpType o) = o) /\
  (forall o p name v time attr p',
     addRotateOp p name (Some o) v time = (Some attr, p') ->
     exists op, last (xformOpOrder p') = Some op /\ convertRotationOrder (op_type op) = o) /\
  (forall p op timeCode e,
     readRotation env p op timeCode = Some e -> order e = convertRotationOrder (op_type op)).
Proof.
  split; [intros []; reflexivity|]. split.
  - intros o p name v time attr p' H. unfold addRotateOp in H.
    assert (E : exists t, convertRotationOrder t = o /\
              match Usd.AddXformOp p t PrecisionFloat name false with
              | Some (op, p1) =>
                  (Some (Usd.opAttrName op), snd (Usd.SetAs kVec3f p1 op (VVec v) time))
              | None => (None, p)
              end = (Some attr, p')).
    { destruct o; eexists; (split; [|exact H]); reflexivity. }
    clear H. destruct E as (t & Ht & H).
    destruct (Usd.AddXformOp p t PrecisionFloat name false) as [[op p1]|] eqn:Ea; [|discriminate].
    destruct (AddXformOp_keeps _ _ _ _ _ _ _ Ea) as (-> & Ho & _).
    injection H as _ <-. exists (mkOp t name false). split; [|exact Ht].
    destruct (SetAs_frame kVec3f p1 (mkOp t name false) (VVec v) time) as (A & _).
    cbv zeta in A. rewrite A, Ho. apply last_snoc.
  - intros p op timeCode e. unfold readRotation.
    destruct (op_type op); cbn [rotationOrderOf]; try discriminate;
      try (intros [= <-]; reflexivity);
      destruct (readVector env p op timeCode); try discriminate; intros [= <-]; reflexivity.
Qed.

(** X27.  getAnimationVariables returns true exactly when it knows no
    attribute for the role, the only case in which the attribute list is
    empty. It knows every role of the Maya stack and of the single-pivot
    stack and not the transform role of the matrix stack, and it changes
    the conversion factor (to one degree in radians) only for the roles
    rotate and rotateAxis. *)
Theorem getAnimationVariables_roles (oneDegree : Q) :
  (forall opIt factor,
     let r := getAnimationVariables oneDegree opIt factor in
     (fst (fst r) = true <-> snd (fst r) = []) /\
     (snd r = factor \/
      snd r = oneDegree /\ (GetName opIt = Tokens.rotate \/ GetName opIt = Tokens.rotateAxis))) /\
  (forall opIt factor, In opIt (GetOps MayaStack ++ GetOps MayaSinglePivotStack) ->
     fst (fst (getAnimationVariables oneDegree opIt factor)) = false) /\
  (forall opIt factor, In opIt (GetOps MatrixStack) ->
     fst (fst (getAnimationVariables oneDegree opIt factor)) = true).
Proof.
  split; [|split].
  - intros opIt factor r. subst r. unfold getAnimationVariables.
    repeat match goal with
           | |- context [if String.eqb ?a ?b then _ else _] =>
               destruct (String.eqb_spec a b)
           end; cbn [fst snd]; (split; [split; try discriminate; auto|]); auto.
  - intros opIt factor H. cbn in H.
    repeat (destruct H as [<-|H]; [reflexivity|]). contradiction.
  - intros opIt factor H. cbn in H.
    repeat (destruct H as [<-|H]; [reflexivity|]). contradiction.
Qed.

End Importer.

Section ExportBind.

Variable env : Env.

Lemma exportPlan_NoDup from params ta : NoDup (map au_op (exportPlan env from params ta)).
Proof.
  apply NoDup_ListNoDup. unfold exportPlan. cbv zeta. cbn [map au_op].
  destruct (n_rotateOrder from) as [[| | | | |]|]; cbn [rotateTypeOf rotateOpType];
    repeat constructor; cbn [In]; intuition discriminate.
Qed.

(** No other op of the export writes the vector of a vector role. *)
Lemma exportPlan_alone from params ta x y :
  In x (map au_op (exportPlan env from params ta)) ->
  In y (map au_op (exportPlan env from params ta)) ->
  x <> y ->
  hostVector (op_suffix y) identityComponents <> None -> op_inverse y = false ->
  op_inverse x = true \/ writesVectorOf (roleName x) (roleName y) = false.
Proof.
  unfold exportPlan. cbv zeta. cbn [map au_op In].
  intros Hx Hy Hne Hrole Hinv.
  repeat (destruct Hy as [<-|Hy]; [|]); try contradiction;
    try discriminate Hinv;
    try (exfalso; apply Hrole; reflexivity);
    repeat (destruct Hx as [<-|Hx]; [|]); try contradiction;
    try (exfalso; apply Hne; reflexivity);
    try (left; reflexivity); right; vm_compute; reflexivity.
Qed.


Lemma roleName_suffix op : op_suffix op <> EmptyString -> roleName op = op_suffix op.
Proof.
  intros H. unfold roleName. destruct (String.eqb_spec (op_suffix op) EmptyString); [contradiction|].
  reflexivity.
Qed.

(** One vector of the node, from the export to the host value of the
    engine. *)
Lemma bind_component from params to r s (k : nat) a v ta :
  copyAttributes env from params to = Some r ->
  e_prim (snd r) = authorAll (m_timeCode params) (exportPlan env from params ta) (cleared from to) ->
  prim_attrs to = ∅ ->
  getTimeCode s = m_timeCode params ->
  exportPlan env from params ta !! k = Some a ->
  au_run a = true -> au_value a = Some (VVec v) -> au_type a = kVec3f ->
  op_inverse (au_op a) = false -> op_suffix (au_op a) <> EmptyString ->
  hostVector (op_suffix (au_op a)) identityComponents <> None ->
  hostVector (op_suffix (au_op a))
    (values (setPrimInternal Run.env (Some (e_prim (snd r))) false s)) = Some v.
Proof.
  intros H Hp Hempty Htime Hk Hrun Hval Hty Hinv Hsuf Hrole.
  set (p := e_prim (snd r)) in *.
  set (plan := exportPlan env from params ta) in *.
  assert (Hvalid : op_type (au_op a) <> TypeInvalid).
  { intros E. unfold au_type in Hty. rewrite E in Hty. discriminate. }
  (* the op order of the prim *)
  destruct (authorAll_order (m_timeCode params) plan (cleared from to)
              (exportPlan_ok env from params ta)) as [Ho _].
  { apply forallb_forall. intros b _. reflexivity. }
  cbn [cleared xformOpOrder app] in Ho. rewrite <- Hp in Ho.
  (* the value in the attribute *)
  destruct (exportPlan_value Run.env env from params ta to k a (VVec v) Hempty Hk Hrun Hvalid Hval)
    as (x & Hx & Hxt & Hg).
  fold plan in Hx. rewrite <- Hp in Hx.
  assert (Hread : readVector Run.env p (au_op a) (getTimeCode s) = Some v).
  { rewrite Htime. eapply stored_vector; [exact Hx | congruence | exact Hg]. }
  (* the op is in the order *)
  assert (Hin : In (au_op a) (xformOpOrder p)).
  { rewrite Ho. apply In_entered. exists a. split; [|split; [|reflexivity]].
    - apply list_elem_of_In. eapply list_elem_of_lookup_2, Hk.
    - unfold enters. rewrite Hrun.
      destruct (op_type (au_op a)); try reflexivity. contradiction. }
  apply list_elem_of_In, list_elem_of_lookup in Hin as [i Hi].
  (* the lists of the engine *)
  pose (s0 := set_fromUsd identityComponents
                (mkTM (values s) zeroTweaks (fromUsd s) (Some p) (m_time s) (m_xformops s)
                   (m_orderedOps s) (m_orderedOpMayaIndices s) zeroVec
                   (Z.land (m_flags s) kPreservationMask)
                   (translateLocked s) (rotateLocked s) (scaleLocked s))).
  destruct (exported_prim_binds env from params to r true s0 H eq_refl) as (_ & Bx & Ba).
  cbv zeta in Bx, Ba. fold p in Bx.
  assert (Lx : m_xformops (setPrimInternal Run.env (Some p) false s) = xformOpOrder p)
    by exact Bx.
  assert (La : Forall2 corresponds (xformOpOrder p)
                 (m_orderedOps (setPrimInternal Run.env (Some p) false s))).
  { unfold aligned in Ba. rewrite Bx in Ba. exact Ba. }
  destruct (Forall2_lookup_l _ _ _ _ _ La Hi) as (c & Hc & [Cn Ci]).
  rewrite roleName_suffix in Cn by exact Hsuf.
  assert (NoDup (xformOpOrder p)) as Hnd.
  { rewrite Ho. eapply sublist_NoDup; [apply exportPlan_NoDup | apply entered_sublist]. }
  rewrite Cn.
  apply (setPrimInternal_reads Run.env s p i (au_op a) c v).
  - rewrite Lx. exact Hi.
  - exact Hc.
  - congruence.
  - rewrite <- Cn. eapply hostVector_role, Hrole.
  - intros j d Hj Hne.
    destruct (Forall2_lookup_r _ _ _ _ _ La Hj) as (y & Hy & [Yn Yi]).
    rewrite <- Cn, <- Yn, <- Yi, <- (roleName_suffix (au_op a)) by exact Hsuf.
    assert (In_plan : forall z (n : nat), xformOpOrder p !! n = Some z -> In z (map au_op plan)).
    { intros z n Hz. apply list_elem_of_In.
      eapply elem_of_sublist; [eapply list_elem_of_lookup_2, Hz|].
      rewrite Ho. apply entered_sublist. }
    apply (exportPlan_alone from params ta y (au_op a)).
    + eapply In_plan, Hy.
    + eapply In_plan, Hi.
    + intros E. subst y. apply Hne. eapply NoDup_lookup; eauto.
    + exact Hrole.
    + exact Hinv.
  - exact Hread.
Qed.


(** X25.  Export then bind: when a node is exported to a prim without
    attributes and the engine is bound to the result (not while reading a
    file, reading at the time of the export), the engine takes the prim
    for the Maya schema, holds its op order with a classification of the
    role of every op, and its host translation, pivots, pivot translates
    and scale equal those of the node wherever they differ from the
    defaults. *)
Theorem export_then_bind (from : TransformNode) (params : ExporterParams) (to : UsdPrim)
    (r : MStatus * Export) (s : TransformationMatrix) :
  copyAttributes env from params to = Some r ->
  prim_attrs to = ∅ ->
  getTimeCode s = m_timeCode params ->
  let p := e_prim (snd r) in
  let s' := setPrimInternal Run.env (Some p) false s in
  has_flag (m_flags s') kFromMayaSchema = true /\
  m_xformops s' = xformOpOrder p /\
  aligned s' /\
  (differs (n_translation from) zeroVec = true ->
   c_translation (values s') = n_translation from) /\
  (differs (n_rotatePivotTranslate from) zeroVec = true ->
   c_rotatePivotTranslation (values s') = n_rotatePivotTranslate from) /\
  (differs (n_rotatePivot from) zeroVec = true ->
   c_rotatePivot (values s') = n_rotatePivot from) /\
  (differs (n_scalePivotTranslate from) zeroVec = true ->
   c_scalePivotTranslation (values s') = n_scalePivotTranslate from) /\
  (differs (n_scalePivot from) zeroVec = true ->
   c_scalePivot (values s') = n_scalePivot from) /\
  (differs (n_scale from) oneVec = true ->
   c_scale (values s') = n_scale from).
Proof.
  intros H Hempty Htime p s'.
  destruct (copyAttributes_prim env from params to r H) as (_ & ta & Hp).
  pose (s0 := set_fromUsd identityComponents
                (mkTM (values s) zeroTweaks (fromUsd s) (Some p) (m_time s) (m_xformops s)
                   (m_orderedOps s) (m_orderedOpMayaIndices s) zeroVec
                   (Z.land (m_flags s) kPreservationMask)
                   (translateLocked s) (rotateLocked s) (scaleLocked s))).
  destruct (exported_prim_binds env from params to r true s0 H eq_refl) as (Bf & Bx & Ba).
  split; [exact Bf|]. split; [exact Bx|]. split; [exact Ba|].
  pose proof (fun k a v => bind_component from params to r s k a v ta H Hp Hempty Htime) as B.
  assert (run : forall a b c, c = true -> a || b || c = true)
    by (intros; subst; rewrite orb_true_r; reflexivity).
  assert (run' : forall b c, c = true -> b || c = true)
    by (intros; subst; rewrite orb_true_r; reflexivity).
  assert (get : forall (x y : MVector), Some x = Some y -> x = y) by (intros x y [= E]; exact E).
  split; [|split; [|split; [|split; [|split]]]]; intros D; apply get.
  - apply (B 0%nat _ _ eq_refl (run _ _ _ D) eq_refl eq_refl eq_refl); discriminate.
  - apply (B 1%nat _ _ eq_refl (run' _ _ D) eq_refl eq_refl eq_refl); discriminate.
  - apply (B 2%nat _ _ eq_refl (run' _ _ D) eq_refl eq_refl eq_refl); discriminate.
  - apply (B 6%nat _ _ eq_refl (run' _ _ D) eq_refl eq_refl eq_refl); discriminate.
  - apply (B 7%nat _ _ eq_refl (run' _ _ D) eq_refl eq_refl eq_refl); discriminate.
  - apply (B 9%nat _ _ eq_refl (run _ _ _ D) eq_refl eq_refl eq_refl); discriminate.
Qed.

End ExportBind.

End ExportBlocks.

(** *** Array conversion and the mapping of prims to nodes *)

Section ArrayConversion.
Local Close Scope Q_scope.

Section ConvertFacts.

Variable to_float : Q -> Q.

Lemma convertFrom_spec (n i : nat) input output :
  (4 * (i + n) <= length input)%nat -> (3 * (i + n) <= length output)%nat ->
  exists out,
    Utils.convertFrom to_float i n input output = Some out /\
    length out = length output /\
    (forall j, (j < 3 * i)%nat \/ (3 * (i + n) <= j)%nat -> out !! j = output !! j) /\
    (forall k c, (i <= k < i + n)%nat -> (c < 3)%nat ->
       out !! (3 * k + c)%nat = to_float <$> input !! (4 * k + c)%nat).
Proof.
  revert i output. induction n as [|n IH]; intros i output Hi Ho; cbn [Utils.convertFrom].
  - exists output. repeat split; auto. intros; lia.
  - destruct (lookup_lt_is_Some_2 input (i * 4)%nat ltac:(lia)) as [x Hx].
    destruct (lookup_lt_is_Some_2 input (i * 4 + 1)%nat ltac:(lia)) as [y Hy].
    destruct (lookup_lt_is_Some_2 input (i * 4 + 2)%nat ltac:(lia)) as [z Hz].
    rewrite Hx, Hy, Hz. destruct (decide (i * 3 + 2 < length output)%nat) as [_|]; [|lia].
    set (o1 := <[(i * 3 + 2)%nat := to_float z]>
                 (<[(i * 3 + 1)%nat := to_float y]> (<[(i * 3)%nat := to_float x]> output))).
    assert (L1 : length o1 = length output) by (subst o1; rewrite !length_insert; reflexivity).
    destruct (IH (S i) o1) as (out & E & L & Hout & Hin); [lia | lia |].
    exists out. split; [exact E|]. split; [congruence|]. split.
    + intros j Hj. rewrite Hout by lia. subst o1.
      rewrite !list_lookup_insert_ne by lia. reflexivity.
    + intros k c Hk Hc. destruct (decide (k = i)) as [->|Hne]; [|apply Hin; lia].
      rewrite Hout by lia. subst o1.
      assert (c = 0 \/ c = 1 \/ c = 2)%nat as [-> | [-> | ->]] by lia.
      * rewrite list_lookup_insert_ne, list_lookup_insert_ne by lia.
        replace (3 * i + 0)%nat with (i * 3)%nat by lia.
        replace (4 * i + 0)%nat with (i * 4)%nat by lia.
        rewrite list_lookup_insert_eq by lia. rewrite Hx. reflexivity.
      * rewrite list_lookup_insert_ne by lia.
        replace (3 * i + 1)%nat with (i * 3 + 1)%nat by lia.
        replace (4 * i + 1)%nat with (i * 4 + 1)%nat by lia.
        rewrite list_lookup_insert_eq by (rewrite length_insert; lia). rewrite Hy. reflexivity.
      * replace (3 * i + 2)%nat with (i * 3 + 2)%nat by lia.
        replace (4 * i + 2)%nat with (i * 4 + 2)%nat by lia.
        rewrite list_lookup_insert_eq by (rewrite !length_insert; lia). rewrite Hz. reflexivity.
Qed.

Lemma convertFrom_short (n i : nat) input output :
  (0 < n)%nat ->
  (length input < 4 * (i + n) - 1)%nat \/ (length output < 3 * (i + n))%nat ->
  Utils.convertFrom to_float i n input output = None.
Proof.
  revert i output. induction n as [|n IH]; intros i output Hn Hl; [lia|].
  cbn [Utils.convertFrom].
  destruct (input !! (i * 4)%nat) as [x|] eqn:Hx; [|reflexivity].
  destruct (input !! (i * 4 + 1)%nat) as [y|] eqn:Hy; [|reflexivity].
  destruct (input !! (i * 4 + 2)%nat) as [z|] eqn:Hz; [|reflexivity].
  destruct (decide (i * 3 + 2 < length output)%nat) as [Ho|]; [|reflexivity].
  apply lookup_lt_Some in Hz.
  destruct n as [|n]; [lia|].
  apply IH; [lia|]. rewrite !length_insert. lia.
Qed.

(** X28.  With count vectors of four doubles in the input and room for
    count vectors of three floats in the output,
    convertDoubleVec4ArrayToFloatVec3Array writes the first three
    components of every input vector, narrowed to float, to the output
    vector of the same index, drops the fourth, and leaves the length of
    the output and everything beyond the count vectors unchanged. With
    count > 0 and an input shorter than 4*count-1 or an output shorter
    than 3*count it accesses an array out of bounds. *)
Theorem convertDoubleVec4ArrayToFloatVec3Array_spec (input output : list Q) (count : nat) :
  ((4 * count <= length input)%nat -> (3 * count <= length output)%nat ->
   exists out,
     Utils.convertDoubleVec4ArrayToFloatVec3Array to_float input output count = Some out /\
     length out = length output /\
     (forall k c, (k < count)%nat -> (c < 3)%nat ->
        out !! (3 * k + c)%nat = to_float <$> input !! (4 * k + c)%nat) /\
     (forall j, (3 * count <= j)%nat -> out !! j = output !! j)) /\
  ((0 < count)%nat ->
   (length input < 4 * count - 1)%nat \/ (length output < 3 * count)%nat ->
   Utils.convertDoubleVec4ArrayToFloatVec3Array to_float input output count = None).
Proof.
  split.
  - intros Hi Ho. unfold Utils.convertDoubleVec4ArrayToFloatVec3Array.
    destruct (convertFrom_spec count 0 input output Hi Ho) as (out & E & L & Hout & Hin).
    exists out. split; [exact E|]. split; [exact L|]. split.
    + intros k c Hk Hc. apply Hin; lia.
    + intros j Hj. apply Hout. right. lia.
  - unfold Utils.convertDoubleVec4ArrayToFloatVec3Array.
    intros Hc Hl. apply convertFrom_short; [exact Hc|]. simpl. lia.
Qed.

End ConvertFacts.



Lemma replace_removes from to s :
  from <> to -> occurs from (PrimMapping.replace from to s) = false.
Proof.
  intros H. induction s as [|c s IH]; simpl; [reflexivity|]. rewrite IH, orb_false_r.
  destruct (Ascii.eqb_spec c from) as [->|Hc].
  - apply Ascii.eqb_neq. congruence.
  - apply Ascii.eqb_neq. exact Hc.
Qed.

Lemma replace_length from to s :
  String.length (PrimMapping.replace from to s) = String.length s.
Proof. induction s as [|c s IH]; simpl; congruence. Qed.

(** X29.  mapUsdPrimToMayaNode restores the edit target of the stage and
    touches no custom data but MayaPath of the session layer. For an
    invalid prim it returns the empty string and changes nothing; for a
    valid prim it stores the returned path under MayaPath in the session
    layer: the full path name of the Maya object, or, when the DAG path is
    empty and a proxy shape is given, the proxy shape's path followed by
    the prim path with every '/' turned into '|'. *)
Theorem mapUsdPrimToMayaNode_spec (valid : bool) (st : PrimMapping.Stage)
    (fullPathName : string) (dagLength : nat) (proxyShapeNode : option string)
    (primPath : string) :
  let r := PrimMapping.mapUsdPrimToMayaNode valid st fullPathName dagLength proxyShapeNode
             primPath in
  let session := PrimMapping.sessionLayer st in
  PrimMapping.editTarget (snd r) = PrimMapping.editTarget st /\
  PrimMapping.sessionLayer (snd r) = session /\
  (forall k, k <> (session, PrimMapping.mayaPathAttributeName) ->
     PrimMapping.customData (snd r) !! k = PrimMapping.customData st !! k) /\
  (valid = false -> r = (EmptyString, st)) /\
  (valid = true ->
   PrimMapping.customData (snd r) !! (session, PrimMapping.mayaPathAttributeName) =
     Some (fst r) /\
   (forall proxy, dagLength = O -> proxyShapeNode = Some proxy ->
      fst r = PrimMapping.replace "/" "|" (String.append proxy primPath) /\
      String.length (fst r) = String.length (String.append proxy primPath) /\
      occurs "/" (fst r) = false) /\
   (dagLength <> O \/ proxyShapeNode = None -> fst r = fullPathName)).
Proof.
  cbv zeta. unfold PrimMapping.mapUsdPrimToMayaNode.
  destruct valid; cbn [negb].
  2:{ repeat split; auto; discriminate. }
  cbn [snd fst PrimMapping.SetEditTarget PrimMapping.SetCustomDataByKey
       PrimMapping.editTarget PrimMapping.sessionLayer PrimMapping.customData].
  split; [reflexivity|]. split; [reflexivity|]. split.
  { intros k Hk. apply lookup_insert_ne. congruence. }
  split; [discriminate|]. intros _. split; [apply lookup_insert_eq|]. split.
  - intros proxy -> ->. split; [reflexivity|]. split; [apply replace_length|].
    apply replace_removes. discriminate.
  - intros [Hd|Hp].
    + destruct dagLength; [contradiction|reflexivity].
    + rewrite Hp. destruct dagLength; reflexivity.
Qed.

End ArrayConversion.

(** ** The engine on concrete prims *)

Import Scenario.

Lemma all_Qeq_spec a b : all_Qeq a b = true <-> Forall2 Qeq a b.
Proof.
  revert b. induction a as [|x a IH]; intros [|y b]; simpl.
  - split; [constructor | reflexivity].
  - split; [discriminate | intros H; inversion H].
  - split; [discriminate | intros H; inversion H].
  - rewrite andb_true_iff, IH. split.
    + intros [E F]. constructor; [apply Qeq_bool_iff, E | exact F].
    + intros H. inversion H; subst. split; [apply Qeq_bool_iff; assumption | assumption].
Qed.

Lemma alignedb_aligned s : alignedb (m_xformops s) (m_orderedOps s) = true -> aligned s.
Proof.
  unfold aligned. generalize (m_xformops s) (m_orderedOps s).
  induction l as [|op ops IH]; intros [|c classes]; simpl; try discriminate; [constructor|].
  intros H. apply andb_true_iff in H as [H1 H2]. constructor; [|apply IH, H2].
  apply andb_true_iff in H1 as [Hn Hi].
  split; [apply String.eqb_eq, Hn | apply Bool.eqb_prop, Hi].
Qed.

(** The single-pivot prim, its pivot at (1,2,3), bound with push-to-prim
    enabled: the stack is translate, pivot, rotate, scale, inverse pivot
    and both host pivots read (1,2,3).  After [setScalePivot (4,5,6)] the
    stack is translate, rotatePivot, rotate, inverse rotatePivot,
    scalePivot, scale, inverse scalePivot, in the engine and in the op
    order of the prim. *)
Lemma pivot_split_order :
  let r := setScalePivot Run.env (vec 4 5 6) kTransform false pivotState in
  let s' := snd r in
  (map GetName (m_orderedOps pivotState) =
     [Tokens.translate; Tokens.pivot; Tokens.rotate; Tokens.scale; Tokens.pivot] /\
   c_rotatePivot (values pivotState) = vec 1 2 3 /\
   c_scalePivot (values pivotState) = vec 1 2 3 /\
   pushToPrimAvailable pivotState = true) /\
  fst r = kSuccess /\
  m_xformops s' = newStack /\
  m_orderedOps s' =
    [ mkClass Tokens.translate TypeTranslate false;
      mkClass Tokens.rotatePivot TypeTranslate false;
      mkClass Tokens.rotate TypeRotateXYZ false;
      mkClass Tokens.rotatePivot TypeTranslate true;
      mkClass Tokens.scalePivot TypeTranslate false;
      mkClass Tokens.scale TypeScale false;
      mkClass Tokens.scalePivot TypeTranslate true ] /\
  existsb (fun c => String.eqb (GetName c) Tokens.pivot) (m_orderedOps s') = false /\
  c_rotatePivot (values s') = vec 1 2 3 /\
  c_scalePivot (values s') = vec 4 5 6 /\
  match m_prim s' with
  | Some p' =>
      xformOpOrder p' = newStack /\
      readPoint Run.env p' rotatePivotOp Default = Some (vec 1 2 3) /\
      readPoint Run.env p' scalePivotOp Default = Some (vec 4 5 6)
  | None => False
  end.
Proof. vm_compute. repeat split. Qed.


(** A second pass over the single-pivot prim changes nothing. *)
Lemma pushToPrim_twice_pivot :
  forget (pushToPrim Run.env (pushToPrim Run.env pivotState)) =
  forget (pushToPrim Run.env pivotState).
Proof.
  apply pushToPrim_twice.
  - apply alignedb_aligned. reflexivity.
  - unfold distinct_attributes. apply NoDup_ListNoDup.
    vm_compute. repeat constructor; simpl; intuition discriminate.
Defined.

(** C3.  What the code does where the claim expects a comparison with the
    stored value: [pushDouble] compares with the value at the default
    time and stores at the time it is given.  On a double rotateX op with
    default 10 and the sample 20 at time 1, pushing 20 at time 1 performs
    a store although 20 is what the op holds at time 1; with default 20
    and the sample 10 at time 1, pushing 20 at time 1 stores nothing and
    the op keeps 10 at time 1. *)
Theorem pushDouble_compares_with_default_time :
  (let p := rotateXPrim 10 20 in
   Usd.Get Run.held p rotateXOp (TimeCode 1) = Some (VScalar 20) /\
   value_edits (pushDouble Run.env 20 rotateXOp (TimeCode 1) p) = S (value_edits p)) /\
  (let p := rotateXPrim 20 10 in
   Usd.Get Run.held p rotateXOp (TimeCode 1) = Some (VScalar 10) /\
   pushDouble Run.env 20 rotateXOp (TimeCode 1) p = p).
Proof. vm_compute. repeat split. Qed.

(** C1, where the claim fails.  Six set calls made with push-to-prim
    unavailable.  (1) A rotate-orientation setter on the bound prim: the
    orientation tweak is not the host value minus the from-source value,
    and the host value is not the from-source value plus the tweak.
    (2) [translateTo] on the engine that the constructor without a prim
    leaves, its translate plug locked: the call returns and the tweak
    stays 0 while the host translation is 0 and the from-source
    translation (0.1, 0.2, 0.3).  (3) The same call, not locked, that the
    base class rejects: the tweak stays 0 again.  (4) [translateTo
    (1,0,0)] on a prim whose translation is 10^16 along x: the tweak is
    the double of 1 - 10^16, which is -10^16, and the from-source value
    plus the tweak is 0, not the host value 1.  (5) [translateTo] on the
    constructed engine, carried out: the scale has the host value 1, the
    from-source value 1.1 and the tweak 0.  (6) [setScalePivot] with
    balance on the bound prim, with a base class that balances: the host
    scale-pivot translation moves, its tweak and its from-source value
    stay, and the relation that held before the call is lost. *)
Lemma set_calls_break_bookkeeping :
  (let s := readOnlyState in
   let s' := snd (setComponent Run.env
                    (SetRotateOrientationQuat (mkMQuat 1 0 0 0) kTransform false) s) in
   pushToPrimAvailable s = false /\
   ~ tweak_is_delta Run.env RotateOrientation s' /\
   ~ tweak_invariant Run.env RotateOrientation s') /\
  (let s := set_locks true false false unboundState in
   let call := TranslateTo (vec 1 2 3) kTransform in
   let s' := snd (setComponent Run.env call s) in
   pushToPrimAvailable s = false /\ lockedFor call s = true /\
   ~ tweak_is_delta Run.env Translation s' /\ ~ tweak_invariant Run.env Translation s') /\
  (let s := unboundState in
   let call := TranslateTo (vec 1 2 3) kInvalid in
   let r := setComponent Run.env call s in
   pushToPrimAvailable s = false /\ lockedFor call s = false /\ fst r = kFailure /\
   ~ tweak_is_delta Run.env Translation (snd r) /\
   ~ tweak_invariant Run.env Translation (snd r)) /\
  (let s := farState in
   let call := TranslateTo (vec 1 0 0) kTransform in
   let r := setComponent Run.env call s in
   pushToPrimAvailable s = false /\ lockedFor call s = false /\ fst r = kSuccess /\
   c_translation (values (snd r)) = vec 1 0 0 /\
   c_translation (fromUsd (snd r)) = vec 10000000000000000 0 0 /\
   c_translation (tweaks (snd r)) = vec (-10000000000000000) 0 0 /\
   tweak_is_delta Run.env Translation (snd r) /\
   ~ tweak_invariant Run.env Translation (snd r)) /\
  (let s := unboundState in
   let call := TranslateTo (vec 1 2 3) kTransform in
   let r := setComponent Run.env call s in
   pushToPrimAvailable s = false /\ lockedFor call s = false /\ fst r = kSuccess /\
   ~ tweak_invariant Run.env Scale (snd r)) /\
  (let s := readOnlyState in
   let call := SetScalePivot (vec 4 5 6) kTransform true in
   let r := setComponent Run.balancingEnv call s in
   pushToPrimAvailable s = false /\ fst r = kSuccess /\
   tweak_invariant Run.balancingEnv ScalePivotTranslation s /\
   ~ tweak_invariant Run.balancingEnv ScalePivotTranslation (snd r)).
Proof.
  repeat split; try reflexivity;
    try (unfold tweak_is_delta; vm_compute; discriminate);
    try (unfold tweak_invariant; intros H; apply all_Qeq_spec in H; vm_compute in H;
         discriminate H).
  unfold tweak_invariant. apply all_Qeq_spec. vm_compute. reflexivity.
Qed.

(** C4, where the claim fails.  The prim has a translate op with the
    samples (1,0,0) at time 1 and (2,0,0) at time 2 and no default value;
    binding finds the animation, turns push-to-prim off and the reading of
    animated values on, and leaves the from-source translation at 0.
    (1) [enableReadAnimatedValues(false)], then [translateTo (5,0,0)] and
    [updateToTime 2]: the op is read at the default time, where it has no
    value, and the host translation is (5,0,0), not (2,0,0) plus the
    tweak (5,0,0).  (2) With the translate plug locked, [translateTo]
    returns without an edit, and the host translation at time 2 is
    (2,0,0).  (3) So it is when the base class rejects the call. *)
Lemma time_change_loses_the_edit :
  let claimed (s : TransformationMatrix) :=
    vadd Run.env (vec 2 0 0) (vsub Run.env (vec 5 0 0) (c_translation (fromUsd s))) in
  (let s := enableReadAnimatedValues_flag false animatedState in
   let edited := snd (translateTo Run.env (vec 5 0 0) kTransform s) in
   let advanced := updateToTime Run.env (TimeCode 2) edited in
   pushToPrimAvailable s = false /\ hasAnimatedTranslation s = true /\
   readVector Run.env animatedPrim translateOp (TimeCode 2) = Some (vec 2 0 0) /\
   c_translation (values advanced) = vec 5 0 0 /\
   claimed s = vec 7 0 0 /\
   ~ vx (c_translation (values advanced)) == vx (claimed s)) /\
  (let s := set_locks true false false animatedState in
   let edited := snd (translateTo Run.env (vec 5 0 0) kTransform s) in
   let advanced := updateToTime Run.env (TimeCode 2) edited in
   pushToPrimAvailable s = false /\ hasAnimatedTranslation s = true /\
   readAnimatedValues s = true /\
   c_translation (values advanced) = vec 2 0 0 /\
   ~ vx (c_translation (values advanced)) == vx (claimed s)) /\
  (let s := animatedState in
   let edited := snd (translateTo Run.env (vec 5 0 0) kInvalid s) in
   let advanced := updateToTime Run.env (TimeCode 2) edited in
   pushToPrimAvailable s = false /\ hasAnimatedTranslation s = true /\
   readAnimatedValues s = true /\
   c_translation (values advanced) = vec 2 0 0 /\
   ~ vx (c_translation (values advanced)) == vx (claimed s)).
Proof.
  cbv zeta. repeat split; try (vm_compute; reflexivity); vm_compute; discriminate.
Qed.

Lemma schema_priority_witness :
  m_prim pivotBinding = Some pivotPrim /\
  m_orderedOps (initialiseToPrim Run.env true pivotBinding) =
    Run.matchingSubstack MayaSinglePivotStack (xformOpOrder pivotPrim) /\
  has_flag (m_flags (initialiseToPrim Run.env true pivotBinding)) kSinglePivotSchema = true.
Proof.
  split; [reflexivity|].
  pose proof (schema_priority Run.env true pivotBinding pivotPrim eq_refl) as [_ H].
  vm_compute in H. vm_compute. tauto.
Defined.

Lemma animated_lock_witness :
  let s' := initialiseToPrim Run.env true animatedBinding in
  m_prim animatedBinding = Some animatedPrim /\
  pushToPrimEnabled animatedBinding = true /\
  readAnimatedValues animatedBinding = false /\
  hasAnimatedTranslation s' = true /\
  pushToPrimEnabled s' = false /\ readAnimatedValues s' = true.
Proof.
  intros s'.
  destruct (animated_lock Run.env true animatedBinding animatedPrim eq_refl) as [A B].
  split; [reflexivity|]. split; [reflexivity|]. split; [reflexivity|].
  split.
  - apply (A 0%nat translateOp (mkClass Tokens.translate TypeTranslate false));
      try reflexivity. vm_compute. lia.
  - apply B. reflexivity.
Defined.

Lemma locked_setters_change_nothing_witness :
  isTranslateLocked lockedState = true /\
  translateTo Run.env (vec 1 2 3) kTransform lockedState = (kSuccess, lockedState).
Proof.
  split; [reflexivity|].
  apply (proj1 (locked_setters_change_nothing Run.env lockedState)). reflexivity.
Defined.


Lemma lists_stay_aligned_witness :
  aligned pivotState /\
  aligned (snd (insertOp TypeTransform PrecisionDouble Tokens.shear kPrimHasShear false pivotState)) /\
  aligned (snd (removeOp Tokens.pivot kPrimHasPivot pivotState)).
Proof.
  assert (H : aligned pivotState) by (apply alignedb_aligned; reflexivity).
  split; [exact H|].
  destruct (lists_stay_aligned pivotState H) as [I R]. split.
  - apply (I TypeTransform PrecisionDouble Tokens.shear kPrimHasShear false). discriminate.
  - apply (R Tokens.pivot kPrimHasPivot).
Defined.

Lemma tweak_bookkeeping_witness :
  let call := TranslateTo (vec 5 6 7) kTransform in
  let s' := snd (setComponent Run.env call readOnlyState) in
  pushToPrimAvailable readOnlyState = false /\
  tweak_is_delta Run.env Translation s' /\ fromUsd s' = fromUsd readOnlyState.
Proof.
  intros call s'. split; [reflexivity|].
  destruct (tweak_bookkeeping Run.env call readOnlyState eq_refl) as (_ & _ & D & _).
  apply D; [reflexivity | reflexivity | discriminate].
Defined.

Lemma tweak_survives_time_witness :
  let edited := snd (translateTo Run.env (vec 5 0 0) kTransform animatedState) in
  let advanced := updateToTime Run.env (TimeCode 2) edited in
  pushToPrimAvailable animatedState = false /\
  hasAnimatedTranslation animatedState = true /\
  readVector Run.env animatedPrim translateOp (TimeCode 2) = Some (vec 2 0 0) /\
  c_translation (fromUsd animatedState) = vec 0 0 0 /\
  c_translation (values advanced) = vadd Run.env (vec 2 0 0) (vsub Run.env (vec 5 0 0) (vec 0 0 0)).
Proof.
  intros edited advanced.
  split; [reflexivity|]. split; [reflexivity|]. split; [reflexivity|]. split; [reflexivity|].
  pose proof (proj1 (tweak_survives_time Run.env) animatedState animatedPrim
                (vec 5 0 0) (vec 2 0 0) kTransform (TimeCode 2) 0%nat translateOp
                (mkClass Tokens.translate TypeTranslate false)
                (with_translation (vec 5 0 0) (values animatedState))) as H.
  assert (Hu : forall (j : nat) c, m_orderedOps animatedState !! j = Some c -> j <> 0%nat ->
                           GetName c <> Tokens.translate).
  { intros j c Hj Hne. destruct j as [|j]; [contradiction|]. vm_compute in Hj. discriminate. }
  assert (Ha : aligned animatedState) by (apply alignedb_aligned; reflexivity).
  exact (proj2 (proj2 (H eq_refl Ha eq_refl eq_refl eq_refl eq_refl eq_refl eq_refl eq_refl Hu
                         eq_refl eq_refl eq_refl eq_refl eq_refl))).
Defined.

(** ** The further properties on concrete prims *)

Lemma pushToPrim_brings_to_rest_witness :
  let s' := pushToPrim Run.env pivotState in
  at_rest Translation s' /\ same_frame pivotState s'.
Proof.
  apply (pushToPrim_brings_to_rest Run.env pivotState 0 translateOp
           (mkClass Tokens.translate TypeTranslate false) Translation);
    try (vm_compute; reflexivity).
  - apply alignedb_aligned. reflexivity.
  - vm_compute. auto.
Defined.

Lemma pushToPrim_stores_host_vectors_witness :
  exists p' v', m_prim (pushToPrim Run.env pivotState) = Some p' /\
    readVector Run.env p' translateOp (getTimeCode pivotState) = Some v' /\
    vequiv v' (narrowVector Run.env (Usd.GetTypeName pivotPrim translateOp) (vec 10 0 0)).
Proof.
  apply (pushToPrim_stores_host_vectors Run.env pivotState pivotPrim 0 translateOp
           (mkClass Tokens.translate TypeTranslate false) (vec 10 0 0));
    try (vm_compute; reflexivity).
  - apply alignedb_aligned. reflexivity.
  - unfold distinct_attributes. apply NoDup_ListNoDup.
    vm_compute. repeat constructor; simpl; intuition discriminate.
  - right. reflexivity.
Defined.

Lemma setter_push_brings_to_rest_witness :
  let call := TranslateTo (vec 5 5 5) kTransform in
  let s' := snd (setComponent Run.env call pivotState) in
  componentOf call <> RotateOrientation /\
  at_rest (componentOf call) s' /\
  m_xformops s' = m_xformops pivotState /\ m_orderedOps s' = m_orderedOps pivotState /\
  m_flags s' = m_flags pivotState.
Proof.
  apply (setter_push_brings_to_rest Run.env (TranslateTo (vec 5 5 5) kTransform) pivotState 0
           translateOp (mkClass Tokens.translate TypeTranslate false));
    try (vm_compute; reflexivity).
  - apply alignedb_aligned. reflexivity.
  - vm_compute. auto.
Defined.


Lemma insertOp_keeps_indices_sorted_witness :
  StronglySorted N.le (m_orderedOpMayaIndices (snd (insertTranslateOp barePivotState))).
Proof.
  apply (insertOp_keeps_indices_sorted barePivotState).
  vm_compute. repeat constructor; discriminate.
Defined.

Lemma setter_leaves_other_components_witness :
  let s' := snd (setComponent Run.env (TranslateTo (vec 5 5 5) kTransform) readOnlyState) in
  slot Scale (tweaks s') = slot Scale (tweaks readOnlyState) /\
  slot Scale (fromUsd s') = slot Scale (fromUsd readOnlyState) /\
  (slot Scale (values s') = slot Scale (values readOnlyState) ->
   tweak_invariant Run.env Scale readOnlyState -> tweak_invariant Run.env Scale s').
Proof.
  apply (setter_leaves_other_components Run.env (TranslateTo (vec 5 5 5) kTransform)
           readOnlyState Scale).
  - vm_compute. reflexivity.
  - discriminate.
Defined.

Lemma initialiseToPrim_aligned_witness :
  aligned (initialiseToPrim Run.env true pivotBinding).
Proof.
  apply (initialiseToPrim_aligned Run.env true pivotBinding pivotPrim).
  - exact matchingSubstack_all_or_nothing.
  - reflexivity.
  - right. vm_compute. discriminate.
Defined.

Lemma exported_values_read_back_witness :
  readVector Run.env (Translator.e_prim (snd Samples.result))
    (mkOp TypeTranslate Tokens.translate false)
    (Translator.m_timeCode Samples.plainParams) =
    Some (Translator.n_translation Samples.node).
Proof.
  assert (H : Translator.copyAttributes Run.env Samples.node Samples.plainParams
                Samples.emptyPrim = Some Samples.result)
    by (vm_compute; reflexivity).
  destruct (exported_values_read_back Run.env Samples.node Samples.plainParams
              Samples.emptyPrim Samples.result H eq_refl) as (T & _).
  apply T. vm_compute. reflexivity.
Defined.

Lemma export_of_defaults_witness :
  Translator.copyAttributes Run.env Samples.defaultNode Samples.plainParams Samples.emptyPrim =
    Some (kSuccess, Translator.mkExport (mkPrim ∅ [] false 0) None []).
Proof.
  apply (export_of_defaults Run.env Samples.defaultNode Samples.plainParams Samples.emptyPrim).
  - vm_compute. reflexivity.
  - reflexivity.
  - intros plug. reflexivity.
Defined.

Lemma export_then_bind_witness :
  let s' := setPrimInternal Run.env (Some (Translator.e_prim (snd Samples.result))) false
              (blank 0) in
  has_flag (m_flags s') kFromMayaSchema = true /\
  aligned s' /\
  c_translation (values s') = Translator.n_translation Samples.node.
Proof.
  assert (H : Translator.copyAttributes Run.env Samples.node Samples.plainParams
                Samples.emptyPrim = Some Samples.result)
    by (vm_compute; reflexivity).
  destruct (export_then_bind Run.env Samples.node Samples.plainParams Samples.emptyPrim
              Samples.result (blank 0) H eq_refl eq_refl) as (F & _ & A & T & _).
  split; [exact F|]. split; [exact A|]. apply T. vm_compute. reflexivity.
Defined.

Lemma binding_reads_vectors_witness :
  let c := mkClass Tokens.translate TypeTranslate false in
  let s' := setPrimInternal Run.env (Some pivotPrim) false (blank kPushToPrimEnabled) in
  has_flag (m_flags s') kPrimHasTranslation = true /\
  hostVector (GetName c) (fromUsd s') = Some (vec 10 0 0) /\
  hostVector (GetName c) (values s') = Some (vec 10 0 0).
Proof.
  intros c s'.
  destruct (binding_reads_vectors Run.env (blank kPushToPrimEnabled) pivotPrim 0 translateOp c)
    as [P R]; try (vm_compute; reflexivity).
  split; [apply P; reflexivity|].
  apply (R (vec 10 0 0)).
  - vm_compute. discriminate.
  - intros j d Hj Hne.
    do 5 (destruct j as [|j];
          [try congruence; vm_compute in Hj; injection Hj as <-; vm_compute; auto|]).
    vm_compute in Hj. discriminate.
  - vm_compute. reflexivity.
Defined.
